(** * The in-memory WebDAV lock system of [lock.go]

    A shallow embedding of [memLS] (the lock manager of the [webdav]
    package) and of [parseTimeout], followed by the properties of the
    manager that its specification states.

    Conventions of the embedding.
    - Go strings are [string]s (sequences of bytes).
    - [*memLSNode] pointers are addresses into an arena ([store]); the maps
      [byName], [byToken] and the slice [byExpiry] hold addresses, so that
      the sharing of one node between the three indexes (and the closure
      returned by [Confirm]) is explicit.
    - [time.Time] is an instant without a monotonic clock reading, as the
      number of nanoseconds since the zero time, and [time.Duration] an
      integer number of nanoseconds; [Before] is [<], and [Add] saturates
      as [time.Time.Add] does.
    - A method of [memLS] is a function in the monad [M]: it receives the
      manager state and either returns a value and the new state, or
      aborts ([None]) where the Go code panics or does not return. *)

From Stdlib Require Import ZArith Ascii ZifyNat.
From stdpp Require Import base gmap strings list pretty.

Local Open Scope Z_scope.

(** ** Machine integers *)

(** Go [int] (64 bits, two's complement) and [uint64]. *)
Definition wrap_int (z : Z) : Z := (z + 2 ^ 63) mod 2 ^ 64 - 2 ^ 63.
Definition wrap_uint64 (z : Z) : Z := z mod 2 ^ 64.

(** ** Strings *)

(** [s == t] on strings. *)
Definition streq (s t : string) : bool := bool_decide (s = t).

(** [strings.HasPrefix(s, pre)]. *)
Fixpoint HasPrefix (s pre : string) {struct pre} : bool :=
  match pre with
  | EmptyString => true
  | String c pre' =>
      match s with
      | EmptyString => false
      | String d s' => bool_decide (c = d) && HasPrefix s' pre'
      end
  end.

(** [s[:n]] for [n <= len(s)]. *)
Fixpoint str_take (n : nat) (s : string) : string :=
  match n, s with
  | S n', String c s' => String c (str_take n' s')
  | _, _ => EmptyString
  end.

(** [s[n:]] for [n <= len(s)]. *)
Fixpoint str_drop (n : nat) (s : string) : string :=
  match n, s with
  | S n', String _ s' => str_drop n' s'
  | _, _ => s
  end.

(** [strings.IndexByte(s, c)]: the first index of [c] in [s], or -1. *)
Fixpoint IndexByte (s : string) (c : ascii) : Z :=
  match s with
  | EmptyString => -1
  | String d s' =>
      if bool_decide (d = c) then 0
      else let r := IndexByte s' c in if r <? 0 then -1 else r + 1
  end.

(** [strings.LastIndex(s, "/")] and the like, for a one-byte separator:
    the last index of [c] in [s], or -1. *)
Fixpoint LastIndex (s : string) (c : ascii) : Z :=
  match s with
  | EmptyString => -1
  | String d s' =>
      let r := LastIndex s' c in
      if 0 <=? r then r + 1
      else if bool_decide (d = c) then 0 else -1
  end.

(** ** Errors and results *)

Inductive error : Type :=
  | ErrConfirmationFailed
  | ErrForbidden
  | ErrLocked
  | ErrNoSuchLock
  | errInvalidTimeout.

Inductive result (A : Type) : Type :=
  | Ok (x : A)
  | Err (e : error).
Arguments Ok {A} x.
Arguments Err {A} e.

(** ** Data model *)

Abbreviation Time := Z (only parsing).
Abbreviation Duration := Z (only parsing).
Abbreviation ptr := nat (only parsing).

(** ** Time *)

(** The instants that a [time.Time] holds: it counts the seconds in an
    [int64] and the nanoseconds within the second. *)
Definition time_ok (t : Time) : Prop :=
  - 2 ^ 63 * 10 ^ 9 <= t < 2 ^ 63 * 10 ^ 9.

(** [t.Add(d)]: the duration is split into seconds and nanoseconds, the
    nanoseconds are normalised, and the sum of the seconds saturates at
    the ends of the [int64] range ([addSec]). *)
Definition Add (t : Time) (d : Duration) : Time :=
  let sec := t / 10 ^ 9 in
  let nsec := t mod 10 ^ 9 + Z.rem d (10 ^ 9) in
  let dsec := Z.quot d (10 ^ 9) in
  let dsec := if 10 ^ 9 <=? nsec then dsec + 1
              else if nsec <? 0 then dsec - 1 else dsec in
  let nsec := if 10 ^ 9 <=? nsec then nsec - 10 ^ 9
              else if nsec <? 0 then nsec + 10 ^ 9 else nsec in
  let sum := wrap_int (sec + dsec) in
  let sec' := if Bool.eqb (sec <? sum) (0 <? dsec) then sum
              else if 0 <? dsec then 2 ^ 63 - 1 else - (2 ^ 63 - 1) in
  sec' * 10 ^ 9 + nsec.

Record Condition : Type := mkCondition {
  Not : bool;
  Token : string;
  ETag : string
}.

Record LockDetails : Type := mkLockDetails {
  Root : string;
  LDuration : Duration;
  OwnerXML : string;
  ZeroDepth : bool
}.

(** [LockDetails{}] *)
Definition emptyDetails : LockDetails := mkLockDetails "" 0 "" false.

Record memLSNode : Type := mkNode {
  details : LockDetails;
  token : string;
  refCount : Z;
  expiry : Time;
  byExpiryIndex : Z;
  held : bool
}.

Record memLS : Type := mkLS {
  store : list memLSNode;
  byName : gmap string ptr;
  byToken : gmap string ptr;
  gen : Z;
  byExpiry : list ptr
}.

Definition set_details (d : LockDetails) (n : memLSNode) : memLSNode :=
  mkNode d (token n) (refCount n) (expiry n) (byExpiryIndex n) (held n).
Definition set_token (t : string) (n : memLSNode) : memLSNode :=
  mkNode (details n) t (refCount n) (expiry n) (byExpiryIndex n) (held n).
Definition set_refCount (r : Z) (n : memLSNode) : memLSNode :=
  mkNode (details n) (token n) r (expiry n) (byExpiryIndex n) (held n).
Definition set_expiry (e : Time) (n : memLSNode) : memLSNode :=
  mkNode (details n) (token n) (refCount n) e (byExpiryIndex n) (held n).
Definition set_index (i : Z) (n : memLSNode) : memLSNode :=
  mkNode (details n) (token n) (refCount n) (expiry n) i (held n).
Definition set_held (h : bool) (n : memLSNode) : memLSNode :=
  mkNode (details n) (token n) (refCount n) (expiry n) (byExpiryIndex n) h.
Definition set_duration (d : Duration) (ld : LockDetails) : LockDetails :=
  mkLockDetails (Root ld) d (OwnerXML ld) (ZeroDepth ld).

Definition with_store (st : list memLSNode) (s : memLS) : memLS :=
  mkLS st (byName s) (byToken s) (gen s) (byExpiry s).
Definition with_byName (m : gmap string ptr) (s : memLS) : memLS :=
  mkLS (store s) m (byToken s) (gen s) (byExpiry s).
Definition with_byToken (m : gmap string ptr) (s : memLS) : memLS :=
  mkLS (store s) (byName s) m (gen s) (byExpiry s).
Definition with_gen (g : Z) (s : memLS) : memLS :=
  mkLS (store s) (byName s) (byToken s) g (byExpiry s).
Definition with_byExpiry (b : list ptr) (s : memLS) : memLS :=
  mkLS (store s) (byName s) (byToken s) (gen s) b.

(** [NewMemLS]: both maps empty, [gen] seeded with
    [uint64(time.Now().Unix())]; [unix] is that clock reading. *)
Definition NewMemLS (unix : Z) : memLS :=
  mkLS [] ∅ ∅ (wrap_uint64 unix) [].

(** ** The state monad with abortion *)

Definition M (A : Type) : Type := memLS -> option (A * memLS).

Definition ret {A} (x : A) : M A := fun s => Some (x, s).
Definition bind {A B} (m : M A) (k : A -> M B) : M B :=
  fun s => match m s with
           | Some (x, s') => k x s'
           | None => None
           end.
(** A Go panic: index out of range, nil dereference, explicit [panic]. *)
Definition panic {A} : M A := fun _ => None.
Definition gets {A} (f : memLS -> A) : M A := fun s => Some (f s, s).
Definition modify (f : memLS -> memLS) : M unit := fun s => Some (tt, f s).

Notation "x <- m ;; k" := (bind m (fun x => k))
  (at level 100, m at next level, right associativity).
Notation "m ;;; k" := (bind m (fun _ => k))
  (at level 100, right associativity).

(** [*n]: read the node behind a pointer. *)
Definition load (a : ptr) : M memLSNode :=
  fun s => match store s !! a with
           | Some n => Some (n, s)
           | None => None
           end.
(** [n.field = v]: update the node behind a pointer. *)
Definition update (a : ptr) (f : memLSNode -> memLSNode) : M unit :=
  fun s => match store s !! a with
           | Some n => Some (tt, with_store (<[a := f n]> (store s)) s)
           | None => None
           end.
(** [&memLSNode{...}]: allocate a node. *)
Definition alloc (n : memLSNode) : M ptr :=
  fun s => Some (length (store s), with_store (store s ++ [n]) s).

(** ** walkToRoot *)

(** The body of the loop of [walkToRoot] after the visit: the name of the
    next level, [None] where the slice expression panics (no slash). *)
Definition parentName (name : string) : option string :=
  let i := LastIndex name "/"%char in
  if i <? 0 then None
  else
    let name' := str_take (Z.to_nat i) name in
    Some (if streq name' "" then "/" else name').

(** [walkToRoot(name, f)]. The visitor may update variables it captures;
    they are the accumulator [acc]. Every turn of the loop shortens
    [name], so the loop is given [len(name) + 1] turns. *)
Fixpoint walkToRoot_loop {A} (fuel : nat) (name : string) (first : bool)
    (f : string -> bool -> A -> M (bool * A)) (acc : A) : M (bool * A) :=
  match fuel with
  | O => panic
  | S fuel' =>
      r <- f name first acc ;;
      if negb (fst r) then ret (false, snd r)
      else if streq name "/" then ret (true, snd r)
      else
        match parentName name with
        | None => panic
        | Some name' => walkToRoot_loop fuel' name' false f (snd r)
        end
  end.

Definition walkToRoot {A} (name : string)
    (f : string -> bool -> A -> M (bool * A)) (acc : A) : M (bool * A) :=
  walkToRoot_loop (S (String.length name)) name true f acc.

(** ** The expiry queue: [byExpiry] and [container/heap] *)

(** [l[i]] for a Go [int] index; [None] is the index-out-of-range panic. *)
Definition at_index {A} (l : list A) (i : Z) : option A :=
  if i <? 0 then None else l !! Z.to_nat i.

(** [b[i]] *)
Definition bGet (i : Z) : M ptr :=
  fun s => match at_index (byExpiry s) i with
           | Some a => Some (a, s)
           | None => None
           end.
(** [b[i] = a] *)
Definition bSet (i : Z) (a : ptr) : M unit :=
  fun s => match at_index (byExpiry s) i with
           | Some _ =>
               Some (tt, with_byExpiry (<[Z.to_nat i := a]> (byExpiry s)) s)
           | None => None
           end.

Definition Len : M Z := gets (fun s => Z.of_nat (length (byExpiry s))).

Definition Less (i j : Z) : M bool :=
  a <- bGet i ;; na <- load a ;;
  b <- bGet j ;; nb <- load b ;;
  ret (expiry na <? expiry nb).

Definition Swap (i j : Z) : M unit :=
  a <- bGet i ;; b <- bGet j ;;
  bSet i b ;;; bSet j a ;;;
  x <- bGet i ;; update x (set_index i) ;;;
  y <- bGet j ;; update y (set_index j).

Definition Push (n : ptr) : M unit :=
  len <- Len ;;
  update n (set_index len) ;;;
  modify (fun s => with_byExpiry (byExpiry s ++ [n]) s).

Definition Pop : M ptr :=
  len <- Len ;;
  let i := len - 1 in
  n <- bGet i ;;
  update n (set_index (-1)) ;;;
  modify (fun s => with_byExpiry (take (Z.to_nat i) (byExpiry s)) s) ;;;
  ret n.

(** The functions of Go's [container/heap] that [memLS] calls, over the
    methods above. [up] moves towards index 0 and [down] towards [n], which
    bounds the turns of their loops. *)
Module heap.

Fixpoint up_loop (fuel : nat) (j : Z) : M unit :=
  match fuel with
  | O => panic
  | S fuel' =>
      let i := Z.quot (j - 1) 2 in
      if i =? j then ret tt
      else
        lt <- Less j i ;;
        if negb lt then ret tt
        else Swap i j ;;; up_loop fuel' i
  end.

Definition up (j : Z) : M unit := up_loop (S (Z.to_nat j)) j.

Fixpoint down_loop (fuel : nat) (i0 i n : Z) : M bool :=
  match fuel with
  | O => panic
  | S fuel' =>
      let j1 := wrap_int (2 * i + 1) in
      if (n <=? j1) || (j1 <? 0) then ret (i0 <? i)
      else
        let j2 := j1 + 1 in
        j <- (if j2 <? n
              then lt <- Less j2 j1 ;; ret (if lt then j2 else j1)
              else ret j1) ;;
        lt <- Less j i ;;
        if negb lt then ret (i0 <? i)
        else Swap i j ;;; down_loop fuel' i0 j n
  end.

Definition down (i0 n : Z) : M bool := down_loop (S (Z.to_nat n)) i0 i0 n.

Definition Push (x : ptr) : M unit :=
  Push x ;;;
  len <- Len ;;
  up (len - 1).

Definition Remove (i : Z) : M ptr :=
  len <- Len ;;
  let n := len - 1 in
  (if n =? i then ret tt
   else
     Swap i n ;;;
     moved <- down i n ;;
     if negb moved then up i else ret tt) ;;;
  Pop.

End heap.

(** ** Path normalisation *)

(** [strings.Split(s, "/")] *)
Fixpoint split_slash_go (cur : string) (s : string) : list string :=
  match s with
  | EmptyString => [String.rev cur]
  | String c s' =>
      if bool_decide (c = "/"%char) then String.rev cur :: split_slash_go "" s'
      else split_slash_go (String c cur) s'
  end.
Definition split_slash (s : string) : list string := split_slash_go "" s.

(** [strings.Join(l, "/")] *)
Fixpoint join_slash (l : list string) : string :=
  match l with
  | [] => ""
  | [x] => x
  | x :: l' => x +:+ "/" +:+ join_slash l'
  end.

(** One element of the path in [path.Clean]; [out] holds the elements kept
    so far, last first. *)
Definition clean_step (rooted : bool) (out : list string) (e : string)
    : list string :=
  if streq e "" || streq e "." then out
  else if streq e ".." then
    match out with
    | top :: out' =>
        if streq top ".." then e :: out else out'
    | [] => if rooted then out else [e]
    end
  else e :: out.

(** Go's [path.Clean]: repeated slashes collapse, [.] elements vanish, a
    [..] element removes the element before it, [/..] at the root is [/],
    and the result has no trailing slash unless it is the root. *)
Definition Clean (p : string) : string :=
  let rooted := HasPrefix p "/" in
  let out := foldl (clean_step rooted) [] (split_slash p) in
  let body := join_slash (rev out) in
  if rooted then "/" +:+ body
  else if streq body "" then "." else body.

(** Go's [path.Dir]: everything up to the final slash, cleaned. *)
Definition Dir (p : string) : string :=
  let i := LastIndex p "/"%char in
  Clean (str_take (Z.to_nat (i + 1)) p).

(** Modelled from the spec: [slashClean] is defined in a file of the
    package other than [lock.go]; the specification gives it as the
    absolute-path normaliser that cleans a slash-separated path and always
    yields a form with a leading slash. It prefixes a slash to a name that
    lacks one and cleans the result. *)
Definition slashClean (name : string) : string :=
  Clean (if HasPrefix name "/" then name else "/" +:+ name).

(** ** The lock manager [memLS] *)

(** [strconv.FormatUint(g, 10)] *)
Definition FormatUint (g : Z) : string := pretty (Z.to_N g).

Definition nextToken : M string :=
  modify (fun s => with_gen (wrap_uint64 (gen s + 1)) s) ;;;
  g <- gets gen ;;
  ret (FormatUint g).

(** The function literal that [remove] passes to [walkToRoot]. *)
Definition remove_visitor (name0 : string) (first : bool) (_ : unit)
    : M (bool * unit) :=
  x <- gets (fun s => byName s !! name0) ;;
  match x with
  | None => ret (true, tt)
  | Some x =>
      update x (fun nx => set_refCount (wrap_int (refCount nx - 1)) nx) ;;;
      nx <- load x ;;
      (if refCount nx =? 0
       then modify (fun s => with_byName (delete name0 (byName s)) s)
       else ret tt) ;;;
      ret (true, tt)
  end.

Definition remove (n : ptr) : M unit :=
  nd <- load n ;;
  modify (fun s => with_byToken (delete (token nd) (byToken s)) s) ;;;
  update n (set_token "") ;;;
  nd <- load n ;;
  walkToRoot (Root (details nd)) remove_visitor tt ;;;
  nd <- load n ;;
  if 0 <=? byExpiryIndex nd
  then heap.Remove (byExpiryIndex nd) ;;; ret tt
  else ret tt.

(** The loop of [collectExpiredNodes]. A turn that does not stop removes
    one entry of [byExpiry] or leaves [byExpiry] as it is, and in the
    second case so does every later turn: the loop returns within
    [len(byExpiry) + 1] turns or not at all. *)
Fixpoint collectExpiredNodes_loop (fuel : nat) (now : Time) : M unit :=
  match fuel with
  | O => panic
  | S fuel' =>
      len <- Len ;;
      if negb (0 <? len) then ret tt
      else
        a <- bGet 0 ;;
        na <- load a ;;
        if now <? expiry na then ret tt
        else remove a ;;; collectExpiredNodes_loop fuel' now
  end.

Definition collectExpiredNodes (now : Time) : M unit :=
  fun s => collectExpiredNodes_loop (S (length (byExpiry s))) now s.

Fixpoint lookup (name : string) (conditions : list Condition)
    : M (option ptr) :=
  match conditions with
  | [] => ret None
  | c :: rest =>
      n <- gets (fun s => byToken s !! Token c) ;;
      match n with
      | None => lookup name rest
      | Some a =>
          na <- load a ;;
          if held na then lookup name rest
          else if streq name (Root (details na)) then ret (Some a)
          else if ZeroDepth (details na) then lookup name rest
          else if streq (Root (details na)) "/"
                  || HasPrefix name (Root (details na) +:+ "/")
          then ret (Some a)
          else lookup name rest
      end
  end.

Definition hold (n : ptr) : M unit :=
  nd <- load n ;;
  if held nd then panic
  else
    update n (set_held true) ;;;
    nd <- load n ;;
    if (0 <=? LDuration (details nd)) && (0 <=? byExpiryIndex nd)
    then heap.Remove (byExpiryIndex nd) ;;; ret tt
    else ret tt.

Definition unhold (n : ptr) : M unit :=
  nd <- load n ;;
  if negb (held nd) then panic
  else
    update n (set_held false) ;;;
    nd <- load n ;;
    if 0 <=? LDuration (details nd) then heap.Push n else ret tt.

(** What the closure returned by [Confirm] captures: [n0] and [n1]. *)
Definition claim : Type := (option ptr * option ptr)%type.

Definition Confirm (now : Time) (name0 name1 : string)
    (conditions : list Condition) : M (result claim) :=
  collectExpiredNodes now ;;;
  n0 <- (if negb (streq name0 "")
         then lookup (slashClean name0) conditions else ret None) ;;
  if negb (streq name0 "") && bool_decide (n0 = None)
  then ret (Err ErrConfirmationFailed)
  else
    n1 <- (if negb (streq name1 "")
           then lookup (slashClean name1) conditions else ret None) ;;
    if negb (streq name1 "") && bool_decide (n1 = None)
    then ret (Err ErrConfirmationFailed)
    else
      let n1 := if bool_decide (n1 = n0) then None else n1 in
      (match n0 with Some a => hold a | None => ret tt end) ;;;
      (match n1 with Some a => hold a | None => ret tt end) ;;;
      ret (Ok (n0, n1)).

(** The closure returned by [Confirm], applied. *)
Definition release (c : claim) : M unit :=
  (match snd c with Some a => unhold a | None => ret tt end) ;;;
  (match fst c with Some a => unhold a | None => ret tt end).

(** The function literal that [canCreate] passes to [walkToRoot]. *)
Definition canCreate_visitor (zeroDepth : bool) (name0 : string)
    (first : bool) (_ : unit) : M (bool * unit) :=
  n <- gets (fun s => byName s !! name0) ;;
  match n with
  | None => ret (true, tt)
  | Some a =>
      na <- load a ;;
      if first then
        if negb (streq (token na) "") then ret (false, tt)
        else if negb zeroDepth then ret (false, tt)
        else ret (true, tt)
      else if negb (streq (token na) "") && negb (ZeroDepth (details na))
      then ret (false, tt)
      else ret (true, tt)
  end.

Definition canCreate (name : string) (zeroDepth : bool) : M bool :=
  r <- walkToRoot name (canCreate_visitor zeroDepth) tt ;;
  ret (fst r).

(** The function literal that [create] passes to [walkToRoot]; the
    variable [ret] that it captures is [ret0]. *)
Definition create_visitor (name0 : string) (first : bool)
    (ret0 : option ptr) : M (bool * option ptr) :=
  n <- gets (fun s => byName s !! name0) ;;
  a <- match n with
       | Some a => ret a
       | None =>
           a <- alloc (mkNode (mkLockDetails name0 0 "" false)
                         "" 0 0 (-1) false) ;;
           modify (fun s => with_byName (<[name0 := a]> (byName s)) s) ;;;
           ret a
       end ;;
  update a (fun na => set_refCount (wrap_int (refCount na + 1)) na) ;;;
  ret (true, if first then Some a else ret0).

Definition create (name : string) : M (option ptr) :=
  r <- walkToRoot name create_visitor None ;;
  ret (snd r).

Definition Create (now : Time) (d : LockDetails) : M (result string) :=
  collectExpiredNodes now ;;;
  let d := mkLockDetails (slashClean (Root d)) (LDuration d)
             (OwnerXML d) (ZeroDepth d) in
  ok <- canCreate (Root d) (ZeroDepth d) ;;
  if negb ok then ret (Err ErrLocked)
  else
    r <- create (Root d) ;;
    match r with
    | None => panic
    | Some n =>
        tok <- nextToken ;;
        update n (set_token tok) ;;;
        modify (fun s => with_byToken (<[tok := n]> (byToken s)) s) ;;;
        update n (set_details d) ;;;
        (if 0 <=? LDuration d
         then update n (set_expiry (Add now (LDuration d))) ;;; heap.Push n
         else ret tt) ;;;
        ret (Ok tok)
    end.

Definition Refresh (now : Time) (tok : string) (duration : Duration)
    : M (result LockDetails) :=
  collectExpiredNodes now ;;;
  n <- gets (fun s => byToken s !! tok) ;;
  match n with
  | None => ret (Err ErrNoSuchLock)
  | Some n =>
      nd <- load n ;;
      if held nd then ret (Err ErrLocked)
      else
        (if 0 <=? byExpiryIndex nd
         then heap.Remove (byExpiryIndex nd) ;;; ret tt
         else ret tt) ;;;
        update n (fun x => set_details (set_duration duration (details x)) x) ;;;
        (if 0 <=? duration
         then update n (set_expiry (Add now duration)) ;;; heap.Push n
         else ret tt) ;;;
        nd <- load n ;;
        ret (Ok (details nd))
  end.

Definition Unlock (now : Time) (tok : string) : M (result unit) :=
  collectExpiredNodes now ;;;
  n <- gets (fun s => byToken s !! tok) ;;
  match n with
  | None => ret (Err ErrNoSuchLock)
  | Some n =>
      nd <- load n ;;
      if held nd then ret (Err ErrLocked)
      else remove n ;;; ret (Ok tt)
  end.

Definition Delete (now : Time) (name : string) : M (result unit) :=
  collectExpiredNodes now ;;;
  n <- gets (fun s => byName s !! name) ;;
  match n with
  | None => ret (Ok tt)
  | Some n => remove n ;;; ret (Ok tt)
  end.

(** The loop of [GetByName]; [path.Dir] shortens a cleaned name. *)
Fixpoint GetByName_loop (fuel : nat) (name : string)
    : M (result (string * Time * LockDetails)) :=
  match fuel with
  | O => panic
  | S fuel' =>
      n <- gets (fun s => byName s !! name) ;;
      found <- match n with
               | None => ret None
               | Some a =>
                   na <- load a ;;
                   ret (if negb (streq (token na) "") then Some na else None)
               end ;;
      match found with
      | Some na => ret (Ok (token na, expiry na, details na))
      | None =>
          if streq name "/" then ret (Err ErrNoSuchLock)
          else GetByName_loop fuel' (Dir name)
      end
  end.

(** [GetByName(name)]. It has no [now] parameter: it sweeps with
    [time.Now()], and [wall] is the clock reading of that call. *)
Definition GetByName (wall : Time) (name : string)
    : M (result (string * Time * LockDetails)) :=
  collectExpiredNodes wall ;;;
  let name := slashClean name in
  GetByName_loop (S (String.length name)) name.

(** ** The operations as a sequence of calls *)

(** A call of the manager. [OpRelease] invokes the closure that a
    [Confirm] returned. *)
Inductive Op : Type :=
  | OpConfirm (now : Time) (name0 name1 : string) (conditions : list Condition)
  | OpRelease (c : claim)
  | OpCreate (now : Time) (d : LockDetails)
  | OpRefresh (now : Time) (tok : string) (duration : Duration)
  | OpUnlock (now : Time) (tok : string)
  | OpDelete (now : Time) (name : string)
  | OpGetByName (name : string).

Inductive Reply : Type :=
  | RConfirm (r : result claim)
  | RRelease
  | RCreate (r : result string)
  | RRefresh (r : result LockDetails)
  | RUnlock (r : result unit)
  | RDelete (r : result unit)
  | RGetByName (r : result (string * Time * LockDetails)).

(** One call; [wall] is what [time.Now()] returns during the call. *)
Definition exec (wall : Time) (o : Op) : M Reply :=
  match o with
  | OpConfirm now name0 name1 conditions =>
      r <- Confirm now name0 name1 conditions ;; ret (RConfirm r)
  | OpRelease c => release c ;;; ret RRelease
  | OpCreate now d => r <- Create now d ;; ret (RCreate r)
  | OpRefresh now tok duration =>
      r <- Refresh now tok duration ;; ret (RRefresh r)
  | OpUnlock now tok => r <- Unlock now tok ;; ret (RUnlock r)
  | OpDelete now name => r <- Delete now name ;; ret (RDelete r)
  | OpGetByName name => r <- GetByName wall name ;; ret (RGetByName r)
  end.

(** A sequence of calls, each with the clock reading of its time. *)
Fixpoint run (calls : list (Time * Op)) : M (list Reply) :=
  match calls with
  | [] => ret []
  | (wall, o) :: rest =>
      r <- exec wall o ;;
      rs <- run rest ;;
      ret (r :: rs)
  end.

(** ** parseTimeout *)

Definition bytes (l : list Z) : string :=
  foldr (fun n s => String (ascii_of_nat (Z.to_nat n)) s) "" l.

(** The UTF-8 encodings of the runes for which [unicode.IsSpace] holds:
    tab, LF, VT, FF, CR, space, U+0085, U+00A0, U+1680, U+2000 to U+200A,
    U+2028, U+2029, U+202F, U+205F and U+3000. *)
Definition space_runes : list string :=
  [bytes [9]; bytes [10]; bytes [11]; bytes [12]; bytes [13]; bytes [32];
   bytes [194; 133]; bytes [194; 160]; bytes [225; 154; 128]]
  ++ map (fun n => bytes [226; 128; n]) (seqZ 128 11)
  ++ [bytes [226; 128; 168]; bytes [226; 128; 169]; bytes [226; 128; 175];
      bytes [226; 129; 159]; bytes [227; 128; 128]].

(** [strings.HasSuffix(s, suf)] *)
Definition HasSuffix (s suf : string) : bool :=
  HasPrefix (String.rev s) (String.rev suf).

(** The string without its first rune, when that rune is a space. *)
Definition drop_space (s : string) : option string :=
  match filter (fun r => HasPrefix s r = true) space_runes with
  | r :: _ => Some (str_drop (String.length r) s)
  | [] => None
  end.

(** The string without its last rune, when that rune is a space. *)
Definition drop_last_space (s : string) : option string :=
  match filter (fun r => HasSuffix s r = true) space_runes with
  | r :: _ => Some (str_take (String.length s - String.length r)%nat s)
  | [] => None
  end.

Fixpoint trim_with (step : string -> option string) (fuel : nat)
    (s : string) : string :=
  match fuel with
  | O => s
  | S fuel' =>
      match step s with
      | Some s' => trim_with step fuel' s'
      | None => s
      end
  end.

(** Go's [strings.TrimSpace]: leading and trailing white space removed. *)
Definition TrimSpace (s : string) : string :=
  let s := trim_with drop_space (String.length s) s in
  trim_with drop_last_space (String.length s) s.

Definition is_digit (c : ascii) : bool :=
  let n := nat_of_ascii c in (48 <=? n)%nat && (n <=? 57)%nat.

Definition digit_val (c : ascii) : Z := Z.of_nat (nat_of_ascii c) - 48.

(** The digits of [strconv.ParseUint(s, 10, 64)], before the range check;
    [None] is its syntax error. *)
Fixpoint parse_digits (acc : Z) (s : string) : option Z :=
  match s with
  | EmptyString => Some acc
  | String c s' =>
      if is_digit c then parse_digits (10 * acc + digit_val c) s' else None
  end.

(** Go's [strconv.ParseInt(s, 10, 64)]; [None] is a non-nil error (syntax
    or range). *)
Definition ParseInt (s : string) : option Z :=
  match s with
  | EmptyString => None
  | String c s' =>
      let neg := bool_decide (c = "-"%char) in
      let body := if neg || bool_decide (c = "+"%char) then s' else s in
      match body with
      | EmptyString => None
      | _ =>
          match parse_digits 0 body with
          | None => None
          | Some un =>
              if neg then (if un <=? 2 ^ 63 then Some (- un) else None)
              else (if un <? 2 ^ 63 then Some un else None)
          end
      end
  end.

Definition infiniteTimeout : Duration := -1.
(** [time.Second], in nanoseconds. *)
Definition Second : Duration := 1000000000.

Definition parseTimeout (s : string) : result Duration :=
  if streq s "" then Ok infiniteTimeout
  else
    let i := IndexByte s ","%char in
    let s := if 0 <=? i then str_take (Z.to_nat i) s else s in
    let s := TrimSpace s in
    if streq s "Infinite" then Ok infiniteTimeout
    else
      let pre := "Second-" in
      if negb (HasPrefix s pre) then Err errInvalidTimeout
      else
        let s := str_drop (String.length pre) s in
        match s with
        | EmptyString => Err errInvalidTimeout
        | String c _ =>
            if negb (is_digit c) then Err errInvalidTimeout
            else
              match ParseInt s with
              | None => Err errInvalidTimeout
              | Some n =>
                  if 2 ^ 32 - 1 <? n then Err errInvalidTimeout
                  else Ok (wrap_int (n * Second))
              end
        end.

(** ** Notions of the specification *)

(** *** The Timeout header *)

(** A sequence of white-space runes. *)
Inductive white : string -> Prop :=
  | white_nil : white ""
  | white_cons (r w : string) : r ∈ space_runes -> white w -> white (r +:+ w).

(** The string has neither a white-space rune at its start nor one at its
    end. *)
Definition trimmed (e : string) : Prop :=
  forall r, r ∈ space_runes ->
    (forall t, e <> r +:+ t) /\ (forall t, e <> t +:+ r).

(** The bytes that start no white-space rune, and those that end none. *)
Definition no_rune_starts (c : ascii) : bool :=
  forallb (fun r => negb (HasPrefix r (String c ""))) space_runes.
Definition no_rune_ends (c : ascii) : bool :=
  forallb (fun r => negb (HasSuffix r (String c ""))) space_runes.

(** The first entry of a comma-separated list. *)
Fixpoint first_field (s : string) : string :=
  match s with
  | EmptyString => EmptyString
  | String c s' =>
      if bool_decide (c = ","%char) then EmptyString
      else String c (first_field s')
  end.

Fixpoint all_digits (s : string) : bool :=
  match s with
  | EmptyString => true
  | String c s' => is_digit c && all_digits s'
  end.

(** The number that a string of decimal digits denotes. *)
Fixpoint decimal (s : string) : Z :=
  match s with
  | EmptyString => 0
  | String c s' => digit_val c * 10 ^ Z.of_nat (String.length s') + decimal s'
  end.

(** *** Paths *)

(** A name with a leading slash, as [slashClean] yields. *)
Definition absolute (name : string) : Prop := HasPrefix name "/" = true.

(** The names that [walkToRoot(name, f)] visits when [f] never stops the
    walk: [name] first, then one level up at a time. *)
Fixpoint walkPath_loop (fuel : nat) (name : string) : list string :=
  match fuel with
  | O => []
  | S fuel' =>
      name ::
        (if streq name "/" then []
         else match parentName name with
              | None => []
              | Some name' => walkPath_loop fuel' name'
              end)
  end.

Definition walkPath (name : string) : list string :=
  walkPath_loop (S (String.length name)) name.

(** The levels strictly above [name]. *)
Definition ancestors (name : string) : list string := tail (walkPath name).

(** *** Locks *)

(** The node carries an explicit lock. *)
Definition locked (n : memLSNode) : Prop := token n <> "".

(** The node carries an explicit lock at or below the path [k]. *)
Definition covers (k : string) (n : memLSNode) : Prop :=
  token n <> "" /\ k ∈ walkPath (Root (details n)).

Global Instance covers_dec (k : string) (n : memLSNode) : Decision (covers k n).
Proof. unfold covers. apply _. Defined.

(** The number of explicitly locked paths at or below [k]. *)
Definition below (s : memLS) (k : string) : Z :=
  Z.of_nat (length (filter (covers k) (store s))).

(** *** Invariants of the manager state *)

(** Every entry of the expiry queue knows its position. *)
Definition idx_ok (s : memLS) : Prop :=
  forall (i : nat) (a : ptr),
    byExpiry s !! i = Some a ->
    exists n, store s !! a = Some n /\ byExpiryIndex n = Z.of_nat i.

Definition expiry_at (s : memLS) (a : ptr) : Time :=
  match store s !! a with
  | Some n => expiry n
  | None => 0
  end.

(** The expiry times of the queue, in queue order. *)
Definition keys (s : memLS) : list Time := expiry_at s <$> byExpiry s.

(** A binary min-heap laid out in a slice: no entry is smaller than its
    parent. *)
Definition ordered (l : list Z) : Prop :=
  forall (j : nat) (x y : Z),
    (0 < j)%nat -> l !! ((j - 1) / 2)%nat = Some x -> l !! j = Some y -> x <= y.

Record node_ok (s : memLS) (a : ptr) (n : memLSNode) : Prop := mk_node_ok {
  (** a node without a token is not held *)
  nk_anchor : token n = "" -> held n = false;
  (** a lock is registered under its token and its root *)
  nk_token : token n <> "" ->
             byToken s !! token n = Some a /\
             byName s !! Root (details n) = Some a /\
             absolute (Root (details n));
  (** the queue holds the locks of finite duration that are not held *)
  nk_queued : a ∈ byExpiry s <->
              (token n <> "" /\ held n = false /\ 0 <= LDuration (details n))
}.

(** The expiry queue is a heap, every entry knows its position and every
    other node has the position -1. *)
Record queue_wf (s : memLS) : Prop := mk_queue_wf {
  qw_idx : idx_ok s;
  qw_ordered : ordered (keys s);
  qw_out : forall a n, store s !! a = Some n -> a ∉ byExpiry s ->
                       byExpiryIndex n = -1
}.

(** A node is in the name index iff some lock lies at or below its path,
    and its [refCount] is the number of these locks. *)
Definition tree_ok (s : memLS) : Prop :=
  forall k : string,
    match byName s !! k with
    | Some a =>
        exists n, store s !! a = Some n /\ Root (details n) = k /\
                  refCount n = below s k /\ 0 < below s k
    | None => below s k = 0
    end.

(** Tokens are numbers that [gen] has passed, one node each. *)
Definition tokens_ok (s : memLS) : Prop :=
  0 <= gen s < 2 ^ 64 /\
  Z.of_nat (size (byToken s)) <= gen s /\
  forall (t : string) (a : ptr),
    byToken s !! t = Some a ->
    (exists n, store s !! a = Some n /\ token n = t) /\
    t <> "" /\
    exists g, 0 <= g <= gen s /\ t = FormatUint g.

(** Hierarchical exclusivity: no lock lies strictly below a lock of
    infinite depth. (Two locks never share a root, as the name index maps
    a root to one node.) *)
Definition excl_ok (s : memLS) : Prop :=
  forall (a b : ptr) (na nb : memLSNode),
    store s !! a = Some na -> store s !! b = Some nb ->
    token na <> "" -> token nb <> "" ->
    ZeroDepth (details na) = false ->
    Root (details na) ∉ ancestors (Root (details nb)).

Record Inv (s : memLS) : Prop := mk_Inv {
  inv_queue : queue_wf s;
  inv_nodes : forall a n, store s !! a = Some n -> node_ok s a n;
  inv_tree : tree_ok s;
  inv_tokens : tokens_ok s;
  inv_excl : excl_ok s
}.

(** *** Confirm *)

(** [p] is a prefix of [s]. *)
Definition is_prefix (p s : string) : Prop := exists t, s = p +:+ t.

(** The lock of node [n] covers the name: it is rooted there, or it has
    infinite depth and is rooted at an ancestor. *)
Definition matches (name : string) (n : memLSNode) : Prop :=
  Root (details n) = name \/
  (ZeroDepth (details n) = false /\
   (Root (details n) = "/" \/ is_prefix (Root (details n) +:+ "/") name)).

(** The node that the token of a condition names, when it is not held and
    matches the name. *)
Definition candidate (s : memLS) (name : string) (a : ptr) : Prop :=
  exists n, store s !! a = Some n /\ held n = false /\ matches name n.

(** The node of the first condition, in list order, whose token names a
    candidate. *)
Inductive resolves (s : memLS) (name : string)
    : list Condition -> option ptr -> Prop :=
  | resolves_nil : resolves s name [] None
  | resolves_here c rest a :
      byToken s !! Token c = Some a -> candidate s name a ->
      resolves s name (c :: rest) (Some a)
  | resolves_skip c rest r :
      (forall a, byToken s !! Token c = Some a -> ~ candidate s name a) ->
      resolves s name rest r ->
      resolves s name (c :: rest) r.

(** *** Calls that read the clock *)

Definition reads_clock (o : Op) : Prop :=
  match o with
  | OpGetByName _ => True
  | _ => False
  end.

(** Two sequences of calls with the same operations, and the same clock
    reading wherever the operation reads the clock. *)
Definition same_calls (c1 c2 : list (Time * Op)) : Prop :=
  Forall2 (fun x y => snd x = snd y /\ (reads_clock (snd x) -> fst x = fst y))
          c1 c2.

(** The behaviour is a function of the operations alone: the outcome of a
    run does not depend on the clock readings, neither on the one that
    seeds the manager nor on those during the calls. *)
Definition clock_independent : Prop :=
  forall (unix1 unix2 : Z) (c1 c2 : list (Time * Op)),
    map snd c1 = map snd c2 ->
    run c1 (NewMemLS unix1) = run c2 (NewMemLS unix2).

(** *** Auxiliary notions *)

(** A computation that only reads the state. *)
Definition readonly {A} (m : M A) : Prop :=
  forall s r s', m s = Some (r, s') -> s' = s.


(** The visits of [walkToRoot] along a list of names, for a visitor that
    never stops the walk. *)
Fixpoint walk_visit {A} (f : string -> bool -> A -> M (bool * A))
    (names : list string) (first : bool) (acc : A) : M A :=
  match names with
  | [] => ret acc
  | k :: rest => r <- f k first acc ;; walk_visit f rest false (snd r)
  end.

(** The node registered under a name. *)
Definition node_at (s : memLS) (k : string) : option memLSNode :=
  match byName s !! k with
  | Some a => store s !! a
  | None => None
  end.

(** What the visitor of [canCreate] answers at a level. *)
Definition canCreate_level (s : memLS) (zeroDepth : bool) (k : string)
    (first : bool) : bool :=
  match node_at s k with
  | None => true
  | Some na =>
      if first then
        if negb (streq (token na) "") then false
        else if negb zeroDepth then false else true
      else if negb (streq (token na) "") && negb (ZeroDepth (details na))
      then false else true
  end.

(** What [canCreate] rejects: the target carries a token; or a node
    exists at the target and the requested depth is infinite; or a strict
    ancestor carries a token of infinite depth. *)
Definition blocked (s : memLS) (name : string) (zeroDepth : bool) : Prop :=
  (exists n, node_at s name = Some n /\ token n <> "") \/
  (is_Some (byName s !! name) /\ zeroDepth = false) \/
  (exists k n, k ∈ ancestors name /\ node_at s k = Some n /\
               token n <> "" /\ ZeroDepth (details n) = false).

(** Every pointer of the name index points into the arena. *)
Definition names_valid (s : memLS) : Prop :=
  forall k a, byName s !! k = Some a -> is_Some (store s !! a).

(** *** The heap layout *)

(** The parent of position [j] in the heap, [(j - 1) / 2]. *)
Definition parent (j : nat) : nat := ((j - 1) / 2)%nat.

(** The first [n] positions are heap-ordered; [f] gives the key at a
    position. *)
Definition ordered_upto (n : nat) (f : nat -> Z) : Prop :=
  forall k, (0 < k < n)%nat -> f (parent k) <= f k.

(** Heap-ordered but for the key at [j], which may be smaller than the
    key of its parent ([up] repairs this). *)
Definition up_inv (n j : nat) (f : nat -> Z) : Prop :=
  (forall k, (0 < k < n)%nat -> k <> j -> f (parent k) <= f k) /\
  (forall k, (0 < j)%nat -> (0 < k < n)%nat -> parent k = j ->
             f (parent j) <= f k).

(** Heap-ordered but for the key at [i], which may be larger than the keys
    of its children ([down] repairs this) and, until [down] has moved it,
    smaller than the key of its parent. *)
Definition down_inv (n i : nat) (entered : bool) (f : nat -> Z) : Prop :=
  (forall k, (0 < k < n)%nat -> k <> i -> parent k <> i -> f (parent k) <= f k) /\
  (forall k, (0 < i)%nat -> (0 < k < n)%nat -> parent k = i ->
             f (parent i) <= f k) /\
  (entered = true -> (0 < i)%nat -> f (parent i) <= f i).

(** The keys after [Swap(i, j)]. *)
Definition fswap (i j : nat) (f : nat -> Z) : nat -> Z :=
  fun k => if decide (k = i) then f j else if decide (k = j) then f i else f k.

(** The key at a position of the queue. *)
Definition key_at (s : memLS) (k : nat) : Z := default 0 (keys s !! k).

(** The two states differ at most in the queue and in the queue positions
    that the nodes record. *)
Definition same_but_queue (s s' : memLS) : Prop :=
  byName s' = byName s /\ byToken s' = byToken s /\ gen s' = gen s /\
  length (store s') = length (store s) /\
  forall a n, store s !! a = Some n ->
              exists i, store s' !! a = Some (set_index i n).

(** [s'] is [s] with the first [n] entries of the queue permuted. *)
Definition qperm (n : nat) (s s' : memLS) : Prop :=
  same_but_queue s s' /\
  (forall a, a ∉ byExpiry s -> store s' !! a = store s !! a) /\
  (forall a, a ∈ take n (byExpiry s') <-> a ∈ take n (byExpiry s)) /\
  drop n (byExpiry s') = drop n (byExpiry s) /\
  length (byExpiry s') = length (byExpiry s) /\
  idx_ok s'.

(** The lock that a node carries, apart from its bookkeeping fields
    [refCount] and [byExpiryIndex]. *)
Definition lock_of (n : memLSNode) : LockDetails * string * Time * bool :=
  (details n, token n, expiry n, held n).

(** [s'] is [s] but for the queue, the queue positions, and the duration,
    expiry and [held] flag of the lock of node [x]. *)
Definition touch (x : ptr) (s s' : memLS) : Prop :=
  byName s' = byName s /\ byToken s' = byToken s /\ gen s' = gen s /\
  length (store s') = length (store s) /\
  forall y ny, store s !! y = Some ny ->
    exists ny', store s' !! y = Some ny' /\
      refCount ny' = refCount ny /\ token ny' = token ny /\
      Root (details ny') = Root (details ny) /\
      ZeroDepth (details ny') = ZeroDepth (details ny) /\
      (y <> x -> lock_of ny' = lock_of ny).

(** The name index during a walk of [create] or [remove]: the nodes of
    the names still to visit, [P], hold a count that is off by [d]. *)
Definition tree_pending (P : list string) (d : Z) (cnt : string -> Z)
    (s : memLS) : Prop :=
  forall k : string,
    let c := cnt k + (if decide (k ∈ P) then d else 0) in
    match byName s !! k with
    | Some a =>
        exists n, store s !! a = Some n /\ Root (details n) = k /\
                  refCount n = c /\ 0 < c
    | None => c = 0
    end.

(** [s'] is [s] but for the name index, the [refCount] fields, and nodes
    allocated since, which carry no lock. *)
Definition same_but_refs (s s' : memLS) : Prop :=
  byToken s' = byToken s /\ gen s' = gen s /\ byExpiry s' = byExpiry s /\
  (length (store s) <= length (store s'))%nat /\
  (forall a n, store s !! a = Some n ->
               exists r, store s' !! a = Some (set_refCount r n)) /\
  (forall a n', (length (store s) <= a)%nat -> store s' !! a = Some n' ->
                token n' = "" /\ held n' = false /\ byExpiryIndex n' = -1).

(** [s'] is [s] after the lock of node [x] has been removed: its token
    is gone, it has left the queue, and the name index has shrunk. *)
Definition removed (x : ptr) (s s' : memLS) : Prop :=
  gen s' = gen s /\
  (forall t, byToken s' !! t =
             match store s !! x with
             | Some nx => if decide (t = token nx) then None else byToken s !! t
             | None => byToken s !! t
             end) /\
  length (store s') = length (store s) /\
  (forall y, y ∈ byExpiry s' <-> y ∈ byExpiry s /\ y <> x) /\
  (forall y ny, store s !! y = Some ny ->
     exists ny', store s' !! y = Some ny' /\
       details ny' = details ny /\ expiry ny' = expiry ny /\
       held ny' = held ny /\
       token ny' = if decide (y = x) then "" else token ny) /\
  (forall k a, byName s' !! k = Some a -> byName s !! k = Some a).

(** [s'] is [s] after the lock [d] has been created at time [now] on node
    [x]: the node carries the next token and the details, it is in the
    queue iff the duration is finite, and every other lock is as before. *)
Definition created (now : Time) (d : LockDetails) (x : ptr) (s s' : memLS)
    : Prop :=
  gen s' = gen s + 1 /\
  byToken s !! FormatUint (gen s + 1) = None /\
  byToken s' = <[FormatUint (gen s + 1) := x]> (byToken s) /\
  byName s' !! Root d = Some x /\
  (forall k a, byName s !! k = Some a -> byName s' !! k = Some a) /\
  (exists n, store s' !! x = Some n /\
             token n = FormatUint (gen s + 1) /\ details n = d /\
             held n = false /\
             (0 <= LDuration d -> expiry n = Add now (LDuration d))) /\
  (forall y, y ∈ byExpiry s' <-> (y = x /\ 0 <= LDuration d) \/ y ∈ byExpiry s) /\
  (x ∉ byExpiry s) /\
  (forall y ny, y <> x -> store s !! y = Some ny ->
     exists ny', store s' !! y = Some ny' /\ lock_of ny' = lock_of ny) /\
  (forall y ny', y <> x -> store s' !! y = Some ny' -> token ny' <> "" ->
     exists ny, store s !! y = Some ny /\ lock_of ny' = lock_of ny).

(** The lock of node [a] is in the queue and its time has passed. *)
Definition expired (now : Time) (s : memLS) (a : ptr) : Prop :=
  a ∈ byExpiry s /\ expiry_at s a <= now.

Global Instance expired_dec (now : Time) (s : memLS) (a : ptr) :
  Decision (expired now s a).
Proof. unfold expired. apply _. Defined.

(** [s'] is [s] after the expiry sweep at [now]: exactly the expired locks
    have been removed. *)
Definition swept (now : Time) (s s' : memLS) : Prop :=
  gen s' = gen s /\
  length (store s') = length (store s) /\
  (forall y, y ∈ byExpiry s' <-> y ∈ byExpiry s /\ now < expiry_at s y) /\
  (forall t a, byToken s' !! t = Some a <->
               byToken s !! t = Some a /\ ~ expired now s a) /\
  (forall y ny, store s !! y = Some ny ->
     exists ny', store s' !! y = Some ny' /\
       details ny' = details ny /\ expiry ny' = expiry ny /\
       held ny' = held ny /\
       token ny' = if decide (expired now s y) then "" else token ny) /\
  (forall k a, byName s' !! k = Some a -> byName s !! k = Some a).

(** The computation starts with the expiry sweep at [now]. *)
Definition sweeps_first {A} (now : Time) (m : M A) : Prop :=
  exists body : M A, forall s, m s = (collectExpiredNodes now ;;; body) s.

(** The nodes that a claim holds. *)
Definition claim_nodes (c : claim) : list ptr :=
  match fst c, snd c with
  | Some a, Some b => [a; b]
  | Some a, None => [a]
  | None, Some b => [b]
  | None, None => []
  end.

(** Node [x] carries a registered lock that a [Confirm] holds. *)
Definition held_lock (s : memLS) (x : ptr) (tok : string) : Prop :=
  exists nx, store s !! x = Some nx /\ held nx = true /\ token nx = tok /\
             byToken s !! tok = Some x /\ x ∉ byExpiry s.

(** *** Conflicting locks *)

(** The path [k] lies strictly above the path [name]: it is the root, or
    [name] continues it after a slash. *)
Definition strict_ancestor (k name : string) : Prop :=
  name <> "/" /\ (k = "/" \/ (k <> "" /\ is_prefix (k +:+ "/") name)).

(** [n] is the node of a lock of the manager. *)
Definition has_lock (s : memLS) (n : memLSNode) : Prop :=
  exists y, store s !! y = Some n /\ token n <> "".

(** A lock of the manager stands against a new lock at [name]: it is at
    [name], or it lies strictly below [name] and the new lock has infinite
    depth, or it has infinite depth and lies strictly above [name]. *)
Definition conflicts (s : memLS) (name : string) (zeroDepth : bool) : Prop :=
  exists n, has_lock s n /\
    (Root (details n) = name \/
     (zeroDepth = false /\ strict_ancestor name (Root (details n))) \/
     (ZeroDepth (details n) = false /\ strict_ancestor (Root (details n)) name)).

(** *** Cleaned names *)

(** An element of a cleaned rooted path: not empty, not [.] or [..], and
    without a slash. *)
Definition proper_elem (e : string) : Prop :=
  e <> "" /\ e <> "." /\ e <> ".." /\ LastIndex e "/"%char = -1.

(** The rooted path with the elements [cs]. *)
Definition rooted_path (cs : list string) : string := "/" +:+ join_slash cs.

(** A name as [path.Clean] yields it for a rooted path. *)
Definition cleaned (name : string) : Prop :=
  exists cs, Forall proper_elem cs /\ name = rooted_path cs.

(** The node of the name [k], when it carries a lock. *)
Definition lock_at (s : memLS) (k : string) : option memLSNode :=
  match node_at s k with
  | Some n => if decide (token n = "") then None else Some n
  | None => None
  end.

(** The lock of the first of the levels that carries one. *)
Fixpoint nearest_lock (s : memLS) (levels : list string) : option memLSNode :=
  match levels with
  | [] => None
  | k :: rest =>
      match lock_at s k with
      | Some n => Some n
      | None => nearest_lock s rest
      end
  end.

(** *** Claims of a run *)

(** Node [y] is held by a [Confirm]. *)
Definition node_held (s : memLS) (y : ptr) : Prop :=
  exists n, store s !! y = Some n /\ held n = true.

(** [out] without the first occurrence of [c]. *)
Fixpoint remove_claim (c : claim) (out : list claim) : list claim :=
  match out with
  | [] => []
  | c' :: out' => if decide (c' = c) then out' else c' :: remove_claim c out'
  end.

(** The claims that are outstanding after a call: a successful [Confirm]
    adds its claim, the release closure takes its claim away. *)
Definition next_claims (out : list claim) (o : Op) (r : Reply) : list claim :=
  match o, r with
  | OpConfirm _ _ _ _, RConfirm (Ok c) => c :: out
  | OpRelease c, _ => remove_claim c out
  | _, _ => out
  end.

(** What a client may call while the claims [out] are outstanding: every
    operation but [Delete], and the release closure of an outstanding
    claim. *)
Definition allowed (out : list claim) (o : Op) : Prop :=
  match o with
  | OpDelete _ _ => False
  | OpRelease c => c ∈ out
  | _ => True
  end.

(** The calls are those of a client that invokes each release closure it
    got from [Confirm] at most once, and does not call [Delete]. *)
Fixpoint protocol (out : list claim) (calls : list (Time * Op)) (s : memLS)
    : Prop :=
  match calls with
  | [] => True
  | (wall, o) :: rest =>
      allowed out o /\
      forall r s', exec wall o s = Some (r, s') ->
                   protocol (next_claims out o r) rest s'
  end.

(** The nodes of the outstanding claims are distinct and held. *)
Definition claims_held (out : list claim) (s : memLS) : Prop :=
  NoDup (concat (claim_nodes <$> out)) /\
  forall y, y ∈ concat (claim_nodes <$> out) -> node_held s y.


(** * Properties of the embedding *)

(** ** Strings *)

Lemma streq_true (s t : string) : streq s t = true <-> s = t.
Proof. unfold streq. apply bool_decide_eq_true. Qed.

Lemma streq_false (s t : string) : streq s t = false <-> s <> t.
Proof. unfold streq. apply bool_decide_eq_false. Qed.

Lemma streq_refl (s : string) : streq s s = true.
Proof. by apply streq_true. Qed.

Lemma app_String (c : ascii) (s t : string) :
  String c s +:+ t = String c (s +:+ t).
Proof. reflexivity. Qed.

Lemma app_empty_l (t : string) : "" +:+ t = t.
Proof. reflexivity. Qed.

Lemma HasPrefix_app (pre s : string) : HasPrefix (pre +:+ s) pre = true.
Proof.
  induction pre as [|c pre IH]; [done|].
  rewrite app_String. simpl.
  rewrite bool_decide_eq_true_2 by done. exact IH.
Qed.

Lemma HasPrefix_inv (s pre : string) :
  HasPrefix s pre = true -> s = pre +:+ str_drop (String.length pre) s.
Proof.
  revert s. induction pre as [|c pre IH]; intros s H; simpl in *; [by destruct s|].
  destruct s as [|d s]; [done|].
  apply andb_true_iff in H as [Hc Hp]. apply bool_decide_eq_true in Hc.
  subst d. rewrite app_String. f_equal. by apply IH.
Qed.

Lemma str_drop_app (pre s : string) : str_drop (String.length pre) (pre +:+ s) = s.
Proof.
  induction pre as [|c pre IH]; [by destruct s|].
  rewrite app_String. simpl. exact IH.
Qed.

Lemma str_app_nil_r (s : string) : s +:+ "" = s.
Proof. induction s as [|c s IH]; [done|]. by rewrite app_String, IH. Qed.

Lemma str_app_assoc (a b c : string) : (a +:+ b) +:+ c = a +:+ (b +:+ c).
Proof.
  induction a as [|x a IH]; [by rewrite !app_empty_l|].
  by rewrite !app_String, IH.
Qed.

Lemma str_app_length (a b : string) :
  String.length (a +:+ b) = (String.length a + String.length b)%nat.
Proof.
  induction a as [|x a IH]; [by rewrite app_empty_l|].
  rewrite app_String. simpl. by rewrite IH.
Qed.

Lemma str_take_app (a b : string) : str_take (String.length a) (a +:+ b) = a.
Proof.
  induction a as [|d a IH]; [by destruct (_ +:+ _)|].
  rewrite app_String. simpl. by rewrite IH.
Qed.

Lemma rev_app_app (cur acc e : string) :
  String.rev_app cur acc +:+ e = String.rev_app cur (acc +:+ e).
Proof.
  revert acc. induction cur as [|d cur IH]; intros acc; [done|].
  cbn [String.rev_app]. by rewrite IH, app_String.
Qed.

Lemma rev_cons_app (d : ascii) (cur e : string) :
  String.rev (String d cur) +:+ e = String.rev cur +:+ String d e.
Proof.
  unfold String.rev. cbn [String.rev_app]. by rewrite !rev_app_app, app_String, !app_empty_l.
Qed.

(** Two ways to split one string: one of the first parts is a prefix of
    the other. *)
Lemma str_app_eq_app (a b c d : string) :
  a +:+ b = c +:+ d ->
  (exists e, c = a +:+ e /\ b = e +:+ d) \/
  (exists e, a = c +:+ e /\ d = e +:+ b).
Proof.
  revert c. induction a as [|x a IH]; intros c E.
  - left. exists c. by rewrite app_empty_l in *.
  - destruct c as [|y c].
    + right. exists (String x a). by rewrite app_empty_l in *.
    + rewrite !app_String in E. inversion E as [[Exy E']]. subst y.
      destruct (IH c E') as [(e & -> & ->)|(e & -> & ->)].
      * left. exists e. by rewrite app_String.
      * right. exists e. by rewrite app_String.
Qed.

Lemma IndexByte_ge_m1 (s : string) (c : ascii) : -1 <= IndexByte s c.
Proof.
  induction s as [|d s IH]; simpl; [lia|].
  case_bool_decide; [lia|]. destruct (IndexByte s c <? 0) eqn:E; lia.
Qed.

Lemma first_field_IndexByte (s : string) :
  (if 0 <=? IndexByte s ","%char
   then str_take (Z.to_nat (IndexByte s ","%char)) s else s) = first_field s.
Proof.
  induction s as [|d s IH]; simpl; [done|].
  case_bool_decide as Hd; simpl; [done|].
  pose proof (IndexByte_ge_m1 s ","%char) as Hge.
  destruct (IndexByte s "," <? 0) eqn:E.
  - apply Z.ltb_lt in E. simpl.
    destruct (0 <=? IndexByte s ",") eqn:E2; [apply Z.leb_le in E2; lia|].
    by rewrite <- IH.
  - apply Z.ltb_ge in E.
    assert ((0 <=? IndexByte s "," + 1) = true) as -> by (apply Z.leb_le; lia).
    assert ((0 <=? IndexByte s ",") = true) as E2 by (apply Z.leb_le; lia).
    rewrite E2 in IH.
    replace (Z.to_nat (IndexByte s "," + 1)) with (S (Z.to_nat (IndexByte s ","))) by lia.
    simpl. by rewrite IH.
Qed.

(** ** Decimal numbers *)

Lemma digit_val_range (c : ascii) : is_digit c = true -> 0 <= digit_val c <= 9.
Proof.
  unfold is_digit, digit_val. intros H.
  apply andb_true_iff in H as [H1 H2].
  apply Nat.leb_le in H1, H2. lia.
Qed.

Lemma decimal_nonneg (s : string) : all_digits s = true -> 0 <= decimal s.
Proof.
  induction s as [|c s IH]; simpl; [lia|]. intros H.
  apply andb_true_iff in H as [Hc Hs].
  pose proof (digit_val_range c Hc). specialize (IH Hs).
  assert (0 <= 10 ^ Z.of_nat (String.length s)) by (apply Z.pow_nonneg; lia).
  nia.
Qed.

Lemma parse_digits_all (s : string) (acc : Z) :
  all_digits s = true ->
  parse_digits acc s = Some (acc * 10 ^ Z.of_nat (String.length s) + decimal s).
Proof.
  revert acc. induction s as [|c s IH]; intros acc H; simpl in *.
  - f_equal. lia.
  - apply andb_true_iff in H as [Hc Hs]. rewrite Hc, (IH _ Hs). f_equal.
    rewrite Nat2Z.inj_succ, Z.pow_succ_r by lia. lia.
Qed.

Lemma parse_digits_not_all (s : string) (acc : Z) :
  all_digits s = false -> parse_digits acc s = None.
Proof.
  revert acc. induction s as [|c s IH]; intros acc H; simpl in *; [done|].
  destruct (is_digit c); simpl in H; [by apply IH|done].
Qed.

(** [ParseInt] on a string that starts with a digit. *)
Lemma ParseInt_digits (c : ascii) (s : string) :
  is_digit c = true ->
  ParseInt (String c s) =
    if all_digits s
    then (if decimal (String c s) <? 2 ^ 63 then Some (decimal (String c s)) else None)
    else None.
Proof.
  intros Hc. unfold ParseInt.
  assert (bool_decide (c = "-"%char) = false) as ->.
  { apply bool_decide_eq_false. intros ->. by vm_compute in Hc. }
  assert (bool_decide (c = "+"%char) = false) as ->.
  { apply bool_decide_eq_false. intros ->. by vm_compute in Hc. }
  cbv [orb].
  destruct (all_digits s) eqn:Hs.
  - rewrite parse_digits_all by (simpl; by rewrite Hc, Hs).
    by rewrite Z.mul_0_l, Z.add_0_l.
  - rewrite parse_digits_not_all by (simpl; by rewrite Hc, Hs). done.
Qed.

Lemma wrap_int_small (z : Z) : - 2 ^ 63 <= z < 2 ^ 63 -> wrap_int z = z.
Proof.
  intros H. unfold wrap_int. rewrite Z.mod_small; lia.
Qed.

(** ** White space *)

Lemma rev_app_nil (s acc : string) : String.rev_app s acc = String.rev s +:+ acc.
Proof. unfold String.rev. by rewrite rev_app_app, app_empty_l. Qed.

Lemma str_rev_cons (c : ascii) (s : string) :
  String.rev (String c s) = String.rev s +:+ String c "".
Proof. unfold String.rev at 1. cbn [String.rev_app]. apply rev_app_nil. Qed.

Lemma str_rev_app_distr (a b : string) :
  String.rev (a +:+ b) = String.rev b +:+ String.rev a.
Proof.
  induction a as [|c a IH].
  - rewrite app_empty_l. change (String.rev "") with "". by rewrite str_app_nil_r.
  - by rewrite app_String, !str_rev_cons, IH, str_app_assoc.
Qed.

Lemma str_rev_involutive (a : string) : String.rev (String.rev a) = a.
Proof.
  induction a as [|c a IH]; [done|].
  rewrite str_rev_cons, str_rev_app_distr, IH. reflexivity.
Qed.

Lemma HasSuffix_app (t r : string) : HasSuffix (t +:+ r) r = true.
Proof. unfold HasSuffix. rewrite str_rev_app_distr. apply HasPrefix_app. Qed.

Lemma HasSuffix_inv (s r : string) :
  HasSuffix s r = true ->
  s = str_take (String.length s - String.length r) s +:+ r.
Proof.
  unfold HasSuffix. intros H. apply HasPrefix_inv in H.
  set (x := str_drop (String.length (String.rev r)) (String.rev s)) in H.
  assert (s = String.rev x +:+ r) as E.
  { rewrite <- (str_rev_involutive s), H, str_rev_app_distr. by rewrite str_rev_involutive. }
  clearbody x. clear H. subst s. rewrite str_app_length.
  replace (String.length (String.rev x) + String.length r - String.length r)%nat
    with (String.length (String.rev x)) by lia.
  by rewrite str_take_app.
Qed.

Lemma space_runes_nonempty (r : string) : r ∈ space_runes -> r <> "".
Proof.
  intros Hr ->. apply list_elem_of_In in Hr.
  assert (forallb (fun r => negb (streq r "")) space_runes = true) as H
    by (vm_compute; reflexivity).
  rewrite forallb_forall in H. specialize (H _ Hr). done.
Qed.

Lemma white_app (a b : string) : white a -> white b -> white (a +:+ b).
Proof.
  induction 1 as [|r w Hr Hw IH]; intros Hb; [by rewrite app_empty_l|].
  rewrite str_app_assoc. apply white_cons; [done|]. by apply IH.
Qed.

Lemma white_rune (r : string) : r ∈ space_runes -> white r.
Proof.
  intros Hr. rewrite <- (str_app_nil_r r). apply white_cons; [done|apply white_nil].
Qed.

Lemma drop_space_Some (s s' : string) :
  drop_space s = Some s' -> exists r, r ∈ space_runes /\ s = r +:+ s'.
Proof.
  unfold drop_space.
  destruct (filter (fun r => HasPrefix s r = true) space_runes) as [|r l] eqn:E; [done|].
  intros [= <-].
  assert (r ∈ filter (fun r => HasPrefix s r = true) space_runes) as Hin
    by (rewrite E; left).
  apply list_elem_of_filter in Hin as [Hp Hin]. exists r. split; [done|].
  by apply HasPrefix_inv.
Qed.

Lemma drop_space_None (s : string) :
  drop_space s = None -> forall r t, r ∈ space_runes -> s <> r +:+ t.
Proof.
  unfold drop_space.
  destruct (filter (fun r => HasPrefix s r = true) space_runes) as [|r0 l] eqn:E; [|done].
  intros _ r t Hr ->.
  assert (r ∈ filter (fun r0 => HasPrefix (r +:+ t) r0 = true) space_runes) as Hin
    by (apply list_elem_of_filter; split; [apply HasPrefix_app|done]).
  rewrite E in Hin. by apply elem_of_nil in Hin.
Qed.

Lemma drop_last_space_Some (s s' : string) :
  drop_last_space s = Some s' -> exists r, r ∈ space_runes /\ s = s' +:+ r.
Proof.
  unfold drop_last_space.
  destruct (filter (fun r => HasSuffix s r = true) space_runes) as [|r l] eqn:E; [done|].
  intros [= <-].
  assert (r ∈ filter (fun r => HasSuffix s r = true) space_runes) as Hin
    by (rewrite E; left).
  apply list_elem_of_filter in Hin as [Hp Hin]. exists r. split; [done|].
  by apply HasSuffix_inv.
Qed.

Lemma drop_last_space_None (s : string) :
  drop_last_space s = None -> forall r t, r ∈ space_runes -> s <> t +:+ r.
Proof.
  unfold drop_last_space.
  destruct (filter (fun r => HasSuffix s r = true) space_runes) as [|r0 l] eqn:E; [|done].
  intros _ r t Hr ->.
  assert (r ∈ filter (fun r0 => HasSuffix (t +:+ r) r0 = true) space_runes) as Hin
    by (apply list_elem_of_filter; split; [apply HasSuffix_app|done]).
  rewrite E in Hin. by apply elem_of_nil in Hin.
Qed.

(** The loop that trims the start of a string removes a sequence of
    white-space runes and ends where no such rune starts the string. *)
Lemma trim_leading (fuel : nat) (s : string) :
  (String.length s <= fuel)%nat ->
  exists l, white l /\ s = l +:+ trim_with drop_space fuel s /\
            drop_space (trim_with drop_space fuel s) = None.
Proof.
  revert s. induction fuel as [|fuel IH]; intros s Hlen.
  - destruct s; [|simpl in Hlen; lia]. exists "". split; [apply white_nil|].
    split; [done|]. by vm_compute.
  - cbn [trim_with]. destruct (drop_space s) as [s'|] eqn:E.
    + apply drop_space_Some in E as (r & Hr & ->).
      pose proof (space_runes_nonempty r Hr) as Hne.
      rewrite str_app_length in Hlen.
      destruct (IH s') as (l & Hl & Es & Hd).
      { destruct r; [done|]. simpl in Hlen. lia. }
      exists (r +:+ l). split; [by apply white_cons|]. split; [|done].
      rewrite str_app_assoc. by rewrite <- Es.
    + exists "". split; [apply white_nil|]. done.
Qed.

Lemma trim_trailing (fuel : nat) (s : string) :
  (String.length s <= fuel)%nat ->
  exists r, white r /\ s = trim_with drop_last_space fuel s +:+ r /\
            drop_last_space (trim_with drop_last_space fuel s) = None.
Proof.
  revert s. induction fuel as [|fuel IH]; intros s Hlen.
  - destruct s; [|simpl in Hlen; lia]. exists "". split; [apply white_nil|].
    split; [done|]. by vm_compute.
  - cbn [trim_with]. destruct (drop_last_space s) as [s'|] eqn:E.
    + apply drop_last_space_Some in E as (r & Hr & ->).
      pose proof (space_runes_nonempty r Hr) as Hne.
      rewrite str_app_length in Hlen.
      destruct (IH s') as (w & Hw & Es & Hd).
      { destruct r; [done|]. simpl in Hlen. lia. }
      exists (w +:+ r). split; [apply white_app; [done|by apply white_rune]|].
      split; [|done]. rewrite <- str_app_assoc. by rewrite <- Es.
    + exists "". split; [apply white_nil|]. by rewrite str_app_nil_r.
Qed.

(** [strings.TrimSpace] takes a sequence of white-space runes off the
    start and one off the end, and what is left neither starts nor ends
    with a white-space rune. *)
Lemma TrimSpace_spec (f : string) :
  exists l r, f = l +:+ TrimSpace f +:+ r /\ white l /\ white r /\
              trimmed (TrimSpace f).
Proof.
  unfold TrimSpace. cbv zeta.
  destruct (trim_leading (String.length f) f ltac:(lia)) as (l & Hl & Ef & Hd).
  set (e1 := trim_with drop_space (String.length f) f) in *.
  destruct (trim_trailing (String.length e1) e1 ltac:(lia)) as (r & Hr & Ee & Hd').
  set (e2 := trim_with drop_last_space (String.length e1) e1) in *.
  exists l, r. split; [by rewrite <- Ee|]. do 2 (split; [done|]).
  intros sp Hsp. split.
  - intros t E. apply (drop_space_None e1 Hd sp (t +:+ r) Hsp).
    by rewrite Ee, E, str_app_assoc.
  - intros t. by apply drop_last_space_None.
Qed.

(** The first entry has no comma, and the string is the entry, or the
    entry, a comma and a rest. *)
Lemma first_field_split (s : string) :
  (forall a b, first_field s <> a +:+ String "," b) /\
  (s = first_field s \/ exists rest, s = first_field s +:+ String "," rest).
Proof.
  induction s as [|c s [IH1 IH2]]; cbn [first_field].
  - split; [intros [|x a] b; done|by left].
  - destruct (decide (c = ","%char)) as [->|Hc].
    + rewrite bool_decide_eq_true_2 by done. split; [intros [|x a] b; done|].
      right. by exists s.
    + rewrite bool_decide_eq_false_2 by done. split.
      * intros [|x a] b E.
        -- rewrite app_empty_l in E. inversion E. done.
        -- rewrite app_String in E. inversion E. by apply (IH1 a b).
      * destruct IH2 as [E|(rest & E)].
        -- left. by rewrite <- E.
        -- right. exists rest. rewrite app_String. by rewrite <- E.
Qed.

(** *** White space around an entry *)

(** No white-space rune is the start or the end of another. *)
Lemma space_runes_prefix_free (r r' : string) :
  r ∈ space_runes -> r' ∈ space_runes -> HasPrefix r r' = true -> r = r'.
Proof.
  intros Hr Hr' H. apply list_elem_of_In in Hr, Hr'.
  assert (forallb (fun a => forallb (fun b => implb (HasPrefix a b) (streq a b))
                               space_runes) space_runes = true) as Hall
    by (vm_compute; reflexivity).
  rewrite forallb_forall in Hall. specialize (Hall _ Hr).
  rewrite forallb_forall in Hall. specialize (Hall _ Hr').
  rewrite H in Hall. by apply streq_true.
Qed.

Lemma space_runes_suffix_free (r r' : string) :
  r ∈ space_runes -> r' ∈ space_runes -> HasSuffix r r' = true -> r = r'.
Proof.
  intros Hr Hr' H. apply list_elem_of_In in Hr, Hr'.
  assert (forallb (fun a => forallb (fun b => implb (HasSuffix a b) (streq a b))
                               space_runes) space_runes = true) as Hall
    by (vm_compute; reflexivity).
  rewrite forallb_forall in Hall. specialize (Hall _ Hr).
  rewrite forallb_forall in Hall. specialize (Hall _ Hr').
  rewrite H in Hall. by apply streq_true.
Qed.

Lemma drop_space_rune (r t : string) :
  r ∈ space_runes -> drop_space (r +:+ t) = Some t.
Proof.
  intros Hr. unfold drop_space.
  destruct (filter (fun r0 => HasPrefix (r +:+ t) r0 = true) space_runes)
    as [|r' l] eqn:E.
  - assert (r ∈ filter (fun r0 => HasPrefix (r +:+ t) r0 = true) space_runes) as Hin
      by (apply list_elem_of_filter; split; [apply HasPrefix_app|done]).
    rewrite E in Hin. by apply elem_of_nil in Hin.
  - assert (r' ∈ filter (fun r0 => HasPrefix (r +:+ t) r0 = true) space_runes) as Hin
      by (rewrite E; left).
    apply list_elem_of_filter in Hin as [Hp Hr'].
    assert (r' = r) as ->.
    { apply HasPrefix_inv in Hp.
      destruct (str_app_eq_app _ _ _ _ Hp) as [(e & E1 & _)|(e & E1 & _)].
      - apply space_runes_prefix_free; [done|done|]. rewrite E1. apply HasPrefix_app.
      - symmetry. apply space_runes_prefix_free; [done|done|]. rewrite E1.
        apply HasPrefix_app. }
    by rewrite str_drop_app.
Qed.

Lemma drop_last_space_rune (r t : string) :
  r ∈ space_runes -> drop_last_space (t +:+ r) = Some t.
Proof.
  intros Hr. unfold drop_last_space.
  destruct (filter (fun r0 => HasSuffix (t +:+ r) r0 = true) space_runes)
    as [|r' l] eqn:E.
  - assert (r ∈ filter (fun r0 => HasSuffix (t +:+ r) r0 = true) space_runes) as Hin
      by (apply list_elem_of_filter; split; [apply HasSuffix_app|done]).
    rewrite E in Hin. by apply elem_of_nil in Hin.
  - assert (r' ∈ filter (fun r0 => HasSuffix (t +:+ r) r0 = true) space_runes) as Hin
      by (rewrite E; left).
    apply list_elem_of_filter in Hin as [Hp Hr'].
    assert (r' = r) as ->.
    { apply HasSuffix_inv in Hp.
      destruct (str_app_eq_app _ _ _ _ Hp) as [(e & E1 & E2)|(e & E1 & E2)].
      - symmetry. apply space_runes_suffix_free; [done|done|]. rewrite E2.
        apply HasSuffix_app.
      - apply space_runes_suffix_free; [done|done|]. rewrite E2. apply HasSuffix_app. }
    rewrite str_app_length.
    replace (String.length t + String.length r - String.length r)%nat
      with (String.length t) by lia.
    by rewrite str_take_app.
Qed.

Lemma drop_space_solid (c : ascii) (t : string) :
  no_rune_starts c = true -> drop_space (String c t) = None.
Proof.
  intros Hc. unfold drop_space.
  destruct (filter (fun r0 => HasPrefix (String c t) r0 = true) space_runes)
    as [|r' l] eqn:E; [done|].
  assert (r' ∈ filter (fun r0 => HasPrefix (String c t) r0 = true) space_runes) as Hin
    by (rewrite E; left).
  apply list_elem_of_filter in Hin as [Hp Hr'].
  pose proof (space_runes_nonempty r' Hr') as Hne.
  unfold no_rune_starts in Hc. rewrite forallb_forall in Hc.
  specialize (Hc r' (proj1 (list_elem_of_In _ _) Hr')).
  destruct r' as [|c1 r1]; [done|]. cbn [HasPrefix] in Hp, Hc.
  apply andb_true_iff in Hp as [Hp _]. apply bool_decide_eq_true in Hp. subst c1.
  rewrite bool_decide_eq_true_2 in Hc by done. done.
Qed.

Lemma drop_last_space_solid (c : ascii) (t : string) :
  no_rune_ends c = true -> drop_last_space (t +:+ String c "") = None.
Proof.
  intros Hc. unfold drop_last_space.
  destruct (filter (fun r0 => HasSuffix (t +:+ String c "") r0 = true) space_runes)
    as [|r' l] eqn:E; [done|].
  assert (r' ∈ filter (fun r0 => HasSuffix (t +:+ String c "") r0 = true) space_runes)
    as Hin by (rewrite E; left).
  apply list_elem_of_filter in Hin as [Hp Hr'].
  pose proof (space_runes_nonempty r' Hr') as Hne.
  unfold no_rune_ends in Hc. rewrite forallb_forall in Hc.
  specialize (Hc r' (proj1 (list_elem_of_In _ _) Hr')).
  apply HasSuffix_inv in Hp.
  assert (HasSuffix r' (String c "") = true) as Hs; [|by rewrite Hs in Hc].
  destruct (str_app_eq_app _ _ _ _ Hp) as [(e & E1 & E2)|(e & E1 & E2)].
  - destruct e as [|x e].
    + rewrite app_empty_l in E2. rewrite <- E2. apply (HasSuffix_app "").
    + rewrite app_String in E2. inversion E2 as [[Hx He]].
      destruct e; [|done]. by rewrite app_empty_l in He.
  - rewrite E2. apply HasSuffix_app.
Qed.

(** A sequence of white-space runes, as the list of its runes. *)
Lemma white_runes (w : string) :
  white w <->
  exists rs, Forall (fun r => r ∈ space_runes) rs /\ w = foldr String.append "" rs.
Proof.
  split.
  - induction 1 as [|r w Hr Hw (rs & Hrs & ->)].
    + by exists [].
    + exists (r :: rs). split; [by apply Forall_cons|done].
  - intros (rs & Hrs & ->). induction Hrs as [|r rs Hr Hrs IH]; [apply white_nil|].
    by apply white_cons.
Qed.

Lemma foldr_append_snoc (rs : list string) (r : string) :
  foldr String.append "" (rs ++ [r]) = foldr String.append "" rs +:+ r.
Proof.
  induction rs as [|x rs IH]; cbn [foldr app].
  - by rewrite str_app_nil_r.
  - rewrite IH. by rewrite str_app_assoc.
Qed.

Lemma trim_leading_white (l x : string) (fuel : nat) :
  white l -> (String.length l <= fuel)%nat -> drop_space x = None ->
  trim_with drop_space fuel (l +:+ x) = x.
Proof.
  intros Hl. revert fuel. induction Hl as [|r w Hr Hw IH]; intros fuel Hlen Hx.
  - rewrite app_empty_l. destruct fuel; [done|]. cbn [trim_with]. by rewrite Hx.
  - pose proof (space_runes_nonempty r Hr) as Hne. rewrite str_app_length in Hlen.
    destruct fuel as [|fuel]; [destruct r; [done|simpl in Hlen; lia]|].
    cbn [trim_with]. rewrite str_app_assoc, (drop_space_rune r _ Hr).
    apply IH; [|done]. destruct r; [done|]. simpl in Hlen. lia.
Qed.

Lemma trim_trailing_white (x r : string) (fuel : nat) :
  white r -> (String.length r <= fuel)%nat -> drop_last_space x = None ->
  trim_with drop_last_space fuel (x +:+ r) = x.
Proof.
  intros Hr. apply white_runes in Hr as (rs & Hrs & ->). revert fuel.
  induction rs as [|r rs IH] using rev_ind; intros fuel Hlen Hx.
  - cbn [foldr]. rewrite str_app_nil_r. destruct fuel; [done|]. cbn [trim_with].
    by rewrite Hx.
  - apply Forall_app in Hrs as [Hrs Hr]. rewrite Forall_singleton in Hr.
    pose proof (space_runes_nonempty r Hr) as Hne.
    rewrite foldr_append_snoc in Hlen |- *. rewrite str_app_length in Hlen.
    destruct fuel as [|fuel]; [destruct r; [done|simpl in Hlen; lia]|].
    cbn [trim_with]. rewrite <- str_app_assoc, (drop_last_space_rune r _ Hr).
    apply IH; [done| |done]. destruct r; [done|]. simpl in Hlen. lia.
Qed.

(** [strings.TrimSpace] returns what lies between two sequences of
    white-space runes, when that starts with a byte that starts no such
    rune and ends with a byte that ends none. *)
Lemma TrimSpace_around (l r t : string) (c c' : ascii) :
  white l -> white r -> no_rune_starts c = true -> no_rune_ends c' = true ->
  TrimSpace (l +:+ (String c t +:+ String c' "") +:+ r)
  = String c t +:+ String c' "".
Proof.
  intros Hl Hr Hc Hc'. unfold TrimSpace. cbv zeta.
  rewrite (trim_leading_white l _ _ Hl).
  - apply (trim_trailing_white _ r _ Hr).
    + rewrite str_app_length. lia.
    + by apply drop_last_space_solid.
  - rewrite str_app_length. lia.
  - rewrite !app_String. by apply drop_space_solid.
Qed.

(** *** Commas *)

Lemma first_field_app (a b : string) :
  first_field a = a -> first_field (a +:+ b) = a +:+ first_field b.
Proof.
  induction a as [|c a IH]; [done|]. cbn [first_field]. rewrite app_String.
  cbn [first_field]. destruct (bool_decide (c = ","%char)); [done|].
  intros E. inversion E as [E']. rewrite E'. by rewrite IH.
Qed.

Lemma first_field_white (w : string) : white w -> first_field w = w.
Proof.
  induction 1 as [|r w Hr Hw IH]; [done|].
  rewrite first_field_app, IH; [done|].
  apply list_elem_of_In in Hr.
  assert (forallb (fun r => streq (first_field r) r) space_runes = true) as Hall
    by (vm_compute; reflexivity).
  rewrite forallb_forall in Hall. apply streq_true. by apply Hall.
Qed.

Lemma first_field_digits (ds : string) : all_digits ds = true -> first_field ds = ds.
Proof.
  induction ds as [|c ds IH]; [done|]. cbn [all_digits first_field]. intros H.
  apply andb_true_iff in H as [Hc Hds].
  rewrite bool_decide_eq_false_2; [by rewrite IH|].
  intros ->. by vm_compute in Hc.
Qed.

(** A digit ends no white-space rune. *)
Lemma digit_no_rune_ends (c : ascii) : is_digit c = true -> no_rune_ends c = true.
Proof.
  destruct c as [[] [] [] [] [] [] [] []]; intros H;
    solve [by vm_compute in H | by vm_compute].
Qed.

Lemma digits_last (ds : string) :
  ds <> "" -> all_digits ds = true ->
  exists t c, ds = t +:+ String c "" /\ is_digit c = true.
Proof.
  induction ds as [|c ds IH]; [done|]. intros _ H. cbn [all_digits] in H.
  apply andb_true_iff in H as [Hc Hds]. destruct ds as [|c' ds'].
  - by exists "", c.
  - destruct (IH ltac:(done) Hds) as (t & c0 & E & Hc0). exists (String c t), c0.
    rewrite app_String. by rewrite <- E.
Qed.

(** ** parseTimeout *)

(** The result of [parseTimeout] on the trimmed first entry. *)
Lemma parseTimeout_entry (s : string) :
  s <> "" ->
  parseTimeout s =
    let e := TrimSpace (first_field s) in
    if streq e "Infinite" then Ok infiniteTimeout
    else if negb (HasPrefix e "Second-") then Err errInvalidTimeout
    else
      let ds := str_drop 7 e in
      if streq ds "" || negb (all_digits ds) || (2 ^ 32 - 1 <? decimal ds)
      then Err errInvalidTimeout
      else Ok (decimal ds * Second).
Proof.
  intros Hs. unfold parseTimeout.
  rewrite (proj2 (streq_false s "") Hs).
  rewrite first_field_IndexByte. cbv zeta.
  generalize (TrimSpace (first_field s)). intros e.
  destruct (streq e "Infinite"); [done|].
  destruct (HasPrefix e "Second-"); [|done].
  change (String.length "Second-") with 7%nat.
  generalize (str_drop 7 e). intros [|c ds]; [done|].
  rewrite (proj2 (streq_false (String c ds) "")) by done.
  cbn [negb].
  destruct (is_digit c) eqn:Hc.
  2:{ cbn [all_digits]. rewrite Hc. done. }
  cbn [negb].
  rewrite ParseInt_digits by done.
  cbn [all_digits]. rewrite Hc.
  destruct (all_digits ds) eqn:Hds; [|done].
  change (false || negb (true && true)) with false.
  assert (0 <= decimal (String c ds)) as Hnn.
  { apply decimal_nonneg. cbn [all_digits]. by rewrite Hc, Hds. }
  destruct (decimal (String c ds) <? 2 ^ 63) eqn:E63.
  - destruct (2 ^ 32 - 1 <? decimal (String c ds)) eqn:E32; [done|].
    apply Z.ltb_ge in E32. f_equal. apply wrap_int_small.
    unfold Second. lia.
  - apply Z.ltb_ge in E63.
    assert ((2 ^ 32 - 1 <? decimal (String c ds)) = true) as -> by (apply Z.ltb_lt; lia).
    done.
Qed.

(** C9. [parseTimeout] looks only at the first comma-separated entry of
    its input: the part before the first comma, or the whole input where
    it has none. The entry is trimmed: a sequence of white-space runes is
    taken off its start and one off its end, and what is left neither
    starts nor ends with a white-space rune. The empty input and the
    trimmed entry [Infinite] give the infinite timeout; the trimmed entry
    [Second-] followed by one or more digits of value n, at most 2^32-1,
    gives n seconds; every other entry fails with no partial result. Thus
    [Second-120] gives 120 seconds, also with blanks, tabs or a
    no-break space around it and with further entries after a comma, and
    [Second-4294967296] fails, as does white space inside the entry. *)
Theorem parseTimeout_spec :
  parseTimeout "" = Ok infiniteTimeout /\
  (forall s : string, s <> "" ->
     let f := first_field s in
     let e := TrimSpace f in
     ((forall a b, f <> a +:+ String "," b) /\
      (s = f \/ exists rest, s = f +:+ String "," rest)) /\
     (exists l r, f = l +:+ e +:+ r /\ white l /\ white r /\ trimmed e) /\
     (e = "Infinite" -> parseTimeout s = Ok infiniteTimeout) /\
     (forall ds : string,
        e = "Second-" +:+ ds -> ds <> "" -> all_digits ds = true ->
        decimal ds <= 2 ^ 32 - 1 ->
        parseTimeout s = Ok (decimal ds * Second)) /\
     (e <> "Infinite" ->
      (forall ds : string,
         e = "Second-" +:+ ds ->
         ds = "" \/ all_digits ds = false \/ 2 ^ 32 - 1 < decimal ds) ->
      parseTimeout s = Err errInvalidTimeout)) /\
  (forall l r ds rest : string,
     white l -> white r -> ds <> "" -> all_digits ds = true ->
     decimal ds <= 2 ^ 32 - 1 ->
     parseTimeout (l +:+ "Second-" +:+ ds +:+ r) = Ok (decimal ds * Second) /\
     parseTimeout (l +:+ "Second-" +:+ ds +:+ r +:+ String "," rest)
     = Ok (decimal ds * Second)) /\
  parseTimeout "Infinite" = Ok infiniteTimeout /\
  parseTimeout "Second-120" = Ok (120 * Second) /\
  parseTimeout "  Second-120 , Infinite" = Ok (120 * Second) /\
  parseTimeout (String "009" "Infinite" +:+ String "013" (String "010" ""))
  = Ok infiniteTimeout /\
  parseTimeout (bytes [194; 160] +:+ "Second-5") = Ok (5 * Second) /\
  parseTimeout "Second- 5" = Err errInvalidTimeout /\
  parseTimeout " " = Err errInvalidTimeout /\
  parseTimeout "Second-4294967296" = Err errInvalidTimeout /\
  parseTimeout "garbage" = Err errInvalidTimeout.
Proof.
  assert (forall s : string, s <> "" ->
     let f := first_field s in
     let e := TrimSpace f in
     (e = "Infinite" -> parseTimeout s = Ok infiniteTimeout) /\
     (forall ds : string,
        e = "Second-" +:+ ds -> ds <> "" -> all_digits ds = true ->
        decimal ds <= 2 ^ 32 - 1 ->
        parseTimeout s = Ok (decimal ds * Second)) /\
     (e <> "Infinite" ->
      (forall ds : string,
         e = "Second-" +:+ ds ->
         ds = "" \/ all_digits ds = false \/ 2 ^ 32 - 1 < decimal ds) ->
      parseTimeout s = Err errInvalidTimeout)) as Hcases.
  { intros s Hs f e. rewrite (parseTimeout_entry s Hs). fold f. fold e. cbv zeta.
    split; [|split].
    - intros He. by rewrite (proj2 (streq_true e "Infinite") He).
    - intros ds He Hne Hall Hle.
      assert (streq e "Infinite" = false) as ->.
      { apply streq_false. rewrite He. done. }
      rewrite He. rewrite (HasPrefix_app "Second-" ds). cbn [negb].
      change 7%nat with (String.length "Second-"). rewrite str_drop_app.
      rewrite (proj2 (streq_false ds "") Hne), Hall. simpl.
      assert ((2 ^ 32 - 1 <? decimal ds) = false) as -> by (apply Z.ltb_ge; lia).
      done.
    - intros Hne Hbad.
      rewrite (proj2 (streq_false e "Infinite") Hne).
      destruct (HasPrefix e "Second-") eqn:Hp; cbn [negb]; [|done].
      apply HasPrefix_inv in Hp. change (String.length "Second-") with 7%nat in Hp.
      destruct (Hbad _ Hp) as [H|[H|H]].
      + by rewrite H.
      + rewrite H. simpl. by rewrite orb_true_r.
      + apply Z.ltb_lt in H. rewrite H. by rewrite orb_true_r. }
  split; [done|]. split; [|split; [|by vm_compute]].
  - intros s Hs f e. split; [apply first_field_split|]. split; [apply TrimSpace_spec|].
    apply (Hcases s Hs).
  - intros l r ds rest Hl Hr Hne Hall Hle.
    destruct (digits_last ds Hne Hall) as (t & c & Eds & Hc).
    assert (TrimSpace (l +:+ "Second-" +:+ ds +:+ r) = "Second-" +:+ ds) as Htrim.
    { rewrite Eds.
      change ("Second-" +:+ t +:+ String c "")
        with (String "S" ("econd-" +:+ t) +:+ String c "").
      assert (l +:+ "Second-" +:+ (t +:+ String c "") +:+ r
              = l +:+ (String "S" ("econd-" +:+ t) +:+ String c "") +:+ r) as ->
        by (cbn; by rewrite !str_app_assoc).
      apply TrimSpace_around; [done|done|by vm_compute|by apply digit_no_rune_ends]. }
    assert (first_field (l +:+ "Second-" +:+ ds +:+ r) = l +:+ "Second-" +:+ ds +:+ r)
      as Hfield.
    { rewrite first_field_app by (by apply first_field_white).
      rewrite (first_field_app "Second-") by done.
      rewrite first_field_app by (by apply first_field_digits).
      by rewrite first_field_white. }
    assert (forall s, s <> "" -> first_field s = l +:+ "Second-" +:+ ds +:+ r ->
              parseTimeout s = Ok (decimal ds * Second)) as Hgo.
    { intros s Hs Hf. apply (Hcases s Hs); [|done|done|done]. cbv zeta.
      by rewrite Hf. }
    assert (forall x, l +:+ "Second-" +:+ ds +:+ x <> "") as Hnonempty.
    { intros x. destruct l; [done|]. rewrite app_String. done. }
    split.
    + apply Hgo; [apply Hnonempty|done].
    + apply Hgo; [apply Hnonempty|].
      assert (l +:+ "Second-" +:+ ds +:+ r +:+ String "," rest
              = (l +:+ "Second-" +:+ ds +:+ r) +:+ String "," rest) as ->
        by (by rewrite !str_app_assoc).
      rewrite first_field_app by done. cbn [first_field].
      rewrite bool_decide_eq_true_2 by done. by rewrite str_app_nil_r.
Qed.

Lemma parseTimeout_spec_witness :
  "  Second-120 , Infinite" <> "" /\
  parseTimeout "  Second-120 , Infinite" = Ok (decimal "120" * Second) /\
  exists l r,
    first_field "  Second-120 , Infinite"
    = l +:+ TrimSpace (first_field "  Second-120 , Infinite") +:+ r /\
    white l /\ white r /\
    trimmed (TrimSpace (first_field "  Second-120 , Infinite")).
Proof.
  assert ("  Second-120 , Infinite" <> "") as Hne by done.
  split; [exact Hne|].
  destruct (proj1 (proj2 parseTimeout_spec) "  Second-120 , Infinite" Hne)
    as (_ & Htrim & _ & Hsec & _).
  split; [|exact Htrim].
  apply (Hsec "120"); [by vm_compute|done|by vm_compute|by vm_compute].
Defined.


(** * Time *)

(** Within the range of [time.Time], [Add] is the sum. *)
Lemma Add_exact (t : Time) (d : Duration) :
  time_ok t -> time_ok (t + d) -> Add t d = t + d.
Proof.
  unfold time_ok, Add. intros Ht Htd. cbv zeta.
  change (10 ^ 9) with 1000000000 in *.
  change (2 ^ 63) with 9223372036854775808 in *.
  set (sec := t / 1000000000).
  set (n0 := t mod 1000000000).
  set (dq := Z.quot d 1000000000).
  set (dr := Z.rem d 1000000000).
  assert (t = 1000000000 * sec + n0 /\ 0 <= n0 < 1000000000) as [Et Hn0].
  { subst sec n0. split; [apply Z.div_mod; lia|apply Z.mod_pos_bound; lia]. }
  assert (d = 1000000000 * dq + dr /\ -1000000000 < dr < 1000000000) as [Ed Hdr].
  { subst dq dr. split; [apply Z.quot_rem'|].
    pose proof (Z.rem_bound_abs d 1000000000). lia. }
  clearbody sec n0 dq dr.
  set (ds := if 1000000000 <=? n0 + dr then dq + 1
             else if n0 + dr <? 0 then dq - 1 else dq).
  set (ns := if 1000000000 <=? n0 + dr then n0 + dr - 1000000000
             else if n0 + dr <? 0 then n0 + dr + 1000000000 else n0 + dr).
  assert (1000000000 * ds + ns = 1000000000 * dq + (n0 + dr) /\ 0 <= ns < 1000000000)
    as [Es Hns].
  { subst ds ns. destruct (1000000000 <=? n0 + dr) eqn:E1.
    - apply Z.leb_le in E1. lia.
    - apply Z.leb_gt in E1. destruct (n0 + dr <? 0) eqn:E2.
      + apply Z.ltb_lt in E2. lia.
      + apply Z.ltb_ge in E2. lia. }
  clearbody ds ns.
  assert (- 9223372036854775808 <= sec + ds < 9223372036854775808) as Hr by lia.
  assert (- 9223372036854775808 <= sec < 9223372036854775808) as Hs by lia.
  rewrite (wrap_int_small (sec + ds))
    by (change (2 ^ 63) with 9223372036854775808; lia).
  assert (Bool.eqb (sec <? sec + ds) (0 <? ds) = true) as ->.
  { destruct (0 <? ds) eqn:E.
    - apply Z.ltb_lt in E. assert ((sec <? sec + ds) = true) as -> by (apply Z.ltb_lt; lia).
      done.
    - apply Z.ltb_ge in E. assert ((sec <? sec + ds) = false) as -> by (apply Z.ltb_ge; lia).
      done. }
  lia.
Qed.

(** A duration that is not negative does not move an instant back, within
    the range of [time.Time]. *)
Lemma Add_later (t : Time) (d : Duration) :
  time_ok t -> time_ok (t + d) -> 0 < d -> t < Add t d.
Proof. intros Ht Htd Hd. rewrite Add_exact by done. lia. Qed.

(** At the end of the range the seconds saturate: ten seconds after the
    instant five seconds before the last second is the last second. *)
Lemma Add_saturates :
  Add ((2 ^ 63 - 6) * 10 ^ 9) (10 * 10 ^ 9) = (2 ^ 63 - 1) * 10 ^ 9 /\
  Add (- (2 ^ 63 - 6) * 10 ^ 9) (- (10 * 10 ^ 9)) = - (2 ^ 63 - 1) * 10 ^ 9.
Proof. split; vm_compute; reflexivity. Qed.


(** ** The monad *)

Lemma bind_Some {A B} (m : M A) (k : A -> M B) (s s' : memLS) (r : B) :
  bind m k s = Some (r, s') <->
  exists x s1, m s = Some (x, s1) /\ k x s1 = Some (r, s').
Proof.
  unfold bind. split.
  - destruct (m s) as [[x s1]|]; [|done]. intros H. by exists x, s1.
  - intros (x & s1 & -> & H). done.
Qed.

Lemma bind_eq {A B} (m : M A) (k : A -> M B) (s s1 : memLS) (x : A) :
  m s = Some (x, s1) -> bind m k s = k x s1.
Proof. unfold bind. by intros ->. Qed.

Lemma bind_None {A B} (m : M A) (k : A -> M B) (s : memLS) :
  m s = None -> bind m k s = None.
Proof. unfold bind. by intros ->. Qed.

Lemma ret_eq {A} (x : A) (s : memLS) : ret x s = Some (x, s).
Proof. reflexivity. Qed.

Lemma gets_eq {A} (f : memLS -> A) (s : memLS) : gets f s = Some (f s, s).
Proof. reflexivity. Qed.

Lemma modify_eq (f : memLS -> memLS) (s : memLS) : modify f s = Some (tt, f s).
Proof. reflexivity. Qed.

Lemma load_eq (a : ptr) (n : memLSNode) (s : memLS) :
  store s !! a = Some n -> load a s = Some (n, s).
Proof. unfold load. by intros ->. Qed.

Lemma update_eq (a : ptr) (f : memLSNode -> memLSNode) (n : memLSNode) (s : memLS) :
  store s !! a = Some n ->
  update a f s = Some (tt, with_store (<[a := f n]> (store s)) s).
Proof. unfold update. by intros ->. Qed.

Lemma readonly_bind {A B} (m : M A) (k : A -> M B) :
  readonly m -> (forall x, readonly (k x)) -> readonly (bind m k).
Proof.
  intros Hm Hk s r s' H. apply bind_Some in H as (x & s1 & H1 & H2).
  apply Hm in H1. subst s1. by apply Hk in H2.
Qed.

Lemma readonly_ret {A} (x : A) : readonly (ret x).
Proof. intros s r s' H. by inversion H. Qed.

Lemma readonly_gets {A} (f : memLS -> A) : readonly (gets f).
Proof. intros s r s' H. by inversion H. Qed.

Lemma readonly_load (a : ptr) : readonly (load a).
Proof.
  intros s r s' H. unfold load in H. destruct (store s !! a); by inversion H.
Qed.

Lemma readonly_panic {A} : readonly (@panic A).
Proof. intros s r s' H. done. Qed.

Lemma readonly_walkToRoot_loop {A} (f : string -> bool -> A -> M (bool * A)) :
  (forall name first acc, readonly (f name first acc)) ->
  forall fuel name first acc, readonly (walkToRoot_loop fuel name first f acc).
Proof.
  intros Hf fuel. induction fuel as [|fuel IH]; intros name first acc.
  - apply readonly_panic.
  - simpl. apply readonly_bind; [apply Hf|]. intros r.
    destruct (negb (fst r)); [apply readonly_ret|].
    destruct (streq name "/"); [apply readonly_ret|].
    destruct (parentName name); [apply IH|apply readonly_panic].
Qed.

Lemma readonly_canCreate_visitor (zeroDepth : bool) (name0 : string)
    (first : bool) (acc : unit) :
  readonly (canCreate_visitor zeroDepth name0 first acc).
Proof.
  unfold canCreate_visitor.
  apply readonly_bind; [apply readonly_gets|]. intros [a|]; [|apply readonly_ret].
  apply readonly_bind; [apply readonly_load|]. intros na.
  repeat match goal with
         | |- readonly (if ?b then _ else _) => destruct b
         | |- readonly (ret _) => apply readonly_ret
         end.
Qed.

Lemma readonly_canCreate (name : string) (zeroDepth : bool) :
  readonly (canCreate name zeroDepth).
Proof.
  unfold canCreate. apply readonly_bind; [|intros; apply readonly_ret].
  apply readonly_walkToRoot_loop. apply readonly_canCreate_visitor.
Qed.

Lemma readonly_lookup (name : string) (conditions : list Condition) :
  readonly (lookup name conditions).
Proof.
  induction conditions as [|c rest IH]; simpl; [apply readonly_ret|].
  apply readonly_bind; [apply readonly_gets|]. intros [a|]; [|apply IH].
  apply readonly_bind; [apply readonly_load|]. intros na.
  repeat match goal with
         | |- readonly (if ?b then _ else _) => destruct b
         | |- readonly (ret _) => apply readonly_ret
         | |- _ => apply IH
         end.
Qed.

(** ** Create leaves no trace when it fails *)

(** C10. Whenever [Create] returns [ErrLocked], the state it leaves is the
    state that the expiry sweep at its start produced: no node is created,
    no [refCount] changed, [gen] is not advanced, no token is registered
    and the expiry queue is as the sweep left it. *)
Theorem Create_Locked_atomic (s s' : memLS) (now : Time) (d : LockDetails) :
  Create now d s = Some (Err ErrLocked, s') ->
  collectExpiredNodes now s = Some (tt, s').
Proof.
  unfold Create. intros H.
  apply bind_Some in H as ([] & s1 & Hsweep & H).
  apply bind_Some in H as (ok & s2 & Hcan & H).
  apply readonly_canCreate in Hcan as Hs2. subst s2.
  destruct ok; simpl in H.
  - exfalso.
    apply bind_Some in H as (r & s3 & _ & H).
    destruct r as [n|]; [|done].
    repeat (apply bind_Some in H as (? & ? & _ & H)).
    by inversion H.
  - inversion H. by subst.
Qed.

Lemma Create_Locked_atomic_witness :
  exists s s' : memLS,
    Create 0 (mkLockDetails "/a" (-1) "" true) (NewMemLS 100) = Some (Ok "101", s) /\
    Create 1 (mkLockDetails "/a" 5 "" false) s = Some (Err ErrLocked, s') /\
    collectExpiredNodes 1 s = Some (tt, s').
Proof.
  eexists _, _. split; [vm_compute; reflexivity|].
  split; [vm_compute; reflexivity|].
  apply (Create_Locked_atomic _ _ 1 (mkLockDetails "/a" 5 "" false)).
  vm_compute. reflexivity.
Defined.


(** ** GetByName below a zero-depth lock *)

(** C2. With a zero-depth lock at [/a] as the only lock, [GetByName] of
    [/a/b/c] returns the token and details of that lock, whatever the
    clock reads, where the specification has [ErrNoSuchLock]. *)
Theorem GetByName_zero_depth_ancestor :
  exists (tok : string) (s1 : memLS),
    Create 0 (mkLockDetails "/a" (-1) "" true) (NewMemLS 100)
      = Some (Ok tok, s1) /\
    forall wall : Time,
      GetByName wall "/a/b/c" s1
        = Some (Ok (tok, 0, mkLockDetails "/a" (-1) "" true), s1).
Proof.
  eexists _, _. split; [vm_compute; reflexivity|].
  intros wall. reflexivity.
Qed.

(** With a lock of infinite depth at [/a] instead, the same call returns
    that lock, as the specification has it. *)
Lemma GetByName_infinite_depth_ancestor :
  exists (tok : string) (s1 : memLS),
    Create 0 (mkLockDetails "/a" (-1) "" false) (NewMemLS 100)
      = Some (Ok tok, s1) /\
    forall wall : Time,
      GetByName wall "/a/b/c" s1
        = Some (Ok (tok, 0, mkLockDetails "/a" (-1) "" false), s1).
Proof.
  eexists _, _. split; [vm_compute; reflexivity|].
  intros wall. reflexivity.
Qed.

(** ** The clock *)

Lemma exec_wall (w1 w2 : Time) (o : Op) :
  ~ reads_clock o -> exec w1 o = exec w2 o.
Proof. destruct o; simpl; done. Qed.

(** C8, as the code has it. The outcome of a sequence of calls (replies
    and final state) is a function of the state the manager starts in, of
    the operations with their [now] arguments, and of the clock readings
    during the [GetByName] calls; the clock readings during all other
    calls have no influence. *)
Theorem run_same_calls (c1 c2 : list (Time * Op)) (s : memLS) :
  same_calls c1 c2 -> run c1 s = run c2 s.
Proof.
  intros H. revert s. induction H as [|[w1 o1] [w2 o2] c1 c2 [Ho Hw] _ IH]; intros s.
  - reflexivity.
  - simpl in Ho, Hw. subst o2. simpl.
    assert (exec w1 o1 = exec w2 o1) as ->.
    { destruct o1; simpl in Hw; try (apply exec_wall; simpl; tauto).
      by rewrite (Hw I). }
    unfold bind. destruct (exec w2 o1 s) as [[r s1]|]; [|done].
    by rewrite IH.
Qed.

Lemma run_same_calls_witness :
  run [(1, OpCreate 0 (mkLockDetails "/a" 10 "" true)); (5, OpGetByName "/a")]
      (NewMemLS 100)
  = run [(2, OpCreate 0 (mkLockDetails "/a" 10 "" true)); (5, OpGetByName "/a")]
      (NewMemLS 100).
Proof.
  apply run_same_calls.
  repeat constructor; simpl; try done.
Defined.

(** C8, as stated, fails: the same two calls, with the same [now]
    argument, give different replies when the clock reads 5 and when it
    reads 20 during [GetByName]. *)
Lemma clock_dependence : ~ clock_independent.
Proof.
  intros H.
  specialize (H 100 100
    [(5, OpCreate 0 (mkLockDetails "/a" 10 "" true)); (5, OpGetByName "/a")]
    [(5, OpCreate 0 (mkLockDetails "/a" 10 "" true)); (20, OpGetByName "/a")]
    eq_refl).
  vm_compute in H. discriminate.
Qed.


(** ** Names and their ancestors *)

Lemma LastIndex_range (s : string) (c : ascii) :
  -1 <= LastIndex s c < Z.of_nat (String.length s).
Proof.
  induction s as [|d s IH]; simpl String.length; [simpl; lia|].
  cbn [LastIndex]. cbv zeta.
  destruct (0 <=? LastIndex s c) eqn:E.
  - apply Z.leb_le in E. lia.
  - case_bool_decide; lia.
Qed.

Lemma absolute_inv (name : string) :
  absolute name -> exists rest, name = String "/"%char rest.
Proof.
  unfold absolute. destruct name as [|c rest]; cbn [HasPrefix]; [done|].
  rewrite andb_true_r. intros H. apply bool_decide_eq_true in H. subst c. by exists rest.
Qed.

Lemma absolute_String (rest : string) : absolute (String "/"%char rest).
Proof. unfold absolute. cbn [HasPrefix]. by rewrite bool_decide_eq_true_2. Qed.

Lemma LastIndex_absolute (name : string) :
  absolute name -> 0 <= LastIndex name "/"%char.
Proof.
  intros (rest & ->)%absolute_inv. cbn [LastIndex]. cbv zeta.
  destruct (0 <=? LastIndex rest "/"%char) eqn:E.
  - apply Z.leb_le in E. lia.
  - by rewrite bool_decide_eq_true_2.
Qed.

Lemma str_take_length (n : nat) (s : string) :
  (n <= String.length s)%nat -> String.length (str_take n s) = n.
Proof.
  revert s. induction n as [|n IH]; intros s H; [by destruct s|].
  destruct s as [|c s]; simpl in *; [lia|]. rewrite IH; lia.
Qed.

Lemma parentName_absolute (name : string) :
  absolute name -> name <> "/" ->
  exists p, parentName name = Some p /\ absolute p /\
            (String.length p < String.length name)%nat.
Proof.
  intros Habs Hne. unfold parentName. cbv zeta.
  pose proof (LastIndex_absolute name Habs) as H0.
  pose proof (LastIndex_range name "/"%char) as Hr.
  assert ((LastIndex name "/" <? 0) = false) as -> by (apply Z.ltb_ge; lia).
  eexists. split; [reflexivity|].
  destruct (absolute_inv _ Habs) as (rest & ->).
  assert (rest <> "") as Hrest by (intros ->; done).
  destruct (Z.to_nat (LastIndex (String "/" rest) "/")) as [|i] eqn:Ei.
  - simpl str_take. rewrite streq_refl. split; [done|].
    destruct rest; [done|]. simpl. lia.
  - cbn [str_take]. rewrite (proj2 (streq_false _ _)) by done.
    split; [apply absolute_String|].
    simpl String.length in *. rewrite str_take_length; lia.
Qed.

(** Induction from the root down to a name. *)
Lemma absolute_ind (P : string -> Prop) :
  P "/" ->
  (forall name p, absolute name -> name <> "/" -> parentName name = Some p ->
                  absolute p -> (String.length p < String.length name)%nat ->
                  P p -> P name) ->
  forall name, absolute name -> P name.
Proof.
  intros Hroot Hstep name.
  remember (String.length name) as len eqn:Hlen.
  revert name Hlen. induction len as [len IH] using lt_wf_ind. intros name -> Habs.
  destruct (decide (name = "/")) as [->|Hne]; [done|].
  destruct (parentName_absolute name Habs Hne) as (p & Hp & Hpa & Hlt).
  eapply Hstep; eauto.
Qed.

Lemma walkPath_loop_fuel (fuel : nat) (name : string) :
  absolute name -> (String.length name < fuel)%nat ->
  walkPath_loop fuel name = walkPath name.
Proof.
  intros Habs. revert fuel.
  induction Habs as [|name p Habs Hne Hp Hpa Hlt IH] using absolute_ind; intros fuel Hf.
  - destruct fuel; [lia|]. reflexivity.
  - destruct fuel as [|fuel]; [lia|]. unfold walkPath. cbn [walkPath_loop].
    rewrite (proj2 (streq_false name "/") Hne), Hp.
    rewrite !IH by lia. done.
Qed.

Lemma walkPath_root : walkPath "/" = ["/"].
Proof. reflexivity. Qed.

Lemma walkPath_step (name p : string) :
  absolute name -> name <> "/" -> parentName name = Some p ->
  walkPath name = name :: walkPath p.
Proof.
  intros Habs Hne Hp.
  destruct (parentName_absolute name Habs Hne) as (p' & Hp' & Hpa & Hlt).
  rewrite Hp in Hp'. inversion Hp'. subst p'.
  unfold walkPath at 1. cbn [walkPath_loop].
  rewrite (proj2 (streq_false name "/") Hne), Hp.
  by rewrite walkPath_loop_fuel.
Qed.

Lemma ancestors_root : ancestors "/" = [].
Proof. reflexivity. Qed.

Lemma ancestors_step (name p : string) :
  absolute name -> name <> "/" -> parentName name = Some p ->
  ancestors name = walkPath p.
Proof. intros. unfold ancestors. by erewrite walkPath_step. Qed.

Lemma walkPath_head (name : string) : absolute name -> name ∈ walkPath name.
Proof.
  intros Habs. destruct (decide (name = "/")) as [->|Hne]; [by left|].
  destruct (parentName_absolute name Habs Hne) as (p & Hp & _).
  rewrite (walkPath_step name p) by done. by left.
Qed.

Lemma walkPath_cons (name : string) :
  absolute name -> walkPath name = name :: ancestors name.
Proof.
  intros Habs. destruct (decide (name = "/")) as [->|Hne]; [done|].
  destruct (parentName_absolute name Habs Hne) as (p & Hp & _).
  by rewrite (walkPath_step name p), (ancestors_step name p).
Qed.

(** The names on the path of an absolute name are absolute and no longer
    than the name. *)
Lemma walkPath_elem (name k : string) :
  absolute name -> k ∈ walkPath name ->
  absolute k /\ (String.length k <= String.length name)%nat.
Proof.
  intros Habs. revert k.
  induction Habs as [|name p Habs Hne Hp Hpa Hlt IH] using absolute_ind; intros k Hk.
  - rewrite walkPath_root in Hk. apply list_elem_of_singleton in Hk. by subst.
  - rewrite (walkPath_step name p) in Hk by done.
    apply elem_of_cons in Hk as [->|Hk]; [done|].
    destruct (IH k Hk). split; [done|lia].
Qed.

Lemma ancestors_shorter (name k : string) :
  absolute name -> k ∈ ancestors name ->
  absolute k /\ (String.length k < String.length name)%nat.
Proof.
  intros Habs Hk. destruct (decide (name = "/")) as [->|Hne].
  - rewrite ancestors_root in Hk. by apply elem_of_nil in Hk.
  - destruct (parentName_absolute name Habs Hne) as (p & Hp & Hpa & Hlt).
    rewrite (ancestors_step name p) in Hk by done.
    destruct (walkPath_elem p k Hpa Hk). split; [done|lia].
Qed.

Lemma not_in_ancestors (name : string) : absolute name -> name ∉ ancestors name.
Proof. intros Habs Hk. apply ancestors_shorter in Hk as [_ Hk]; [lia|done]. Qed.

Lemma walkPath_NoDup (name : string) : absolute name -> NoDup (walkPath name).
Proof.
  intros Habs.
  induction Habs as [|name p Habs Hne Hp Hpa Hlt IH] using absolute_ind.
  - rewrite walkPath_root. apply NoDup_singleton.
  - rewrite (walkPath_step name p) by done. apply NoDup_cons. split; [|done].
    intros Hk. apply walkPath_elem in Hk as [_ Hk]; [lia|done].
Qed.

(** The path of a name on the path of [name] is the rest of that path:
    the ancestors of an ancestor are ancestors. *)
Lemma walkPath_trans (name k j : string) :
  absolute name -> k ∈ walkPath name -> j ∈ walkPath k -> j ∈ walkPath name.
Proof.
  intros Habs. revert k j.
  induction Habs as [|name p Habs Hne Hp Hpa Hlt IH] using absolute_ind; intros k j Hk Hj.
  - rewrite walkPath_root in Hk. apply list_elem_of_singleton in Hk. by subst.
  - rewrite (walkPath_step name p) in Hk |- * by done.
    apply elem_of_cons in Hk as [->|Hk].
    + by rewrite (walkPath_step name p) in Hj.
    + right. by eapply IH.
Qed.

(** ** walkToRoot and the path it visits *)

(** A visitor that never stops the walk is applied to every name of the
    path in turn. *)
Lemma walkToRoot_loop_visit {A} (f : string -> bool -> A -> M (bool * A))
    (fuel : nat) (name : string) (first : bool) (acc : A) (s : memLS) :
  (forall k fst0 acc0 s0 r s1, f k fst0 acc0 s0 = Some (r, s1) -> fst r = true) ->
  absolute name -> (String.length name < fuel)%nat ->
  walkToRoot_loop fuel name first f acc s =
    (r <- walk_visit f (walkPath name) first acc ;; ret (true, r)) s.
Proof.
  intros Hf Habs. revert fuel first acc s.
  induction Habs as [|name p Habs Hne Hp Hpa Hlt IH] using absolute_ind;
    intros fuel first acc s Hfuel.
  - destruct fuel as [|fuel]; [simpl in Hfuel; lia|].
    rewrite walkPath_root. cbn [walkToRoot_loop walk_visit]. unfold bind.
    destruct (f "/" first acc s) as [[r s1]|] eqn:E; [|done].
    rewrite (Hf _ _ _ _ _ _ E). cbn [negb]. rewrite streq_refl. reflexivity.
  - destruct fuel as [|fuel]; [lia|].
    rewrite (walkPath_step name p) by done.
    cbn [walkToRoot_loop walk_visit]. unfold bind.
    destruct (f name first acc s) as [[r s1]|] eqn:E; [|done].
    rewrite (Hf _ _ _ _ _ _ E). cbn [negb].
    rewrite (proj2 (streq_false name "/") Hne), Hp.
    rewrite IH by lia. reflexivity.
Qed.

Lemma walkToRoot_visit {A} (f : string -> bool -> A -> M (bool * A))
    (name : string) (acc : A) (s : memLS) :
  (forall k fst0 acc0 s0 r s1, f k fst0 acc0 s0 = Some (r, s1) -> fst r = true) ->
  absolute name ->
  walkToRoot name f acc s =
    (r <- walk_visit f (walkPath name) true acc ;; ret (true, r)) s.
Proof.
  intros Hf Habs. unfold walkToRoot. apply walkToRoot_loop_visit; [done|done|lia].
Qed.

(** A visitor that only inspects the state: the walk returns whether
    every visit agreed. *)
Lemma walkToRoot_loop_pure {A} (f : string -> bool -> A -> M (bool * A))
    (g : string -> bool -> bool) (fuel : nat) (name : string) (first : bool)
    (acc : A) (s : memLS) :
  (forall k fst0, f k fst0 acc s = Some ((g k fst0, acc), s)) ->
  absolute name -> (String.length name < fuel)%nat ->
  walkToRoot_loop fuel name first f acc s =
    Some ((g name first && forallb (fun k => g k false) (ancestors name), acc), s).
Proof.
  intros Hf Habs. revert fuel first.
  induction Habs as [|name p Habs Hne Hp Hpa Hlt IH] using absolute_ind;
    intros fuel first Hfuel.
  - destruct fuel as [|fuel]; [simpl in Hfuel; lia|].
    cbn [walkToRoot_loop]. unfold bind. rewrite Hf. cbn [fst snd].
    rewrite ancestors_root. simpl forallb. rewrite andb_true_r.
    destruct (g "/" first); reflexivity.
  - destruct fuel as [|fuel]; [lia|].
    cbn [walkToRoot_loop]. unfold bind. rewrite Hf. cbn [fst snd].
    rewrite (ancestors_step name p) by done.
    destruct (g name first); cbn [negb andb]; [|reflexivity].
    rewrite (proj2 (streq_false name "/") Hne), Hp.
    rewrite IH by lia. by rewrite (walkPath_cons p Hpa).
Qed.


(** ** Heap order under swaps *)

Ltac dlia := zify; Z.to_euclidean_division_equations; lia.

Lemma parent_lt (k : nat) : (0 < k)%nat -> (parent k < k)%nat.
Proof. unfold parent. dlia. Qed.

Lemma parent_children (k i : nat) :
  (0 < k)%nat -> parent k = i <-> (k = 2 * i + 1 \/ k = 2 * i + 2)%nat.
Proof. unfold parent. dlia. Qed.

Lemma parent_quot (j : nat) : Z.quot (Z.of_nat j - 1) 2 = Z.of_nat (parent j).
Proof. unfold parent. dlia. Qed.

Lemma ordered_upto_le (n m : nat) (f : nat -> Z) :
  (m <= n)%nat -> ordered_upto n f -> ordered_upto m f.
Proof. intros Hle H k Hk. apply H. lia. Qed.

(** The key at position 0 of a heap is a minimum. *)
Lemma ordered_upto_min (n : nat) (f : nat -> Z) :
  ordered_upto n f -> forall k, (k < n)%nat -> f 0%nat <= f k.
Proof.
  intros H k. induction k as [k IH] using lt_wf_ind. intros Hk.
  destruct (decide (k = 0)%nat) as [->|Hne]; [lia|].
  pose proof (parent_lt k ltac:(lia)) as Hp.
  specialize (IH (parent k) Hp ltac:(lia)).
  specialize (H k ltac:(lia)). lia.
Qed.

(** [f a = f b] whenever [a = b], for the arithmetic solver. *)
Ltac fc f a b := assert (a = b -> f a = f b) by congruence.
Ltac pc a b := assert (a = b -> parent a = parent b) by congruence.

Lemma up_inv_step (n j : nat) (f : nat -> Z) :
  up_inv n j f -> (0 < j < n)%nat -> f j < f (parent j) ->
  up_inv n (parent j) (fswap (parent j) j f).
Proof.
  intros [H1 H2] Hj Hlt.
  pose proof (parent_lt j ltac:(lia)) as Hpj.
  split.
  - intros k Hk Hne. unfold fswap.
    pose proof (parent_lt k ltac:(lia)) as Hpk.
    pose proof (H1 k Hk) as Ha. pose proof (H2 k ltac:(lia) Hk) as Hb.
    fc f k j. fc f (parent k) (parent j). fc f (parent k) j. pc k j.
    repeat case_decide; lia.
  - intros k Hpos Hk Hpar. unfold fswap.
    pose proof (parent_lt (parent j) Hpos) as Hppj.
    pose proof (parent_lt k ltac:(lia)) as Hpk.
    pose proof (H1 (parent j) ltac:(lia) ltac:(lia)) as Hpp.
    pose proof (H1 k Hk) as Ha.
    fc f k j. fc f (parent k) (parent j). pc k j.
    repeat case_decide; lia.
Qed.

Lemma up_inv_done (n j : nat) (f : nat -> Z) :
  up_inv n j f -> (j = 0%nat \/ f (parent j) <= f j) -> ordered_upto n f.
Proof.
  intros [H1 H2] Hj k Hk.
  destruct (decide (k = j)) as [->|Hne]; [|by apply H1].
  destruct Hj as [->|Hj]; [lia|done].
Qed.

Lemma down_inv_step (n i j : nat) (e : bool) (f : nat -> Z) :
  down_inv n i e f -> (0 < j < n)%nat -> parent j = i -> f j < f i ->
  (forall k, (0 < k < n)%nat -> parent k = i -> f j <= f k) ->
  down_inv n j true (fswap i j f).
Proof.
  intros (H1 & H2 & H3) Hj Hpar Hlt Hmin.
  pose proof (parent_lt j ltac:(lia)) as Hpj. rewrite Hpar in Hpj.
  split; [|split].
  - intros k Hk Hne Hpne. unfold fswap.
    pose proof (parent_lt k ltac:(lia)) as Hpk.
    pose proof (H1 k Hk) as Ha. pose proof (Hmin k Hk) as Hb.
    pose proof (H2 j) as Hc. rewrite Hpar in Hc.
    fc f k i. fc f (parent k) i. fc f (parent k) (parent i). pc k i. pc k j.
    destruct (decide (i = 0%nat)); [|pose proof (parent_lt i ltac:(lia))];
      repeat case_decide; lia.
  - intros k Hpos Hk Hpk. unfold fswap.
    pose proof (parent_lt k ltac:(lia)) as Hpk'.
    rewrite Hpar. rewrite decide_True by done.
    pose proof (H1 k Hk) as Ha.
    fc f (parent k) j.
    repeat case_decide; lia.
  - intros _ _. unfold fswap. rewrite Hpar.
    rewrite decide_True by done. rewrite decide_False by lia.
    rewrite decide_True by done. lia.
Qed.

Lemma down_inv_done (n i : nat) (e : bool) (f : nat -> Z) :
  down_inv n i e f ->
  (forall k, (0 < k < n)%nat -> parent k = i -> f i <= f k) ->
  up_inv n i f /\ (e = true -> ordered_upto n f).
Proof.
  intros (H1 & H2 & H3) Hend.
  assert (up_inv n i f) as Hup.
  { split; [|done]. intros k Hk Hne.
    destruct (decide (parent k = i)) as [Hp|Hp]; [|by apply H1].
    rewrite Hp. by apply Hend. }
  split; [done|]. intros He. apply (up_inv_done n i f Hup).
  destruct (decide (i = 0%nat)); [by left|right]. apply H3; [done|lia].
Qed.

(** A key appended to a heap can only be out of order with its parent. *)
Lemma up_inv_init (n : nat) (f : nat -> Z) :
  ordered_upto n f -> up_inv (S n) n f.
Proof.
  intros H. split.
  - intros k Hk Hne. apply H. lia.
  - intros k _ Hk Hpar. pose proof (parent_lt k ltac:(lia)). lia.
Qed.

(** The last key moved to position [i] of a heap can be out of order with
    its parent and with its children. *)
Lemma down_inv_init (n i : nat) (f : nat -> Z) :
  ordered_upto (S n) f -> (i < n)%nat -> down_inv n i false (fswap i n f).
Proof.
  intros H Hi. split; [|split].
  - intros k Hk Hne Hpne. unfold fswap.
    pose proof (parent_lt k ltac:(lia)) as Hpk.
    pose proof (H k ltac:(lia)).
    repeat case_decide; lia.
  - intros k Hpos Hk Hpar. unfold fswap.
    pose proof (parent_lt k ltac:(lia)) as Hpk.
    pose proof (parent_lt i ltac:(lia)) as Hpi.
    pose proof (H k ltac:(lia)) as Ha. pose proof (H i ltac:(lia)) as Hb.
    fc f (parent k) i.
    repeat case_decide; lia.
  - done.
Qed.


(** ** The expiry queue of a state *)

Lemma at_index_nat {A} (l : list A) (k : nat) : at_index l (Z.of_nat k) = l !! k.
Proof.
  unfold at_index. rewrite (proj2 (Z.ltb_ge _ _)) by lia. by rewrite Nat2Z.id.
Qed.

Lemma bGet_eq (s : memLS) (k : nat) (a : ptr) :
  byExpiry s !! k = Some a -> bGet (Z.of_nat k) s = Some (a, s).
Proof. intros H. unfold bGet. by rewrite at_index_nat, H. Qed.

Lemma bSet_eq (s : memLS) (k : nat) (a : ptr) :
  (k < length (byExpiry s))%nat ->
  bSet (Z.of_nat k) a s = Some (tt, with_byExpiry (<[k := a]> (byExpiry s)) s).
Proof.
  intros H. unfold bSet. rewrite at_index_nat.
  destruct (lookup_lt_is_Some_2 _ _ H) as [x ->]. by rewrite Nat2Z.id.
Qed.

Lemma idx_ok_inj (s : memLS) (i j : nat) (a : ptr) :
  idx_ok s -> byExpiry s !! i = Some a -> byExpiry s !! j = Some a -> i = j.
Proof.
  intros H Hi Hj. destruct (H _ _ Hi) as (n & Hn & Hin).
  destruct (H _ _ Hj) as (n' & Hn' & Hjn). rewrite Hn in Hn'. inversion Hn'. subst n'. lia.
Qed.

Lemma idx_ok_NoDup (s : memLS) : idx_ok s -> NoDup (byExpiry s).
Proof. intros H. apply NoDup_alt. intros i j a. by apply idx_ok_inj. Qed.

Lemma key_at_lookup (s : memLS) (k : nat) (a : ptr) :
  byExpiry s !! k = Some a -> key_at s k = expiry_at s a.
Proof.
  intros H. unfold key_at, keys. by rewrite list_lookup_fmap, H.
Qed.

Lemma key_at_ge (s : memLS) (k : nat) :
  (length (byExpiry s) <= k)%nat -> key_at s k = 0.
Proof.
  intros H. unfold key_at, keys.
  rewrite lookup_ge_None_2; [done|]. by rewrite length_fmap.
Qed.

Lemma ordered_keys (s : memLS) :
  ordered (keys s) <-> ordered_upto (length (byExpiry s)) (key_at s).
Proof.
  unfold ordered. split.
  - intros H k Hk.
    assert (length (keys s) = length (byExpiry s)) as Hlen by apply length_fmap.
    pose proof (parent_lt k ltac:(lia)) as Hp.
    destruct (lookup_lt_is_Some_2 (keys s) k ltac:(lia)) as [y Hy].
    destruct (lookup_lt_is_Some_2 (keys s) (parent k) ltac:(lia)) as [x Hx].
    unfold ordered_upto, key_at. rewrite Hx, Hy. simpl.
    by apply (H k x y); [lia|..].
  - intros H j x y Hj Hx Hy.
    assert (length (keys s) = length (byExpiry s)) as Hlen by apply length_fmap.
    apply lookup_lt_Some in Hy as Hlt.
    specialize (H j ltac:(lia)). unfold parent, key_at in H.
    by rewrite Hx, Hy in H.
Qed.

Lemma Less_eq (s : memLS) (i j : nat) :
  idx_ok s ->
  (i < length (byExpiry s))%nat -> (j < length (byExpiry s))%nat ->
  Less (Z.of_nat i) (Z.of_nat j) s = Some (key_at s i <? key_at s j, s).
Proof.
  intros Hok Hi Hj.
  destruct (lookup_lt_is_Some_2 _ _ Hi) as [a Ha].
  destruct (lookup_lt_is_Some_2 _ _ Hj) as [c Hc].
  destruct (Hok _ _ Ha) as (na & Hna & _). destruct (Hok _ _ Hc) as (nc & Hnc & _).
  unfold Less.
  rewrite (bind_eq _ _ _ _ _ (bGet_eq _ _ _ Ha)).
  rewrite (bind_eq _ _ _ _ _ (load_eq _ _ _ Hna)).
  rewrite (bind_eq _ _ _ _ _ (bGet_eq _ _ _ Hc)).
  rewrite (bind_eq _ _ _ _ _ (load_eq _ _ _ Hnc)).
  rewrite (key_at_lookup _ _ _ Ha), (key_at_lookup _ _ _ Hc).
  unfold expiry_at. by rewrite Hna, Hnc.
Qed.

(** ** States that differ in the queue only *)

Lemma set_index_set_index (i j : Z) (n : memLSNode) :
  set_index i (set_index j n) = set_index i n.
Proof. reflexivity. Qed.

Lemma set_index_id (n : memLSNode) : set_index (byExpiryIndex n) n = n.
Proof. by destruct n. Qed.

Lemma same_but_queue_refl (s : memLS) : same_but_queue s s.
Proof.
  repeat split. intros a n Hn. exists (byExpiryIndex n). by rewrite set_index_id.
Qed.

Lemma same_but_queue_trans (s1 s2 s3 : memLS) :
  same_but_queue s1 s2 -> same_but_queue s2 s3 -> same_but_queue s1 s3.
Proof.
  intros (Hn & Ht & Hg & Hl & Hs) (Hn' & Ht' & Hg' & Hl' & Hs').
  repeat split; try congruence.
  intros a n Ha. destruct (Hs _ _ Ha) as (i & Hi).
  destruct (Hs' _ _ Hi) as (j & Hj). exists j. by rewrite Hj.
Qed.

Lemma same_but_queue_lookup_None (s s' : memLS) (a : ptr) :
  same_but_queue s s' -> store s !! a = None -> store s' !! a = None.
Proof.
  intros (_ & _ & _ & Hl & _) H. apply lookup_ge_None in H.
  apply lookup_ge_None. lia.
Qed.

Lemma same_but_queue_inv (s s' : memLS) (a : ptr) (n' : memLSNode) :
  same_but_queue s s' -> store s' !! a = Some n' ->
  exists n, store s !! a = Some n /\ n' = set_index (byExpiryIndex n') n.
Proof.
  intros Hq H. destruct (store s !! a) as [n|] eqn:E.
  - destruct Hq as (_ & _ & _ & _ & Hs). destruct (Hs _ _ E) as (i & Hi).
    rewrite H in Hi. inversion Hi. subst n'. exists n. done.
  - by rewrite (same_but_queue_lookup_None _ _ _ Hq E) in H.
Qed.

Lemma same_but_queue_expiry (s s' : memLS) (a : ptr) :
  same_but_queue s s' -> expiry_at s' a = expiry_at s a.
Proof.
  intros Hq. unfold expiry_at. destruct (store s !! a) as [n|] eqn:E.
  - destruct Hq as (_ & _ & _ & _ & Hs). destruct (Hs _ _ E) as (i & ->). done.
  - by rewrite (same_but_queue_lookup_None _ _ _ Hq E).
Qed.

Lemma qperm_refl (n : nat) (s : memLS) : idx_ok s -> qperm n s s.
Proof. intros H. split; [apply same_but_queue_refl|done]. Qed.

Lemma qperm_elem (n : nat) (s s' : memLS) (a : ptr) :
  qperm n s s' -> a ∈ byExpiry s' <-> a ∈ byExpiry s.
Proof.
  intros (_ & _ & Ht & Hd & _).
  rewrite <- (take_drop n (byExpiry s')), <- (take_drop n (byExpiry s)).
  rewrite !elem_of_app, Ht, Hd. done.
Qed.

Lemma qperm_trans (n : nat) (s1 s2 s3 : memLS) :
  qperm n s1 s2 -> qperm n s2 s3 -> qperm n s1 s3.
Proof.
  intros H12 H23.
  pose proof (fun a => qperm_elem n s1 s2 a H12) as He.
  destruct H12 as (Hq & Hu & Ht & Hd & Hl & Hi).
  destruct H23 as (Hq' & Hu' & Ht' & Hd' & Hl' & Hi').
  split; [by eapply same_but_queue_trans|].
  split; [|split; [|split; [|split]]]; try congruence; try done.
  - intros a Ha. rewrite Hu', Hu; [done|done|]. intros Hc. apply Ha. by apply He.
  - intros a. by rewrite Ht', Ht.
Qed.

Lemma qperm_key_at_ge (n : nat) (s s' : memLS) (k : nat) :
  qperm n s s' -> (n <= k)%nat -> key_at s' k = key_at s k.
Proof.
  intros (Hq & _ & _ & Hd & Hl & _) Hk.
  destruct (byExpiry s !! k) as [a|] eqn:E.
  - assert (byExpiry s' !! k = Some a) as E'.
    { replace k with (n + (k - n))%nat in E |- * by lia.
      rewrite <- lookup_drop in E |- *. by rewrite Hd. }
    rewrite (key_at_lookup _ _ _ E), (key_at_lookup _ _ _ E').
    by apply same_but_queue_expiry.
  - apply lookup_ge_None in E. rewrite !key_at_ge; [done|lia|lia].
Qed.

(** ** Swap *)

Lemma lookup_swap {A} (l : list A) (i j k : nat) (a c : A) :
  l !! i = Some a -> l !! j = Some c ->
  <[j := a]> (<[i := c]> l) !! k =
    if decide (k = j) then Some a else if decide (k = i) then Some c else l !! k.
Proof.
  intros Hi Hj. apply lookup_lt_Some in Hi as Hli. apply lookup_lt_Some in Hj as Hlj.
  case_decide as Ekj.
  - subst k. apply list_lookup_insert_eq. by rewrite length_insert.
  - rewrite list_lookup_insert_ne by done. case_decide as Eki.
    + subst k. by apply list_lookup_insert_eq.
    + by rewrite list_lookup_insert_ne.
Qed.

Lemma Swap_ok (s : memLS) (n i j : nat) :
  idx_ok s -> i <> j -> (i < n)%nat -> (j < n)%nat ->
  (n <= length (byExpiry s))%nat ->
  exists s', Swap (Z.of_nat i) (Z.of_nat j) s = Some (tt, s') /\
             qperm n s s' /\
             (forall k, key_at s' k = fswap i j (key_at s) k) /\
             (forall k, byExpiry s' !! k =
                        byExpiry s !! (if decide (k = i) then j
                                       else if decide (k = j) then i else k)).
Proof.
  intros Hok Hij Hi Hj Hn.
  destruct (lookup_lt_is_Some_2 (byExpiry s) i ltac:(lia)) as [a Ha].
  destruct (lookup_lt_is_Some_2 (byExpiry s) j ltac:(lia)) as [c Hc].
  destruct (Hok _ _ Ha) as (na & Hna & Hia). destruct (Hok _ _ Hc) as (nc & Hnc & Hic).
  assert (a <> c) as Hac.
  { intros ->. apply Hij. by eapply idx_ok_inj. }
  pose proof (lookup_swap (byExpiry s) i j) as Hsw.
  set (b' := <[j := a]> (<[i := c]> (byExpiry s))) in *.
  set (st' := <[a := set_index (Z.of_nat j) na]>
                (<[c := set_index (Z.of_nat i) nc]> (store s))).
  assert (forall x, st' !! x =
            if decide (x = a) then Some (set_index (Z.of_nat j) na)
            else if decide (x = c) then Some (set_index (Z.of_nat i) nc)
            else store s !! x) as Hst.
  { intros x. unfold st'. apply lookup_lt_Some in Hna as Hla. apply lookup_lt_Some in Hnc as Hlc.
    case_decide as Exa.
    - subst x. apply list_lookup_insert_eq. by rewrite length_insert.
    - rewrite list_lookup_insert_ne by done. case_decide as Exc.
      + subst x. by apply list_lookup_insert_eq.
      + by rewrite list_lookup_insert_ne. }
  exists (mkLS st' (byName s) (byToken s) (gen s) b').
  assert (same_but_queue s (mkLS st' (byName s) (byToken s) (gen s) b')) as Hsame.
  { repeat split; simpl.
    - unfold st'. by rewrite !length_insert.
    - intros x nx Hx. rewrite Hst. repeat case_decide; subst; eauto.
      + rewrite Hna in Hx. inversion Hx. eauto.
      + rewrite Hnc in Hx. inversion Hx. eauto.
      + exists (byExpiryIndex nx). by rewrite set_index_id. }
  split; [|split; [|split]]; cycle 3.
  { intros k. simpl. rewrite (Hsw _ _ _ Ha Hc).
    repeat case_decide; subst; try done; congruence. }
  - unfold Swap.
    rewrite (bind_eq _ _ _ _ _ (bGet_eq _ _ _ Ha)).
    rewrite (bind_eq _ _ _ _ _ (bGet_eq _ _ _ Hc)).
    erewrite bind_eq; [|apply bSet_eq; lia].
    erewrite bind_eq; [|apply bSet_eq; simpl; rewrite length_insert; lia].
    erewrite bind_eq; [|apply bGet_eq; simpl; rewrite (Hsw _ _ _ Ha Hc);
                        rewrite decide_False by done; by rewrite decide_True].
    erewrite bind_eq; [|apply update_eq; simpl; exact Hnc].
    erewrite bind_eq; [|apply bGet_eq; simpl; rewrite (Hsw _ _ _ Ha Hc);
                        by rewrite decide_True].
    erewrite update_eq; [reflexivity|]. simpl.
    by rewrite list_lookup_insert_ne.
  - split; [done|]. simpl.
    split; [|split; [|split; [|split]]].
    + intros x Hx. rewrite Hst.
      rewrite !decide_False; [done|..]; intros ->; apply Hx; by eapply list_elem_of_lookup_2.
    + intros x. rewrite !elem_of_take. split; intros (k & Hk & Hkn).
      * rewrite (Hsw _ _ _ Ha Hc) in Hk. repeat case_decide; simplify_eq; eauto.
      * destruct (decide (k = i)) as [->|?]; [|destruct (decide (k = j)) as [->|?]].
        -- exists j. rewrite (Hsw _ _ _ Ha Hc). rewrite decide_True by done.
           split; [congruence|done].
        -- exists i. rewrite (Hsw _ _ _ Ha Hc). rewrite decide_False by done.
           rewrite decide_True by done. split; [congruence|done].
        -- exists k. rewrite (Hsw _ _ _ Ha Hc). by rewrite !decide_False.
    + unfold b'. by rewrite !drop_insert_lt.
    + unfold b'. by rewrite !length_insert.
    + intros k x Hk. simpl in Hk. rewrite (Hsw _ _ _ Ha Hc) in Hk. simpl. rewrite Hst.
      repeat case_decide; simplify_eq; eauto.
      all: try (by apply Hok).
      * exfalso. apply H0. by eapply idx_ok_inj.
      * exfalso. apply H. by eapply idx_ok_inj.
  - intros k. unfold fswap, key_at at 1, keys. simpl.
    rewrite list_lookup_fmap, (Hsw _ _ _ Ha Hc).
    repeat case_decide; subst; simpl; try lia.
    + rewrite (same_but_queue_expiry _ _ _ Hsame). symmetry. by apply key_at_lookup.
    + rewrite (same_but_queue_expiry _ _ _ Hsame). symmetry. by apply key_at_lookup.
    + unfold key_at, keys. rewrite list_lookup_fmap.
      destruct (byExpiry s !! k) as [x|]; simpl; [|done].
      by rewrite (same_but_queue_expiry _ _ _ Hsame).
Qed.

(** ** The loops of [container/heap] *)

Lemma ordered_upto_ext (n : nat) (f g : nat -> Z) :
  (forall k, g k = f k) -> ordered_upto n f -> ordered_upto n g.
Proof. intros E H k Hk. rewrite !E. by apply H. Qed.

Lemma up_inv_ext (n j : nat) (f g : nat -> Z) :
  (forall k, g k = f k) -> up_inv n j f -> up_inv n j g.
Proof.
  intros E [H1 H2]. split.
  - intros k Hk Hne. rewrite !E. by apply H1.
  - intros k Hj Hk Hp. rewrite !E. by apply H2.
Qed.

Lemma down_inv_ext (n i : nat) (e : bool) (f g : nat -> Z) :
  (forall k, g k = f k) -> down_inv n i e f -> down_inv n i e g.
Proof.
  intros E (H1 & H2 & H3). split; [|split].
  - intros k Hk Hne Hp. rewrite !E. by apply H1.
  - intros k Hi Hk Hp. rewrite !E. by apply H2.
  - intros He Hi. rewrite !E. by apply H3.
Qed.

Lemma qperm_idx_ok (n : nat) (s s' : memLS) : qperm n s s' -> idx_ok s'.
Proof. by intros (_ & _ & _ & _ & _ & H). Qed.

Lemma qperm_length (n : nat) (s s' : memLS) :
  qperm n s s' -> length (byExpiry s') = length (byExpiry s).
Proof. by intros (_ & _ & _ & _ & H & _). Qed.

(** [up] restores the heap order when only the key at [j] is out of
    order with its parent; it permutes the queue. *)
Lemma up_loop_ok (fuel : nat) :
  forall (j n : nat) (s : memLS),
    idx_ok s -> (j < n)%nat -> (n <= length (byExpiry s))%nat -> (j < fuel)%nat ->
    up_inv n j (key_at s) ->
    exists s', heap.up_loop fuel (Z.of_nat j) s = Some (tt, s') /\
               qperm n s s' /\ ordered_upto n (key_at s').
Proof.
  induction fuel as [|fuel IH]; intros j n s Hok Hj Hn Hf Hinv; [lia|].
  cbn [heap.up_loop]. rewrite parent_quot.
  destruct (decide (j = 0%nat)) as [->|Hj0].
  - change (parent 0) with 0%nat. rewrite Z.eqb_refl.
    exists s. split; [done|]. split; [by apply qperm_refl|].
    eapply up_inv_done; eauto.
  - pose proof (parent_lt j ltac:(lia)) as Hp.
    rewrite (proj2 (Z.eqb_neq _ _)) by lia.
    rewrite (bind_eq _ _ _ _ _ (Less_eq s j (parent j) Hok ltac:(lia) ltac:(lia))).
    destruct (key_at s j <? key_at s (parent j)) eqn:E; cbn [negb].
    + apply Z.ltb_lt in E.
      destruct (Swap_ok s n (parent j) j Hok ltac:(lia) ltac:(lia) ltac:(lia) Hn)
        as (s1 & Hsw & Hq & Hk & _).
      rewrite (bind_eq _ _ _ _ _ Hsw).
      destruct (IH (parent j) n s1) as (s' & Hup & Hq' & Hord).
      * by eapply qperm_idx_ok.
      * lia.
      * by rewrite (qperm_length _ _ _ Hq).
      * lia.
      * eapply up_inv_ext; [exact Hk|]. apply up_inv_step; [done|lia|done].
      * exists s'. split; [done|]. split; [by eapply qperm_trans|done].
    + apply Z.ltb_ge in E.
      exists s. split; [done|]. split; [by apply qperm_refl|].
      eapply up_inv_done; eauto.
Qed.

(** The smaller of the children of [i] among the first [n] positions. *)
Lemma pick_child (s : memLS) (n j1 : nat) :
  idx_ok s -> (j1 < n)%nat -> (n <= length (byExpiry s))%nat ->
  exists j : nat,
    (if Z.of_nat j1 + 1 <? Z.of_nat n
     then lt <- Less (Z.of_nat j1 + 1) (Z.of_nat j1) ;;
          ret (if lt then Z.of_nat j1 + 1 else Z.of_nat j1)
     else ret (Z.of_nat j1)) s = Some (Z.of_nat j, s) /\
    (j = j1 \/ (j = S j1 /\ (S j1 < n)%nat)) /\
    key_at s j <= key_at s j1 /\
    ((S j1 < n)%nat -> key_at s j <= key_at s (S j1)).
Proof.
  intros Hok Hj Hn.
  destruct (Z.of_nat j1 + 1 <? Z.of_nat n) eqn:E.
  - apply Z.ltb_lt in E.
    replace (Z.of_nat j1 + 1) with (Z.of_nat (S j1)) by lia.
    rewrite (bind_eq _ _ _ _ _ (Less_eq s (S j1) j1 Hok ltac:(lia) ltac:(lia))).
    destruct (key_at s (S j1) <? key_at s j1) eqn:El.
    + apply Z.ltb_lt in El. exists (S j1). split; [done|].
      split; [right; split; [done|lia]|]. lia.
    + apply Z.ltb_ge in El. exists j1. split; [done|].
      split; [by left|]. lia.
  - apply Z.ltb_ge in E. exists j1. split; [done|]. split; [by left|].
    split; [lia|]. intros. lia.
Qed.

(** [down] restores the heap order below [i]. When it returns [false] it
    has moved nothing, and the key at [i] can only be out of order with
    its parent. *)
Lemma down_loop_ok (fuel : nat) :
  forall (i0 i n : nat) (e : bool) (s : memLS),
    idx_ok s -> (i < n)%nat -> (n <= length (byExpiry s))%nat ->
    (n - i < fuel)%nat -> 2 * Z.of_nat n + 1 < 2 ^ 63 ->
    (i0 <= i)%nat -> (e = true <-> (i0 < i)%nat) ->
    down_inv n i e (key_at s) ->
    exists (moved : bool) (s' : memLS),
      heap.down_loop fuel (Z.of_nat i0) (Z.of_nat i) (Z.of_nat n) s
        = Some (moved, s') /\
      qperm n s s' /\
      (moved = true -> ordered_upto n (key_at s')) /\
      (moved = false -> s' = s /\ i = i0 /\ up_inv n i (key_at s)).
Proof.
  induction fuel as [|fuel IH]; intros i0 i n e s Hok Hi Hn Hf Hb Hi0 He Hinv; [lia|].
  cbn [heap.down_loop]. cbv zeta.
  rewrite wrap_int_small by lia.
  replace (2 * Z.of_nat i + 1) with (Z.of_nat (2 * i + 1)) by lia.
  assert (forall k, (0 < k < n)%nat -> parent k = i ->
                    (k = 2 * i + 1 \/ k = 2 * i + 2)%nat) as Hch.
  { intros k Hk Hp. by apply parent_children; [lia|]. }
  (* the result when the loop stops at [i] *)
  assert ((forall k, (0 < k < n)%nat -> parent k = i -> key_at s i <= key_at s k) ->
          exists (moved : bool) (s' : memLS),
            ret (Z.of_nat i0 <? Z.of_nat i) s = Some (moved, s') /\
            qperm n s s' /\
            (moved = true -> ordered_upto n (key_at s')) /\
            (moved = false -> s' = s /\ i = i0 /\ up_inv n i (key_at s))) as Hstop.
  { intros Hend. destruct (down_inv_done _ _ _ _ Hinv Hend) as [Hup Hord].
    exists (Z.of_nat i0 <? Z.of_nat i), s. split; [done|].
    split; [by apply qperm_refl|]. split.
    - intros Hm. apply Z.ltb_lt in Hm. apply Hord. apply He. lia.
    - intros Hm. apply Z.ltb_ge in Hm. split; [done|]. split; [lia|done]. }
  destruct (decide (n <= 2 * i + 1)%nat) as [Hleaf|Hchild].
  - rewrite (proj2 (Z.leb_le _ _)) by lia. cbn [orb].
    apply Hstop. intros k Hk Hp. destruct (Hch k Hk Hp); lia.
  - rewrite (proj2 (Z.leb_gt _ _)) by lia.
    rewrite (proj2 (Z.ltb_ge _ _)) by lia. cbn [orb].
    destruct (pick_child s n (2 * i + 1) Hok ltac:(lia) Hn)
      as (j & Hpick & Hj & Hj1 & Hj2).
    rewrite (bind_eq _ _ _ _ _ Hpick).
    assert (parent j = i /\ (0 < j < n)%nat) as [Hpj Hjn].
    { split; [apply parent_children|]; lia. }
    rewrite (bind_eq _ _ _ _ _ (Less_eq s j i Hok ltac:(lia) ltac:(lia))).
    assert (forall k, (0 < k < n)%nat -> parent k = i -> key_at s j <= key_at s k) as Hmin.
    { intros k Hk Hp. destruct (Hch k Hk Hp) as [->| ->]; [done|].
      replace (2 * i + 2)%nat with (S (2 * i + 1)) in * by lia. apply Hj2. lia. }
    destruct (key_at s j <? key_at s i) eqn:E; cbn [negb].
    + apply Z.ltb_lt in E.
      destruct (Swap_ok s n i j Hok ltac:(lia) ltac:(lia) ltac:(lia) Hn)
        as (s1 & Hsw & Hq & Hk & _).
      rewrite (bind_eq _ _ _ _ _ Hsw).
      destruct (IH i0 j n true s1) as (moved & s' & Hdown & Hq' & Hord & Hnot).
      * by eapply qperm_idx_ok.
      * lia.
      * by rewrite (qperm_length _ _ _ Hq).
      * lia.
      * done.
      * lia.
      * split; [lia|done].
      * eapply down_inv_ext; [exact Hk|]. by eapply down_inv_step.
      * exists moved, s'. split; [done|]. split; [by eapply qperm_trans|].
        split; [done|]. intros Hm. destruct (Hnot Hm) as (_ & Hc & _). lia.
    + apply Z.ltb_ge in E. apply Hstop.
      intros k Hk Hp. specialize (Hmin k Hk Hp). lia.
Qed.

(** ** heap.Push and heap.Remove *)

Lemma Len_eq (s : memLS) : Len s = Some (Z.of_nat (length (byExpiry s)), s).
Proof. reflexivity. Qed.

Lemma key_at_same (s s' : memLS) (k : nat) :
  same_but_queue s s' -> byExpiry s' !! k = byExpiry s !! k ->
  key_at s' k = key_at s k.
Proof.
  intros Hq Hk. unfold key_at, keys. rewrite !list_lookup_fmap, Hk.
  destruct (byExpiry s !! k) as [a|]; [|done]. simpl.
  by rewrite (same_but_queue_expiry _ _ _ Hq).
Qed.

Lemma Push_eq (s : memLS) (x : ptr) (nx : memLSNode) :
  store s !! x = Some nx ->
  Push x s = Some (tt, mkLS (<[x := set_index (Z.of_nat (length (byExpiry s))) nx]> (store s))
                            (byName s) (byToken s) (gen s) (byExpiry s ++ [x])).
Proof.
  intros Hx. unfold Push.
  rewrite (bind_eq _ _ _ _ _ (Len_eq s)).
  rewrite (bind_eq _ _ _ _ _ (update_eq _ _ _ _ Hx)).
  reflexivity.
Qed.

(** [heap.Push] adds a node that is not queued and keeps the heap. *)
Lemma heap_Push_ok (s : memLS) (x : ptr) (nx : memLSNode) :
  idx_ok s -> ordered (keys s) -> store s !! x = Some nx -> x ∉ byExpiry s ->
  exists s', heap.Push x s = Some (tt, s') /\
             same_but_queue s s' /\
             (forall y, y ∉ byExpiry s -> y <> x -> store s' !! y = store s !! y) /\
             (forall y, y ∈ byExpiry s' <-> y = x \/ y ∈ byExpiry s) /\
             length (byExpiry s') = S (length (byExpiry s)) /\
             idx_ok s' /\ ordered (keys s').
Proof.
  intros Hok Hord Hx Hnotin.
  set (len := length (byExpiry s)).
  set (s2 := mkLS (<[x := set_index (Z.of_nat len) nx]> (store s))
                  (byName s) (byToken s) (gen s) (byExpiry s ++ [x])).
  assert (same_but_queue s s2) as Hsame.
  { repeat split; simpl; [by rewrite length_insert|].
    intros a n Ha. destruct (decide (a = x)) as [->|Hne].
    - rewrite Hx in Ha. inversion Ha. subst n. eexists.
      apply list_lookup_insert_eq. by eapply lookup_lt_Some.
    - exists (byExpiryIndex n). by rewrite list_lookup_insert_ne, set_index_id. }
  assert (idx_ok s2) as Hok2.
  { intros k y Hk. simpl in Hk |- *. apply lookup_app_Some in Hk as [Hk|[Hge Hk]].
    - assert (y <> x) by (intros ->; apply Hnotin; by eapply list_elem_of_lookup_2).
      rewrite list_lookup_insert_ne by done. by apply Hok.
    - apply list_lookup_singleton_Some in Hk as [Hk ->].
      eexists. split; [apply list_lookup_insert_eq; by eapply lookup_lt_Some|].
      simpl. fold len in Hge. lia. }
  assert (length (byExpiry s2) = S len) as Hlen2.
  { simpl. rewrite length_app. simpl. fold len. lia. }
  assert (up_inv (S len) len (key_at s2)) as Hinv.
  { apply up_inv_init. apply ordered_keys in Hord. fold len in Hord.
    intros k Hk. pose proof (parent_lt k ltac:(lia)).
    rewrite !(key_at_same s s2) by (try done; simpl; apply lookup_app_l; fold len; lia).
    by apply Hord. }
  destruct (up_loop_ok (S len) len (S len) s2 Hok2 ltac:(lia) ltac:(lia) ltac:(lia) Hinv)
    as (s' & Hup & Hq & Hordered).
  exists s'. split; [|split; [|split; [|split; [|split; [|split]]]]].
  - unfold heap.Push.
    rewrite (bind_eq _ _ _ _ _ (Push_eq s x nx Hx)). fold len. fold s2.
    rewrite (bind_eq _ _ _ _ _ (Len_eq s2)).
    unfold heap.up. rewrite Hlen2.
    replace (Z.of_nat (S len) - 1) with (Z.of_nat len) by lia.
    rewrite Nat2Z.id. exact Hup.
  - eapply same_but_queue_trans; [exact Hsame|]. by destruct Hq.
  - intros y Hy Hne. destruct Hq as (_ & Hu & _). rewrite Hu.
    + simpl. by rewrite list_lookup_insert_ne.
    + simpl. rewrite elem_of_app, list_elem_of_singleton. tauto.
  - intros y. rewrite (qperm_elem _ _ _ y Hq). simpl.
    rewrite elem_of_app, list_elem_of_singleton. tauto.
  - rewrite (qperm_length _ _ _ Hq). done.
  - by eapply qperm_idx_ok.
  - apply ordered_keys. rewrite (qperm_length _ _ _ Hq), Hlen2. done.
Qed.

Lemma Pop_eq (t : memLS) (n : nat) (x : ptr) (nx : memLSNode) :
  length (byExpiry t) = S n -> byExpiry t !! n = Some x ->
  store t !! x = Some nx ->
  Pop t = Some (x, mkLS (<[x := set_index (-1) nx]> (store t))
                        (byName t) (byToken t) (gen t) (take n (byExpiry t))).
Proof.
  intros Hlen Hn Hx. unfold Pop.
  rewrite (bind_eq _ _ _ _ _ (Len_eq t)). rewrite Hlen.
  replace (Z.of_nat (S n) - 1) with (Z.of_nat n) by lia.
  rewrite (bind_eq _ _ _ _ _ (bGet_eq _ _ _ Hn)).
  rewrite (bind_eq _ _ _ _ _ (update_eq _ _ _ _ Hx)).
  rewrite Nat2Z.id. reflexivity.
Qed.

(** The state of [heap.Remove(i)] before its [Pop]: the entry of position
    [i] is last, and the entries before it form a heap. *)
Lemma heap_Remove_sift (s : memLS) (i n : nat) (x : ptr) :
  idx_ok s -> ordered (keys s) -> length (byExpiry s) = S n ->
  byExpiry s !! i = Some x ->
  2 * Z.of_nat (S n) + 1 < 2 ^ 63 ->
  exists t,
    (if Z.of_nat n =? Z.of_nat i then ret tt
     else Swap (Z.of_nat i) (Z.of_nat n) ;;;
          moved <- heap.down (Z.of_nat i) (Z.of_nat n) ;;
          if negb moved then heap.up (Z.of_nat i) else ret tt) s = Some (tt, t) /\
    same_but_queue s t /\
    (forall y, y ∉ byExpiry s -> store t !! y = store s !! y) /\
    length (byExpiry t) = S n /\
    idx_ok t /\
    byExpiry t !! n = Some x /\
    (forall y, y ∈ take n (byExpiry t) <-> y ∈ byExpiry s /\ y <> x) /\
    ordered_upto n (key_at t).
Proof.
  intros Hok Hord Hlen Hi Hb.
  apply lookup_lt_Some in Hi as Hilt. rewrite Hlen in Hilt.
  apply ordered_keys in Hord. rewrite Hlen in Hord.
  destruct (decide (i = n)) as [->|Hne].
  - rewrite Z.eqb_refl. exists s.
    split; [done|]. split; [apply same_but_queue_refl|]. split; [done|].
    split; [done|]. split; [done|]. split; [done|]. split.
    + intros y. rewrite elem_of_take. split.
      * intros (k & Hk & Hkn). split; [by eapply list_elem_of_lookup_2|].
        intros ->. pose proof (idx_ok_inj _ _ _ _ Hok Hk Hi). lia.
      * intros [Hy Hyx]. apply list_elem_of_lookup_1 in Hy as [k Hk].
        exists k. split; [done|]. apply lookup_lt_Some in Hk as Hklt.
        destruct (decide (k = n)) as [->|?]; [congruence|lia].
    + eapply ordered_upto_le; [|exact Hord]. lia.
  - rewrite (proj2 (Z.eqb_neq _ _)) by lia.
    destruct (Swap_ok s (S n) i n Hok ltac:(lia) ltac:(lia) ltac:(lia) ltac:(lia))
      as (s1 & Hsw & Hq1 & Hk1 & Hpos).
    rewrite (bind_eq _ _ _ _ _ Hsw).
    pose proof (qperm_idx_ok _ _ _ Hq1) as Hok1.
    pose proof (qperm_length _ _ _ Hq1) as Hlen1. rewrite Hlen in Hlen1.
    assert (byExpiry s1 !! n = Some x) as Hn1.
    { rewrite Hpos. rewrite decide_False by lia. by rewrite decide_True. }
    assert (forall y, y ∈ take n (byExpiry s1) <-> y ∈ byExpiry s /\ y <> x) as Hmem1.
    { intros y. rewrite elem_of_take. split.
      - intros (k & Hk & Hkn). rewrite Hpos in Hk. split; [by eapply list_elem_of_lookup_2|].
        intros ->. pose proof (idx_ok_inj _ _ _ _ Hok Hk Hi) as E.
        repeat case_decide; lia.
      - intros [Hy Hyx]. apply list_elem_of_lookup_1 in Hy as [k Hk].
        apply lookup_lt_Some in Hk as Hklt. rewrite Hlen in Hklt.
        assert (k <> i) by (intros ->; congruence).
        destruct (decide (k = n)) as [->|?].
        + exists i. rewrite Hpos. rewrite decide_True by done. split; [done|lia].
        + exists k. rewrite Hpos. rewrite !decide_False by done. split; [done|lia]. }
    assert (down_inv n i false (key_at s1)) as Hinv.
    { eapply down_inv_ext; [exact Hk1|]. apply down_inv_init; [done|lia]. }
    destruct (down_loop_ok (S n) i i n false s1 Hok1 ltac:(lia) ltac:(lia) ltac:(lia)
                ltac:(lia) ltac:(lia) ltac:(split; [done|lia]) Hinv)
      as (moved & s2 & Hdown & Hq2 & Hmoved & Hnot).
    unfold heap.down. rewrite Nat2Z.id.
    rewrite (bind_eq _ _ _ _ _ Hdown).
    pose proof (fun y => qperm_elem (S n) s s1 y Hq1) as Hel1.
    (* the facts that follow from a permutation of the first [n] entries *)
    assert (forall t, qperm n s1 t -> ordered_upto n (key_at t) ->
              same_but_queue s t /\
              (forall y, y ∉ byExpiry s -> store t !! y = store s !! y) /\
              length (byExpiry t) = S n /\ idx_ok t /\
              byExpiry t !! n = Some x /\
              (forall y, y ∈ take n (byExpiry t) <-> y ∈ byExpiry s /\ y <> x) /\
              ordered_upto n (key_at t)) as Hfin.
    { intros t Hq Hordt.
      pose proof (qperm_length _ _ _ Hq) as Hlent.
      destruct Hq as (Hsq & Hu & Htk & Hdr & _ & Hokt).
      destruct Hq1 as (Hsq1 & Hu1 & _).
      split; [by eapply same_but_queue_trans|].
      split.
      { intros y Hy. rewrite Hu, Hu1; [done|done|].
        intros Hc. apply Hy. by apply Hel1. }
      split; [lia|]. split; [done|]. split.
      { assert (byExpiry t !! (n + 0)%nat = Some x) as E.
        { rewrite <- lookup_drop, Hdr, lookup_drop. by rewrite Nat.add_0_r. }
        by rewrite Nat.add_0_r in E. }
      split; [|done]. intros y. by rewrite Htk. }
    destruct moved; cbn [negb].
    + exists s2. split; [done|]. apply Hfin; [done|by apply Hmoved].
    + destruct (Hnot eq_refl) as (-> & _ & Hup).
      destruct (up_loop_ok (S i) i n s1 Hok1 ltac:(lia) ltac:(lia) ltac:(lia) Hup)
        as (s3 & Hup3 & Hq3 & Hord3).
      exists s3. split; [unfold heap.up; by rewrite Nat2Z.id|]. by apply Hfin.
Qed.

(** [heap.Remove] removes the node of position [i] and keeps the heap. *)
Lemma heap_Remove_ok (s : memLS) (i : nat) (x : ptr) :
  idx_ok s -> ordered (keys s) -> byExpiry s !! i = Some x ->
  2 * Z.of_nat (length (byExpiry s)) + 1 < 2 ^ 63 ->
  exists s', heap.Remove (Z.of_nat i) s = Some (x, s') /\
             same_but_queue s s' /\
             (forall y, y ∉ byExpiry s -> store s' !! y = store s !! y) /\
             (forall y, y ∈ byExpiry s' <-> y ∈ byExpiry s /\ y <> x) /\
             S (length (byExpiry s')) = length (byExpiry s) /\
             idx_ok s' /\ ordered (keys s') /\
             (exists nx, store s' !! x = Some nx /\ byExpiryIndex nx = -1).
Proof.
  intros Hok Hord Hi Hb.
  apply lookup_lt_Some in Hi as Hilt.
  destruct (length (byExpiry s)) as [|n] eqn:Hlen; [lia|].
  destruct (heap_Remove_sift s i n x Hok Hord Hlen Hi Hb)
    as (t & Hsift & Hsq & Hu & Hlent & Hokt & Hn & Hmem & Hordt).
  destruct (Hokt _ _ Hn) as (nx & Hnx & Hinx).
  set (s' := mkLS (<[x := set_index (-1) nx]> (store t))
                  (byName t) (byToken t) (gen t) (take n (byExpiry t))).
  assert (same_but_queue t s') as Hsq'.
  { repeat split; simpl; [by rewrite length_insert|].
    intros a na Ha. destruct (decide (a = x)) as [->|Hne].
    - rewrite Hnx in Ha. inversion Ha. subst na. eexists.
      apply list_lookup_insert_eq. by eapply lookup_lt_Some.
    - exists (byExpiryIndex na). by rewrite list_lookup_insert_ne, set_index_id. }
  assert (forall k y, take n (byExpiry t) !! k = Some y ->
                      byExpiry t !! k = Some y /\ (k < n)%nat /\ y <> x) as Htake.
  { intros k y Hk. apply lookup_take_Some in Hk as [Hk Hkn]. split; [done|]. split; [done|].
    intros ->. pose proof (idx_ok_inj _ _ _ _ Hokt Hk Hn). lia. }
  exists s'. split; [|split; [|split; [|split; [|split; [|split; [|split]]]]]].
  - unfold heap.Remove. rewrite (bind_eq _ _ _ _ _ (Len_eq s)). rewrite Hlen.
    replace (Z.of_nat (S n) - 1) with (Z.of_nat n) by lia. cbv zeta.
    rewrite (bind_eq _ _ _ _ _ Hsift).
    by apply Pop_eq.
  - by eapply same_but_queue_trans.
  - intros y Hy. simpl. rewrite list_lookup_insert_ne; [by apply Hu|].
    intros ->. apply Hy. by eapply list_elem_of_lookup_2.
  - intros y. simpl. apply Hmem.
  - simpl. rewrite length_take. lia.
  - intros k y Hk. simpl in Hk |- *. apply Htake in Hk as (Hk & Hkn & Hne).
    rewrite list_lookup_insert_ne by done. by apply Hokt.
  - apply ordered_keys. simpl. rewrite length_take, Hlent.
    replace (n `min` S n)%nat with n by lia.
    intros k Hk. pose proof (parent_lt k ltac:(lia)).
    rewrite !(key_at_same t s') by (try done; simpl; apply lookup_take_lt; lia).
    by apply Hordt.
  - exists (set_index (-1) nx). split; [|done]. simpl.
    apply list_lookup_insert_eq. by eapply lookup_lt_Some.
Qed.


(** ** The queue and the positions recorded in the nodes *)

Lemma queued_index (s : memLS) (x : ptr) (nx : memLSNode) :
  queue_wf s -> store s !! x = Some nx ->
  (x ∈ byExpiry s ->
   0 <= byExpiryIndex nx /\
   byExpiry s !! Z.to_nat (byExpiryIndex nx) = Some x) /\
  (x ∉ byExpiry s -> byExpiryIndex nx = -1).
Proof.
  intros [Hidx _ Hout] Hx. split.
  - intros Hin. apply list_elem_of_lookup_1 in Hin as [i Hi].
    destruct (Hidx _ _ Hi) as (n & Hn & Hin). rewrite Hx in Hn. inversion Hn. subst n.
    rewrite Hin, Nat2Z.id. split; [lia|done].
  - by apply Hout.
Qed.

Lemma queued_test (s : memLS) (x : ptr) (nx : memLSNode) :
  queue_wf s -> store s !! x = Some nx ->
  (0 <=? byExpiryIndex nx) = bool_decide (x ∈ byExpiry s).
Proof.
  intros Hq Hx. destruct (queued_index s x nx Hq Hx) as [Hin Hout].
  case_bool_decide as E.
  - apply Z.leb_le. by apply Hin.
  - apply Z.leb_gt. rewrite (Hout E). lia.
Qed.

Lemma heap_Remove_wf (s : memLS) (x : ptr) (nx : memLSNode) :
  queue_wf s -> store s !! x = Some nx -> x ∈ byExpiry s ->
  2 * Z.of_nat (length (byExpiry s)) + 1 < 2 ^ 63 ->
  exists s', heap.Remove (byExpiryIndex nx) s = Some (x, s') /\
             same_but_queue s s' /\ queue_wf s' /\
             (forall y, y ∈ byExpiry s' <-> y ∈ byExpiry s /\ y <> x) /\
             S (length (byExpiry s')) = length (byExpiry s).
Proof.
  intros Hq Hx Hin Hb.
  destruct (queued_index s x nx Hq Hx) as [Hpos _]. destruct (Hpos Hin) as [H0 Hi].
  destruct Hq as [Hidx Hord Hout].
  destruct (heap_Remove_ok s _ x Hidx Hord Hi Hb)
    as (s' & Hrem & Hsq & Hu & Hmem & Hlen & Hidx' & Hord' & nx' & Hnx' & Hix').
  rewrite Z2Nat.id in Hrem by done.
  exists s'. split; [done|]. split; [done|]. split; [|by split].
  split; [done|done|].
  intros y ny Hy Hnot. destruct (decide (y = x)) as [->|Hne].
  - by simplify_eq.
  - assert (y ∉ byExpiry s) as Hnot' by (intros Hc; apply Hnot, Hmem; done).
    rewrite (Hu _ Hnot') in Hy. by eapply Hout.
Qed.

Lemma heap_Push_wf (s : memLS) (x : ptr) (nx : memLSNode) :
  queue_wf s -> store s !! x = Some nx -> x ∉ byExpiry s ->
  exists s', heap.Push x s = Some (tt, s') /\
             same_but_queue s s' /\ queue_wf s' /\
             (forall y, y ∈ byExpiry s' <-> y = x \/ y ∈ byExpiry s) /\
             length (byExpiry s') = S (length (byExpiry s)).
Proof.
  intros [Hidx Hord Hout] Hx Hnot.
  destruct (heap_Push_ok s x nx Hidx Hord Hx Hnot)
    as (s' & Hpush & Hsq & Hu & Hmem & Hlen & Hidx' & Hord').
  exists s'. split; [done|]. split; [done|]. split; [|by split].
  split; [done|done|].
  intros y ny Hy Hnot'.
  assert (y <> x /\ y ∉ byExpiry s) as [Hne Hnoty].
  { split; intros Hc; apply Hnot', Hmem; [by left|by right]. }
  rewrite (Hu _ Hnoty Hne) in Hy. by eapply Hout.
Qed.

(** A change of the arena that keeps the positions of all nodes and the
    expiry of the queued ones keeps the queue well-formed. *)
Lemma queue_wf_frame (s s' : memLS) :
  queue_wf s -> byExpiry s' = byExpiry s ->
  (forall y ny, store s !! y = Some ny ->
     exists ny', store s' !! y = Some ny' /\
                 byExpiryIndex ny' = byExpiryIndex ny /\
                 (y ∈ byExpiry s -> expiry ny' = expiry ny)) ->
  (forall y ny', store s !! y = None -> store s' !! y = Some ny' ->
                 byExpiryIndex ny' = -1) ->
  queue_wf s'.
Proof.
  intros [Hidx Hord Hout] Hb Hold Hnew. split.
  - intros i a Hi. rewrite Hb in Hi. destruct (Hidx _ _ Hi) as (n & Hn & Hin).
    destruct (Hold _ _ Hn) as (n' & Hn' & Hi' & _). exists n'. split; [done|congruence].
  - assert (keys s' = keys s) as ->; [|done].
    unfold keys. rewrite Hb. apply list_fmap_ext. intros i a Hi.
    destruct (Hidx _ _ Hi) as (n & Hn & _).
    destruct (Hold _ _ Hn) as (n' & Hn' & _ & He).
    unfold expiry_at. rewrite Hn, Hn'. apply He. by eapply list_elem_of_lookup_2.
  - intros a n' Hn' Hnot. rewrite Hb in Hnot.
    destruct (store s !! a) as [n|] eqn:E.
    + destruct (Hold _ _ E) as (n'' & Hn'' & Hi' & _). rewrite Hn' in Hn''.
      inversion Hn''. subst n''. rewrite Hi'. by eapply Hout.
    + by eapply Hnew.
Qed.

Lemma same_but_queue_mem (s s' : memLS) :
  same_but_queue s s' ->
  forall y ny', store s' !! y = Some ny' ->
    exists ny, store s !! y = Some ny /\ lock_of ny' = lock_of ny /\
               refCount ny' = refCount ny.
Proof.
  intros Hsq y ny' Hy. destruct (same_but_queue_inv _ _ _ _ Hsq Hy) as (ny & Hny & E).
  exists ny. split; [done|]. rewrite E. done.
Qed.

(** ** Counting locks *)

Lemma below_nonneg (s : memLS) (k : string) : 0 <= below s k.
Proof. unfold below. lia. Qed.

Lemma filter_insert_length {A} (P : A -> Prop) `{!forall x, Decision (P x)}
    (l : list A) (i : nat) (x y : A) :
  l !! i = Some x ->
  (length (filter P (<[i := y]> l)) + (if decide (P x) then 1 else 0) =
   length (filter P l) + (if decide (P y) then 1 else 0))%nat.
Proof.
  revert i. induction l as [|z l IH]; intros i Hi; [done|].
  destruct i as [|i]; simpl in *.
  - inversion Hi. subst z. rewrite !filter_cons.
    destruct (decide (P x)), (decide (P y)); simpl; lia.
  - rewrite !filter_cons. specialize (IH i Hi).
    destruct (decide (P z)); simpl; lia.
Qed.

Lemma below_insert (s : memLS) (st' : list memLSNode) (x : ptr)
    (nx nx' : memLSNode) (k : string) :
  store s !! x = Some nx -> st' = <[x := nx']> (store s) ->
  below (with_store st' s) k + (if decide (covers k nx) then 1 else 0)
  = below s k + (if decide (covers k nx') then 1 else 0).
Proof.
  intros Hx ->. unfold below. simpl.
  pose proof (filter_insert_length (covers k) (store s) x nx nx' Hx).
  destruct (decide (covers k nx)), (decide (covers k nx')); lia.
Qed.

Lemma filter_length_ext {A} (P Q : A -> Prop) `{!forall x, Decision (P x)}
    `{!forall x, Decision (Q x)} (l l' : list A) :
  length l = length l' ->
  (forall i x x', l !! i = Some x -> l' !! i = Some x' -> P x <-> Q x') ->
  length (filter P l) = length (filter Q l').
Proof.
  revert l'. induction l as [|x l IH]; intros [|x' l'] Hlen Hext; simpl in *; try done.
  rewrite !filter_cons.
  pose proof (Hext 0%nat x x' eq_refl eq_refl) as Hx.
  specialize (IH l' ltac:(lia) (fun i => Hext (S i))).
  destruct (decide (P x)), (decide (Q x')); simpl; try tauto; lia.
Qed.

(** The count depends on the tokens and roots of the nodes only. *)
Lemma below_ext (s s' : memLS) (k : string) :
  length (store s') = length (store s) ->
  (forall a n n', store s !! a = Some n -> store s' !! a = Some n' ->
                  token n' = token n /\ Root (details n') = Root (details n)) ->
  below s' k = below s k.
Proof.
  intros Hlen H. unfold below. f_equal.
  apply filter_length_ext; [done|].
  intros a n' n Hn' Hn. destruct (H _ _ _ Hn Hn') as [Ht Hr].
  unfold covers. by rewrite Ht, Hr.
Qed.

Lemma below_app (s : memLS) (st' : list memLSNode) (n : memLSNode) (k : string) :
  st' = store s ++ [n] -> token n = "" ->
  below (with_store st' s) k = below s k.
Proof.
  intros -> Ht. unfold below. simpl. rewrite filter_app, length_app.
  rewrite filter_cons. rewrite decide_False; [simpl; lia|].
  unfold covers. intros [Hc _]. done.
Qed.

(** Nodes with distinct addresses carry distinct tokens, so there are at
    most as many locks as registered tokens. *)
Lemma count_tokens (st : list memLSNode) (P : memLSNode -> Prop)
    `{!forall n, Decision (P n)} (X : gset string) :
  (forall i n, st !! i = Some n -> P n -> token n ∈ X) ->
  (forall i j n n', st !! i = Some n -> st !! j = Some n' -> P n -> P n' ->
                    token n = token n' -> i = j) ->
  (length (filter P st) <= size X)%nat.
Proof.
  revert X. induction st as [|n st IH]; intros X Hin Hinj; [simpl; lia|].
  rewrite filter_cons. destruct (decide (P n)) as [Hn|Hn].
  - simpl.
    assert (token n ∈ X) as HX by (by apply (Hin 0%nat)).
    assert (size X = S (size (X ∖ {[token n]}))) as ->.
    { rewrite size_difference by set_solver. rewrite size_singleton.
      assert (size X <> 0%nat); [|lia].
      intros Hz. apply size_empty_inv in Hz. set_solver. }
    apply le_n_S. apply IH.
    + intros i n' Hi Hn'. apply elem_of_difference. split; [by apply (Hin (S i))|].
      intros Ht%elem_of_singleton.
      pose proof (Hinj (S i) 0%nat n' n Hi eq_refl Hn' Hn Ht). done.
    + intros i j n1 n2 Hi Hj H1 H2 Ht.
      pose proof (Hinj (S i) (S j) n1 n2 Hi Hj H1 H2 Ht). lia.
  - apply IH.
    + intros i n' Hi Hn'. by apply (Hin (S i)).
    + intros i j n1 n2 Hi Hj H1 H2 Ht.
      pose proof (Hinj (S i) (S j) n1 n2 Hi Hj H1 H2 Ht). lia.
Qed.

Lemma count_queue (s : memLS) (l : list ptr) (X : gset string) :
  NoDup l ->
  (forall a, a ∈ l -> exists n, store s !! a = Some n /\ token n ∈ X /\
                                byToken s !! token n = Some a) ->
  (length l <= size X)%nat.
Proof.
  revert X. induction l as [|a l IH]; intros X Hnd Hin; [simpl; lia|].
  apply NoDup_cons in Hnd as [Hnot Hnd].
  destruct (Hin a ltac:(left)) as (n & Hn & HX & Ht).
  assert (size X = S (size (X ∖ {[token n]}))) as ->.
  { rewrite size_difference by set_solver. rewrite size_singleton.
    assert (size X <> 0%nat); [|lia].
    intros Hz. apply size_empty_inv in Hz. set_solver. }
  simpl. apply le_n_S. apply IH; [done|].
  intros a' Ha'. destruct (Hin a' ltac:(by right)) as (n' & Hn' & HX' & Ht').
  exists n'. split; [done|]. split; [|done].
  apply elem_of_difference. split; [done|]. intros E%elem_of_singleton.
  rewrite E, Ht in Ht'. inversion Ht'. by subst.
Qed.

Lemma Inv_below_bound (s : memLS) (k : string) :
  Inv s -> below s k <= gen s.
Proof.
  intros [_ Hnodes _ (_ & Hsize & _) _].
  assert (length (filter (covers k) (store s)) <= size (dom (byToken s)))%nat.
  { apply count_tokens.
    - intros i n Hi [Ht _]. destruct (nk_token _ _ _ (Hnodes _ _ Hi) Ht) as (Hb & _).
      apply elem_of_dom. eauto.
    - intros i j n n' Hi Hj [Ht _] [Ht' _] E.
      destruct (nk_token _ _ _ (Hnodes _ _ Hi) Ht) as (Hb & _).
      destruct (nk_token _ _ _ (Hnodes _ _ Hj) Ht') as (Hb' & _).
      rewrite E in Hb. congruence. }
  rewrite size_dom in H. unfold below. lia.
Qed.

Lemma Inv_queue_bound (s : memLS) :
  Inv s -> Z.of_nat (length (byExpiry s)) <= gen s.
Proof.
  intros [Hq Hnodes _ (_ & Hsize & _) _].
  assert (length (byExpiry s) <= size (dom (byToken s)))%nat.
  { apply (count_queue s).
    - apply idx_ok_NoDup, Hq.
    - intros a Ha. apply list_elem_of_lookup_1 in Ha as [i Hi].
      destruct (qw_idx _ Hq _ _ Hi) as (n & Hn & _). exists n. split; [done|].
      assert (token n <> "") as Ht.
      { apply (nk_queued _ _ _ (Hnodes _ _ Hn)). by eapply list_elem_of_lookup_2. }
      destruct (nk_token _ _ _ (Hnodes _ _ Hn) Ht) as (Hb & _).
      split; [|done]. apply elem_of_dom. eauto. }
  rewrite size_dom in H. lia.
Qed.

(** ** The walks of remove and create *)

Lemma set_refCount_set_refCount (r r' : Z) (n : memLSNode) :
  set_refCount r (set_refCount r' n) = set_refCount r n.
Proof. reflexivity. Qed.

Lemma set_refCount_id (n : memLSNode) : set_refCount (refCount n) n = n.
Proof. by destruct n. Qed.

Lemma same_but_refs_refl (s : memLS) : same_but_refs s s.
Proof.
  split; [done|]. split; [done|]. split; [done|]. split; [lia|]. split.
  - intros a n Hn. exists (refCount n). by rewrite set_refCount_id.
  - intros a n Hge Hn. apply lookup_lt_Some in Hn. lia.
Qed.

Lemma same_but_refs_trans (s1 s2 s3 : memLS) :
  same_but_refs s1 s2 -> same_but_refs s2 s3 -> same_but_refs s1 s3.
Proof.
  intros (Ht & Hg & Hb & Hl & Hold & Hnew) (Ht' & Hg' & Hb' & Hl' & Hold' & Hnew').
  split; [congruence|]. split; [congruence|]. split; [congruence|].
  split; [lia|]. split.
  - intros a n Hn. destruct (Hold _ _ Hn) as (r & Hr).
    destruct (Hold' _ _ Hr) as (r' & Hr'). exists r'. by rewrite Hr'.
  - intros a n3 Hlen Hn3.
    destruct (store s2 !! a) as [n2|] eqn:E.
    + destruct (Hold' _ _ E) as (r & Hr). rewrite Hn3 in Hr. inversion Hr. subst n3.
      by apply (Hnew a n2).
    + apply lookup_ge_None in E. by apply (Hnew' a n3).
Qed.

Lemma remove_visitor_ok (k : string) (P : list string) (cnt : string -> Z)
    (first : bool) (s : memLS) :
  tree_pending (k :: P) 1 cnt s -> k ∉ P -> (forall j, 0 <= cnt j < 2 ^ 63 - 1) ->
  exists s', remove_visitor k first tt s = Some ((true, tt), s') /\
             tree_pending P 1 cnt s' /\ same_but_refs s s' /\
             length (store s') = length (store s) /\
             (forall j a, byName s' !! j = Some a -> byName s !! j = Some a).
Proof.
  intros Hpend Hk Hcnt.
  pose proof (Hpend k) as Hat. cbv zeta in Hat.
  rewrite decide_True in Hat by (by left).
  destruct (byName s !! k) as [a|] eqn:Ea; [|specialize (Hcnt k); lia].
  destruct Hat as (n & Hn & Hroot & Href & Hpos).
  set (n1 := set_refCount (cnt k) n).
  set (s1 := with_store (<[a := n1]> (store s)) s).
  assert (store s1 !! a = Some n1) as Hn1.
  { simpl. apply list_lookup_insert_eq. by eapply lookup_lt_Some. }
  set (s' := if cnt k =? 0 then with_byName (delete k (byName s1)) s1 else s1).
  assert (store s' = store s1 /\ byToken s' = byToken s /\ gen s' = gen s /\
          byExpiry s' = byExpiry s) as (Hst & Htok & Hgen & Hexp).
  { unfold s'. by destruct (cnt k =? 0). }
  exists s'. split; [|split; [|split; [|split]]].
  - unfold remove_visitor.
    rewrite (bind_eq _ _ _ _ _ (gets_eq _ s)). cbv beta. rewrite Ea.
    rewrite (bind_eq _ _ _ _ _ (update_eq _ _ _ _ Hn)).
    rewrite Href, wrap_int_small by (specialize (Hcnt k); lia).
    replace (cnt k + 1 - 1) with (cnt k) by lia. fold n1. fold s1.
    rewrite (bind_eq _ _ _ _ _ (load_eq _ _ _ Hn1)).
    unfold s'. change (refCount n1) with (cnt k).
    by destruct (cnt k =? 0).
  - intros j. cbv zeta. destruct (decide (j = k)) as [->|Hne].
    + rewrite decide_False by done. rewrite Z.add_0_r.
      unfold s'. destruct (cnt k =? 0) eqn:E0.
      * apply Z.eqb_eq in E0. simpl. by rewrite lookup_delete_eq.
      * apply Z.eqb_neq in E0. simpl. rewrite Ea. exists n1.
        split; [done|]. split; [done|]. split; [done|]. specialize (Hcnt k). lia.
    + pose proof (Hpend j) as Hj. cbv zeta in Hj.
      assert (byName s' !! j = byName s !! j) as ->.
      { unfold s'. destruct (cnt k =? 0); simpl; [by rewrite lookup_delete_ne|done]. }
      assert ((if decide (j ∈ k :: P) then 1 else 0) = (if decide (j ∈ P) then 1 else 0)) as E.
      { destruct (decide (j ∈ k :: P)) as [Hin|Hin], (decide (j ∈ P)) as [Hin'|Hin'];
          try done.
        - apply elem_of_cons in Hin as [?|?]; done.
        - exfalso. apply Hin. by right. }
      rewrite E in Hj. destruct (byName s !! j) as [b|] eqn:Eb; [|done].
      destruct Hj as (nb & Hnb & Hrb & Hcb & Hpb). exists nb.
      split; [|done]. rewrite Hst. simpl. rewrite list_lookup_insert_ne; [done|].
      intros ->. rewrite Hn in Hnb. inversion Hnb. subst nb. congruence.
  - split; [done|]. split; [done|]. split; [done|]. rewrite Hst. simpl.
    rewrite length_insert. split; [done|]. split.
    + intros b nb Hnb. destruct (decide (b = a)) as [->|Hne].
      * rewrite Hn in Hnb. inversion Hnb. subst nb. exists (cnt k).
        by apply list_lookup_insert_eq, lookup_lt_Some with n.
      * exists (refCount nb). by rewrite list_lookup_insert_ne, set_refCount_id.
    + intros b nb Hge Hnb. apply lookup_lt_Some in Hnb. rewrite length_insert in Hnb. lia.
  - rewrite Hst. simpl. by rewrite length_insert.
  - intros j b. unfold s'. destruct (cnt k =? 0); simpl; [|done].
    destruct (decide (j = k)) as [->|Hne]; [by rewrite lookup_delete_eq|].
    by rewrite lookup_delete_ne.
Qed.

Lemma remove_walk_ok (P : list string) (cnt : string -> Z) :
  forall (first : bool) (s : memLS),
    tree_pending P 1 cnt s -> NoDup P -> (forall j, 0 <= cnt j < 2 ^ 63 - 1) ->
    exists s', walk_visit remove_visitor P first tt s = Some (tt, s') /\
               tree_pending [] 1 cnt s' /\ same_but_refs s s' /\
               length (store s') = length (store s) /\
               (forall j a, byName s' !! j = Some a -> byName s !! j = Some a).
Proof.
  induction P as [|k P IH]; intros first s Hpend Hnd Hcnt.
  - exists s. split; [done|]. split; [done|]. split; [apply same_but_refs_refl|done].
  - apply NoDup_cons in Hnd as [Hk Hnd].
    destruct (remove_visitor_ok k P cnt first s Hpend Hk Hcnt)
      as (s1 & Hvis & Hp1 & Hr1 & Hl1 & Hn1).
    destruct (IH false s1 Hp1 Hnd Hcnt) as (s' & Hwalk & Hp' & Hr' & Hl' & Hn').
    exists s'. split; [|split; [done|split; [|split]]].
    + cbn [walk_visit]. by rewrite (bind_eq _ _ _ _ _ Hvis).
    + by eapply same_but_refs_trans.
    + congruence.
    + intros j a Hj. by apply Hn1, Hn'.
Qed.

Lemma create_visitor_ok (k : string) (P : list string) (cnt : string -> Z)
    (first : bool) (acc : option ptr) (s : memLS) :
  tree_pending (k :: P) (-1) cnt s -> k ∉ P -> (forall j, 0 <= cnt j < 2 ^ 63 - 1) ->
  exists (a : ptr) (s' : memLS),
    create_visitor k first acc s = Some ((true, if first then Some a else acc), s') /\
    byName s' !! k = Some a /\
    tree_pending P (-1) cnt s' /\ same_but_refs s s' /\
    (forall j b, byName s !! j = Some b -> byName s' !! j = Some b).
Proof.
  intros Hpend Hk Hcnt.
  pose proof (Hpend k) as Hat. cbv zeta in Hat.
  rewrite decide_True in Hat by (by left).
  assert (forall j, j <> k ->
            (if decide (j ∈ k :: P) then -1 else 0) = (if decide (j ∈ P) then -1 else 0)) as Hmem.
  { intros j Hne.
    destruct (decide (j ∈ k :: P)) as [Hin|Hin], (decide (j ∈ P)) as [Hin'|Hin']; try done.
    - apply elem_of_cons in Hin as [?|?]; done.
    - exfalso. apply Hin. by right. }
  assert (forall j b, byName s !! j = Some b -> is_Some (store s !! b)) as Hvalid.
  { intros j b Hj. pose proof (Hpend j) as Hp. cbv zeta in Hp. rewrite Hj in Hp.
    destruct Hp as (nb & Hnb & _). eauto. }
  unfold create_visitor.
  rewrite (bind_eq _ _ _ _ _ (gets_eq _ s)). cbv beta.
  destruct (byName s !! k) as [a|] eqn:Ea.
  - destruct Hat as (n & Hn & Hroot & Href & Hpos).
    set (n1 := set_refCount (cnt k) n).
    set (s' := with_store (<[a := n1]> (store s)) s).
    exists a, s'. split; [|split; [|split; [|split]]].
    + rewrite (bind_eq _ _ _ _ _ (ret_eq a s)).
      rewrite (bind_eq _ _ _ _ _ (update_eq _ _ _ _ Hn)).
      rewrite Href, wrap_int_small by (specialize (Hcnt k); lia).
      replace (cnt k + -1 + 1) with (cnt k) by lia. reflexivity.
    + done.
    + intros j. cbv zeta. destruct (decide (j = k)) as [->|Hne].
      * rewrite decide_False by done. rewrite Z.add_0_r. simpl. rewrite Ea.
        exists n1. split; [by apply list_lookup_insert_eq, lookup_lt_Some with n|].
        split; [done|]. split; [done|lia].
      * pose proof (Hpend j) as Hj. cbv zeta in Hj. rewrite (Hmem j Hne) in Hj.
        simpl. destruct (byName s !! j) as [b|] eqn:Eb; [|done].
        destruct Hj as (nb & Hnb & Hrb & Hcb & Hpb). exists nb.
        split; [|done]. rewrite list_lookup_insert_ne; [done|].
        intros ->. rewrite Hn in Hnb. inversion Hnb. subst nb. congruence.
    + split; [done|]. split; [done|]. split; [done|]. simpl.
      rewrite length_insert. split; [done|]. split.
      * intros b nb Hnb. destruct (decide (b = a)) as [->|Hne].
        -- rewrite Hn in Hnb. inversion Hnb. subst nb. exists (cnt k).
           by apply list_lookup_insert_eq, lookup_lt_Some with n.
        -- exists (refCount nb). by rewrite list_lookup_insert_ne, set_refCount_id.
      * intros b nb Hge Hnb. apply lookup_lt_Some in Hnb. rewrite length_insert in Hnb. lia.
    + done.
  - assert (cnt k = 1) as Hone by lia.
    set (a := length (store s)).
    set (n0 := mkNode (mkLockDetails k 0 "" false) "" 0 0 (-1) false).
    set (n1 := set_refCount 1 n0).
    set (s' := mkLS (<[a := n1]> (store s ++ [n0])) (<[k := a]> (byName s))
                    (byToken s) (gen s) (byExpiry s)).
    assert ((store s ++ [n0]) !! a = Some n0) as Hn0.
    { unfold a. rewrite lookup_app_r by lia. by rewrite Nat.sub_diag. }
    assert (store s' !! a = Some n1) as Hn1.
    { simpl. by apply list_lookup_insert_eq, lookup_lt_Some with n0. }
    assert (forall b nb, store s !! b = Some nb -> store s' !! b = Some nb) as Hkeep.
    { intros b nb Hnb. simpl. apply lookup_lt_Some in Hnb as Hlt.
      rewrite list_lookup_insert_ne by (unfold a; lia).
      by apply lookup_app_l_Some. }
    exists a, s'. split; [|split; [|split; [|split]]].
    + unfold alloc, modify, bind at 2 3. fold a. fold n0.
      unfold ret at 1. cbv beta iota.
      unfold bind at 1. cbv beta iota.
      erewrite bind_eq; [|apply update_eq; simpl; exact Hn0].
      simpl. rewrite wrap_int_small by lia. reflexivity.
    + simpl. apply lookup_insert_eq.
    + intros j. cbv zeta. destruct (decide (j = k)) as [->|Hne].
      * rewrite decide_False by done. rewrite Z.add_0_r. simpl. rewrite lookup_insert_eq.
        exists n1. split; [done|]. split; [done|]. split; [by rewrite Hone|lia].
      * pose proof (Hpend j) as Hj. cbv zeta in Hj. rewrite (Hmem j Hne) in Hj.
        cbn [byName s']. rewrite lookup_insert_ne by done.
        destruct (byName s !! j) as [b|] eqn:Eb; [|done].
        destruct Hj as (nb & Hnb & Hrb & Hcb & Hpb). exists nb.
        split; [by apply Hkeep|done].
    + split; [done|]. split; [done|]. split; [done|]. simpl.
      rewrite length_insert, length_app. simpl. split; [lia|]. split.
      * intros b nb Hnb. exists (refCount nb). rewrite set_refCount_id.
        by apply Hkeep.
      * intros b nb Hge Hnb. apply lookup_lt_Some in Hnb as Hlt.
        rewrite length_insert, length_app in Hlt. simpl in Hlt.
        assert (b = a) as -> by (unfold a; lia).
        rewrite list_lookup_insert_eq in Hnb by (rewrite length_app; simpl; unfold a; lia).
        inversion Hnb. done.
    + intros j b Hj. simpl. rewrite lookup_insert_ne; [done|]. intros ->. congruence.
Qed.

Lemma create_walk_ok (P : list string) (cnt : string -> Z) :
  forall (first : bool) (acc : option ptr) (s : memLS),
    tree_pending P (-1) cnt s -> NoDup P -> (forall j, 0 <= cnt j < 2 ^ 63 - 1) ->
    exists (acc' : option ptr) (s' : memLS),
      walk_visit create_visitor P first acc s = Some (acc', s') /\
      tree_pending [] (-1) cnt s' /\ same_but_refs s s' /\
      (forall j b, byName s !! j = Some b -> byName s' !! j = Some b) /\
      (first = false -> acc' = acc) /\
      (forall k P', P = k :: P' -> first = true -> acc' = byName s' !! k /\ is_Some acc').
Proof.
  induction P as [|k P IH]; intros first acc s Hpend Hnd Hcnt.
  - exists acc, s. split; [done|]. split; [done|]. split; [apply same_but_refs_refl|].
    split; [done|]. split; [done|]. intros k P' E. done.
  - apply NoDup_cons in Hnd as [Hk Hnd].
    destruct (create_visitor_ok k P cnt first acc s Hpend Hk Hcnt)
      as (a & s1 & Hvis & Ha & Hp1 & Hr1 & Hn1).
    destruct (IH false (if first then Some a else acc) s1 Hp1 Hnd Hcnt)
      as (acc' & s' & Hwalk & Hp' & Hr' & Hn' & Hacc & _).
    specialize (Hacc eq_refl). subst acc'.
    exists (if first then Some a else acc), s'.
    split; [|split; [done|split; [|split; [|split]]]].
    + cbn [walk_visit]. by rewrite (bind_eq _ _ _ _ _ Hvis).
    + by eapply same_but_refs_trans.
    + intros j b Hj. by apply Hn', Hn1.
    + by intros ->.
    + intros k0 P0 E ->. inversion E. subst k0 P0.
      rewrite (Hn' _ _ Ha). done.
Qed.

(** ** Removing a lock *)

Lemma below_pos (s : memLS) (y : ptr) (ny : memLSNode) (k : string) :
  store s !! y = Some ny -> covers k ny -> 0 < below s k.
Proof.
  intros Hy Hc. unfold below.
  assert (ny ∈ filter (covers k) (store s)) as Hin.
  { apply list_elem_of_filter. split; [done|]. by eapply list_elem_of_lookup_2. }
  destruct (filter (covers k) (store s)); [by apply elem_of_nil in Hin|simpl; lia].
Qed.

Lemma tree_pending_nil (d : Z) (cnt : string -> Z) (s : memLS) :
  tree_pending [] d cnt s ->
  (forall k, cnt k = below s k) -> tree_ok s.
Proof.
  intros H E k. specialize (H k). cbv zeta in H.
  rewrite decide_False in H by apply not_elem_of_nil.
  rewrite Z.add_0_r, E in H. done.
Qed.

Lemma Inv_removed (s s' : memLS) (x : ptr) (nx : memLSNode) :
  Inv s -> store s !! x = Some nx -> token nx <> "" -> held nx = false ->
  removed x s s' -> queue_wf s' -> tree_ok s' -> Inv s'.
Proof.
  intros [Hq Hnodes Htree Htok Hexcl] Hx Htx Hhx
    (Hgen & Hbt & Hlen & Hmem & Hst & Hbn) Hq' Htree'.
  rewrite Hx in Hbt.
  assert (forall y ny', store s' !! y = Some ny' ->
            exists ny, store s !! y = Some ny /\
              details ny' = details ny /\ expiry ny' = expiry ny /\
              held ny' = held ny /\
              token ny' = if decide (y = x) then "" else token ny) as Hinv.
  { intros y ny' Hy'. apply lookup_lt_Some in Hy' as Hlt. rewrite Hlen in Hlt.
    destruct (lookup_lt_is_Some_2 _ _ Hlt) as [ny Hy].
    destruct (Hst _ _ Hy) as (ny'' & Hy'' & H). rewrite Hy' in Hy''.
    inversion Hy''. subst ny''. eauto. }
  destruct (nk_token _ _ _ (Hnodes _ _ Hx) Htx) as (Hbx & Hnx & Habs).
  split; [done| |done| |].
  - intros y ny' Hy'. destruct (Hinv _ _ Hy') as (ny & Hy & Hd & He & Hh & Ht).
    pose proof (Hnodes _ _ Hy) as Hok.
    destruct (decide (y = x)) as [->|Hne].
    + rewrite Hx in Hy. inversion Hy. subst ny. split.
      * intros _. congruence.
      * done.
      * split; [intros Hin; apply Hmem in Hin as [_ Hc]; done|].
        intros (Hc & _). done.
    + split.
      * intros E. rewrite Hh. apply (nk_anchor _ _ _ Hok). congruence.
      * intros E. rewrite Ht in E.
        destruct (nk_token _ _ _ Hok E) as (Hby & Hny & Habsy).
        rewrite Ht, Hd. split; [|split; [|done]].
        -- rewrite Hbt. rewrite decide_False; [done|].
           intros Heq. rewrite Heq in Hby. congruence.
        -- pose proof (Htree' (Root (details ny))) as Hk.
           assert (0 < below s' (Root (details ny))) as Hpos.
           { apply (below_pos s' y ny'); [done|]. split; [congruence|].
             rewrite Hd. by apply walkPath_head. }
           destruct (byName s' !! Root (details ny)) as [a|] eqn:Ea; [|lia].
           apply Hbn in Ea. congruence.
      * rewrite Hmem, Ht, Hh, Hd.
        pose proof (nk_queued _ _ _ Hok) as Hqd. tauto.
  - destruct Htok as (Hg & Hsize & Hall). split; [by rewrite Hgen|]. split.
    + rewrite Hgen.
      assert (size (byToken s') <= size (byToken s))%nat; [|lia].
      apply map_subseteq_size. apply map_subseteq_spec. intros t a Ha.
      rewrite Hbt in Ha. by case_decide.
    + intros t a Ha. rewrite Hbt in Ha. case_decide as Et; [done|].
      destruct (Hall _ _ Ha) as ((n & Hn & Hnt) & Hne & g & Hgr & Hfmt).
      split; [|split; [done|]].
      * destruct (Hst _ _ Hn) as (n' & Hn' & _ & _ & _ & Ht'). exists n'.
        split; [done|]. rewrite Ht'. rewrite decide_False; [done|].
        intros ->. rewrite Hx in Hn. inversion Hn. by subst.
      * exists g. by rewrite Hgen.
  - intros a b na' nb' Ha' Hb' Hta Htb Hzd.
    destruct (Hinv _ _ Ha') as (na & Ha & Hda & _ & _ & Htka).
    destruct (Hinv _ _ Hb') as (nb & Hb & Hdb & _ & _ & Htkb).
    rewrite Hda, Hdb. rewrite Hda in Hzd.
    apply (Hexcl a b na nb Ha Hb); [|  |done].
    + rewrite Htka in Hta. destruct (decide (a = x)); congruence.
    + rewrite Htkb in Htb. destruct (decide (b = x)); congruence.
Qed.

Lemma remove_visitor_true (k : string) (first : bool) (acc : unit)
    (s s' : memLS) (r : bool * unit) :
  remove_visitor k first acc s = Some (r, s') -> fst r = true.
Proof.
  unfold remove_visitor. intros H.
  apply bind_Some in H as (x & s1 & _ & H).
  destruct x as [x|]; [|by inversion H].
  repeat (apply bind_Some in H as (? & ? & _ & H)). by inversion H.
Qed.

Lemma tree_ok_same_but_queue (s s' : memLS) :
  same_but_queue s s' -> tree_ok s -> tree_ok s'.
Proof.
  intros Hsq Htree k.
  assert (below s' k = below s k) as ->.
  { apply below_ext; [apply Hsq|].
    intros a n n' Hn Hn'. destruct Hsq as (_ & _ & _ & _ & Hst).
    destruct (Hst _ _ Hn) as (i & Hi). rewrite Hn' in Hi. inversion Hi. done. }
  specialize (Htree k). destruct Hsq as (Hbn & _ & _ & _ & Hst). rewrite Hbn.
  destruct (byName s !! k) as [a|]; [|done].
  destruct Htree as (n & Hn & Hr & Hc & Hp).
  destruct (Hst _ _ Hn) as (i & Hi). exists (set_index i n). done.
Qed.

(** [remove] of an explicit lock that is not held: the lock leaves the
    token registry, the queue and the counts of its path, and the
    invariant holds again. *)
Lemma remove_ok (s : memLS) (x : ptr) (nx : memLSNode) :
  Inv s -> gen s < 2 ^ 62 ->
  store s !! x = Some nx -> token nx <> "" -> held nx = false ->
  exists s', remove x s = Some (tt, s') /\ Inv s' /\ removed x s s'.
Proof.
  intros HInv Hgen Hx Htx Hhx.
  pose proof HInv as [Hq Hnodes Htree Htok Hexcl].
  destruct (nk_token _ _ _ (Hnodes _ _ Hx) Htx) as (Hbx & Hnx & Habs).
  set (r := Root (details nx)) in *.
  set (nx1 := set_token "" nx).
  set (s0 := with_byToken (delete (token nx) (byToken s)) s).
  set (s1 := with_store (<[x := nx1]> (store s)) s0).
  assert (store s1 !! x = Some nx1) as Hx1.
  { simpl. by apply list_lookup_insert_eq, lookup_lt_Some with nx. }
  assert (forall y, y <> x -> store s1 !! y = store s !! y) as Hother1.
  { intros y Hne. simpl. by rewrite list_lookup_insert_ne. }
  assert (forall y ny, store s !! y = Some ny ->
            exists ny1, store s1 !! y = Some ny1 /\
              set_token "" ny1 = set_token "" ny /\
              token ny1 = if decide (y = x) then "" else token ny) as Hst1.
  { intros y ny Hy. destruct (decide (y = x)) as [->|Hne].
    - rewrite Hx in Hy. inversion Hy. subst ny. exists nx1. done.
    - exists ny. by rewrite Hother1. }
  (* the counts once the token is gone *)
  assert (forall k, below s1 k + (if decide (k ∈ walkPath r) then 1 else 0) = below s k)
    as Hbelow1.
  { intros k.
    pose proof (below_insert s0 (<[x := nx1]> (store s)) x nx nx1 k Hx eq_refl) as E.
    change (below (with_store (<[x:=nx1]> (store s)) s0) k) with (below s1 k) in E.
    change (below s0 k) with (below s k) in E.
    rewrite (decide_False (P := covers k nx1)) in E by (intros [Hc _]; done).
    destruct (decide (covers k nx)) as [[_ Hc]|Hc], (decide (k ∈ walkPath r)) as [Hin|Hin];
      try lia; exfalso.
    - done.
    - apply Hc. by split. }
  assert (forall j, 0 <= below s1 j < 2 ^ 63 - 1) as Hbound.
  { intros j. pose proof (below_nonneg s1 j). pose proof (Inv_below_bound s j HInv).
    specialize (Hbelow1 j). destruct (decide (j ∈ walkPath r)); lia. }
  assert (tree_pending (walkPath r) 1 (below s1) s1) as Hpend.
  { intros k. cbv zeta. rewrite Hbelow1. specialize (Htree k).
    change (byName s1) with (byName s).
    destruct (byName s !! k) as [a|]; [|done].
    destruct Htree as (n & Hn & Hr & Hc & Hp).
    destruct (Hst1 _ _ Hn) as (n1 & Hn1 & E & _). exists n1. split; [done|].
    assert (Root (details n1) = Root (details n) /\ refCount n1 = refCount n) as [-> ->].
    { change (Root (details n1)) with (Root (details (set_token "" n1))).
      change (refCount n1) with (refCount (set_token "" n1)). by rewrite E. }
    done. }
  destruct (remove_walk_ok (walkPath r) (below s1) true s1 Hpend
              (walkPath_NoDup r Habs) Hbound)
    as (s2 & Hwalk & Hp2 & Hr2 & Hl2 & Hn2).
  destruct Hr2 as (Hbt2 & Hg2 & Hb2 & _ & Hold2 & _).
  assert (forall y ny, store s !! y = Some ny ->
            exists ny2, store s2 !! y = Some ny2 /\
              details ny2 = details ny /\ expiry ny2 = expiry ny /\
              held ny2 = held ny /\ byExpiryIndex ny2 = byExpiryIndex ny /\
              token ny2 = if decide (y = x) then "" else token ny) as Hst2.
  { intros y ny Hy. destruct (Hst1 _ _ Hy) as (ny1 & Hy1 & E & Ht).
    destruct (Hold2 _ _ Hy1) as (rc & Hy2). eexists. split; [exact Hy2|].
    assert (forall ny1', set_token "" ny1' = set_token "" ny ->
              details ny1' = details ny /\ expiry ny1' = expiry ny /\
              held ny1' = held ny /\ byExpiryIndex ny1' = byExpiryIndex ny) as Haux.
    { intros ny1' E'.
      change (details ny1') with (details (set_token "" ny1')).
      change (expiry ny1') with (expiry (set_token "" ny1')).
      change (held ny1') with (held (set_token "" ny1')).
      change (byExpiryIndex ny1') with (byExpiryIndex (set_token "" ny1')).
      by rewrite E'. }
    destruct (Haux _ E) as (? & ? & ? & ?). simpl. done. }
  assert (length (store s2) = length (store s)) as Hlen2.
  { rewrite Hl2. simpl. by rewrite length_insert. }
  assert (tree_ok s2) as Htree2.
  { apply (tree_pending_nil 1 (below s1)); [done|]. intros k. symmetry.
    apply below_ext; [done|]. intros a n n' Hn Hn'.
    destruct (Hold2 _ _ Hn) as (rc & E). rewrite Hn' in E. inversion E. done. }
  assert (queue_wf s2) as Hq2.
  { apply (queue_wf_frame s); [done|done| |].
    - intros y ny Hy. destruct (Hst2 _ _ Hy) as (ny2 & Hy2 & _ & He & _ & Hi & _).
      exists ny2. done.
    - intros y ny' Hnone Hy'. apply lookup_ge_None in Hnone.
      apply lookup_lt_Some in Hy'. lia. }
  destruct (Hst2 _ _ Hx) as (nx2 & Hx2 & Hdx2 & Hex2 & Hhx2 & Hix2 & Htx2).
  (* the state after the last step of [remove] *)
  assert (exists s3,
            (if 0 <=? byExpiryIndex nx2
             then heap.Remove (byExpiryIndex nx2) ;;; ret tt else ret tt) s2
              = Some (tt, s3) /\
            same_but_queue s2 s3 /\ queue_wf s3 /\
            (forall y, y ∈ byExpiry s3 <-> y ∈ byExpiry s /\ y <> x)) as Hlast.
  { rewrite (queued_test s2 x nx2 Hq2 Hx2). case_bool_decide as Hin.
    - destruct (heap_Remove_wf s2 x nx2 Hq2 Hx2 Hin) as (s3 & Hrem & Hsq & Hq3 & Hmem & _).
      { rewrite Hb2. change (byExpiry s1) with (byExpiry s).
        pose proof (Inv_queue_bound s HInv). lia. }
      exists s3. split; [by rewrite (bind_eq _ _ _ _ _ Hrem)|].
      split; [done|]. split; [done|]. intros y. rewrite Hmem, Hb2. done.
    - exists s2. split; [done|]. split; [apply same_but_queue_refl|]. split; [done|].
      intros y. rewrite Hb2. change (byExpiry s1) with (byExpiry s).
      rewrite Hb2 in Hin. change (byExpiry s1) with (byExpiry s) in Hin.
      split; [|tauto]. intros Hy. split; [done|]. by intros ->. }
  destruct Hlast as (s3 & Hlast & Hsq3 & Hq3 & Hmem3).
  exists s3.
  assert (removed x s s3) as Hrem.
  { destruct Hsq3 as (Hbn3 & Hbt3 & Hg3 & Hl3 & Hst3).
    split; [by rewrite Hg3, Hg2|].
    split; [|split; [by rewrite Hl3|split; [done|split]]].
    - intros t. rewrite Hbt3, Hbt2, Hx. simpl. rewrite lookup_delete.
      destruct (decide (token nx = t)), (decide (t = token nx)); congruence.
    - intros y ny Hy. destruct (Hst2 _ _ Hy) as (ny2 & Hy2 & Hd & He & Hh & _ & Ht).
      destruct (Hst3 _ _ Hy2) as (i & Hi). exists (set_index i ny2). done.
    - intros k a Ha. rewrite Hbn3 in Ha. by apply Hn2 in Ha. }
  split; [|split; [|done]].
  - unfold remove.
    rewrite (bind_eq _ _ _ _ _ (load_eq _ _ _ Hx)).
    rewrite (bind_eq _ _ _ _ _ (modify_eq _ s)). fold s0.
    erewrite bind_eq; [|apply update_eq; exact Hx]. fold nx1. fold s1.
    rewrite (bind_eq _ _ _ _ _ (load_eq _ _ _ Hx1)).
    change (Root (details nx1)) with r.
    erewrite bind_eq; cycle 1.
    { rewrite walkToRoot_visit; [|intros; by eapply remove_visitor_true|done].
      rewrite (bind_eq _ _ _ _ _ Hwalk). reflexivity. }
    rewrite (bind_eq _ _ _ _ _ (load_eq _ _ _ Hx2)).
    exact Hlast.
  - eapply Inv_removed; eauto. by eapply tree_ok_same_but_queue.
Qed.


(** ** The expiry sweep *)

Lemma removed_length (s s' : memLS) (x : ptr) :
  NoDup (byExpiry s) -> NoDup (byExpiry s') -> x ∈ byExpiry s ->
  (forall y, y ∈ byExpiry s' <-> y ∈ byExpiry s /\ y <> x) ->
  S (length (byExpiry s')) = length (byExpiry s).
Proof.
  intros Hnd Hnd' Hx Hmem.
  assert (byExpiry s ≡ₚ x :: byExpiry s') as Hp.
  { apply NoDup_Permutation; [done| |].
    - apply NoDup_cons. split; [|done]. intros Hc. apply Hmem in Hc as [_ Hc]. done.
    - intros y. rewrite elem_of_cons, Hmem.
      destruct (decide (y = x)) as [->|]; [tauto|tauto]. }
  by rewrite Hp.
Qed.

Lemma expiry_at_removed (s s' : memLS) (x y : ptr) :
  removed x s s' -> expiry_at s' y = expiry_at s y.
Proof.
  intros (_ & _ & Hlen & _ & Hst & _). unfold expiry_at.
  destruct (store s !! y) as [ny|] eqn:E.
  - destruct (Hst _ _ E) as (ny' & -> & _ & He & _). done.
  - apply lookup_ge_None in E. rewrite lookup_ge_None_2; [done|lia].
Qed.

(** The head of the queue expires first. *)
Lemma queue_head_min (s : memLS) (a y : ptr) :
  queue_wf s -> byExpiry s !! 0%nat = Some a -> y ∈ byExpiry s ->
  expiry_at s a <= expiry_at s y.
Proof.
  intros [Hidx Hord _] Ha Hy. apply list_elem_of_lookup_1 in Hy as [k Hk].
  apply ordered_keys in Hord.
  pose proof (ordered_upto_min _ _ Hord k (lookup_lt_Some _ _ _ Hk)) as Hmin.
  by rewrite (key_at_lookup _ _ _ Ha), (key_at_lookup _ _ _ Hk) in Hmin.
Qed.

Lemma swept_refl (now : Time) (s : memLS) :
  (forall y, y ∈ byExpiry s -> now < expiry_at s y) -> swept now s s.
Proof.
  intros Hall.
  assert (forall y, ~ expired now s y) as Hno.
  { intros y [Hy He]. specialize (Hall y Hy). lia. }
  split; [done|]. split; [done|]. split; [|split; [|split; [|done]]].
  - intros y. split; [|tauto]. intros Hy. split; [done|by apply Hall].
  - intros t a. split; [|tauto]. intros Ha. split; [done|apply Hno].
  - intros y ny Hy. exists ny. rewrite decide_False by apply Hno. done.
Qed.

Lemma swept_step (now : Time) (s s1 s' : memLS) (a : ptr) (na : memLSNode) :
  Inv s -> store s !! a = Some na -> a ∈ byExpiry s -> expiry na <= now ->
  removed a s s1 -> swept now s1 s' -> swept now s s'.
Proof.
  intros HInv Ha Hain Hexp Hrem Hsw.
  pose proof (fun y => expiry_at_removed s s1 a y Hrem) as Hexpiry.
  destruct Hrem as (Hg1 & Hbt1 & Hl1 & Hm1 & Hst1 & Hbn1).
  destruct Hsw as (Hg & Hl & Hm & Hbt & Hst & Hbn).
  rewrite Ha in Hbt1.
  assert (expiry_at s a <= now) as Hexpa by (unfold expiry_at; by rewrite Ha).
  assert (forall y, expired now s y <-> y = a \/ expired now s1 y) as Hexpd.
  { intros y. unfold expired. rewrite Hm1, Hexpiry. split.
    - intros [Hy He]. destruct (decide (y = a)); [by left|right; done].
    - intros [->|[[Hy _] He]]; done. }
  split; [congruence|]. split; [congruence|]. split; [|split; [|split]].
  - intros y. rewrite Hm, Hm1, Hexpiry. split; [tauto|].
    intros [Hy Hlt]. split; [|done]. split; [done|]. intros ->. lia.
  - intros t c. rewrite Hbt, Hbt1, Hexpd.
    destruct (inv_tokens _ HInv) as (_ & _ & Hall).
    split.
    + intros [Hc Hne]. case_decide as Et; [done|]. split; [done|].
      intros [->|He]; [|done].
      destruct (Hall _ _ Hc) as ((n & Hn & Hnt) & _). rewrite Ha in Hn.
      inversion Hn. subst n. done.
    + intros [Hc Hne]. split; [|tauto]. rewrite decide_False; [done|].
      intros ->. apply Hne. left.
      destruct (nk_token _ _ _ (inv_nodes _ HInv _ _ Ha)) as (Hb & _).
      { apply (nk_queued _ _ _ (inv_nodes _ HInv _ _ Ha)). done. }
      congruence.
  - intros y ny Hy. destruct (Hst1 _ _ Hy) as (ny1 & Hy1 & Hd1 & He1 & Hh1 & Ht1).
    destruct (Hst _ _ Hy1) as (ny' & Hy' & Hd & He & Hh & Ht).
    exists ny'. split; [done|]. split; [congruence|]. split; [congruence|].
    split; [congruence|]. rewrite Ht, Ht1.
    destruct (decide (expired now s y)) as [E|E], (decide (expired now s1 y)) as [E1|E1],
      (decide (y = a)) as [Eq|Eq]; try done.
    + apply Hexpd in E as [?|?]; done.
    + exfalso. apply E, Hexpd. by left.
    + exfalso. apply E, Hexpd. by right.
    + exfalso. apply E, Hexpd. by left.
  - intros k c Hc. by apply Hbn1, Hbn.
Qed.

Lemma collectExpiredNodes_loop_ok (now : Time) (fuel : nat) :
  forall s : memLS,
    Inv s -> gen s < 2 ^ 62 -> (length (byExpiry s) < fuel)%nat ->
    exists s', collectExpiredNodes_loop fuel now s = Some (tt, s') /\
               Inv s' /\ swept now s s'.
Proof.
  induction fuel as [|fuel IH]; intros s HInv Hgen Hfuel; [lia|].
  cbn [collectExpiredNodes_loop].
  rewrite (bind_eq _ _ _ _ _ (Len_eq s)).
  destruct (byExpiry s) as [|a rest] eqn:Eb.
  - exists s. split; [done|]. split; [done|]. apply swept_refl.
    intros y Hy. rewrite Eb in Hy. by apply elem_of_nil in Hy.
  - assert (byExpiry s !! 0%nat = Some a) as H0 by (by rewrite Eb).
    assert (a ∈ byExpiry s) as Hain by (by eapply list_elem_of_lookup_2).
    assert ((0 <? Z.of_nat (length (a :: rest))) = true) as ->
      by (apply Z.ltb_lt; simpl; lia).
    cbn [negb].
    destruct (qw_idx _ (inv_queue _ HInv) _ _ H0) as (na & Hna & _).
    rewrite (bind_eq _ _ _ _ _ (bGet_eq s 0 a H0)).
    rewrite (bind_eq _ _ _ _ _ (load_eq _ _ _ Hna)).
    destruct (now <? expiry na) eqn:E.
    + apply Z.ltb_lt in E. exists s. split; [done|]. split; [done|].
      apply swept_refl. intros y Hy.
      pose proof (queue_head_min s a y (inv_queue _ HInv) H0 Hy) as Hmin.
      unfold expiry_at in Hmin at 1. rewrite Hna in Hmin. lia.
    + apply Z.ltb_ge in E.
      destruct (proj1 (nk_queued _ _ _ (inv_nodes _ HInv _ _ Hna)) Hain) as (Ht & Hh & _).
      destruct (remove_ok s a na HInv Hgen Hna Ht Hh) as (s1 & Hrem & HInv1 & Hremd).
      rewrite (bind_eq _ _ _ _ _ Hrem).
      destruct (IH s1 HInv1) as (s' & Hloop & HInv' & Hsw).
      * destruct Hremd as (-> & _). done.
      * assert (S (length (byExpiry s1)) = length (byExpiry s)) as Hlen.
        { apply (removed_length s s1 a); try done.
          - apply idx_ok_NoDup, HInv.
          - apply idx_ok_NoDup, HInv1.
          - apply Hremd. }
        rewrite Eb in Hlen. simpl in *. lia.
      * exists s'. split; [done|]. split; [done|].
        by eapply swept_step.
Qed.

(** The sweep returns, keeps the invariant, and removes exactly the locks
    whose expiry is at or before [now]. *)
Lemma collectExpiredNodes_ok (now : Time) (s : memLS) :
  Inv s -> gen s < 2 ^ 62 ->
  exists s', collectExpiredNodes now s = Some (tt, s') /\ Inv s' /\ swept now s s'.
Proof.
  intros HInv Hgen. unfold collectExpiredNodes.
  apply collectExpiredNodes_loop_ok; [done|done|lia].
Qed.

Lemma swept_gen (now : Time) (s s1 : memLS) : swept now s s1 -> gen s1 = gen s.
Proof. by intros (? & _). Qed.

Lemma swept_unknown (now : Time) (s s1 : memLS) (tok : string) :
  swept now s s1 -> byToken s !! tok = None -> byToken s1 !! tok = None.
Proof.
  intros (_ & _ & _ & Hbt & _) Hnone.
  destruct (byToken s1 !! tok) as [a|] eqn:E; [|done].
  apply Hbt in E as [E _]. congruence.
Qed.


(** ** Changes to the lock of one node *)

Lemma touch_refl (x : ptr) (s : memLS) : touch x s s.
Proof. repeat split; try done. intros y ny Hy. exists ny. done. Qed.

Lemma touch_trans (x : ptr) (s1 s2 s3 : memLS) :
  touch x s1 s2 -> touch x s2 s3 -> touch x s1 s3.
Proof.
  intros (Hn & Ht & Hg & Hl & Hs) (Hn' & Ht' & Hg' & Hl' & Hs').
  split; [congruence|]. split; [congruence|]. split; [congruence|].
  split; [congruence|].
  intros y ny Hy. destruct (Hs _ _ Hy) as (ny2 & Hy2 & Hr & Htk & Hro & Hz & Hlk).
  destruct (Hs' _ _ Hy2) as (ny3 & Hy3 & Hr' & Htk' & Hro' & Hz' & Hlk').
  exists ny3. split; [done|]. split; [congruence|]. split; [congruence|].
  split; [congruence|]. split; [congruence|].
  intros Hne. rewrite Hlk', Hlk; done.
Qed.

Lemma same_but_queue_touch (x : ptr) (s s' : memLS) :
  same_but_queue s s' -> touch x s s'.
Proof.
  intros (Hn & Ht & Hg & Hl & Hs). repeat split; try done.
  intros y ny Hy. destruct (Hs _ _ Hy) as (i & Hi). exists (set_index i ny). done.
Qed.

(** An assignment to fields of node [x] other than its count, its token,
    its root, its depth and its position. *)
Lemma update_touch (s : memLS) (x : ptr) (nx : memLSNode)
    (f : memLSNode -> memLSNode) :
  queue_wf s -> store s !! x = Some nx ->
  refCount (f nx) = refCount nx -> token (f nx) = token nx ->
  Root (details (f nx)) = Root (details nx) ->
  ZeroDepth (details (f nx)) = ZeroDepth (details nx) ->
  byExpiryIndex (f nx) = byExpiryIndex nx ->
  (x ∈ byExpiry s -> expiry (f nx) = expiry nx) ->
  let s' := with_store (<[x := f nx]> (store s)) s in
  update x f s = Some (tt, s') /\ touch x s s' /\ queue_wf s' /\
  store s' !! x = Some (f nx).
Proof.
  intros Hq Hx Hr Ht Hro Hz Hi He s'.
  assert (store s' !! x = Some (f nx)) as Hx'.
  { simpl. by apply list_lookup_insert_eq, lookup_lt_Some with nx. }
  split; [by apply update_eq|]. split; [|split; [|done]].
  - repeat split; simpl; try done; [by rewrite length_insert|].
    intros y ny Hy. destruct (decide (y = x)) as [->|Hne].
    + rewrite Hx in Hy. inversion Hy. subst ny. exists (f nx). done.
    + exists ny. by rewrite list_lookup_insert_ne.
  - apply (queue_wf_frame s); [done|done| |].
    + intros y ny Hy. destruct (decide (y = x)) as [->|Hne].
      * rewrite Hx in Hy. inversion Hy. subst ny. exists (f nx). done.
      * exists ny. simpl. by rewrite list_lookup_insert_ne.
    + intros y ny' Hnone Hy'. apply lookup_ge_None in Hnone.
      apply lookup_lt_Some in Hy'. simpl in Hy'. rewrite length_insert in Hy'. lia.
Qed.

Lemma Inv_touch (s s' : memLS) (x : ptr) :
  Inv s -> touch x s s' -> queue_wf s' ->
  (forall y, y <> x -> (y ∈ byExpiry s' <-> y ∈ byExpiry s)) ->
  (forall nx', store s' !! x = Some nx' ->
     (token nx' = "" -> held nx' = false) /\
     (x ∈ byExpiry s' <->
      token nx' <> "" /\ held nx' = false /\ 0 <= LDuration (details nx'))) ->
  Inv s'.
Proof.
  intros [Hq Hnodes Htree Htok Hexcl] (Hbn & Hbt & Hg & Hl & Hs) Hq' Hmem Hx'.
  assert (forall y ny', store s' !! y = Some ny' ->
            exists ny, store s !! y = Some ny /\
              refCount ny' = refCount ny /\ token ny' = token ny /\
              Root (details ny') = Root (details ny) /\
              ZeroDepth (details ny') = ZeroDepth (details ny) /\
              (y <> x -> lock_of ny' = lock_of ny)) as Hinv.
  { intros y ny' Hy'. apply lookup_lt_Some in Hy' as Hlt. rewrite Hl in Hlt.
    destruct (lookup_lt_is_Some_2 _ _ Hlt) as [ny Hy].
    destruct (Hs _ _ Hy) as (ny'' & Hy'' & H). rewrite Hy' in Hy''.
    inversion Hy''. subst ny''. eauto. }
  assert (forall k, below s' k = below s k) as Hbelow.
  { intros k. apply below_ext; [done|]. intros a n n' Hn Hn'.
    destruct (Hs _ _ Hn) as (n'' & Hn'' & _ & Ht & Hr & _). rewrite Hn' in Hn''.
    inversion Hn''. by subst. }
  split; [done| | | |].
  - intros y ny' Hy'. destruct (Hinv _ _ Hy') as (ny & Hy & Hr & Ht & Hro & Hz & Hlk).
    pose proof (Hnodes _ _ Hy) as Hok.
    assert (token ny' <> "" -> byToken s' !! token ny' = Some y /\
              byName s' !! Root (details ny') = Some y /\
              absolute (Root (details ny'))) as Htk.
    { rewrite Ht, Hro, Hbt, Hbn. apply (nk_token _ _ _ Hok). }
    destruct (decide (y = x)) as [->|Hne].
    + destruct (Hx' _ Hy') as [Ha Hqd]. by split.
    + specialize (Hlk Hne). unfold lock_of in Hlk. inversion Hlk as [[Hd Ht' He Hh]].
      split; [|done|].
      * rewrite Hh, Ht. apply (nk_anchor _ _ _ Hok).
      * rewrite (Hmem y Hne), Ht, Hh, Hd. apply (nk_queued _ _ _ Hok).
  - intros k. rewrite Hbelow, Hbn. specialize (Htree k).
    destruct (byName s !! k) as [a|]; [|done].
    destruct Htree as (n & Hn & Hro & Hc & Hp).
    destruct (Hs _ _ Hn) as (n' & Hn' & Hr' & _ & Hro' & _).
    exists n'. split; [done|]. split; [congruence|]. split; [congruence|done].
  - destruct Htok as (Hgr & Hsize & Hall). unfold tokens_ok. rewrite Hg, Hbt.
    split; [done|]. split; [done|]. intros t a Ha.
    destruct (Hall _ _ Ha) as ((n & Hn & Hnt) & Hne & Hfmt).
    split; [|done]. destruct (Hs _ _ Hn) as (n' & Hn' & _ & Ht' & _).
    exists n'. split; [done|congruence].
  - intros a b na' nb' Ha' Hb' Hta Htb Hzd.
    destruct (Hinv _ _ Ha') as (na & Ha & _ & Hta' & Hra & Hza & _).
    destruct (Hinv _ _ Hb') as (nb & Hb & _ & Htb' & Hrb & Hzb & _).
    rewrite Hra, Hrb. apply (Hexcl a b na nb Ha Hb); congruence.
Qed.

(** ** hold and unhold *)

Lemma hold_ok (s : memLS) (x : ptr) (nx : memLSNode) :
  Inv s -> gen s < 2 ^ 62 ->
  store s !! x = Some nx -> token nx <> "" -> held nx = false ->
  exists s', hold x s = Some (tt, s') /\ Inv s' /\ touch x s s' /\
             (exists nx', store s' !! x = Some nx' /\
                          lock_of nx' = (details nx, token nx, expiry nx, true)) /\
             (x ∉ byExpiry s') /\
             (forall y, y <> x -> (y ∈ byExpiry s' <-> y ∈ byExpiry s)).
Proof.
  intros HInv Hgen Hx Htx Hhx.
  pose proof (inv_queue _ HInv) as Hq.
  pose proof (nk_queued _ _ _ (inv_nodes _ HInv _ _ Hx)) as Hqd.
  destruct (update_touch s x nx (set_held true) Hq Hx) as (Hupd & Ht1 & Hq1 & Hx1);
    try done.
  set (s1 := with_store (<[x := set_held true nx]> (store s)) s) in *.
  assert (exists s',
            (if (0 <=? LDuration (details (set_held true nx)))
                && (0 <=? byExpiryIndex (set_held true nx))
             then heap.Remove (byExpiryIndex (set_held true nx)) ;;; ret tt
             else ret tt) s1 = Some (tt, s') /\
            same_but_queue s1 s' /\ queue_wf s' /\ (x ∉ byExpiry s') /\
            (forall y, y <> x -> (y ∈ byExpiry s' <-> y ∈ byExpiry s))) as Hlast.
  { rewrite (queued_test s1 x _ Hq1 Hx1). change (byExpiry s1) with (byExpiry s).
    change (details (set_held true nx)) with (details nx). case_bool_decide as Hin.
    - assert (0 <= LDuration (details nx)) as HD by (apply Hqd in Hin; tauto).
      rewrite (proj2 (Z.leb_le _ _) HD). cbn [andb].
      destruct (heap_Remove_wf s1 x _ Hq1 Hx1 Hin) as (s' & Hrem & Hsq & Hq' & Hmem & _).
      { change (byExpiry s1) with (byExpiry s). pose proof (Inv_queue_bound s HInv). lia. }
      exists s'. split; [by rewrite (bind_eq _ _ _ _ _ Hrem)|].
      split; [done|]. split; [done|]. split.
      + intros Hc. apply Hmem in Hc as [_ Hc]. done.
      + intros y Hne. rewrite Hmem. change (byExpiry s1) with (byExpiry s). tauto.
    - rewrite andb_false_r. exists s1. split; [done|].
      split; [apply same_but_queue_refl|]. split; [done|]. split; [done|]. done. }
  destruct Hlast as (s' & Hlast & Hsq & Hq' & Hnotin & Hmem).
  assert (exists nx', store s' !! x = Some nx' /\
            lock_of nx' = (details nx, token nx, expiry nx, true)) as Hx'.
  { destruct Hsq as (_ & _ & _ & _ & Hst). destruct (Hst _ _ Hx1) as (i & Hi).
    eexists. split; [exact Hi|done]. }
  assert (touch x s s') as Htouch.
  { eapply touch_trans; [exact Ht1|]. by apply same_but_queue_touch. }
  exists s'. split; [|split; [|done]].
  - unfold hold. rewrite (bind_eq _ _ _ _ _ (load_eq _ _ _ Hx)). rewrite Hhx.
    rewrite (bind_eq _ _ _ _ _ Hupd).
    rewrite (bind_eq _ _ _ _ _ (load_eq _ _ _ Hx1)). exact Hlast.
  - apply (Inv_touch s s' x); try done.
    intros nx' Hnx'. destruct Hx' as (nx'' & Hnx'' & Hlk). rewrite Hnx' in Hnx''.
    inversion Hnx''. subst nx''. unfold lock_of in Hlk. inversion Hlk as [[Hd Ht He Hh]].
    split; [congruence|]. split; [done|]. intros (_ & Hc & _). congruence.
Qed.

Lemma unhold_ok (s : memLS) (x : ptr) (nx : memLSNode) :
  Inv s -> store s !! x = Some nx -> held nx = true ->
  exists s', unhold x s = Some (tt, s') /\ Inv s' /\ touch x s s' /\
             (exists nx', store s' !! x = Some nx' /\
                          lock_of nx' = (details nx, token nx, expiry nx, false)) /\
             (x ∈ byExpiry s' <-> 0 <= LDuration (details nx)) /\
             (forall y, y <> x -> (y ∈ byExpiry s' <-> y ∈ byExpiry s)).
Proof.
  intros HInv Hx Hhx.
  pose proof (inv_queue _ HInv) as Hq.
  pose proof (inv_nodes _ HInv _ _ Hx) as Hok.
  assert (token nx <> "") as Htx.
  { intros E. pose proof (nk_anchor _ _ _ Hok E). congruence. }
  assert (x ∉ byExpiry s) as Hnotin.
  { intros Hin. apply (nk_queued _ _ _ Hok) in Hin as (_ & Hc & _). congruence. }
  destruct (update_touch s x nx (set_held false) Hq Hx) as (Hupd & Ht1 & Hq1 & Hx1);
    try done.
  set (s1 := with_store (<[x := set_held false nx]> (store s)) s) in *.
  assert (exists s',
            (if 0 <=? LDuration (details (set_held false nx))
             then heap.Push x else ret tt) s1 = Some (tt, s') /\
            same_but_queue s1 s' /\ queue_wf s' /\
            (x ∈ byExpiry s' <-> 0 <= LDuration (details nx)) /\
            (forall y, y <> x -> (y ∈ byExpiry s' <-> y ∈ byExpiry s))) as Hlast.
  { change (details (set_held false nx)) with (details nx).
    destruct (0 <=? LDuration (details nx)) eqn:HD.
    - apply Z.leb_le in HD.
      destruct (heap_Push_wf s1 x _ Hq1 Hx1 Hnotin) as (s' & Hpush & Hsq & Hq' & Hmem & _).
      exists s'. split; [done|]. split; [done|]. split; [done|]. split.
      + split; [done|]. intros _. apply Hmem. by left.
      + intros y Hne. rewrite Hmem. change (byExpiry s1) with (byExpiry s). tauto.
    - apply Z.leb_gt in HD. exists s1. split; [done|].
      split; [apply same_but_queue_refl|]. split; [done|]. split; [|done].
      change (byExpiry s1) with (byExpiry s). split; [done|lia]. }
  destruct Hlast as (s' & Hlast & Hsq & Hq' & Hin & Hmem).
  assert (exists nx', store s' !! x = Some nx' /\
            lock_of nx' = (details nx, token nx, expiry nx, false)) as Hx'.
  { destruct Hsq as (_ & _ & _ & _ & Hst). destruct (Hst _ _ Hx1) as (i & Hi).
    eexists. split; [exact Hi|done]. }
  assert (touch x s s') as Htouch.
  { eapply touch_trans; [exact Ht1|]. by apply same_but_queue_touch. }
  exists s'. split; [|split; [|done]].
  - unfold unhold. rewrite (bind_eq _ _ _ _ _ (load_eq _ _ _ Hx)). rewrite Hhx.
    cbn [negb]. rewrite (bind_eq _ _ _ _ _ Hupd).
    rewrite (bind_eq _ _ _ _ _ (load_eq _ _ _ Hx1)). exact Hlast.
  - apply (Inv_touch s s' x); try done.
    intros nx' Hnx'. destruct Hx' as (nx'' & Hnx'' & Hlk). rewrite Hnx' in Hnx''.
    inversion Hnx''. subst nx''. unfold lock_of in Hlk. inversion Hlk as [[Hd Ht He Hh]].
    split; [congruence|]. rewrite Hin, Hd, Ht, Hh. intuition congruence.
Qed.

(** ** The body of Refresh *)

Lemma refresh_ok (s : memLS) (now : Time) (d : Duration) (x : ptr) (nx : memLSNode) :
  Inv s -> gen s < 2 ^ 62 ->
  store s !! x = Some nx -> token nx <> "" -> held nx = false ->
  exists (s' : memLS) (nx' : memLSNode),
    ((if 0 <=? byExpiryIndex nx
      then heap.Remove (byExpiryIndex nx) ;;; ret tt else ret tt) ;;;
     update x (fun n => set_details (set_duration d (details n)) n) ;;;
     (if 0 <=? d
      then update x (set_expiry (Add now d)) ;;; heap.Push x else ret tt) ;;;
     nd <- load x ;; ret (Ok (details nd))) s
      = Some (Ok (set_duration d (details nx)), s') /\
    Inv s' /\ touch x s s' /\
    store s' !! x = Some nx' /\
    details nx' = set_duration d (details nx) /\
    token nx' = token nx /\ held nx' = false /\
    expiry nx' = (if 0 <=? d then Add now d else expiry nx) /\
    (x ∈ byExpiry s' <-> 0 <= d) /\
    (forall y, y <> x -> (y ∈ byExpiry s' <-> y ∈ byExpiry s)).
Proof.
  intros HInv Hgen Hx Htx Hhx.
  pose proof (inv_queue _ HInv) as Hq.
  (* leave the queue *)
  assert (exists sA nxA,
            (if 0 <=? byExpiryIndex nx
             then heap.Remove (byExpiryIndex nx) ;;; ret tt else ret tt) s
              = Some (tt, sA) /\
            same_but_queue s sA /\ queue_wf sA /\ (x ∉ byExpiry sA) /\
            (forall y, y <> x -> (y ∈ byExpiry sA <-> y ∈ byExpiry s)) /\
            store sA !! x = Some nxA /\ lock_of nxA = lock_of nx) as HA.
  { rewrite (queued_test s x nx Hq Hx). case_bool_decide as Hin.
    - destruct (heap_Remove_wf s x nx Hq Hx Hin) as (sA & Hrem & Hsq & HqA & Hmem & _).
      { pose proof (Inv_queue_bound s HInv). lia. }
      destruct Hsq as (? & ? & ? & ? & Hst). destruct (Hst _ _ Hx) as (i & Hi).
      exists sA, (set_index i nx). split; [by rewrite (bind_eq _ _ _ _ _ Hrem)|].
      split; [done|]. split; [done|]. split.
      + intros Hc. apply Hmem in Hc as [_ Hc]. done.
      + split; [|done]. intros y Hne. rewrite Hmem. tauto.
    - exists s, nx. split; [done|]. split; [apply same_but_queue_refl|]. done. }
  destruct HA as (sA & nxA & HstepA & HsqA & HqA & HnotA & HmemA & HxA & HlkA).
  unfold lock_of in HlkA. inversion HlkA as [[HdA HtA HeA HhA]].
  (* the new duration *)
  set (fB := fun n => set_details (set_duration d (details n)) n).
  destruct (update_touch sA x nxA fB HqA HxA) as (HupdB & HtB & HqB & HxB); try done.
  set (sB := with_store (<[x := fB nxA]> (store sA)) sA) in *.
  (* the new expiry, and the queue again *)
  assert (exists sD nxD,
            (if 0 <=? d
             then update x (set_expiry (Add now d)) ;;; heap.Push x else ret tt) sB
              = Some (tt, sD) /\
            touch x sB sD /\ queue_wf sD /\
            (x ∈ byExpiry sD <-> 0 <= d) /\
            (forall y, y <> x -> (y ∈ byExpiry sD <-> y ∈ byExpiry sA)) /\
            store sD !! x = Some nxD /\
            lock_of nxD = (details (fB nxA), token nxA,
                           (if 0 <=? d then Add now d else expiry nxA), held nxA)) as HD.
  { destruct (0 <=? d) eqn:Ed.
    - apply Z.leb_le in Ed.
      destruct (update_touch sB x (fB nxA) (set_expiry (Add now d)) HqB HxB)
        as (HupdC & HtC & HqC & HxC); try done.
      set (sC := with_store (<[x := set_expiry (Add now d) (fB nxA)]> (store sB)) sB) in *.
      destruct (heap_Push_wf sC x _ HqC HxC HnotA) as (sD & Hpush & Hsq & HqD & Hmem & _).
      destruct Hsq as (Hsq1 & Hsq2 & Hsq3 & Hsq4 & Hst). destruct (Hst _ _ HxC) as (i & Hi).
      exists sD, (set_index i (set_expiry (Add now d) (fB nxA))).
      split; [by rewrite (bind_eq _ _ _ _ _ HupdC)|].
      split; [eapply touch_trans; [exact HtC|]; by apply same_but_queue_touch|].
      split; [done|]. split; [|split; [|done]].
      + split; [done|]. intros _. apply Hmem. by left.
      + intros y Hne. rewrite Hmem. change (byExpiry sC) with (byExpiry sA). tauto.
    - apply Z.leb_gt in Ed. exists sB, (fB nxA). split; [done|].
      split; [apply touch_refl|]. split; [done|]. split; [|done].
      change (byExpiry sB) with (byExpiry sA). split; [done|lia]. }
  destruct HD as (sD & nxD & HstepD & HtD & HqD & HinD & HmemD & HxD & HlkD).
  unfold lock_of in HlkD. inversion HlkD as [[HdD HtkD HeD HhD]].
  assert (touch x s sD) as Htouch.
  { eapply touch_trans; [by apply same_but_queue_touch|].
    eapply touch_trans; [exact HtB|done]. }
  exists sD, nxD. split; [|split; [|split; [done|split; [done|]]]].
  - rewrite (bind_eq _ _ _ _ _ HstepA).
    rewrite (bind_eq _ _ _ _ _ HupdB).
    rewrite (bind_eq _ _ _ _ _ HstepD).
    rewrite (bind_eq _ _ _ _ _ (load_eq _ _ _ HxD)).
    rewrite HdD. unfold fB. simpl. by rewrite HdA.
  - apply (Inv_touch s sD x); try done.
    + intros y Hne. rewrite (HmemD y Hne). by apply HmemA.
    + intros nx' Hnx'. rewrite HxD in Hnx'. inversion Hnx'. subst nx'.
      rewrite HtkD, HtA, HhD, HhA, Hhx, HinD, HdD. unfold fB. simpl.
      split; [done|]. intuition congruence.
  - split; [rewrite HdD; unfold fB; simpl; by rewrite HdA|].
    split; [congruence|]. split; [congruence|].
    split; [by rewrite HeD, HeA|]. split; [done|].
    intros y Hne. rewrite (HmemD y Hne). by apply HmemA.
Qed.


(** ** lookup *)

Lemma HasPrefix_is_prefix (s p : string) : HasPrefix s p = true <-> is_prefix p s.
Proof.
  split.
  - intros H. eexists. by apply HasPrefix_inv.
  - intros [t ->]. apply HasPrefix_app.
Qed.

Lemma Inv_token_node (s : memLS) (t : string) (a : ptr) :
  Inv s -> byToken s !! t = Some a ->
  exists n, store s !! a = Some n /\ token n = t /\ t <> "".
Proof.
  intros HInv Ha. destruct (inv_tokens _ HInv) as (_ & _ & Hall).
  destruct (Hall _ _ Ha) as ((n & Hn & Ht) & Hne & _). eauto.
Qed.

(** The test that [lookup] applies to the node of a condition. *)
Lemma lookup_test (name : string) (na : memLSNode) :
  (if held na then false
   else if streq name (Root (details na)) then true
   else if ZeroDepth (details na) then false
   else streq (Root (details na)) "/" || HasPrefix name (Root (details na) +:+ "/"))
  = true <-> (held na = false /\ matches name na).
Proof.
  unfold matches. destruct (held na); [intuition congruence|].
  destruct (streq name (Root (details na))) eqn:E1.
  { apply streq_true in E1. intuition congruence. }
  apply streq_false in E1.
  destruct (ZeroDepth (details na)); [intuition congruence|].
  rewrite orb_true_iff, streq_true, HasPrefix_is_prefix. intuition congruence.
Qed.

Lemma lookup_resolves (s : memLS) (name : string) (conds : list Condition) :
  Inv s ->
  exists r, lookup name conds s = Some (r, s) /\ resolves s name conds r.
Proof.
  intros HInv. induction conds as [|c rest (r & IH & Hres)].
  - exists None. split; [done|constructor].
  - cbn [lookup]. rewrite (bind_eq _ _ _ _ _ (gets_eq _ s)). cbv beta.
    destruct (byToken s !! Token c) as [a|] eqn:Ea.
    + destruct (Inv_token_node s _ a HInv Ea) as (na & Hna & _).
      rewrite (bind_eq _ _ _ _ _ (load_eq _ _ _ Hna)).
      pose proof (lookup_test name na) as Htest.
      assert (forall a', byToken s !! Token c = Some a' -> candidate s name a' ->
                held na = false /\ matches name na) as Hcand.
      { intros a' E (n & Hn & Hh & Hm). rewrite Ea in E. inversion E. subst a'.
        rewrite Hna in Hn. inversion Hn. by subst. }
      destruct (held na) eqn:Eh.
      { exists r. split; [done|]. apply resolves_skip; [|done].
        intros a' E Hc. destruct (Hcand a' E Hc). done. }
      destruct (streq name (Root (details na))).
      { exists (Some a). split; [done|]. apply resolves_here; [done|].
        exists na. split; [done|]. rewrite Eh. by apply Htest. }
      destruct (ZeroDepth (details na)).
      { exists r. split; [done|]. apply resolves_skip; [|done].
        intros a' E Hc. apply (Hcand a' E) in Hc. apply Htest in Hc. by simpl in Hc. }
      destruct (streq (Root (details na)) "/" || HasPrefix name (Root (details na) +:+ "/")).
      { exists (Some a). split; [done|]. apply resolves_here; [done|].
        exists na. split; [done|]. rewrite Eh. by apply Htest. }
      exists r. split; [done|]. apply resolves_skip; [|done].
      intros a' E Hc. apply (Hcand a' E) in Hc. apply Htest in Hc. by simpl in Hc.
    + exists r. split; [done|]. apply resolves_skip; [|done]. intros a' E. congruence.
Qed.

(** The node that a list of conditions resolves to is unique. *)
Lemma resolves_fun (s : memLS) (name : string) (conds : list Condition)
    (r1 r2 : option ptr) :
  resolves s name conds r1 -> resolves s name conds r2 -> r1 = r2.
Proof.
  intros H1. revert r2. induction H1 as [|c rest a Ha Hc|c rest r Hno _ IH]; intros r2 H2.
  - by inversion H2.
  - inversion H2 as [|? ? a' Ha' Hc'|? ? ? Hno]; subst.
    + congruence.
    + by destruct (Hno a Ha).
  - inversion H2 as [|? ? a' Ha' Hc'|? ? ? Hno']; subst.
    + by destruct (Hno a' Ha').
    + by apply IH.
Qed.

(** [lookup] reads the [Token] field of the conditions only. *)
Lemma lookup_tokens (name : string) (conds conds' : list Condition) :
  Token <$> conds' = Token <$> conds -> lookup name conds' = lookup name conds.
Proof.
  revert conds'. induction conds as [|c rest IH]; intros [|c' rest'] E; try done.
  simpl in E. inversion E as [[Ec Erest]]. cbn [lookup]. rewrite Ec.
  by rewrite (IH rest' Erest).
Qed.

Lemma Confirm_tokens (now : Time) (name0 name1 : string)
    (conds conds' : list Condition) :
  Token <$> conds' = Token <$> conds ->
  Confirm now name0 name1 conds' = Confirm now name0 name1 conds.
Proof. intros E. unfold Confirm. by rewrite !(lookup_tokens _ _ _ E). Qed.

Lemma resolves_Some (s : memLS) (name : string) (conds : list Condition) (a : ptr) :
  Inv s -> resolves s name conds (Some a) ->
  exists n, store s !! a = Some n /\ held n = false /\ token n <> "" /\
            matches name n /\ byToken s !! token n = Some a /\
            token n ∈ (Token <$> conds).
Proof.
  intros HInv H. remember (Some a) as r eqn:Er.
  induction H as [|c rest a' Ha (n & Hn & Hh & Hm)|c rest r Hno H IH]; [done| |].
  - inversion Er. subst a'.
    destruct (Inv_token_node s _ a HInv Ha) as (n' & Hn' & Ht & Hne).
    rewrite Hn in Hn'. inversion Hn'. subst n'. exists n.
    rewrite Ht. repeat split; try done. simpl. by left.
  - destruct (IH Er) as (n & Hn & Hh & Ht & Hm & Hb & Hin). exists n.
    repeat split; try done. simpl. by right.
Qed.

(** ** Confirm and release *)

(** The two [hold] calls of [Confirm], on distinct nodes that carry a
    lock and are not held. *)
Lemma Confirm_hold_ok (s : memLS) (n0 n1 : option ptr) :
  Inv s -> gen s < 2 ^ 62 ->
  (forall a, a ∈ claim_nodes (n0, n1) ->
     exists n, store s !! a = Some n /\ held n = false /\ token n <> "") ->
  (n1 = None \/ n1 <> n0) ->
  exists s',
    ((match n0 with Some a => hold a | None => ret tt end) ;;;
     (match n1 with Some a => hold a | None => ret tt end) ;;;
     ret (Ok (n0, n1))) s = Some (Ok (n0, n1), s') /\
    Inv s' /\ gen s' = gen s /\ byToken s' = byToken s /\ byName s' = byName s /\
    length (store s') = length (store s) /\
    (forall a n, a ∈ claim_nodes (n0, n1) -> store s !! a = Some n ->
                 held_lock s' a (token n) /\
                 exists n', store s' !! a = Some n' /\
                            details n' = details n /\ expiry n' = expiry n) /\
    (forall y n, y ∉ claim_nodes (n0, n1) -> store s !! y = Some n ->
       (exists n', store s' !! y = Some n' /\ lock_of n' = lock_of n) /\
       (y ∈ byExpiry s' <-> y ∈ byExpiry s)).
Proof.
  intros HInv Hgen Hlive Hdistinct.
  (* the first hold *)
  assert (exists sA,
            (match n0 with Some a => hold a | None => ret tt end) s = Some (tt, sA) /\
            Inv sA /\ gen sA = gen s /\ byToken sA = byToken s /\
            byName sA = byName s /\ length (store sA) = length (store s) /\
            (forall a n, n0 = Some a -> store s !! a = Some n ->
               (a ∉ byExpiry sA) /\
               exists n', store sA !! a = Some n' /\
                          lock_of n' = (details n, token n, expiry n, true)) /\
            (forall y n, n0 <> Some y -> store s !! y = Some n ->
               (exists n', store sA !! y = Some n' /\ lock_of n' = lock_of n) /\
               (y ∈ byExpiry sA <-> y ∈ byExpiry s))) as HA.
  { destruct n0 as [a|].
    - destruct (Hlive a) as (n & Hn & Hh & Ht).
      { unfold claim_nodes. simpl. destruct n1; left. }
      destruct (hold_ok s a n HInv Hgen Hn Ht Hh)
        as (sA & Hhold & HInvA & Htouch & Hx & Hnot & Hmem).
      destruct Htouch as (Hbn & Hbt & Hg & Hl & Hst).
      exists sA. do 6 (split; [done|]). split.
      + intros a' n' E Hn'. inversion E. subst a'. rewrite Hn in Hn'.
        inversion Hn'. subst n'. done.
      + intros y ny Hney Hy. destruct (Hst _ _ Hy) as (n' & Hn' & _ & _ & _ & _ & Hlk).
        split; [exists n'; split; [done|apply Hlk; congruence]|].
        apply Hmem. congruence.
    - exists s. do 6 (split; [done|]). split; [done|].
      intros y ny _ Hy. split; [eauto|done]. }
  destruct HA as (sA & HholdA & HInvA & HgA & HbtA & HbnA & HlA & HinA & HoutA).
  (* the second hold *)
  assert (exists sB,
            (match n1 with Some a => hold a | None => ret tt end) sA = Some (tt, sB) /\
            Inv sB /\ gen sB = gen sA /\ byToken sB = byToken sA /\
            byName sB = byName sA /\ length (store sB) = length (store sA) /\
            (forall a n, n1 = Some a -> store sA !! a = Some n ->
               (a ∉ byExpiry sB) /\
               exists n', store sB !! a = Some n' /\
                          lock_of n' = (details n, token n, expiry n, true)) /\
            (forall y n, n1 <> Some y -> store sA !! y = Some n ->
               (exists n', store sB !! y = Some n' /\ lock_of n' = lock_of n) /\
               (y ∈ byExpiry sB <-> y ∈ byExpiry sA))) as HB.
  { destruct n1 as [a|].
    - destruct (Hlive a) as (n & Hn & Hh & Ht).
      { unfold claim_nodes. simpl. destruct n0; [right; left|left]. }
      assert (n0 <> Some a) as Hne by (destruct Hdistinct; congruence).
      destruct (HoutA a n Hne Hn) as ((nA & HnA & HlkA) & _).
      unfold lock_of in HlkA. inversion HlkA as [[Hd Htk He Hhd]].
      destruct (hold_ok sA a nA HInvA ltac:(lia) HnA ltac:(congruence) ltac:(congruence))
        as (sB & Hhold & HInvB & Htouch & Hx & Hnot & Hmem).
      destruct Htouch as (Hbn & Hbt & Hg & Hl & Hst).
      exists sB. do 6 (split; [done|]). split.
      + intros a' n' E Hn'. inversion E. subst a'. rewrite HnA in Hn'.
        inversion Hn'. subst n'. done.
      + intros y ny Hney Hy. destruct (Hst _ _ Hy) as (n' & Hn' & _ & _ & _ & _ & Hlk).
        split; [exists n'; split; [done|apply Hlk; congruence]|].
        apply Hmem. congruence.
    - exists sA. do 6 (split; [done|]). split; [done|].
      intros y ny _ Hy. split; [eauto|done]. }
  destruct HB as (sB & HholdB & HInvB & HgB & HbtB & HbnB & HlB & HinB & HoutB).
  exists sB. split; [|split; [done|split; [congruence|split; [congruence|
    split; [congruence|split; [congruence|split]]]]]].
  - rewrite (bind_eq _ _ _ _ _ HholdA). by rewrite (bind_eq _ _ _ _ _ HholdB).
  - intros a n Ha Hn.
    assert (n0 = Some a \/ (n0 <> Some a /\ n1 = Some a)) as Hcase.
    { destruct (decide (n0 = Some a)) as [E|E]; [by left|right]. split; [done|].
      clear -Ha E. unfold claim_nodes in Ha. simpl in Ha.
      destruct n0 as [a0|], n1 as [a1|];
        repeat (apply elem_of_cons in Ha as [Ha|Ha]);
        try (by apply elem_of_nil in Ha); congruence. }
    pose proof (inv_nodes _ HInv _ _ Hn) as Hok.
    destruct (Hlive a Ha) as (n' & Hn' & Hh & Ht). rewrite Hn in Hn'.
    inversion Hn'. subst n'.
    destruct (nk_token _ _ _ Hok Ht) as (Hbt & _).
    destruct Hcase as [E|[Hne E]].
    + destruct (HinA a n E Hn) as (HnotA & nA & HnA & HlkA).
      assert (n1 <> Some a) as Hne1 by (destruct Hdistinct; congruence).
      destruct (HoutB a nA Hne1 HnA) as ((nB & HnB & HlkB) & HmemB).
      rewrite HlkA in HlkB. unfold lock_of in HlkB. inversion HlkB as [[Hd Htk He Hhd]].
      split.
      * exists nB. repeat split; try done; [congruence|]. by rewrite HmemB.
      * exists nB. done.
    + destruct (HoutA a n Hne Hn) as ((nA & HnA & HlkA) & _).
      unfold lock_of in HlkA. inversion HlkA as [[Hd Htk He Hhd]].
      destruct (HinB a nA E HnA) as (HnotB & nB & HnB & HlkB).
      unfold lock_of in HlkB. inversion HlkB as [[Hd' Htk' He' Hhd']].
      split.
      * exists nB. repeat split; try done; congruence.
      * exists nB. split; [done|]. split; congruence.
  - intros y n Hy Hn.
    assert (n0 <> Some y /\ n1 <> Some y) as [Hne0 Hne1].
    { clear -Hy. unfold claim_nodes in Hy. simpl in Hy.
      split; intros ->.
      - apply Hy. destruct n1; by left.
      - apply Hy. destruct n0; [right; left|left]. }
    destruct (HoutA y n Hne0 Hn) as ((nA & HnA & HlkA) & HmemA).
    destruct (HoutB y nA Hne1 HnA) as ((nB & HnB & HlkB) & HmemB).
    split; [exists nB; split; [done|congruence]|]. by rewrite HmemB.
Qed.

(** [Confirm], from the state that its sweep leaves. *)
Lemma Confirm_ok (s : memLS) (now : Time) (name0 name1 : string)
    (conds : list Condition) :
  Inv s -> gen s < 2 ^ 62 ->
  exists (s1 : memLS) (r0 r1 : option ptr),
    collectExpiredNodes now s = Some (tt, s1) /\ Inv s1 /\ swept now s s1 /\
    resolves s1 (slashClean name0) conds r0 /\
    resolves s1 (slashClean name1) conds r1 /\
    let n0 := if decide (name0 = "") then None else r0 in
    let n1 := if decide (name1 = "") then None else r1 in
    let n1' := if decide (n1 = n0) then None else n1 in
    let failed := (name0 <> "" /\ r0 = None) \/ (name1 <> "" /\ r1 = None) in
    (failed ->
     Confirm now name0 name1 conds s = Some (Err ErrConfirmationFailed, s1)) /\
    (~ failed ->
     (n1' = None \/ n1' <> n0) /\
     (forall a, a ∈ claim_nodes (n0, n1') ->
        exists n, store s1 !! a = Some n /\ held n = false /\ token n <> "" /\
                  byToken s1 !! token n = Some a /\
                  token n ∈ (Token <$> conds)) /\
     forall s2,
       ((match n0 with Some a => hold a | None => ret tt end) ;;;
        (match n1' with Some a => hold a | None => ret tt end) ;;;
        ret (Ok (n0, n1'))) s1 = Some (Ok (n0, n1'), s2) ->
       Confirm now name0 name1 conds s = Some (Ok (n0, n1'), s2)).
Proof.
  intros HInv Hgen.
  destruct (collectExpiredNodes_ok now s HInv Hgen) as (s1 & Hsweep & HInv1 & Hsw).
  destruct (lookup_resolves s1 (slashClean name0) conds HInv1) as (r0 & Hl0 & Hr0).
  destruct (lookup_resolves s1 (slashClean name1) conds HInv1) as (r1 & Hl1 & Hr1).
  exists s1, r0, r1. do 5 (split; [done|]). cbv zeta.
  unfold Confirm. rewrite (bind_eq _ _ _ _ _ Hsweep).
  assert ((if negb (streq name0 "") then lookup (slashClean name0) conds else ret None) s1
          = Some (if decide (name0 = "") then None else r0, s1)) as H0.
  { destruct (decide (name0 = "")) as [->|Hne]; [done|].
    by rewrite (proj2 (streq_false _ _) Hne). }
  assert ((if negb (streq name1 "") then lookup (slashClean name1) conds else ret None) s1
          = Some (if decide (name1 = "") then None else r1, s1)) as H1.
  { destruct (decide (name1 = "")) as [->|Hne]; [done|].
    by rewrite (proj2 (streq_false _ _) Hne). }
  rewrite (bind_eq _ _ _ _ _ H0).
  assert (forall (name : string) (r : option ptr),
            negb (streq name "") && bool_decide ((if decide (name = "") then None else r) = None)
            = bool_decide (name <> "" /\ r = None)) as Htest.
  { intros name r. destruct (decide (name = "")) as [->|Hne].
    - rewrite streq_refl. cbn [negb andb]. symmetry. apply bool_decide_eq_false_2. tauto.
    - rewrite (proj2 (streq_false _ _) Hne). cbn [negb andb]. apply bool_decide_ext. tauto. }
  rewrite !Htest.
  split.
  - intros Hfailed. case_bool_decide as E0; [reflexivity|].
    rewrite (bind_eq _ _ _ _ _ H1). rewrite Htest.
    rewrite bool_decide_eq_true_2; [reflexivity|tauto].
  - intros Hok. rewrite bool_decide_eq_false_2 by tauto.
    rewrite (bind_eq _ _ _ _ _ H1). rewrite Htest.
    rewrite bool_decide_eq_false_2 by tauto.
    split; [|split].
    + destruct (decide ((if decide (name1 = "") then None else r1)
                        = (if decide (name0 = "") then None else r0))) as [E|E];
        [by left|by right].
    + intros a Ha.
      assert (resolves s1 (slashClean name0) conds (Some a) \/
              resolves s1 (slashClean name1) conds (Some a)) as Hres.
      { clear -Ha Hr0 Hr1. unfold claim_nodes in Ha. simpl in Ha.
        destruct (decide (name0 = "")), (decide (name1 = "")), r0 as [a0|], r1 as [a1|];
          try (destruct (decide (_ = _)));
          repeat (apply elem_of_cons in Ha as [Ha|Ha]);
          try (by apply elem_of_nil in Ha); subst; tauto. }
      destruct Hres as [Hres|Hres];
        destruct (resolves_Some _ _ _ _ HInv1 Hres) as (n & Hn & Hh & Ht & _ & Hb & Hin);
        exists n; done.
    + intros s2.
      destruct (decide ((if decide (name1 = "") then None else r1)
                        = (if decide (name0 = "") then None else r0))) as [E|E].
      * by rewrite bool_decide_eq_true_2.
      * by rewrite bool_decide_eq_false_2.
Qed.

Lemma claim_nodes_NoDup (n0 n1 : option ptr) :
  n1 = None \/ n1 <> n0 -> NoDup (claim_nodes (n0, n1)).
Proof.
  intros H. unfold claim_nodes. simpl.
  destruct n0 as [a|], n1 as [b|]; try (by repeat constructor; try apply not_elem_of_nil).
  assert (a <> b) by (destruct H; congruence).
  repeat constructor; [|apply not_elem_of_nil].
  intros Hin. apply elem_of_cons in Hin as [Hin|Hin]; [done|].
  by apply elem_of_nil in Hin.
Qed.

(** [Confirm]: the sweep, the resolution of the two names, and the holds. *)
Lemma Confirm_result (s : memLS) (now : Time) (name0 name1 : string)
    (conds : list Condition) :
  Inv s -> gen s < 2 ^ 62 ->
  exists (s1 : memLS) (r0 r1 : option ptr),
    collectExpiredNodes now s = Some (tt, s1) /\ Inv s1 /\ swept now s s1 /\
    resolves s1 (slashClean name0) conds r0 /\
    resolves s1 (slashClean name1) conds r1 /\
    let n0 := if decide (name0 = "") then None else r0 in
    let n1 := if decide (name1 = "") then None else r1 in
    let n1' := if decide (n1 = n0) then None else n1 in
    let failed := (name0 <> "" /\ r0 = None) \/ (name1 <> "" /\ r1 = None) in
    (failed ->
     Confirm now name0 name1 conds s = Some (Err ErrConfirmationFailed, s1)) /\
    (~ failed ->
     exists s2,
       Confirm now name0 name1 conds s = Some (Ok (n0, n1'), s2) /\
       Inv s2 /\ gen s2 = gen s1 /\ byToken s2 = byToken s1 /\
       byName s2 = byName s1 /\ length (store s2) = length (store s1) /\
       NoDup (claim_nodes (n0, n1')) /\
       (forall a, a ∈ claim_nodes (n0, n1') ->
          exists n n', store s1 !! a = Some n /\ held n = false /\
                       token n ∈ (Token <$> conds) /\
                       held_lock s2 a (token n) /\
                       store s2 !! a = Some n' /\
                       details n' = details n /\ expiry n' = expiry n) /\
       (forall y n, y ∉ claim_nodes (n0, n1') -> store s1 !! y = Some n ->
          (exists n', store s2 !! y = Some n' /\ lock_of n' = lock_of n) /\
          (y ∈ byExpiry s2 <-> y ∈ byExpiry s1))).
Proof.
  intros HInv Hgen.
  destruct (Confirm_ok s now name0 name1 conds HInv Hgen)
    as (s1 & r0 & r1 & Hsweep & HInv1 & Hsw & Hr0 & Hr1 & Hfail & Hsucc).
  exists s1, r0, r1. do 5 (split; [done|]). cbv zeta in *.
  split; [done|]. intros Hok.
  destruct (Hsucc Hok) as (Hdis & Hlive & Hrun).
  assert (gen s1 < 2 ^ 62) as Hgen1 by (destruct Hsw as (-> & _); done).
  match type of Hdis with
  | ?b = None \/ ?b <> ?a =>
      assert (forall x, x ∈ claim_nodes (a, b) ->
                exists n, store s1 !! x = Some n /\ held n = false /\ token n <> "")
        as Hlive';
      [intros x Hx; destruct (Hlive x Hx) as (n & Hn & Hh & Ht & _); eauto|];
      destruct (Confirm_hold_ok s1 a b HInv1 Hgen1 Hlive' Hdis)
        as (s2 & Hhold & HInv2 & Hg & Hbt & Hbn & Hlen & Hin & Hout)
  end.
  exists s2. split; [by apply Hrun|]. do 5 (split; [done|]).
  split; [by apply claim_nodes_NoDup|]. split; [|done].
  intros a Ha. destruct (Hlive a Ha) as (n & Hn & Hh & Ht & Hb & Htok).
  destruct (Hin a n Ha Hn) as (Hheld & n' & Hn' & Hd & He).
  exists n, n'. done.
Qed.

(** C4. [Confirm] sweeps and then resolves each non-empty name, normalised
    by [slashClean], to the node of the first condition, in list order,
    whose token names a node that is not held and matches the name: the
    node is rooted at the name, or it has infinite depth and its root is
    the root directory or its root followed by a slash is a prefix of the
    name. When a non-empty name resolves to no node, [Confirm] returns
    [ErrConfirmationFailed] and the state is the one the sweep left: nothing
    is held. Otherwise it returns the resolved nodes, and the nodes held
    afterwards are those held before and the resolved ones. The result
    depends on the [Token] fields of the conditions only, and a lock of
    depth zero matches no name but its root. *)
Theorem Confirm_spec (s : memLS) (now : Time) (name0 name1 : string)
    (conds : list Condition) :
  Inv s -> gen s < 2 ^ 62 ->
  exists (s1 : memLS) (r0 r1 : option ptr),
    collectExpiredNodes now s = Some (tt, s1) /\
    (resolves s1 (slashClean name0) conds r0 /\
     forall r, resolves s1 (slashClean name0) conds r -> r = r0) /\
    (resolves s1 (slashClean name1) conds r1 /\
     forall r, resolves s1 (slashClean name1) conds r -> r = r1) /\
    let n0 := if decide (name0 = "") then None else r0 in
    let n1 := if decide (name1 = "") then None else r1 in
    let n1' := if decide (n1 = n0) then None else n1 in
    let failed := (name0 <> "" /\ r0 = None) \/ (name1 <> "" /\ r1 = None) in
    (failed ->
     Confirm now name0 name1 conds s = Some (Err ErrConfirmationFailed, s1)) /\
    (~ failed ->
     exists s2,
       Confirm now name0 name1 conds s = Some (Ok (n0, n1'), s2) /\
       forall a n, store s1 !! a = Some n ->
         exists n', store s2 !! a = Some n' /\
                    (held n' = true <-> held n = true \/ a ∈ claim_nodes (n0, n1'))) /\
    (forall conds', Token <$> conds' = Token <$> conds ->
       Confirm now name0 name1 conds' s = Confirm now name0 name1 conds s) /\
    (forall name n, ZeroDepth (details n) = true -> matches name n ->
                    Root (details n) = name).
Proof.
  intros HInv Hgen.
  destruct (Confirm_result s now name0 name1 conds HInv Hgen)
    as (s1 & r0 & r1 & Hsweep & HInv1 & Hsw & Hr0 & Hr1 & Hfail & Hsucc).
  exists s1, r0, r1. split; [done|].
  split; [split; [done|intros r Hr; exact (resolves_fun _ _ _ _ _ Hr Hr0)]|].
  split; [split; [done|intros r Hr; exact (resolves_fun _ _ _ _ _ Hr Hr1)]|].
  cbv zeta in *. split; [done|]. split; [|split].
  - intros Hok.
    destruct (Hsucc Hok) as (s2 & HC & _ & _ & _ & _ & _ & _ & Hin & Hout).
    exists s2. split; [done|]. intros a n Hn.
    match goal with
    | |- context [claim_nodes ?c] => destruct (decide (a ∈ claim_nodes c)) as [Ha|Ha]
    end.
    + destruct (Hin a Ha) as (m & m' & Hm & _ & _ & Hheld & Hm' & _).
      destruct Hheld as (mx & Hmx & Hh & _). rewrite Hm' in Hmx. inversion Hmx. subst mx.
      exists m'. split; [done|]. split; [by right|done].
    + destruct (Hout a n Ha Hn) as ((n' & Hn' & Hlk) & _).
      exists n'. split; [done|]. unfold lock_of in Hlk. inversion Hlk as [[Hd Ht He Hh]].
      rewrite Hh. split; [by left|]. by intros [?|?].
  - intros conds' E. by rewrite (Confirm_tokens now name0 name1 conds conds' E).
  - intros name n Hz [Hm|[Hm _]]; [done|congruence].
Qed.


(** ** Refresh and Unlock *)

(** [Refresh] and [Unlock] on a token that the sweep leaves unregistered. *)
Lemma Refresh_unknown (s s1 : memLS) (now : Time) (tok : string) (d : Duration) :
  collectExpiredNodes now s = Some (tt, s1) -> byToken s1 !! tok = None ->
  Refresh now tok d s = Some (Err ErrNoSuchLock, s1).
Proof.
  intros Hsweep Hnone. unfold Refresh. rewrite (bind_eq _ _ _ _ _ Hsweep).
  rewrite (bind_eq _ _ _ _ _ (gets_eq _ s1)). cbv beta. by rewrite Hnone.
Qed.

Lemma Unlock_unknown (s s1 : memLS) (now : Time) (tok : string) :
  collectExpiredNodes now s = Some (tt, s1) -> byToken s1 !! tok = None ->
  Unlock now tok s = Some (Err ErrNoSuchLock, s1).
Proof.
  intros Hsweep Hnone. unfold Unlock. rewrite (bind_eq _ _ _ _ _ Hsweep).
  rewrite (bind_eq _ _ _ _ _ (gets_eq _ s1)). cbv beta. by rewrite Hnone.
Qed.

(** [Refresh] and [Unlock] on the token of a held node. *)
Lemma Refresh_held (s s1 : memLS) (now : Time) (tok : string) (d : Duration)
    (x : ptr) (n : memLSNode) :
  collectExpiredNodes now s = Some (tt, s1) -> byToken s1 !! tok = Some x ->
  store s1 !! x = Some n -> held n = true ->
  Refresh now tok d s = Some (Err ErrLocked, s1).
Proof.
  intros Hsweep Hx Hn Hh. unfold Refresh. rewrite (bind_eq _ _ _ _ _ Hsweep).
  rewrite (bind_eq _ _ _ _ _ (gets_eq _ s1)). cbv beta. rewrite Hx.
  rewrite (bind_eq _ _ _ _ _ (load_eq _ _ _ Hn)). by rewrite Hh.
Qed.

Lemma Unlock_held (s s1 : memLS) (now : Time) (tok : string)
    (x : ptr) (n : memLSNode) :
  collectExpiredNodes now s = Some (tt, s1) -> byToken s1 !! tok = Some x ->
  store s1 !! x = Some n -> held n = true ->
  Unlock now tok s = Some (Err ErrLocked, s1).
Proof.
  intros Hsweep Hx Hn Hh. unfold Unlock. rewrite (bind_eq _ _ _ _ _ Hsweep).
  rewrite (bind_eq _ _ _ _ _ (gets_eq _ s1)). cbv beta. rewrite Hx.
  rewrite (bind_eq _ _ _ _ _ (load_eq _ _ _ Hn)). by rewrite Hh.
Qed.

(** [Refresh] on the token of a lock that is not held. *)
Lemma Refresh_live (s s1 : memLS) (now : Time) (tok : string) (d : Duration)
    (x : ptr) (n : memLSNode) :
  collectExpiredNodes now s = Some (tt, s1) -> Inv s1 -> gen s1 < 2 ^ 62 ->
  byToken s1 !! tok = Some x -> store s1 !! x = Some n -> held n = false ->
  exists (s' : memLS) (n' : memLSNode),
    Refresh now tok d s = Some (Ok (set_duration d (details n)), s') /\
    Inv s' /\ touch x s1 s' /\
    store s' !! x = Some n' /\
    details n' = set_duration d (details n) /\
    token n' = tok /\ held n' = false /\
    expiry n' = (if 0 <=? d then Add now d else expiry n) /\
    (x ∈ byExpiry s' <-> 0 <= d) /\
    (forall y, y <> x -> (y ∈ byExpiry s' <-> y ∈ byExpiry s1)).
Proof.
  intros Hsweep HInv1 Hgen1 Hx Hn Hh.
  destruct (Inv_token_node s1 tok x HInv1 Hx) as (n0 & Hn0 & Ht & Hne).
  rewrite Hn in Hn0. inversion Hn0. subst n0.
  destruct (refresh_ok s1 now d x n HInv1 Hgen1 Hn ltac:(congruence) Hh)
    as (s' & n' & Hrun & HInv' & Htouch & Hn' & Hd & Htok & Hheld & Hexp & Hq & Hoth).
  exists s', n'. split.
  - unfold Refresh. rewrite (bind_eq _ _ _ _ _ Hsweep).
    rewrite (bind_eq _ _ _ _ _ (gets_eq _ s1)). cbv beta. rewrite Hx.
    rewrite (bind_eq _ _ _ _ _ (load_eq _ _ _ Hn)). rewrite Hh. exact Hrun.
  - do 4 (split; [done|]). split; [congruence|done].
Qed.

(** [Unlock] on the token of a lock that is not held. *)
Lemma Unlock_live (s s1 : memLS) (now : Time) (tok : string)
    (x : ptr) (n : memLSNode) :
  collectExpiredNodes now s = Some (tt, s1) -> Inv s1 -> gen s1 < 2 ^ 62 ->
  byToken s1 !! tok = Some x -> store s1 !! x = Some n -> held n = false ->
  exists s', Unlock now tok s = Some (Ok tt, s') /\ Inv s' /\ removed x s1 s' /\
             byToken s' !! tok = None.
Proof.
  intros Hsweep HInv1 Hgen1 Hx Hn Hh.
  destruct (Inv_token_node s1 tok x HInv1 Hx) as (n0 & Hn0 & Ht & Hne).
  rewrite Hn in Hn0. inversion Hn0. subst n0.
  destruct (remove_ok s1 x n HInv1 Hgen1 Hn ltac:(congruence) Hh)
    as (s' & Hrun & HInv' & Hrem).
  exists s'. split; [|split; [done|split; [done|]]].
  - unfold Unlock. rewrite (bind_eq _ _ _ _ _ Hsweep).
    rewrite (bind_eq _ _ _ _ _ (gets_eq _ s1)). cbv beta. rewrite Hx.
    rewrite (bind_eq _ _ _ _ _ (load_eq _ _ _ Hn)). rewrite Hh.
    by rewrite (bind_eq _ _ _ _ _ Hrun).
  - destruct Hrem as (_ & Hbt & _). rewrite Hbt, Hn. by rewrite decide_True.
Qed.

(** C6. [Refresh] and [Unlock] sweep first. On a token that is then not
    registered both return [ErrNoSuchLock], and on the token of a held node
    both return [ErrLocked]; the state is the one the sweep left. Otherwise
    [Refresh] sets the new duration, leaves the node in the expiry queue
    with expiry [now.Add(duration)] exactly when the duration is finite,
    which is [now + duration] within the range of [time.Time], and returns
    the updated details; [Unlock] removes the lock, and any later [Unlock]
    of the token returns [ErrNoSuchLock]. *)
Theorem Refresh_Unlock_spec (s : memLS) (now : Time) (tok : string) (d : Duration) :
  Inv s -> gen s < 2 ^ 62 ->
  exists s1 : memLS,
    collectExpiredNodes now s = Some (tt, s1) /\
    (byToken s !! tok = None -> byToken s1 !! tok = None) /\
    match byToken s1 !! tok with
    | None =>
        Refresh now tok d s = Some (Err ErrNoSuchLock, s1) /\
        Unlock now tok s = Some (Err ErrNoSuchLock, s1)
    | Some x =>
        exists n, store s1 !! x = Some n /\ token n = tok /\
          if held n then
            Refresh now tok d s = Some (Err ErrLocked, s1) /\
            Unlock now tok s = Some (Err ErrLocked, s1)
          else
            (exists (s' : memLS) (n' : memLSNode),
               Refresh now tok d s = Some (Ok (set_duration d (details n)), s') /\
               Inv s' /\ byToken s' = byToken s1 /\ byName s' = byName s1 /\
               store s' !! x = Some n' /\
               details n' = set_duration d (details n) /\
               token n' = tok /\ held n' = false /\
               (x ∈ byExpiry s' <-> 0 <= d) /\
               (0 <= d -> expiry n' = Add now d) /\
               (0 <= d -> time_ok now -> time_ok (now + d) ->
                expiry n' = now + d) /\
               (forall y ny, y <> x -> store s1 !! y = Some ny ->
                  (exists ny', store s' !! y = Some ny' /\ lock_of ny' = lock_of ny) /\
                  (y ∈ byExpiry s' <-> y ∈ byExpiry s1))) /\
            (exists s' : memLS,
               Unlock now tok s = Some (Ok tt, s') /\
               Inv s' /\ removed x s1 s' /\
               forall now', exists s'',
                 Unlock now' tok s' = Some (Err ErrNoSuchLock, s''))
    end.
Proof.
  intros HInv Hgen.
  destruct (collectExpiredNodes_ok now s HInv Hgen) as (s1 & Hsweep & HInv1 & Hsw).
  assert (gen s1 < 2 ^ 62) as Hgen1 by (rewrite (swept_gen _ _ _ Hsw); done).
  exists s1. split; [done|]. split; [by apply (swept_unknown now)|].
  destruct (byToken s1 !! tok) as [x|] eqn:Hx.
  - destruct (Inv_token_node s1 tok x HInv1 Hx) as (n & Hn & Ht & Hne).
    exists n. do 2 (split; [done|]).
    destruct (held n) eqn:Hh.
    + split; [by eapply Refresh_held|by eapply Unlock_held].
    + split.
      * destruct (Refresh_live s s1 now tok d x n Hsweep HInv1 Hgen1 Hx Hn Hh)
          as (s' & n' & Hrun & HInv' & Htouch & Hn' & Hd & Htok & Hheld & Hexp & Hq & Hoth).
        exists s', n'. destruct Htouch as (Hbn & Hbt & Hg & Hl & Hst).
        do 9 (split; [done|]). split; [|split].
        -- intros Hd0. rewrite Hexp.
           by rewrite (proj2 (Z.leb_le 0 d) Hd0).
        -- intros Hd0 Hnow Hend. rewrite Hexp.
           rewrite (proj2 (Z.leb_le 0 d) Hd0). by apply Add_exact.
        -- intros y ny Hy Hny. split; [|by apply Hoth].
           destruct (Hst y ny Hny) as (ny' & Hny' & _ & _ & _ & _ & Hlk).
           exists ny'. split; [done|by apply Hlk].
      * destruct (Unlock_live s s1 now tok x n Hsweep HInv1 Hgen1 Hx Hn Hh)
          as (s' & Hrun & HInv' & Hrem & Hgone).
        exists s'. do 3 (split; [done|]). intros now'.
        assert (gen s' < 2 ^ 62) as Hgen' by (destruct Hrem as (-> & _); done).
        destruct (collectExpiredNodes_ok now' s' HInv' Hgen') as (s'' & Hsweep' & _ & Hsw').
        exists s''. apply (Unlock_unknown s' s'' now' tok Hsweep').
        by apply (swept_unknown now' s').
  - split; [by apply Refresh_unknown|by apply Unlock_unknown].
Qed.

(** ** Held locks *)

Lemma held_lock_swept (now : Time) (s s1 : memLS) (x : ptr) (tok : string) :
  swept now s s1 -> held_lock s x tok -> held_lock s1 x tok.
Proof.
  intros (_ & _ & Hq & Hbt & Hst & _) (nx & Hnx & Hh & Ht & Hb & Hnq).
  assert (~ expired now s x) as Hne by (intros [Hin _]; done).
  destruct (Hst x nx Hnx) as (nx' & Hnx' & _ & _ & Hh' & Ht').
  rewrite decide_False in Ht' by done.
  exists nx'. split; [done|]. split; [congruence|]. split; [congruence|].
  split; [by apply Hbt|]. intros Hin. apply Hq in Hin as [Hin _]. done.
Qed.

Lemma held_lock_not_candidate (s : memLS) (x : ptr) (tok name : string) :
  held_lock s x tok -> ~ candidate s name x.
Proof.
  intros (nx & Hnx & Hh & _) (n & Hn & Hh' & _).
  rewrite Hnx in Hn. inversion Hn. subst n. congruence.
Qed.

(** No list of conditions resolves to a held node. *)
Lemma resolves_not_held (s : memLS) (x : ptr) (tok name : string)
    (conds : list Condition) (r : option ptr) :
  held_lock s x tok -> resolves s name conds r -> r <> Some x.
Proof.
  intros Hheld H. induction H as [|c rest a Ha Hc|c rest r Hno _ IH]; [done| |done].
  intros E. inversion E. subst a. by apply (held_lock_not_candidate s x tok name).
Qed.

(** Conditions that all name the token of a held node resolve to no node. *)
Lemma resolves_held_token (s : memLS) (x : ptr) (tok name : string)
    (conds : list Condition) :
  held_lock s x tok -> (forall cd, cd ∈ conds -> Token cd = tok) ->
  resolves s name conds None.
Proof.
  intros Hheld. induction conds as [|c rest IH]; intros Hall; [constructor|].
  apply resolves_skip.
  - intros a Ha. rewrite (Hall c) in Ha by (by left).
    destruct Hheld as (nx & Hnx & Hh & Ht & Hb & Hnq).
    rewrite Hb in Ha. inversion Ha. subst a.
    intros (n & Hn & Hh' & _). rewrite Hnx in Hn. inversion Hn. subst n. congruence.
  - apply IH. intros cd Hcd. apply Hall. by right.
Qed.

(** The sweep of any operation leaves a held node as it is. *)
Lemma sweep_held (s : memLS) (now : Time) (x : ptr) (tok : string) :
  Inv s -> gen s < 2 ^ 62 -> held_lock s x tok ->
  exists s1, collectExpiredNodes now s = Some (tt, s1) /\ Inv s1 /\
             gen s1 < 2 ^ 62 /\ held_lock s1 x tok.
Proof.
  intros HInv Hgen Hheld.
  destruct (collectExpiredNodes_ok now s HInv Hgen) as (s1 & Hsweep & HInv1 & Hsw).
  exists s1. do 2 (split; [done|]). split.
  - by rewrite (swept_gen _ _ _ Hsw).
  - by apply (held_lock_swept now s).
Qed.

(** [Confirm] in a state where node [x] is held: it does not resolve to
    [x] and leaves [x] held. *)
Lemma Confirm_held (s : memLS) (now : Time) (name0 name1 : string)
    (conds : list Condition) (x : ptr) (tok : string) :
  Inv s -> gen s < 2 ^ 62 -> held_lock s x tok ->
  exists (r : result claim) (s' : memLS),
    Confirm now name0 name1 conds s = Some (r, s') /\
    Inv s' /\ held_lock s' x tok /\
    match r with
    | Ok c => x ∉ claim_nodes c
    | Err e => e = ErrConfirmationFailed
    end /\
    (name0 <> "" \/ name1 <> "" ->
     (forall cd, cd ∈ conds -> Token cd = tok) ->
     r = Err ErrConfirmationFailed).
Proof.
  intros HInv Hgen Hheld.
  destruct (Confirm_result s now name0 name1 conds HInv Hgen)
    as (s1 & r0 & r1 & Hsweep & HInv1 & Hsw & Hr0 & Hr1 & Hfail & Hsucc).
  cbv zeta in *.
  pose proof (held_lock_swept now s s1 x tok Hsw Hheld) as Hheld1.
  destruct (decide ((name0 <> "" /\ r0 = None) \/ (name1 <> "" /\ r1 = None)))
    as [Hf|Hf].
  - exists (Err ErrConfirmationFailed), s1. split; [by apply Hfail|].
    do 3 (split; [done|]). done.
  - destruct (Hsucc Hf) as (s2 & HC & HInv2 & Hg & Hbt & Hbn & Hl & Hnd & Hin & Hout).
    eexists _, s2. split; [exact HC|]. split; [done|].
    assert (x ∉ claim_nodes
              (if decide (name0 = "") then None else r0,
               if decide ((if decide (name1 = "") then None else r1)
                          = (if decide (name0 = "") then None else r0))
               then None else if decide (name1 = "") then None else r1)) as Hx.
    { intros Hx. destruct (Hin x Hx) as (n & n' & Hn & Hh & _).
      destruct Hheld1 as (nx & Hnx & Hhx & _). rewrite Hnx in Hn. inversion Hn.
      subst n. congruence. }
    split; [|split; [done|]].
    + destruct Hheld1 as (nx & Hnx & Hhx & Ht & Hb & Hnq).
      destruct (Hout x nx Hx Hnx) as ((nx' & Hnx' & Hlk) & Hq).
      unfold lock_of in Hlk. inversion Hlk as [[Hd Htk He Hh]].
      exists nx'. split; [done|]. split; [congruence|]. split; [congruence|].
      split; [congruence|]. by rewrite Hq.
    + intros Hnames Hall. exfalso. apply Hf.
      pose proof (resolves_held_token s1 x tok (slashClean name0) conds Hheld1 Hall) as H0.
      pose proof (resolves_held_token s1 x tok (slashClean name1) conds Hheld1 Hall) as H1.
      pose proof (resolves_fun _ _ _ _ _ Hr0 H0) as E0.
      pose proof (resolves_fun _ _ _ _ _ Hr1 H1) as E1.
      destruct Hnames; [by left|by right].
Qed.

(** One [unhold] of [release]. *)
Lemma unhold_opt_ok (s : memLS) (o : option ptr) :
  Inv s ->
  (forall x, o = Some x -> exists n, store s !! x = Some n /\ held n = true) ->
  exists s',
    (match o with Some a => unhold a | None => ret tt end) s = Some (tt, s') /\
    Inv s' /\ byToken s' = byToken s /\ byName s' = byName s /\ gen s' = gen s /\
    (forall x n, o = Some x -> store s !! x = Some n ->
       exists n', store s' !! x = Some n' /\
                  lock_of n' = (details n, token n, expiry n, false) /\
                  (x ∈ byExpiry s' <-> 0 <= LDuration (details n))) /\
    (forall y n, o <> Some y -> store s !! y = Some n ->
       (exists n', store s' !! y = Some n' /\ lock_of n' = lock_of n) /\
       (y ∈ byExpiry s' <-> y ∈ byExpiry s)).
Proof.
  intros HInv Hheld. destruct o as [a|].
  - destruct (Hheld a eq_refl) as (n & Hn & Hh).
    destruct (unhold_ok s a n HInv Hn Hh)
      as (s' & Hrun & HInv' & Htouch & Hx & Hq & Hoth).
    destruct Htouch as (Hbn & Hbt & Hg & Hl & Hst).
    exists s'. do 5 (split; [done|]). split.
    + intros x nx E Hnx. inversion E. subst x. rewrite Hn in Hnx. inversion Hnx.
      subst nx. destruct Hx as (n' & Hn' & Hlk). exists n'. done.
    + intros y ny Hne Hny.
      destruct (Hst y ny Hny) as (ny' & Hny' & _ & _ & _ & _ & Hlk).
      split; [exists ny'; split; [done|apply Hlk; congruence]|].
      apply Hoth. congruence.
  - exists s. do 5 (split; [done|]). split; [done|].
    intros y ny _ Hny. split; [eauto|done].
Qed.

(** The closure that [Confirm] returns, invoked while its nodes are held. *)
Lemma release_ok (s : memLS) (c : claim) :
  Inv s -> NoDup (claim_nodes c) ->
  (forall x, x ∈ claim_nodes c -> exists n, store s !! x = Some n /\ held n = true) ->
  exists s',
    release c s = Some (tt, s') /\
    Inv s' /\ byToken s' = byToken s /\ byName s' = byName s /\ gen s' = gen s /\
    (forall x n, x ∈ claim_nodes c -> store s !! x = Some n ->
       exists n', store s' !! x = Some n' /\
                  lock_of n' = (details n, token n, expiry n, false) /\
                  (x ∈ byExpiry s' <-> 0 <= LDuration (details n))) /\
    (forall y n, y ∉ claim_nodes c -> store s !! y = Some n ->
       (exists n', store s' !! y = Some n' /\ lock_of n' = lock_of n) /\
       (y ∈ byExpiry s' <-> y ∈ byExpiry s)).
Proof.
  intros HInv Hnd Hheld. destruct c as [n0 n1].
  assert (forall x, n1 = Some x -> x ∈ claim_nodes (n0, n1)) as Hin1.
  { intros x ->. unfold claim_nodes. simpl. destruct n0; [right; left|left]. }
  assert (forall x, n0 = Some x -> x ∈ claim_nodes (n0, n1)) as Hin0.
  { intros x ->. unfold claim_nodes. simpl. destruct n1; left. }
  assert (forall x, n0 = Some x -> n1 <> Some x) as Hdiff.
  { intros x -> ->. unfold claim_nodes in Hnd. simpl in Hnd.
    apply NoDup_cons in Hnd as [Hnd _]. apply Hnd. left. }
  assert (forall x, x ∈ claim_nodes (n0, n1) -> n0 = Some x \/ n1 = Some x) as Hcases.
  { intros x Hx. unfold claim_nodes in Hx. simpl in Hx.
    destruct n0, n1; repeat (apply elem_of_cons in Hx as [Hx|Hx]);
      try (by apply elem_of_nil in Hx); subst; auto. }
  destruct (unhold_opt_ok s n1 HInv) as (sA & HrunA & HInvA & HbtA & HbnA & HgA & HinA & HoutA).
  { intros x E. apply Hheld. by apply Hin1. }
  destruct (unhold_opt_ok sA n0 HInvA) as (sB & HrunB & HInvB & HbtB & HbnB & HgB & HinB & HoutB).
  { intros x E. destruct (Hheld x (Hin0 x E)) as (n & Hn & Hh).
    destruct (HoutA x n (Hdiff x E) Hn) as ((n' & Hn' & Hlk) & _).
    unfold lock_of in Hlk. inversion Hlk as [[Hd Htk He Hhd]].
    exists n'. split; [done|congruence]. }
  exists sB. split; [|split; [done|split; [congruence|split; [congruence|
    split; [congruence|split]]]]].
  - unfold release. cbn [fst snd]. by rewrite (bind_eq _ _ _ _ _ HrunA).
  - intros x n Hx Hn. destruct (decide (n0 = Some x)) as [E0|E0].
    + destruct (HoutA x n (Hdiff x E0) Hn) as ((nA & HnA & HlkA) & HqA).
      unfold lock_of in HlkA. inversion HlkA as [[Hd Htk He Hhd]].
      destruct (HinB x nA E0 HnA) as (nB & HnB & HlkB & HqB).
      exists nB. split; [done|]. split; [by rewrite HlkB, Hd, Htk, He|].
      by rewrite HqB, Hd.
    + assert (n1 = Some x) as E1 by (destruct (Hcases x Hx); done).
      destruct (HinA x n E1 Hn) as (nA & HnA & HlkA & HqA).
      destruct (HoutB x nA E0 HnA) as ((nB & HnB & HlkB) & HqB).
      exists nB. split; [done|]. split; [congruence|]. by rewrite HqB.
  - intros y n Hy Hn.
    assert (n1 <> Some y) as E1 by (intros E; apply Hy; by apply Hin1).
    assert (n0 <> Some y) as E0 by (intros E; apply Hy; by apply Hin0).
    destruct (HoutA y n E1 Hn) as ((nA & HnA & HlkA) & HqA).
    destruct (HoutB y nA E0 HnA) as ((nB & HnB & HlkB) & HqB).
    split; [exists nB; split; [done|congruence]|]. by rewrite HqB.
Qed.

(** C7. A successful [Confirm] holds each node it resolved, once: the
    nodes of the claim are distinct, and each is a registered lock with
    [held] set that is absent from the expiry queue. While a node is held,
    the sweep of any operation leaves it held and registered, no [Confirm]
    resolves a name to it (so a [Confirm] whose conditions all carry its
    token returns [ErrConfirmationFailed]), and [Refresh] and [Unlock] on
    its token return [ErrLocked]. Invoking the release closure clears
    [held] on each node of the claim, puts each node of finite duration
    back into the expiry queue, and makes each node a candidate again for
    the names it matches. *)
Theorem hold_release_spec (s s2 : memLS) (now : Time) (name0 name1 : string)
    (conds : list Condition) (c : claim) :
  Inv s -> gen s < 2 ^ 62 ->
  Confirm now name0 name1 conds s = Some (Ok c, s2) ->
  Inv s2 /\ NoDup (claim_nodes c) /\
  (forall x, x ∈ claim_nodes c -> exists tok, held_lock s2 x tok) /\
  (forall (s3 : memLS) (x : ptr) (tok : string),
     Inv s3 -> gen s3 < 2 ^ 62 -> held_lock s3 x tok ->
     (forall now', exists s4,
        collectExpiredNodes now' s3 = Some (tt, s4) /\ held_lock s4 x tok) /\
     (forall now' nameA nameB conds', exists r s4,
        Confirm now' nameA nameB conds' s3 = Some (r, s4) /\
        Inv s4 /\ held_lock s4 x tok /\
        match r with
        | Ok c' => x ∉ claim_nodes c'
        | Err e => e = ErrConfirmationFailed
        end /\
        (nameA <> "" \/ nameB <> "" ->
         (forall cd, cd ∈ conds' -> Token cd = tok) ->
         r = Err ErrConfirmationFailed)) /\
     (forall now' d, exists s4,
        Refresh now' tok d s3 = Some (Err ErrLocked, s4) /\ held_lock s4 x tok) /\
     (forall now', exists s4,
        Unlock now' tok s3 = Some (Err ErrLocked, s4) /\ held_lock s4 x tok)) /\
  (forall s3 : memLS,
     Inv s3 -> (forall x, x ∈ claim_nodes c -> exists tok, held_lock s3 x tok) ->
     exists s5,
       release c s3 = Some (tt, s5) /\ Inv s5 /\
       forall x n, x ∈ claim_nodes c -> store s3 !! x = Some n ->
         exists n', store s5 !! x = Some n' /\
                    lock_of n' = (details n, token n, expiry n, false) /\
                    byToken s5 !! token n = Some x /\
                    (x ∈ byExpiry s5 <-> 0 <= LDuration (details n)) /\
                    (forall name, matches name n -> candidate s5 name x)).
Proof.
  intros HInv Hgen HC.
  destruct (Confirm_result s now name0 name1 conds HInv Hgen)
    as (s1 & r0 & r1 & Hsweep & HInv1 & Hsw & Hr0 & Hr1 & Hfail & Hsucc).
  cbv zeta in *.
  destruct (decide ((name0 <> "" /\ r0 = None) \/ (name1 <> "" /\ r1 = None)))
    as [Hf|Hf].
  { rewrite (Hfail Hf) in HC. inversion HC. }
  destruct (Hsucc Hf) as (s2' & HC' & HInv2 & Hg & Hbt & Hbn & Hl & Hnd & Hin & Hout).
  rewrite HC' in HC. inversion HC. subst c s2'. clear HC.
  split; [done|]. split; [done|]. split; [|split].
  - intros x Hx. destruct (Hin x Hx) as (n & n' & _ & _ & _ & Hheld & _). eauto.
  - intros s3 x tok HInv3 Hgen3 Hheld. split; [|split; [|split]].
    + intros now'.
      destruct (sweep_held s3 now' x tok HInv3 Hgen3 Hheld) as (s4 & Hs4 & _ & _ & Hh4).
      eauto.
    + intros now' nameA nameB conds'.
      destruct (Confirm_held s3 now' nameA nameB conds' x tok HInv3 Hgen3 Hheld)
        as (r & s4 & Hrun & HInv4 & Hh4 & Hr & Hall).
      exists r, s4. done.
    + intros now' d.
      destruct (sweep_held s3 now' x tok HInv3 Hgen3 Hheld) as (s4 & Hs4 & _ & _ & Hh4).
      exists s4. split; [|done].
      destruct Hh4 as (nx & Hnx & Hh & Ht & Hb & Hnq).
      by apply (Refresh_held s3 s4 now' tok d x nx).
    + intros now'.
      destruct (sweep_held s3 now' x tok HInv3 Hgen3 Hheld) as (s4 & Hs4 & _ & _ & Hh4).
      exists s4. split; [|done].
      destruct Hh4 as (nx & Hnx & Hh & Ht & Hb & Hnq).
      by apply (Unlock_held s3 s4 now' tok x nx).
  - intros s3 HInv3 Hheld.
    edestruct (release_ok s3 _ HInv3 Hnd) as (s5 & Hrun & HInv5 & Hbt5 & Hbn5 & Hg5 & Hin5 & Hout5).
    { intros x Hx. destruct (Hheld x Hx) as (tok & nx & Hnx & Hh & _). eauto. }
    exists s5. do 2 (split; [done|]). intros x n Hx Hn.
    destruct (Hin5 x n Hx Hn) as (n' & Hn' & Hlk & Hq).
    destruct (Hheld x Hx) as (tok & nx & Hnx & Hh & Ht & Hb & Hnq).
    rewrite Hn in Hnx. inversion Hnx. subst nx.
    assert (details n' = details n /\ token n' = token n /\ held n' = false)
      as (Hd & Htk & Hhd) by (unfold lock_of in Hlk; by inversion Hlk).
    exists n'. split; [done|]. split; [done|]. split; [congruence|]. split; [exact Hq|].
    intros name Hm. exists n'. split; [done|]. split; [done|].
    unfold matches in *. by rewrite Hd.
Qed.


(** * Names *)

(** ** Appending strings *)

(** ** The last slash *)

Lemma LastIndex_split (s : string) (c : ascii) :
  0 <= LastIndex s c ->
  exists u, s = str_take (Z.to_nat (LastIndex s c)) s +:+ String c u /\
            LastIndex u c = -1.
Proof.
  induction s as [|d s IH]; [simpl; lia|]. cbn [LastIndex]. cbv zeta.
  pose proof (LastIndex_range s c) as Hr.
  destruct (0 <=? LastIndex s c) eqn:E.
  - apply Z.leb_le in E. intros _. destruct (IH E) as (u & Hs & Hu).
    exists u. split; [|done].
    replace (Z.to_nat (LastIndex s c + 1)) with (S (Z.to_nat (LastIndex s c))) by lia.
    cbn [str_take]. rewrite app_String. by rewrite <- Hs.
  - apply Z.leb_gt in E. case_bool_decide as Ed; [|lia]. intros _. subst d.
    exists s. split; [by rewrite app_empty_l|lia].
Qed.

Lemma LastIndex_app_sep (v w : string) (c : ascii) :
  0 <= LastIndex (v +:+ String c w) c.
Proof.
  induction v as [|d v IH].
  - rewrite app_empty_l. cbn [LastIndex]. cbv zeta.
    pose proof (LastIndex_range w c).
    destruct (0 <=? LastIndex w c) eqn:E; [apply Z.leb_le in E; lia|].
    by rewrite bool_decide_eq_true_2.
  - rewrite app_String. cbn [LastIndex]. cbv zeta.
    by rewrite (proj2 (Z.leb_le _ _) IH); lia.
Qed.

(** The prefixes of [t/u] that end before a slash, for [u] without a
    slash: [t], and the prefixes of [t] of that kind. *)
Lemma prefix_last_slash (t u k : string) :
  LastIndex u "/" = -1 ->
  is_prefix (k +:+ "/") (t +:+ String "/" u) <->
  k = t \/ is_prefix (k +:+ "/") t.
Proof.
  intros Hu. unfold is_prefix. split.
  - intros (w & E). rewrite str_app_assoc in E.
    change ("/" +:+ w) with (String "/" ("" +:+ w)) in E. rewrite app_empty_l in E.
    symmetry in E.
    destruct (str_app_eq_app _ _ _ _ E) as [(e & Et & Ee)|(e & Ek & Ee)].
    + destruct e as [|c e].
      * left. by rewrite str_app_nil_r in Et.
      * rewrite app_String in Ee. inversion Ee. subst c.
        right. exists e. rewrite str_app_assoc.
        change ("/" +:+ e) with (String "/" ("" +:+ e)). by rewrite app_empty_l.
    + destruct e as [|c e].
      * left. by rewrite str_app_nil_r in Ek.
      * rewrite app_String in Ee. inversion Ee as [[Ec Eu]]. subst c.
        pose proof (LastIndex_app_sep e w "/"). rewrite <- Eu in H. lia.
  - intros [->|(w & ->)].
    + exists u. rewrite str_app_assoc.
      change ("/" +:+ u) with (String "/" ("" +:+ u)). by rewrite app_empty_l.
    + exists (w +:+ String "/" u). by rewrite !str_app_assoc.
Qed.

(** The next level of [walkToRoot]: the name up to its last slash, or the
    root. *)
Lemma parentName_split (name p : string) :
  parentName name = Some p ->
  exists t u, name = t +:+ String "/" u /\ LastIndex u "/" = -1 /\
              p = if decide (t = "") then "/" else t.
Proof.
  unfold parentName. cbv zeta.
  destruct (LastIndex name "/" <? 0) eqn:E; [done|]. apply Z.ltb_ge in E.
  intros Hp. inversion Hp as [Hp']. clear Hp.
  destruct (LastIndex_split name "/" E) as (u & Hs & Hu).
  exists (str_take (Z.to_nat (LastIndex name "/")) name), u.
  split; [done|]. split; [done|].
  destruct (decide (str_take (Z.to_nat (LastIndex name "/")) name = "")) as [->|Hne].
  - by rewrite streq_refl.
  - by rewrite (proj2 (streq_false _ _) Hne).
Qed.

Lemma is_prefix_empty (p : string) : is_prefix p "" -> p = "".
Proof. intros (w & E). destruct p; [done|]. by rewrite app_String in E. Qed.

(** The levels that [walkToRoot] visits above a name: the root, and the
    prefixes of the name that end before one of its slashes. *)
Lemma ancestors_prefix (name : string) :
  absolute name ->
  forall k, k ∈ ancestors name <->
            name <> "/" /\ (k = "/" \/ (k <> "" /\ is_prefix (k +:+ "/") name)).
Proof.
  intros Habs.
  induction Habs as [|name p Habs Hne Hp Hpa Hlt IH] using absolute_ind; intros k.
  - rewrite ancestors_root. split; [intros H; by apply elem_of_nil in H|by intros [? _]].
  - rewrite (ancestors_step name p Habs Hne Hp), (walkPath_cons p Hpa).
    destruct (parentName_split name p Hp) as (t & u & -> & Hu & Ep).
    rewrite elem_of_cons, IH, (prefix_last_slash t u k Hu).
    destruct (decide (t = "")) as [->|Ht]; subst p.
    + split.
      * intros [->|[? _]]; [|done]. split; [done|by left].
      * intros [_ [->|[Hk [->|Hpre]]]]; [by left|done|].
        apply is_prefix_empty in Hpre. by destruct k.
    + split.
      * intros [->|[Htr [->|[Hk Hpre]]]]; (split; [done|]).
        -- right. split; [done|by left].
        -- by left.
        -- right. split; [done|by right].
      * intros [_ [->|[Hk [->|Hpre]]]].
        -- destruct (decide (t = "/")) as [->|Htr]; [by left|]. right. split; [done|by left].
        -- by left.
        -- right. split.
           ++ intros ->. destruct Hpre as (w & E). destruct k; [done|].
              rewrite !app_String in E. inversion E as [[Ec E']].
              destruct k; [|by rewrite app_String in E'].
              rewrite app_empty_l in E'. change ("/" +:+ w) with (String "/" ("" +:+ w)) in E'.
              done.
           ++ right. done.
Qed.

(** The levels above a name form a chain. *)
Lemma walkPath_chain (name : string) :
  absolute name ->
  forall k1 k2, k1 ∈ walkPath name -> k2 ∈ walkPath name ->
                k1 ∈ walkPath k2 \/ k2 ∈ walkPath k1.
Proof.
  intros Habs.
  induction Habs as [|name p Habs Hne Hp Hpa Hlt IH] using absolute_ind; intros k1 k2 H1 H2.
  - rewrite walkPath_root in *. apply list_elem_of_singleton in H1, H2. subst.
    left. rewrite walkPath_root. by left.
  - rewrite (walkPath_step name p Habs Hne Hp) in H1, H2.
    apply elem_of_cons in H1 as [->|H1].
    { right. rewrite (walkPath_step name p Habs Hne Hp). exact H2. }
    apply elem_of_cons in H2 as [->|H2].
    { left. rewrite (walkPath_step name p Habs Hne Hp). right. done. }
    by apply IH.
Qed.

(** The test of [lookup] in terms of the levels of [walkToRoot]. *)
Lemma matches_levels (name : string) (n : memLSNode) :
  absolute name -> absolute (Root (details n)) ->
  matches name n <->
  Root (details n) = name \/
  (ZeroDepth (details n) = false /\ Root (details n) ∈ ancestors name).
Proof.
  intros Habs Hr. unfold matches. rewrite (ancestors_prefix name Habs).
  assert (Root (details n) <> "") as Hne by (intros E; by rewrite E in Hr).
  split.
  - intros [E|[Hz Hc]]; [by left|].
    destruct (decide (Root (details n) = name)) as [|Hrn]; [by left|]. right.
    split; [done|]. split.
    + intros ->. destruct Hc as [E|(w & E)]; [done|].
      destruct (Root (details n)) as [|c r]; [done|].
      rewrite !app_String in E. inversion E as [[Ec E']].
      destruct r; [|by rewrite app_String in E'].
      rewrite app_empty_l in E'. done.
    + destruct Hc as [E|Hpre]; [by left|right; done].
  - intros [E|[Hz [_ [E|[_ Hpre]]]]]; [by left|right..]; (split; [done|]);
      [by left|by right].
Qed.

(** Two locks that match one name are one lock. *)
Lemma covering_lock_one (s : memLS) (name : string) (a b : ptr)
    (na nb : memLSNode) :
  Inv s -> absolute name ->
  store s !! a = Some na -> store s !! b = Some nb ->
  token na <> "" -> token nb <> "" ->
  matches name na -> matches name nb -> a = b.
Proof.
  intros HInv Habs Ha Hb Hta Htb Hma Hmb.
  destruct (nk_token _ _ _ (inv_nodes _ HInv _ _ Ha) Hta) as (_ & Hna & Hra).
  destruct (nk_token _ _ _ (inv_nodes _ HInv _ _ Hb) Htb) as (_ & Hnb & Hrb).
  apply (matches_levels name na Habs Hra) in Hma.
  apply (matches_levels name nb Habs Hrb) in Hmb.
  pose proof (inv_excl _ HInv) as Hexcl.
  destruct Hma as [Ea|[Hza Hia]], Hmb as [Eb|[Hzb Hib]].
  - rewrite Ea in Hna. rewrite Eb in Hnb. congruence.
  - exfalso. apply (Hexcl b a nb na Hb Ha Htb Hta Hzb). by rewrite Ea.
  - exfalso. apply (Hexcl a b na nb Ha Hb Hta Htb Hza). by rewrite Eb.
  - assert (Root (details na) ∈ walkPath name) as Hwa
      by (rewrite (walkPath_cons name Habs); by right).
    assert (Root (details nb) ∈ walkPath name) as Hwb
      by (rewrite (walkPath_cons name Habs); by right).
    destruct (walkPath_chain name Habs _ _ Hwa Hwb) as [Hc|Hc].
    + rewrite (walkPath_cons _ Hrb) in Hc. apply elem_of_cons in Hc as [E|Hc].
      * rewrite E in Hna. congruence.
      * exfalso. by apply (Hexcl a b na nb Ha Hb Hta Htb Hza).
    + rewrite (walkPath_cons _ Hra) in Hc. apply elem_of_cons in Hc as [E|Hc].
      * rewrite E in Hnb. congruence.
      * exfalso. by apply (Hexcl b a nb na Hb Ha Htb Hta Hzb).
Qed.


(** * Cleaned names: [path.Clean] and [path.Dir] *)

(** ** Strings without a slash *)

Lemma LastIndex_cons_none (d : ascii) (s : string) (c : ascii) :
  LastIndex (String d s) c = -1 <-> d <> c /\ LastIndex s c = -1.
Proof.
  cbn [LastIndex]. cbv zeta. pose proof (LastIndex_range s c) as Hr.
  destruct (0 <=? LastIndex s c) eqn:E.
  - apply Z.leb_le in E. lia.
  - apply Z.leb_gt in E. destruct (decide (d = c)) as [->|Hd].
    + rewrite bool_decide_eq_true_2 by done. split; [lia|]. intros [? _]. done.
    + rewrite bool_decide_eq_false_2 by done. split; [|done]. intros _. split; [done|lia].
Qed.

Lemma LastIndex_app_none (a b : string) (c : ascii) :
  LastIndex (a +:+ b) c = -1 <-> LastIndex a c = -1 /\ LastIndex b c = -1.
Proof.
  induction a as [|d a IH].
  - rewrite app_empty_l. cbn [LastIndex]. tauto.
  - rewrite app_String, !LastIndex_cons_none, IH. tauto.
Qed.

Lemma LastIndex_app_last (t u : string) (c : ascii) :
  LastIndex u c = -1 ->
  LastIndex (t +:+ String c u) c = Z.of_nat (String.length t).
Proof.
  intros Hu. induction t as [|d t IH].
  - rewrite app_empty_l. cbn [LastIndex]. cbv zeta. rewrite Hu.
    change (0 <=? -1) with false. cbv iota. by rewrite bool_decide_eq_true_2.
  - rewrite app_String. cbn [LastIndex]. cbv zeta. rewrite IH.
    assert ((0 <=? Z.of_nat (String.length t)) = true) as -> by (apply Z.leb_le; lia).
    simpl String.length. lia.
Qed.

(** ** [strings.Split] and [strings.Join] *)

Lemma split_go_none (cur e : string) :
  LastIndex e "/" = -1 ->
  split_slash_go cur e = [String.rev cur +:+ e].
Proof.
  revert cur. induction e as [|d e IH]; intros cur He.
  - by rewrite str_app_nil_r.
  - apply LastIndex_cons_none in He as [Hd He]. cbn [split_slash_go].
    rewrite bool_decide_eq_false_2 by done. by rewrite IH, rev_cons_app.
Qed.

Lemma split_go_app (cur e rest : string) :
  LastIndex e "/" = -1 ->
  split_slash_go cur (e +:+ String "/" rest)
  = (String.rev cur +:+ e) :: split_slash_go "" rest.
Proof.
  revert cur. induction e as [|d e IH]; intros cur He.
  - rewrite app_empty_l, str_app_nil_r. cbn [split_slash_go].
    by rewrite bool_decide_eq_true_2.
  - apply LastIndex_cons_none in He as [Hd He]. rewrite app_String.
    cbn [split_slash_go]. rewrite bool_decide_eq_false_2 by done.
    by rewrite IH, rev_cons_app.
Qed.

Lemma split_go_elems (cur s : string) :
  LastIndex (String.rev cur) "/" = -1 ->
  Forall (fun e => LastIndex e "/" = -1) (split_slash_go cur s).
Proof.
  revert cur. induction s as [|d s IH]; intros cur Hc.
  - by apply Forall_singleton.
  - cbn [split_slash_go]. destruct (decide (d = "/"%char)) as [->|Hd].
    + rewrite bool_decide_eq_true_2 by done. apply Forall_cons. split; [done|].
      by apply IH.
    + rewrite bool_decide_eq_false_2 by done. apply IH.
      pose proof (rev_cons_app d cur "") as E. rewrite str_app_nil_r in E. rewrite E.
      apply LastIndex_app_none. split; [done|]. apply LastIndex_cons_none. done.
Qed.

Lemma split_slash_elems (s : string) :
  Forall (fun e => LastIndex e "/" = -1) (split_slash s).
Proof. by apply split_go_elems. Qed.

Lemma join_slash_cons (e : string) (cs : list string) :
  cs <> [] -> join_slash (e :: cs) = e +:+ "/" +:+ join_slash cs.
Proof. by destruct cs. Qed.

Lemma join_slash_snoc (cs : list string) (e : string) :
  cs <> [] -> join_slash (cs ++ [e]) = join_slash cs +:+ "/" +:+ e.
Proof.
  induction cs as [|c cs IH]; [done|]. intros _.
  destruct cs as [|c' cs]; [reflexivity|].
  change ((c :: c' :: cs) ++ [e]) with (c :: ((c' :: cs) ++ [e])).
  rewrite (join_slash_cons c ((c' :: cs) ++ [e])) by done.
  rewrite IH by done. rewrite (join_slash_cons c (c' :: cs)) by done.
  by rewrite !str_app_assoc.
Qed.

(** Splitting the join of slash-free elements gives the elements back. *)
Lemma split_join (cs : list string) (tl : string) :
  Forall (fun e => LastIndex e "/" = -1) cs -> cs <> [] ->
  split_slash_go "" (join_slash cs +:+ String "/" tl)
  = cs ++ split_slash_go "" tl.
Proof.
  induction cs as [|c cs IH]; [done|]. intros Hcs _.
  apply Forall_cons in Hcs as [Hc Hcs].
  destruct cs as [|c' cs].
  - cbn [join_slash]. by rewrite split_go_app.
  - rewrite join_slash_cons by done. rewrite !str_app_assoc.
    change ("/" +:+ (join_slash (c' :: cs) +:+ String "/" tl))
      with (String "/" (join_slash (c' :: cs) +:+ String "/" tl)).
    rewrite split_go_app by done. rewrite IH by done. done.
Qed.

(** ** [path.Clean] *)

Lemma proper_step (out : list string) (e : string) :
  Forall proper_elem out -> LastIndex e "/" = -1 ->
  Forall proper_elem (clean_step true out e).
Proof.
  intros Hout He. unfold clean_step.
  destruct (streq e "") eqn:E1; [done|]. apply streq_false in E1.
  destruct (streq e ".") eqn:E2; [done|]. apply streq_false in E2.
  cbn [orb]. destruct (streq e "..") eqn:E3.
  - destruct out as [|top out']; [done|].
    apply Forall_cons in Hout as [Htop Hout].
    destruct (streq top "..") eqn:E4; [|done].
    apply streq_true in E4. by destruct Htop as (_ & _ & ? & _).
  - apply streq_false in E3. apply Forall_cons. done.
Qed.

Lemma proper_fold (l out : list string) :
  Forall proper_elem out -> Forall (fun e => LastIndex e "/" = -1) l ->
  Forall proper_elem (foldl (clean_step true) out l).
Proof.
  revert out. induction l as [|e l IH]; intros out Hout Hl; [done|].
  apply Forall_cons in Hl as [He Hl]. cbn [foldl]. apply IH; [|done].
  by apply proper_step.
Qed.

Lemma clean_fold_proper (cs out : list string) :
  Forall proper_elem cs ->
  foldl (clean_step true) out cs = rev cs ++ out.
Proof.
  revert out. induction cs as [|c cs IH]; intros out Hcs; [done|].
  apply Forall_cons in Hcs as [(H1 & H2 & H3 & _) Hcs]. cbn [foldl].
  assert (clean_step true out c = c :: out) as ->.
  { unfold clean_step.
    rewrite (proj2 (streq_false c "")), (proj2 (streq_false c ".")),
      (proj2 (streq_false c "..")) by done. done. }
  rewrite IH by done. cbn [rev]. by rewrite <- app_assoc.
Qed.

(** [path.Clean] of a rooted path is a cleaned name. *)
Lemma Clean_cleaned (p : string) : absolute p -> cleaned (Clean p).
Proof.
  intros Habs. unfold Clean. cbv zeta. rewrite Habs.
  eexists. split; [|reflexivity].
  apply Forall_rev. apply proper_fold; [done|]. apply split_slash_elems.
Qed.

Lemma slashClean_cleaned (name : string) : cleaned (slashClean name).
Proof.
  unfold slashClean. apply Clean_cleaned.
  destruct (HasPrefix name "/") eqn:E; [done|]. done.
Qed.

Lemma proper_no_slash (cs : list string) :
  Forall proper_elem cs -> Forall (fun e => LastIndex e "/" = -1) cs.
Proof. intros H. eapply Forall_impl; [exact H|]. by intros e (_ & _ & _ & ?). Qed.

(** [path.Clean] of a cleaned name followed by a slash is the name. *)
Lemma Clean_slash (cs : list string) :
  Forall proper_elem cs -> cs <> [] ->
  Clean (rooted_path cs +:+ "/") = rooted_path cs.
Proof.
  intros Hcs Hne. unfold Clean. cbv zeta.
  assert (HasPrefix (rooted_path cs +:+ "/") "/" = true) as -> by done.
  unfold split_slash, rooted_path.
  change (("/" +:+ join_slash cs) +:+ "/")
    with (String "/" (join_slash cs +:+ String "/" "")).
  cbn [split_slash_go]. rewrite bool_decide_eq_true_2 by done.
  rewrite (split_join cs "" (proper_no_slash cs Hcs) Hne).
  cbn [foldl].
  assert (clean_step true [] (String.rev "") = []) as -> by done.
  rewrite foldl_app. rewrite (clean_fold_proper cs [] Hcs). cbn [split_slash_go foldl].
  rewrite app_nil_r.
  change (clean_step true (rev cs) (String.rev "")) with (rev cs).
  by rewrite rev_involutive.
Qed.

Lemma Clean_root : Clean "/" = "/".
Proof. reflexivity. Qed.

(** ** The level above a cleaned name *)

Lemma rooted_path_nil : rooted_path [] = "/".
Proof. reflexivity. Qed.

Lemma rooted_path_snoc (cs : list string) (e : string) :
  rooted_path (cs ++ [e])
  = (if decide (cs = []) then "" else rooted_path cs) +:+ String "/" e.
Proof.
  unfold rooted_path. destruct (decide (cs = [])) as [->|Hne]; [done|].
  rewrite join_slash_snoc by done. by rewrite !str_app_assoc.
Qed.

Lemma rooted_path_root (cs : list string) :
  Forall proper_elem cs -> rooted_path cs = "/" -> cs = [].
Proof.
  intros Hcs E. destruct cs as [|c cs]; [done|].
  apply Forall_cons in Hcs as [(Hc & _) _]. unfold rooted_path in E.
  destruct cs as [|c' cs]; cbn [join_slash] in E.
  - destruct c; [done|]. discriminate E.
  - destruct c; [done|]. discriminate E.
Qed.

(** For a cleaned name other than the root, [path.Dir] is the level that
    [walkToRoot] visits next, and it is a cleaned name. *)
Lemma cleaned_parent (cs : list string) (e : string) :
  Forall proper_elem (cs ++ [e]) ->
  Dir (rooted_path (cs ++ [e])) = rooted_path cs /\
  parentName (rooted_path (cs ++ [e])) = Some (rooted_path cs).
Proof.
  intros H. apply Forall_app in H as [Hcs He].
  rewrite Forall_singleton in He. unfold proper_elem in He.
  destruct He as (_ & _ & _ & He).
  rewrite rooted_path_snoc. set (t := if decide (cs = []) then "" else rooted_path cs).
  unfold Dir, parentName. cbv zeta. rewrite (LastIndex_app_last t e "/" He).
  assert ((Z.of_nat (String.length t) <? 0) = false) as -> by (apply Z.ltb_ge; lia).
  rewrite Nat2Z.id.
  replace (Z.to_nat (Z.of_nat (String.length t) + 1))
    with (String.length (t +:+ "/")) by (rewrite str_app_length; simpl; lia).
  change (t +:+ String "/" e) with (t +:+ ("/" +:+ e)) at 1.
  rewrite <- str_app_assoc, str_take_app, str_take_app.
  subst t. destruct (decide (cs = [])) as [->|Hne].
  - done.
  - rewrite Clean_slash by done. split; [done|].
    by rewrite (proj2 (streq_false (rooted_path cs) "")).
Qed.

Lemma rooted_path_absolute (cs : list string) : absolute (rooted_path cs).
Proof. done. Qed.

Lemma cleaned_absolute (name : string) : cleaned name -> absolute name.
Proof. intros (cs & _ & ->). apply rooted_path_absolute. Qed.

(** The levels of a cleaned name are cleaned names, and [path.Dir] steps
    through them. *)
Lemma cleaned_step (name : string) :
  cleaned name -> name <> "/" ->
  parentName name = Some (Dir name) /\ cleaned (Dir name).
Proof.
  intros (cs & Hcs & ->) Hne.
  destruct cs as [|c cs _] using rev_ind; [done|].
  destruct (cleaned_parent cs c Hcs) as [-> ->]. split; [done|].
  exists cs. split; [|done]. by apply Forall_app in Hcs as [? _].
Qed.

(** ** The loop of [GetByName] *)

(** One turn of the loop in a state whose name index points into the
    store. *)
Lemma GetByName_loop_step (s : memLS) (fuel : nat) (name : string) :
  Inv s ->
  GetByName_loop (S fuel) name s =
    match lock_at s name with
    | Some n => Some (Ok (token n, expiry n, details n), s)
    | None =>
        if streq name "/" then Some (Err ErrNoSuchLock, s)
        else GetByName_loop fuel (Dir name) s
    end.
Proof.
  intros HInv. cbn [GetByName_loop]. unfold lock_at, node_at, bind, gets, load, ret.
  pose proof (inv_tree s HInv name) as Ht.
  destruct (byName s !! name) as [a|]; [|by destruct (streq name "/")].
  destruct Ht as (n & Hn & _). rewrite Hn.
  destruct (decide (token n = "")) as [E|E].
  - rewrite (proj2 (streq_true (token n) "") E). by destruct (streq name "/").
  - by rewrite (proj2 (streq_false (token n) "") E).
Qed.

(** The loop of [GetByName] on a cleaned name ends, with the lock of the
    first level, from the name up to the root, that carries one. *)
Lemma GetByName_loop_nearest (s : memLS) (name : string) (fuel : nat) :
  Inv s -> cleaned name -> (String.length name < fuel)%nat ->
  GetByName_loop fuel name s =
    Some (match nearest_lock s (walkPath name) with
          | Some n => Ok (token n, expiry n, details n)
          | None => Err ErrNoSuchLock
          end, s).
Proof.
  intros HInv (cs & Hcs & ->). revert fuel.
  induction cs as [|e cs IH] using rev_ind; intros fuel Hf.
  - destruct fuel as [|fuel]; [lia|]. rewrite GetByName_loop_step by done.
    rewrite rooted_path_nil, walkPath_root. cbn [nearest_lock].
    by destruct (lock_at s "/").
  - destruct fuel as [|fuel]; [lia|]. rewrite GetByName_loop_step by done.
    destruct (cleaned_parent cs e Hcs) as [HD HP].
    assert (rooted_path (cs ++ [e]) <> "/") as Hne.
    { intros E. apply rooted_path_root in E; [|done]. by destruct cs. }
    rewrite (walkPath_step _ _ (rooted_path_absolute _) Hne HP).
    cbn [nearest_lock]. destruct (lock_at s (rooted_path (cs ++ [e]))); [done|].
    rewrite (proj2 (streq_false _ "/") Hne), HD.
    destruct (parentName_absolute _ (rooted_path_absolute (cs ++ [e])) Hne)
      as (p & Hp & _ & Hlt).
    rewrite HP in Hp. inversion Hp. subst p.
    apply IH; [|simpl in *; lia].
    by apply Forall_app in Hcs as [? _].
Qed.

(** The lock that [nearest_lock] finds is the lock of one of the levels,
    and no level before it carries a lock. *)
Lemma nearest_lock_Some (s : memLS) (levels : list string) (n : memLSNode) :
  nearest_lock s levels = Some n <->
  exists l1 k l2, levels = l1 ++ k :: l2 /\ lock_at s k = Some n /\
                  forall j, j ∈ l1 -> lock_at s j = None.
Proof.
  induction levels as [|k levels IH]; cbn [nearest_lock].
  - split; [done|]. intros (l1 & k & l2 & E & _). by destruct l1.
  - destruct (lock_at s k) as [n'|] eqn:Ek.
    + split.
      * intros [= ->]. exists [], k, levels. split; [done|]. split; [done|].
        intros j Hj. by apply elem_of_nil in Hj.
      * intros (l1 & k' & l2 & E & Hk' & Hl1). destruct l1 as [|j l1].
        -- inversion E. subst. congruence.
        -- inversion E. subst. rewrite Hl1 in Ek; [done|by left].
    + rewrite IH. split.
      * intros (l1 & k' & l2 & -> & Hk' & Hl1). exists (k :: l1), k', l2.
        split; [done|]. split; [done|]. intros j Hj.
        apply elem_of_cons in Hj as [->|Hj]; [done|by apply Hl1].
      * intros (l1 & k' & l2 & E & Hk' & Hl1). destruct l1 as [|j l1].
        -- inversion E. subst. congruence.
        -- inversion E. subst. exists l1, k', l2. split; [done|]. split; [done|].
           intros j' Hj'. apply Hl1. by right.
Qed.

Lemma nearest_lock_None (s : memLS) (levels : list string) :
  nearest_lock s levels = None <-> forall k, k ∈ levels -> lock_at s k = None.
Proof.
  induction levels as [|k levels IH]; cbn [nearest_lock].
  - split; [|done]. intros _ k Hk. by apply elem_of_nil in Hk.
  - destruct (lock_at s k) as [n'|] eqn:Ek.
    + split; [done|]. intros H. rewrite H in Ek; [done|by left].
    + rewrite IH. split.
      * intros H j Hj. apply elem_of_cons in Hj as [->|Hj]; [done|by apply H].
      * intros H j Hj. apply H. by right.
Qed.


(** ** Names and tokens *)

Lemma Clean_absolute (p : string) : absolute p -> absolute (Clean p).
Proof.
  intros Hp. unfold Clean. unfold absolute in Hp. rewrite Hp.
  apply HasPrefix_app.
Qed.

Lemma slashClean_absolute (name : string) : absolute (slashClean name).
Proof.
  unfold slashClean. apply Clean_absolute.
  destruct (HasPrefix name "/") eqn:E; [done|]. apply HasPrefix_app.
Qed.

Lemma pretty_N_go_nonempty (x : N) (s : string) : s <> "" -> pretty_N_go x s <> "".
Proof.
  revert s. induction (N.lt_wf_0 x) as [x _ IH]. intros s Hs.
  destruct (decide (x = 0%N)) as [->|Hx].
  - by rewrite pretty_N_go_0.
  - rewrite pretty_N_go_step by lia. apply IH; [|done].
    apply N.div_lt; lia.
Qed.

Lemma FormatUint_nonempty (g : Z) : FormatUint g <> "".
Proof.
  unfold FormatUint, pretty, pretty_N.
  destruct (decide (Z.to_N g = 0%N)) as [E|E]; [done|].
  rewrite pretty_N_go_step by lia. by apply pretty_N_go_nonempty.
Qed.

Lemma FormatUint_inj (g h : Z) :
  0 <= g -> 0 <= h -> FormatUint g = FormatUint h -> g = h.
Proof.
  intros Hg Hh E. unfold FormatUint in E. apply pretty_N_inj in E. lia.
Qed.

(** The token that [nextToken] issues is not registered. *)
Lemma next_token_fresh (s : memLS) :
  Inv s -> byToken s !! FormatUint (gen s + 1) = None.
Proof.
  intros HInv. destruct (inv_tokens _ HInv) as ((Hg0 & _) & _ & Hall).
  destruct (byToken s !! FormatUint (gen s + 1)) as [a|] eqn:E; [|done].
  destruct (Hall _ _ E) as (_ & _ & g & Hg & Eg).
  apply FormatUint_inj in Eg; lia.
Qed.

(** ** canCreate *)

Lemma Inv_names_valid (s : memLS) : Inv s -> names_valid s.
Proof.
  intros HInv k a Hk. pose proof (inv_tree _ HInv k) as Ht. rewrite Hk in Ht.
  destruct Ht as (n & Hn & _). eauto.
Qed.

Lemma canCreate_visitor_level (s : memLS) (zeroDepth : bool) (k : string)
    (first : bool) :
  names_valid s ->
  canCreate_visitor zeroDepth k first tt s
  = Some ((canCreate_level s zeroDepth k first, tt), s).
Proof.
  intros Hv. unfold canCreate_visitor, canCreate_level, node_at.
  rewrite (bind_eq _ _ _ _ _ (gets_eq _ s)). cbv beta.
  destruct (byName s !! k) as [a|] eqn:Ek; [|done].
  destruct (Hv k a Ek) as (na & Hna). rewrite Hna.
  rewrite (bind_eq _ _ _ _ _ (load_eq _ _ _ Hna)).
  destruct first.
  - destruct (negb (streq (token na) "")); [done|]. by destruct (negb zeroDepth).
  - by destruct (negb (streq (token na) "") && negb (ZeroDepth (details na))).
Qed.

Lemma canCreate_eq (s : memLS) (name : string) (zeroDepth : bool) :
  names_valid s -> absolute name ->
  canCreate name zeroDepth s
  = Some (canCreate_level s zeroDepth name true &&
          forallb (fun k => canCreate_level s zeroDepth k false) (ancestors name), s).
Proof.
  intros Hv Habs. unfold canCreate, walkToRoot.
  erewrite bind_eq; [|apply (walkToRoot_loop_pure _ (canCreate_level s zeroDepth));
                      [intros k f0; by apply canCreate_visitor_level|done|lia]].
  done.
Qed.

Lemma canCreate_level_first (s : memLS) (zeroDepth : bool) (name : string) :
  names_valid s ->
  canCreate_level s zeroDepth name true = false <->
  (exists n, node_at s name = Some n /\ token n <> "") \/
  (is_Some (byName s !! name) /\ zeroDepth = false).
Proof.
  intros Hv. unfold canCreate_level, node_at.
  destruct (byName s !! name) as [a|] eqn:Ek.
  - destruct (Hv name a Ek) as (na & Hna). rewrite Hna.
    destruct (streq (token na) "") eqn:Et; cbn [negb].
    + apply streq_true in Et. destruct zeroDepth; cbn [negb].
      * split; [done|]. intros [(n & Hn & Htok)|[_ ?]]; [|done].
        inversion Hn. by subst n.
      * split; [|done]. intros _. right. split; [eauto|done].
    + apply streq_false in Et. split; [|done]. intros _. left. eauto.
  - split; [done|]. intros [(n & Hn & _)|[[a Ha] _]]; done.
Qed.

Lemma canCreate_level_above (s : memLS) (zeroDepth : bool) (k : string) :
  canCreate_level s zeroDepth k false = false <->
  exists n, node_at s k = Some n /\ token n <> "" /\ ZeroDepth (details n) = false.
Proof.
  unfold canCreate_level. destruct (node_at s k) as [na|]; [|by split; [|intros (? & ? & _)]].
  destruct (streq (token na) "") eqn:Et; cbn [negb andb].
  - apply streq_true in Et. split; [done|]. intros (n & Hn & Htok & _).
    inversion Hn. by subst n.
  - apply streq_false in Et. destruct (ZeroDepth (details na)) eqn:Ez; cbn [negb].
    + split; [done|]. intros (n & Hn & _ & Hz). inversion Hn. subst n. congruence.
    + split; [|done]. intros _. eauto.
Qed.

Lemma forallb_false {A} (f : A -> bool) (l : list A) :
  forallb f l = false <-> exists k, k ∈ l /\ f k = false.
Proof.
  induction l as [|x l IH]; cbn [forallb].
  - split; [done|]. intros (k & Hk & _). by apply elem_of_nil in Hk.
  - rewrite andb_false_iff, IH. split.
    + intros [H|(k & Hk & H)]; [exists x; split; [left|done]|].
      exists k. split; [by right|done].
    + intros (k & Hk & H). apply elem_of_cons in Hk as [->|Hk]; [by left|].
      right. eauto.
Qed.

(** [canCreate] answers false exactly when the lock is blocked. *)
Lemma canCreate_spec (s : memLS) (name : string) (zeroDepth : bool) :
  Inv s -> absolute name ->
  exists b, canCreate name zeroDepth s = Some (b, s) /\
            (b = false <-> blocked s name zeroDepth).
Proof.
  intros HInv Habs. pose proof (Inv_names_valid s HInv) as Hv.
  eexists. split; [by apply canCreate_eq|].
  rewrite andb_false_iff, (canCreate_level_first s zeroDepth name Hv).
  unfold blocked. rewrite forallb_false.
  split.
  - intros [[H|H]|(k & Hk & Hl)]; [by left|by right; left|].
    right; right.
    apply canCreate_level_above in Hl as (n & Hn & Ht & Hz).
    exists k, n. done.
  - intros [H|[H|(k & n & Hk & Hn & Ht & Hz)]]; [by left; left|by left; right|].
    right. exists k. split; [done|].
    apply canCreate_level_above. eauto.
Qed.

(** ** create *)

Lemma filter_length_prefix {A} (P Q : A -> Prop) `{!forall x, Decision (P x)}
    `{!forall x, Decision (Q x)} (l l' : list A) :
  (length l <= length l')%nat ->
  (forall i x x', l !! i = Some x -> l' !! i = Some x' -> P x <-> Q x') ->
  (forall i x', (length l <= i)%nat -> l' !! i = Some x' -> ~ Q x') ->
  length (filter P l) = length (filter Q l').
Proof.
  revert l'. induction l as [|x l IH]; intros l' Hlen Hext Hnew.
  - simpl. clear Hlen Hext. induction l' as [|x' l' IH']; [done|].
    rewrite filter_cons.
    destruct (decide (Q x')) as [Hq|Hq].
    + by destruct (Hnew 0%nat x' ltac:(simpl; lia) eq_refl).
    + apply IH'. intros i y Hi Hy. apply (Hnew (S i) y); [simpl; lia|done].
  - destruct l' as [|x' l']; [simpl in Hlen; lia|].
    rewrite !filter_cons.
    pose proof (Hext 0%nat x x' eq_refl eq_refl) as Hx.
    assert (length (filter P l) = length (filter Q l')) as E.
    { apply IH.
      - simpl in Hlen. lia.
      - intros i y y'. apply (Hext (S i)).
      - intros i y' Hi. apply (Hnew (S i)). simpl. lia. }
    destruct (decide (P x)), (decide (Q x')); simpl; try tauto; lia.
Qed.

(** Nodes without a token do not count. *)
Lemma below_same_but_refs (s s' : memLS) (k : string) :
  same_but_refs s s' -> below s' k = below s k.
Proof.
  intros (_ & _ & _ & Hlen & Hold & Hnew). unfold below. f_equal. symmetry.
  apply filter_length_prefix; [done| |].
  - intros a n n' Hn Hn'. destruct (Hold _ _ Hn) as (r & E).
    rewrite Hn' in E. inversion E. done.
  - intros a n' Ha Hn' [Ht _]. by destruct (Hnew a n' Ha Hn') as (? & _).
Qed.

Lemma create_visitor_true (k : string) (first : bool) (acc : option ptr)
    (s s' : memLS) (r : bool * option ptr) :
  create_visitor k first acc s = Some (r, s') -> fst r = true.
Proof.
  unfold create_visitor. intros H.
  repeat (apply bind_Some in H as (? & ? & _ & H)). by inversion H.
Qed.

(** A node of the state after the walk of [create] is a node of the state
    before it, with another [refCount], or a new node without a lock. *)
Lemma same_but_refs_node (s s' : memLS) (a : ptr) (n' : memLSNode) :
  same_but_refs s s' -> store s' !! a = Some n' ->
  (exists n, store s !! a = Some n /\ n' = set_refCount (refCount n') n) \/
  (store s !! a = None /\ token n' = "" /\ held n' = false /\
   byExpiryIndex n' = -1).
Proof.
  intros (_ & _ & _ & Hlen & Hold & Hnew) Hn'.
  destruct (store s !! a) as [n|] eqn:Hn.
  - left. exists n. split; [done|]. destruct (Hold _ _ Hn) as (r & E).
    rewrite Hn' in E. inversion E. done.
  - right. split; [done|]. apply (Hnew a n'); [|done]. by apply lookup_ge_None.
Qed.

(** The walk of [create] from a state that satisfies the invariants. *)
Lemma create_ok (s : memLS) (name : string) :
  Inv s -> gen s < 2 ^ 62 -> absolute name ->
  exists (x : ptr) (sw : memLS) (n : memLSNode),
    create name s = Some (Some x, sw) /\
    same_but_refs s sw /\
    tree_pending [] (-1)
      (fun k => below s k + (if decide (k ∈ walkPath name) then 1 else 0)) sw /\
    (forall j b, byName s !! j = Some b -> byName sw !! j = Some b) /\
    byName sw !! name = Some x /\
    store sw !! x = Some n /\ Root (details n) = name.
Proof.
  intros HInv Hgen Habs.
  set (cnt := fun k => below s k + (if decide (k ∈ walkPath name) then 1 else 0)).
  assert (tree_pending (walkPath name) (-1) cnt s) as Hpend.
  { intros k. cbv zeta. unfold cnt.
    replace (below s k + (if decide (k ∈ walkPath name) then 1 else 0) +
             (if decide (k ∈ walkPath name) then -1 else 0)) with (below s k)
      by (destruct (decide (k ∈ walkPath name)); lia).
    apply (inv_tree _ HInv). }
  assert (forall j, 0 <= cnt j < 2 ^ 63 - 1) as Hbound.
  { intros j. unfold cnt. pose proof (below_nonneg s j).
    pose proof (Inv_below_bound s j HInv). destruct (decide (j ∈ walkPath name)); lia. }
  destruct (create_walk_ok (walkPath name) cnt true None s Hpend
              (walkPath_NoDup name Habs) Hbound)
    as (acc' & sw & Hwalk & Hp & Hr & Hmono & _ & Hfirst).
  destruct (Hfirst name (ancestors name) (walkPath_cons name Habs) eq_refl)
    as (Eacc & x & Ex).
  subst acc'. rewrite Ex in Hwalk.
  pose proof (Hp name) as Hn. cbv zeta in Hn. rewrite Ex in Hn.
  destruct Hn as (n & Hn & Hroot & _).
  exists x, sw, n. split; [|done].
  unfold create. rewrite (bind_eq _ _ s sw (true, Some x)); [reflexivity|].
  rewrite (walkToRoot_visit create_visitor name None s); [|
    intros k f0 a0 s0 r0 s1 H0; by apply (create_visitor_true k f0 a0 s0 s1)|done].
  rewrite (bind_eq _ _ _ _ _ Hwalk). reflexivity.
Qed.

(** ** The state that [Create] builds *)

Section create_lock.
(** [s1] is the state after the sweep, [sw] the state after the walk of
    [create], which returned node [x], and [s3] the state once the token
    and the details are written: node [x] is [nf] there. *)
Variables (s1 sw s3 : memLS) (x : ptr) (n nf : memLSNode) (d : LockDetails).

Hypothesis HInv : Inv s1.
Hypothesis Hgen : gen s1 < 2 ^ 62.
Hypothesis Habs : absolute (Root d).
Hypothesis Hfree : ~ blocked s1 (Root d) (ZeroDepth d).
Hypothesis Hrefs : same_but_refs s1 sw.
Hypothesis Hpend :
  tree_pending [] (-1)
    (fun k => below s1 k + (if decide (k ∈ walkPath (Root d)) then 1 else 0)) sw.
Hypothesis Hmono : forall j b, byName s1 !! j = Some b -> byName sw !! j = Some b.
Hypothesis Hbx : byName sw !! Root d = Some x.
Hypothesis Hn : store sw !! x = Some n.
Hypothesis Hroot : Root (details n) = Root d.
Hypothesis Est : store s3 = <[x := nf]> (store sw).
Hypothesis Ebn : byName s3 = byName sw.
Hypothesis Ebt : byToken s3 = <[FormatUint (gen s1 + 1) := x]> (byToken s1).
Hypothesis Eg : gen s3 = gen s1 + 1.
Hypothesis Eq : byExpiry s3 = byExpiry s1.
Hypothesis Hnf_token : token nf = FormatUint (gen s1 + 1).
Hypothesis Hnf_details : details nf = d.
Hypothesis Hnf_held : held nf = held n.
Hypothesis Hnf_refs : refCount nf = refCount n.
Hypothesis Hnf_index : byExpiryIndex nf = byExpiryIndex n.

(** The node that [create] returns carries no lock. *)
Lemma create_node_free :
  token n = "" /\ held n = false /\ byExpiryIndex n = -1 /\ x ∉ byExpiry s1.
Proof.
  destruct (same_but_refs_node s1 sw x n Hrefs Hn) as [(n0 & Hn0 & E)|(Hnone & ? & ? & ?)].
  - pose proof (inv_nodes _ HInv _ _ Hn0) as Hok.
    assert (token n0 = "") as Ht0.
    { destruct (decide (token n0 = "")) as [|Hne]; [done|]. exfalso. apply Hfree. left.
      destruct (nk_token _ _ _ Hok Hne) as (_ & Hb0 & _).
      assert (Root (details n0) = Root d) as Er by (rewrite E in Hroot; exact Hroot).
      exists n0. unfold node_at. rewrite <- Er, Hb0. done. }
    assert (x ∉ byExpiry s1) as Hxq.
    { intros Hin. apply (nk_queued _ _ _ Hok) in Hin as [? _]. done. }
    rewrite E. cbn. split; [done|]. split; [by apply (nk_anchor _ _ _ Hok)|].
    split; [|done]. by apply (qw_out _ (inv_queue _ HInv) _ _ Hn0).
  - do 3 (split; [done|]). intros Hin.
    apply list_elem_of_lookup in Hin as (i & Hi).
    destruct (qw_idx _ (inv_queue _ HInv) i x Hi) as (? & ? & _). congruence.
Qed.

Lemma create_node3 (a : ptr) (n3 : memLSNode) :
  store s3 !! a = Some n3 ->
  (a = x /\ n3 = nf) \/ (a <> x /\ store sw !! a = Some n3).
Proof.
  rewrite Est. intros H. destruct (decide (a = x)) as [->|Hne].
  - left. split; [done|].
    rewrite list_lookup_insert_eq in H by (by apply lookup_lt_Some with n).
    by inversion H.
  - right. split; [done|]. by rewrite list_lookup_insert_ne in H.
Qed.

Lemma create_node3_x : store s3 !! x = Some nf.
Proof. rewrite Est. apply list_lookup_insert_eq. by apply lookup_lt_Some with n. Qed.

(** A node of [s3] other than [x] that carries a token is a node of
    [s1], with the same lock. *)
Lemma create_node3_old (a : ptr) (n3 : memLSNode) :
  store s3 !! a = Some n3 -> a <> x ->
  (exists n0, store s1 !! a = Some n0 /\ lock_of n3 = lock_of n0) \/
  (store s1 !! a = None /\ token n3 = "" /\ held n3 = false /\
   byExpiryIndex n3 = -1).
Proof.
  intros H Hne. destruct (create_node3 a n3 H) as [[? _]|[_ Hw]]; [done|].
  destruct (same_but_refs_node s1 sw a n3 Hrefs Hw) as [(n0 & Hn0 & E)|?]; [|by right].
  left. exists n0. split; [done|]. by rewrite E.
Qed.

(** A node of [s1] other than [x] keeps its lock. *)
Lemma create_node1 (a : ptr) (n0 : memLSNode) :
  store s1 !! a = Some n0 -> a <> x ->
  exists r, store s3 !! a = Some (set_refCount r n0).
Proof.
  intros H Hne. destruct Hrefs as (_ & _ & _ & _ & Hold & _).
  destruct (Hold _ _ H) as (r & E). exists r. rewrite Est.
  by rewrite list_lookup_insert_ne.
Qed.

Lemma create_queue_wf3 : queue_wf s3.
Proof.
  destruct create_node_free as (Htn & Hhn & Hin & Hxq).
  apply (queue_wf_frame s1); [apply HInv|done| |].
  - intros y ny Hy. destruct (decide (y = x)) as [->|Hne].
    + exists nf. split; [apply create_node3_x|]. split; [|done].
      rewrite Hnf_index, Hin. symmetry.
      by apply (qw_out _ (inv_queue _ HInv) _ _ Hy).
    + destruct (create_node1 y ny Hy Hne) as (r & E). eexists. split; [exact E|done].
  - intros y ny' Hnone Hy'. destruct (decide (y = x)) as [->|Hne].
    + rewrite create_node3_x in Hy'. inversion Hy'. subst ny'.
      destruct create_node_free as (_ & _ & ? & _). congruence.
    + destruct (create_node3_old y ny' Hy' Hne) as [(n0 & Hn0 & _)|(_ & _ & _ & ?)];
        [congruence|done].
Qed.

(** The nodes of a state that differs from [s3] in the queue only. *)
Lemma create_node' (s' : memLS) (a : ptr) (n' : memLSNode) :
  same_but_queue s3 s' -> store s' !! a = Some n' ->
  (a = x /\ lock_of n' = lock_of nf /\ refCount n' = refCount nf) \/
  (a <> x /\
   ((exists n0, store s1 !! a = Some n0 /\ lock_of n' = lock_of n0) \/
    (store s1 !! a = None /\ token n' = "" /\ held n' = false))).
Proof.
  intros Hsq Hn'.
  destruct (same_but_queue_mem s3 s' Hsq a n' Hn') as (n3 & Hn3 & Hlk & Hrc).
  destruct (decide (a = x)) as [->|Hne].
  - left. rewrite create_node3_x in Hn3. inversion Hn3. by subst n3.
  - right. split; [done|].
    destruct (create_node3_old a n3 Hn3 Hne) as [(n0 & Hn0 & Hlk0)|(Hnone & Ht & Hh & _)].
    + left. exists n0. split; [done|congruence].
    + right. split; [done|]. unfold lock_of in Hlk.
      assert (token n' = token n3 /\ held n' = held n3) as [-> ->]
        by (by inversion Hlk).
      done.
Qed.

Lemma create_below3 (k : string) :
  below s3 k = below s1 k + (if decide (k ∈ walkPath (Root d)) then 1 else 0).
Proof.
  destruct create_node_free as (Htn & _).
  pose proof (below_insert sw (store s3) x n nf k Hn Est) as E.
  change (below (with_store (store s3) sw) k) with (below s3 k) in E.
  rewrite (below_same_but_refs s1 sw k Hrefs) in E.
  rewrite (decide_False (P := covers k n)) in E by (intros [Hc _]; done).
  destruct (decide (covers k nf)) as [[_ Hc]|Hc], (decide (k ∈ walkPath (Root d)))
    as [Hin|Hin]; try lia; exfalso.
  - by rewrite Hnf_details in Hc.
  - apply Hc. split; [rewrite Hnf_token; apply FormatUint_nonempty|].
    by rewrite Hnf_details.
Qed.

Lemma create_Inv (s' : memLS) :
  same_but_queue s3 s' -> queue_wf s' ->
  (forall y, y ∈ byExpiry s' <-> (y = x /\ 0 <= LDuration d) \/ y ∈ byExpiry s1) ->
  Inv s'.
Proof.
  intros Hsq Hq' Hmem.
  destruct create_node_free as (Htn & Hhn & Hin & Hxq).
  pose proof Hsq as (Hbn' & Hbt' & Hg' & Hl' & Hst').
  pose proof (next_token_fresh s1 HInv) as Hfresh.
  pose proof (FormatUint_nonempty (gen s1 + 1)) as Htokne.
  destruct (inv_tokens _ HInv) as ((Hg0 & Hg1) & Hsize & Hall).
  split.
  - done.
  - (* the nodes *)
    intros a n' Hn'.
    destruct (create_node' s' a n' Hsq Hn') as [(-> & Hlk & Hrc)|(Hne & Hcase)].
    + unfold lock_of in Hlk.
      assert (details n' = d /\ token n' = FormatUint (gen s1 + 1) /\ held n' = false)
        as (Hd & Ht & Hh) by (inversion Hlk; split; [|split]; congruence).
      split.
      * intros E. congruence.
      * intros _. rewrite Hbt', Ebt, Hbn', Ebn, Ht, Hd.
        split; [apply lookup_insert_eq|done].
      * rewrite Hmem, Hd. split.
        -- intros [[_ HD]|Hin']; [|done]. split; [congruence|done].
        -- intros (_ & _ & HD). by left.
    + destruct Hcase as [(n0 & Hn0 & Hlk)|(Hnone & Ht & Hh)].
      * pose proof (inv_nodes _ HInv _ _ Hn0) as Hok. unfold lock_of in Hlk.
        assert (details n' = details n0 /\ token n' = token n0 /\ held n' = held n0)
          as (Hd & Ht & Hh) by (by inversion Hlk).
        split.
        -- rewrite Ht, Hh. apply (nk_anchor _ _ _ Hok).
        -- rewrite Ht, Hd. intros Hne0.
           destruct (nk_token _ _ _ Hok Hne0) as (Hb & Hnm & Ha).
           rewrite Hbt', Ebt, Hbn', Ebn. split; [|split; [by apply Hmono|done]].
           rewrite lookup_insert_ne; [done|]. intros E. rewrite <- E in Hb. congruence.
        -- rewrite Hmem, Ht, Hh, Hd. rewrite <- (nk_queued _ _ _ Hok).
           split; [intros [[? _]|?]; done|by right].
      * split.
        -- done.
        -- done.
        -- rewrite Hmem. split.
           ++ intros [[? _]|Hin']; [done|].
              apply list_elem_of_lookup in Hin' as (i & Hi).
              destruct (qw_idx _ (inv_queue _ HInv) i a Hi) as (? & ? & _). congruence.
           ++ intros (? & _). done.
  - (* the name index *)
    apply (tree_pending_nil (-1)
             (fun k => below s1 k + (if decide (k ∈ walkPath (Root d)) then 1 else 0))).
    + intros k. specialize (Hpend k). cbv zeta in *. rewrite Hbn', Ebn.
      destruct (byName sw !! k) as [a|] eqn:Ek; [|done].
      destruct Hpend as (nw & Hnw & Hr & Hc & Hp).
      destruct (decide (a = x)) as [->|Hne].
      * rewrite Hn in Hnw. inversion Hnw. subst nw.
        destruct (Hst' x nf create_node3_x) as (i & Hi).
        exists (set_index i nf). split; [done|]. cbn.
        rewrite Hnf_details, Hnf_refs. split; [congruence|done].
      * assert (store s3 !! a = Some nw) as H3 by (rewrite Est; by rewrite list_lookup_insert_ne).
        destruct (Hst' a nw H3) as (i & Hi).
        exists (set_index i nw). done.
    + intros k. rewrite <- create_below3. symmetry.
      apply below_ext; [done|]. intros a n3 n' Hn3 Hn'.
      destruct (Hst' _ _ Hn3) as (i & Hi). rewrite Hn' in Hi. inversion Hi. done.
  - (* the tokens *)
    split; [rewrite Hg', Eg; lia|]. split.
    + rewrite Hbt', Ebt, Hg', Eg. rewrite map_size_insert_None by done. lia.
    + intros t a Ha. rewrite Hbt', Ebt in Ha. rewrite Hg', Eg.
      destruct (decide (FormatUint (gen s1 + 1) = t)) as [<-|Hne].
      * rewrite lookup_insert_eq in Ha. inversion Ha. subst a.
        destruct (Hst' x nf create_node3_x) as (i & Hi).
        split; [exists (set_index i nf); done|]. split; [done|].
        exists (gen s1 + 1). split; [lia|done].
      * rewrite lookup_insert_ne in Ha by done.
        destruct (Hall t a Ha) as ((n0 & Hn0 & Ht) & Htne & g & Hg & Etg).
        split; [|split; [done|exists g; split; [lia|done]]].
        assert (a <> x) as Hax.
        { intros ->. destruct Hrefs as (_ & _ & _ & _ & Hold & _).
          destruct (Hold _ _ Hn0) as (r & E). rewrite Hn in E. inversion E. subst n.
          cbn in Htn. congruence. }
        destruct (create_node1 a n0 Hn0 Hax) as (r & E).
        destruct (Hst' _ _ E) as (i & Hi). eexists. split; [exact Hi|done].
  - (* exclusivity *)
    intros a b na nb Ha Hb Hta Htb Hza.
    destruct (create_node' s' a na Hsq Ha) as [(-> & Hlka & _)|(Hnea & Hca)];
      destruct (create_node' s' b nb Hsq Hb) as [(-> & Hlkb & _)|(Hneb & Hcb)].
    + assert (details na = d /\ details nb = d) as [-> ->].
      { unfold lock_of in *. inversion Hlka. inversion Hlkb. split; congruence. }
      by apply not_in_ancestors.
    + destruct Hcb as [(nb0 & Hnb0 & Hlkb)|(_ & ? & _)]; [|done].
      assert (details na = d) as Hda by (unfold lock_of in Hlka; inversion Hlka; congruence).
      assert (details nb = details nb0 /\ token nb = token nb0) as [Hdb Htkb]
        by (unfold lock_of in Hlkb; by inversion Hlkb).
      rewrite Hda, Hdb. intros Hanc. apply Hfree. right. left.
      pose proof (inv_nodes _ HInv _ _ Hnb0) as Hokb.
      destruct (nk_token _ _ _ Hokb ltac:(congruence)) as (_ & _ & Habsb).
      assert (covers (Root d) nb0) as Hcov.
      { split; [congruence|]. rewrite (walkPath_cons _ Habsb). by right. }
      pose proof (below_pos s1 b nb0 (Root d) Hnb0 Hcov) as Hpos.
      pose proof (inv_tree _ HInv (Root d)) as Ht.
      destruct (byName s1 !! Root d) as [c|]; [|lia].
      split; [eauto|congruence].
    + destruct Hca as [(na0 & Hna0 & Hlka)|(_ & ? & _)]; [|done].
      assert (details nb = d) as Hdb by (unfold lock_of in Hlkb; inversion Hlkb; congruence).
      assert (details na = details na0 /\ token na = token na0) as [Hda Htka]
        by (unfold lock_of in Hlka; by inversion Hlka).
      rewrite Hda, Hdb. intros Hanc. apply Hfree. right. right.
      pose proof (inv_nodes _ HInv _ _ Hna0) as Hoka.
      destruct (nk_token _ _ _ Hoka ltac:(congruence)) as (_ & Hnma & _).
      exists (Root (details na0)), na0. split; [done|].
      unfold node_at. rewrite Hnma. split; [done|]. split; congruence.
    + destruct Hca as [(na0 & Hna0 & Hlka)|(_ & ? & _)]; [|done].
      destruct Hcb as [(nb0 & Hnb0 & Hlkb)|(_ & ? & _)]; [|done].
      assert (details na = details na0 /\ token na = token na0) as [Hda Htka]
        by (unfold lock_of in Hlka; by inversion Hlka).
      assert (details nb = details nb0 /\ token nb = token nb0) as [Hdb Htkb]
        by (unfold lock_of in Hlkb; by inversion Hlkb).
      rewrite Hda, Hdb.
      apply (inv_excl _ HInv a b na0 nb0); congruence.
Qed.
End create_lock.

Lemma nextToken_eq (s : memLS) :
  0 <= gen s < 2 ^ 62 ->
  nextToken s = Some (FormatUint (gen s + 1), with_gen (gen s + 1) s).
Proof.
  intros Hg. unfold nextToken. rewrite (bind_eq _ _ _ _ _ (modify_eq _ s)).
  rewrite (bind_eq _ _ _ _ _ (gets_eq _ _)). cbn.
  unfold wrap_uint64. rewrite Z.mod_small by lia. reflexivity.
Qed.

(** [Create] after [canCreate] has answered true. *)
Lemma Create_body_ok (s1 : memLS) (now : Time) (d : LockDetails) :
  Inv s1 -> gen s1 < 2 ^ 62 -> absolute (Root d) ->
  ~ blocked s1 (Root d) (ZeroDepth d) ->
  exists (s' : memLS) (x : ptr) (n : memLSNode),
    (r <- create (Root d) ;;
     match r with
     | None => panic
     | Some n =>
         tok <- nextToken ;;
         update n (set_token tok) ;;;
         modify (fun s => with_byToken (<[tok := n]> (byToken s)) s) ;;;
         update n (set_details d) ;;;
         (if 0 <=? LDuration d
          then update n (set_expiry (Add now (LDuration d))) ;;; heap.Push n
          else ret tt) ;;;
         ret (Ok tok)
     end) s1 = Some (Ok (FormatUint (gen s1 + 1)), s') /\
    Inv s' /\ gen s' = gen s1 + 1 /\
    byToken s1 !! FormatUint (gen s1 + 1) = None /\
    byToken s' = <[FormatUint (gen s1 + 1) := x]> (byToken s1) /\
    byName s' !! Root d = Some x /\
    (forall k a, byName s1 !! k = Some a -> byName s' !! k = Some a) /\
    store s' !! x = Some n /\
    token n = FormatUint (gen s1 + 1) /\ details n = d /\ held n = false /\
    (0 <= LDuration d -> expiry n = Add now (LDuration d)) /\
    (forall y, y ∈ byExpiry s' <-> (y = x /\ 0 <= LDuration d) \/ y ∈ byExpiry s1) /\
    (x ∉ byExpiry s1) /\
    (forall y ny, y <> x -> store s1 !! y = Some ny ->
       exists ny', store s' !! y = Some ny' /\ lock_of ny' = lock_of ny) /\
    (forall y ny', y <> x -> store s' !! y = Some ny' -> token ny' <> "" ->
       exists ny, store s1 !! y = Some ny /\ lock_of ny' = lock_of ny).
Proof.
  intros HInv Hgen Habs Hfree.
  destruct (inv_tokens _ HInv) as ((Hg0 & _) & _).
  destruct (create_ok s1 (Root d) HInv Hgen Habs)
    as (x & sw & n & Hcreate & Hrefs & Hpend & Hmono & Hbx & Hn & Hroot).
  pose proof Hrefs as (Hbt_w & Hg_w & Hq_w & Hlen_w & Hold_w & Hnew_w).
  set (tok := FormatUint (gen s1 + 1)).
  set (n2 := set_details d (set_token tok n)).
  set (nf := if 0 <=? LDuration d then set_expiry (Add now (LDuration d)) n2 else n2).
  assert (x < length (store sw))%nat as Hxlt by (by apply lookup_lt_Some with n).
  (* the state before the push *)
  set (s3 := mkLS (<[x := nf]> (store sw)) (byName sw) (<[tok := x]> (byToken s1))
               (gen s1 + 1) (byExpiry s1)).
  assert (token nf = tok /\ details nf = d /\ held nf = held n /\
          refCount nf = refCount n /\ byExpiryIndex nf = byExpiryIndex n /\
          (0 <= LDuration d -> expiry nf = Add now (LDuration d)))
    as (Hnf_t & Hnf_d & Hnf_h & Hnf_r & Hnf_i & Hnf_e).
  { unfold nf. destruct (0 <=? LDuration d) eqn:E; cbn; repeat split; try done.
    apply Z.leb_gt in E. lia. }
  destruct (create_node_free s1 sw x n d HInv Hfree Hrefs Hn Hroot)
    as (Htn & Hhn & Hin & Hxq).
  assert (queue_wf s3) as Hq3.
  { by apply (create_queue_wf3 s1 sw s3 x n nf d). }
  assert (store s3 !! x = Some nf) as Hx3.
  { cbn. by apply list_lookup_insert_eq. }
  assert (x ∉ byExpiry s3) as Hxq3 by done.
  (* the run up to the push *)
  assert (exists s',
            ((if 0 <=? LDuration d
              then update x (set_expiry (Add now (LDuration d))) ;;; heap.Push x
              else ret tt) ;;; ret (Ok tok))
              (with_store (<[x := n2]> (store sw))
                 (with_byToken (<[tok := x]> (byToken s1)) (with_gen (gen s1 + 1) sw)))
            = Some (Ok tok, s') /\
            same_but_queue s3 s' /\ queue_wf s' /\
            (forall y, y ∈ byExpiry s' <-> (y = x /\ 0 <= LDuration d) \/ y ∈ byExpiry s1))
    as (s' & Hlast & Hsq & Hq' & Hmem).
  { destruct (0 <=? LDuration d) eqn:E.
    - apply Z.leb_le in E.
      destruct (heap_Push_wf s3 x nf Hq3 Hx3 Hxq3) as (s' & Hpush & Hsq & Hq' & Hmem & _).
      exists s'. split; [|split; [done|split; [done|]]].
      + erewrite bind_eq; [reflexivity|].
        erewrite bind_eq; [|apply (update_eq x _ n2); cbn; by apply list_lookup_insert_eq].
        cbn. rewrite list_insert_insert_eq.
        rewrite <- Hpush. f_equal. unfold s3, with_store, nf. cbn.
        by rewrite Hq_w.
      + intros y. rewrite Hmem. cbn. split; (intros [?|?]; [left|right]; tauto).
    - apply Z.leb_gt in E. eexists. split; [reflexivity|].
      assert (with_store (<[x := n2]> (store sw))
                (with_byToken (<[tok := x]> (byToken s1)) (with_gen (gen s1 + 1) sw))
              = s3) as ->.
      { unfold s3, with_store, with_byToken, with_gen, nf. cbn.
        by rewrite Hq_w. }
      split; [apply same_but_queue_refl|]. split; [done|].
      intros y. cbn. split; [by right|]. intros [[_ ?]|?]; [lia|done]. }
  assert (Inv s') as HInv'.
  { apply (create_Inv s1 sw s3 x n nf d); done. }
  pose proof Hsq as (Hbn' & Hbt' & Hg' & Hl' & Hst').
  destruct (Hst' x nf Hx3) as (i & Hx').
  exists s', x, (set_index i nf).
  split; [|split; [done|split; [done|split; [by apply next_token_fresh|
    split; [done|split; [by rewrite Hbn'|split; [|split; [done|split; [done|
    split; [done|split; [cbn; congruence|split; [done|split; [done|split; [done|split]]]]]]]]]]]]]].
  - rewrite (bind_eq _ _ _ _ _ Hcreate).
    rewrite (bind_eq _ _ _ _ _ (nextToken_eq sw ltac:(lia))). rewrite Hg_w. fold tok.
    erewrite bind_eq; [|by apply (update_eq x _ n)].
    rewrite (bind_eq _ _ _ _ _ (modify_eq _ _)).
    erewrite bind_eq; [|apply (update_eq x _ (set_token tok n)); cbn;
                        by apply list_lookup_insert_eq].
    rewrite <- Hlast. f_equal.
    unfold with_store, with_byToken, with_gen. cbn. rewrite Hbt_w, list_insert_insert_eq. reflexivity.
  - intros k a Ha. rewrite Hbn'. by apply Hmono.
  - intros y ny Hne Hy.
    destruct (create_node1 s1 sw s3 x nf Hrefs eq_refl y ny Hy Hne) as (r & E).
    destruct (Hst' _ _ E) as (j & Hj). eexists. split; [exact Hj|done].
  - intros y ny' Hne Hy' Hty'.
    destruct (create_node' s1 sw s3 x n nf Hrefs Hn eq_refl s' y ny' Hsq Hy')
      as [[? _]|(_ & [?|(_ & ? & _)])]; done.
Qed.

(** ** Create *)

(** [Create]: the sweep, the test of [canCreate] and the new lock. *)
Lemma Create_ok (s : memLS) (now : Time) (d : LockDetails) :
  Inv s -> gen s < 2 ^ 62 ->
  exists (s1 : memLS) (b : bool),
    collectExpiredNodes now s = Some (tt, s1) /\ Inv s1 /\ swept now s s1 /\
    (b = false <-> blocked s1 (slashClean (Root d)) (ZeroDepth d)) /\
    if b then
      exists (s' : memLS) (x : ptr),
        Create now d s = Some (Ok (FormatUint (gen s + 1)), s') /\ Inv s' /\
        created now (mkLockDetails (slashClean (Root d)) (LDuration d)
                       (OwnerXML d) (ZeroDepth d)) x s1 s'
    else Create now d s = Some (Err ErrLocked, s1).
Proof.
  intros HInv Hgen.
  destruct (collectExpiredNodes_ok now s HInv Hgen) as (s1 & Hsweep & HInv1 & Hsw).
  pose proof Hsw as (Hg1 & _).
  destruct (canCreate_spec s1 (slashClean (Root d)) (ZeroDepth d) HInv1
              (slashClean_absolute _)) as (b & Hcan & Hb).
  exists s1, b. do 4 (split; [done|]).
  unfold Create. rewrite (bind_eq _ _ _ _ _ Hsweep). cbv zeta. cbn [Root ZeroDepth LDuration].
  rewrite (bind_eq _ _ _ _ _ Hcan).
  destruct b; cbn [negb]; [|done].
  set (d' := mkLockDetails (slashClean (Root d)) (LDuration d) (OwnerXML d) (ZeroDepth d)).
  destruct (Create_body_ok s1 now d' HInv1 ltac:(lia) (slashClean_absolute _))
    as (s' & x & n & Hrun & HInv' & Hc).
  { intros Hbl. apply Hb in Hbl. done. }
  exists s', x. rewrite <- Hg1. split; [exact Hrun|]. split; [done|].
  destruct Hc as (? & ? & ? & ? & ? & ? & ? & ? & ? & ? & ? & ? & ? & ?).
  unfold created. do 5 (split; [done|]). split; [exists n; done|done].
Qed.

Lemma below_pos_inv (s : memLS) (k : string) :
  0 < below s k -> exists y ny, store s !! y = Some ny /\ covers k ny.
Proof.
  unfold below. intros H.
  destruct (filter (covers k) (store s)) as [|ny l] eqn:E; [simpl in H; lia|].
  assert (ny ∈ filter (covers k) (store s)) as Hin by (rewrite E; left).
  apply list_elem_of_filter in Hin as [Hc Hin].
  apply list_elem_of_lookup in Hin as (y & Hy). eauto.
Qed.

Lemma node_at_Some (s : memLS) (k : string) (n : memLSNode) :
  node_at s k = Some n <-> exists a, byName s !! k = Some a /\ store s !! a = Some n.
Proof.
  unfold node_at. destruct (byName s !! k) as [a|].
  - split; [eauto|]. by intros (a' & [= <-] & ?).
  - split; [done|]. by intros (? & ? & _).
Qed.

(** A node registered under a name is rooted there. *)
Lemma node_at_root (s : memLS) (k : string) (a : ptr) (n : memLSNode) :
  Inv s -> byName s !! k = Some a -> store s !! a = Some n -> Root (details n) = k.
Proof.
  intros HInv Hk Hn. pose proof (inv_tree _ HInv k) as Ht. rewrite Hk in Ht.
  destruct Ht as (n' & Hn' & Hr & _). congruence.
Qed.

(** What a new lock blocks: the locks blocked before, a lock at its root,
    a lock of infinite depth above it, and, when its depth is infinite,
    every lock below it. *)
Lemma created_blocked (s1 s' : memLS) (now : Time) (d : LockDetails) (x : ptr) :
  Inv s1 -> Inv s' -> created now d x s1 s' -> absolute (Root d) ->
  forall (k : string) (zeroDepth : bool),
    blocked s' k zeroDepth <->
    (blocked s1 k zeroDepth \/ k = Root d \/
     (zeroDepth = false /\ k ∈ ancestors (Root d)) \/
     (ZeroDepth d = false /\ Root d ∈ ancestors k)).
Proof.
  intros HInv1 HInv' (Hg & Hfresh & Hbt & Hbx & Hmono & (n & Hn & Htn & Hdn & Hhn & _)
                      & _ & _ & Hfwd & Hbwd) Habs k zd.
  pose proof (FormatUint_nonempty (gen s1 + 1)) as Htokne.
  assert (forall n0, store s1 !! x = Some n0 -> token n0 = "") as Hxfree.
  { intros n0 Hn0. destruct (decide (token n0 = "")) as [|Hne]; [done|]. exfalso.
    destruct (nk_token _ _ _ (inv_nodes _ HInv1 _ _ Hn0) Hne) as (Hb & _).
    assert (token n0 <> FormatUint (gen s1 + 1)) as Hne' by (intros E; congruence).
    assert (byToken s' !! token n0 = Some x) as Hb'
      by (rewrite Hbt; by rewrite lookup_insert_ne).
    destruct (Inv_token_node s' _ x HInv' Hb') as (n' & Hn' & Ht' & _).
    rewrite Hn in Hn'. inversion Hn'. subst n'. congruence. }
  (* a lock of [s'] other than the new one is a lock of [s1], under the same name *)
  assert (forall j a n', byName s' !! j = Some a -> store s' !! a = Some n' ->
            token n' <> "" -> a <> x ->
            exists n0, node_at s1 j = Some n0 /\ token n0 <> "" /\
                       ZeroDepth (details n0) = ZeroDepth (details n')) as Hold.
  { intros j a n' Hj Hn' Ht' Hne.
    destruct (Hbwd a n' Hne Hn' Ht') as (n0 & Hn0 & Hlk).
    assert (details n' = details n0 /\ token n' = token n0) as [Hd Ht]
      by (unfold lock_of in Hlk; by inversion Hlk).
    destruct (nk_token _ _ _ (inv_nodes _ HInv1 _ _ Hn0) ltac:(congruence)) as (_ & Hnm & _).
    rewrite <- Hd, (node_at_root s' j a n' HInv' Hj Hn') in Hnm.
    exists n0. split; [apply node_at_Some; eauto|]. split; congruence. }
  (* a lock of [s1] is a lock of [s'], under the same name *)
  assert (forall j n0, node_at s1 j = Some n0 -> token n0 <> "" ->
            exists n', node_at s' j = Some n' /\ token n' <> "" /\
                       ZeroDepth (details n') = ZeroDepth (details n0)) as Hnew.
  { intros j n0 Hj Ht0. apply node_at_Some in Hj as (a & Hj & Hn0).
    assert (a <> x) as Hne by (intros ->; by apply Hxfree in Hn0).
    destruct (Hfwd a n0 Hne Hn0) as (n' & Hn' & Hlk).
    assert (details n' = details n0 /\ token n' = token n0) as [Hd Ht]
      by (unfold lock_of in Hlk; by inversion Hlk).
    exists n'. split; [apply node_at_Some; eauto|]. split; congruence. }
  assert (forall j, covers j n <-> j ∈ walkPath (Root d)) as Hcov.
  { intros j. unfold covers. rewrite Hdn, Htn. tauto. }
  split.
  - intros [(n' & Hnode & Ht')|[[Hsome Hzd]|(j & n' & Hj & Hnode & Ht' & Hz)]].
    + apply node_at_Some in Hnode as (a & Hk & Hn').
      destruct (decide (a = x)) as [->|Hne].
      * right; left. rewrite <- (node_at_root s' k x n' HInv' Hk Hn').
        rewrite Hn in Hn'. inversion Hn'. subst n'. by rewrite Hdn.
      * left. left. destruct (Hold k a n' Hk Hn' Ht' Hne) as (n0 & ? & ? & _). eauto.
    + destruct Hsome as (a & Hk). pose proof (inv_tree _ HInv' k) as Ht. rewrite Hk in Ht.
      destruct Ht as (_ & _ & _ & _ & Hpos).
      destruct (below_pos_inv s' k Hpos) as (y & ny' & Hy & Hc).
      destruct (decide (y = x)) as [->|Hne].
      * rewrite Hn in Hy. inversion Hy. subst ny'. apply Hcov in Hc.
        rewrite (walkPath_cons _ Habs) in Hc.
        apply elem_of_cons in Hc as [->|Hc]; [by right; left|]. right; right; left. done.
      * left. right. left. split; [|done]. destruct Hc as [Htk Hin].
        destruct (Hbwd y ny' Hne Hy Htk) as (n0 & Hn0 & Hlk).
        assert (details ny' = details n0 /\ token ny' = token n0) as [Hd Ht]
          by (unfold lock_of in Hlk; by inversion Hlk).
        assert (covers k n0) as Hc0 by (split; congruence).
        pose proof (below_pos s1 y n0 k Hn0 Hc0) as Hpos1.
        pose proof (inv_tree _ HInv1 k) as Ht1.
        destruct (byName s1 !! k); [eauto|lia].
    + apply node_at_Some in Hnode as (a & Hk & Hn').
      destruct (decide (a = x)) as [->|Hne].
      * right; right; right. rewrite Hn in Hn'. inversion Hn'. subst n'.
        rewrite Hdn in Hz. split; [done|].
        rewrite <- Hdn, (node_at_root s' j x n HInv' Hk Hn). done.
      * left. right; right.
        destruct (Hold j a n' Hk Hn' Ht' Hne) as (n0 & ? & ? & Hz0).
        exists j, n0. split; [done|]. split; [done|]. split; [done|congruence].
  - intros [Hbl|[->|[[-> Hk]|[Hz Hk]]]].
    + destruct Hbl as [(n0 & Hnode & Ht0)|[[Hsome Hzd]|(j & n0 & Hj & Hnode & Ht0 & Hz)]].
      * left. destruct (Hnew k n0 Hnode Ht0) as (n' & ? & ? & _). eauto.
      * right; left. split; [|done]. destruct Hsome as (a & Ha). exists a. by apply Hmono.
      * right; right. destruct (Hnew j n0 Hnode Ht0) as (n' & ? & ? & Hz').
        exists j, n'. split; [done|]. split; [done|]. split; [done|congruence].
    + left. exists n. split; [apply node_at_Some; eauto|congruence].
    + right; left. split; [|done].
      assert (covers k n) as Hc.
      { apply Hcov. rewrite (walkPath_cons _ Habs). by right. }
      pose proof (below_pos s' x n k Hn Hc) as Hpos.
      pose proof (inv_tree _ HInv' k) as Ht.
      destruct (byName s' !! k); [eauto|lia].
    + right; right. exists (Root d), n. split; [done|].
      split; [apply node_at_Some; eauto|]. split; congruence.
Qed.

(** A lock is blocked, along the levels that [canCreate] visits, exactly
    when a lock of the manager stands against it. *)
Lemma blocked_conflicts (s : memLS) (name : string) (zeroDepth : bool) :
  Inv s -> absolute name ->
  blocked s name zeroDepth <-> conflicts s name zeroDepth.
Proof.
  intros HInv Habs. unfold blocked, conflicts, has_lock, strict_ancestor. split.
  - intros [(n & Hn & Ht)|[[[a Ha] Hz]|(k & n & Hk & Hn & Ht & Hz)]].
    + apply node_at_Some in Hn as (a & Ha & Hn).
      exists n. split; [eauto|]. left. by apply (node_at_root s name a).
    + pose proof (inv_tree _ HInv name) as Htree. rewrite Ha in Htree.
      destruct Htree as (_ & _ & _ & _ & Hpos).
      apply below_pos_inv in Hpos as (y & ny & Hy & Ht & Hin).
      destruct (nk_token _ _ _ (inv_nodes _ HInv _ _ Hy) Ht) as (_ & _ & Hra).
      exists ny. split; [eauto|].
      rewrite (walkPath_cons _ Hra) in Hin. apply elem_of_cons in Hin as [->|Hin].
      * by left.
      * right; left. split; [done|]. by apply (ancestors_prefix _ Hra).
    + apply node_at_Some in Hn as (a & Ha & Hn).
      pose proof (node_at_root s k a n HInv Ha Hn) as Hr.
      exists n. split; [eauto|]. right; right. split; [done|]. rewrite Hr.
      by apply (ancestors_prefix _ Habs).
  - intros (n & (y & Hy & Ht) & Hcase).
    destruct (nk_token _ _ _ (inv_nodes _ HInv _ _ Hy) Ht) as (_ & Hbn & Hra).
    destruct Hcase as [Hr|[[Hz Hanc]|[Hz Hanc]]].
    + left. exists n. split; [|done]. apply node_at_Some. exists y. by rewrite <- Hr.
    + right; left. split; [|done].
      apply (ancestors_prefix _ Hra) in Hanc.
      assert (0 < below s name) as Hpos.
      { apply (below_pos s y n); [done|]. split; [done|].
        rewrite (walkPath_cons _ Hra). by right. }
      pose proof (inv_tree _ HInv name) as Htree.
      destruct (byName s !! name); [done|lia].
    + right; right. exists (Root (details n)), n.
      split; [by apply (ancestors_prefix _ Habs)|].
      split; [apply node_at_Some; eauto|done].
Qed.

(** The node of a name is there exactly when a lock lies at the name or
    strictly below it. *)
Lemma node_conflicts (s : memLS) (name : string) :
  Inv s ->
  is_Some (byName s !! name) <->
  exists n, has_lock s n /\
    (Root (details n) = name \/ strict_ancestor name (Root (details n))).
Proof.
  intros HInv. unfold has_lock, strict_ancestor.
  pose proof (inv_tree _ HInv name) as Htree. split.
  - intros [a Ha]. rewrite Ha in Htree. destruct Htree as (_ & _ & _ & _ & Hpos).
    apply below_pos_inv in Hpos as (y & ny & Hy & Ht & Hin).
    destruct (nk_token _ _ _ (inv_nodes _ HInv _ _ Hy) Ht) as (_ & _ & Hra).
    exists ny. split; [eauto|].
    rewrite (walkPath_cons _ Hra) in Hin. apply elem_of_cons in Hin as [->|Hin].
    + by left.
    + right. by apply (ancestors_prefix _ Hra).
  - intros (n & (y & Hy & Ht) & Hcase).
    destruct (nk_token _ _ _ (inv_nodes _ HInv _ _ Hy) Ht) as (_ & Hbn & Hra).
    assert (0 < below s name) as Hpos.
    { apply (below_pos s y n); [done|]. split; [done|].
      rewrite (walkPath_cons _ Hra). destruct Hcase as [->|Hanc]; [by left|right].
      by apply (ancestors_prefix _ Hra). }
    destruct (byName s !! name); [done|lia].
Qed.

(** After [Create] a lock of the manager stands against a new lock exactly
    when one did before, or the lock just created does. *)
Lemma created_conflicts (s1 s' : memLS) (now : Time) (d : LockDetails) (x : ptr) :
  Inv s1 -> Inv s' -> created now d x s1 s' ->
  forall (k : string) (zeroDepth : bool),
    conflicts s' k zeroDepth <->
    (conflicts s1 k zeroDepth \/ k = Root d \/
     (zeroDepth = false /\ strict_ancestor k (Root d)) \/
     (ZeroDepth d = false /\ strict_ancestor (Root d) k)).
Proof.
  intros HInv1 HInv' (Hg & Hfresh & Hbt & Hbx & Hmono & (n & Hn & Htn & Hdn & Hhn & _)
                      & _ & _ & Hfwd & Hbwd) k zd.
  pose proof (FormatUint_nonempty (gen s1 + 1)) as Htokne.
  assert (forall n0, store s1 !! x = Some n0 -> token n0 = "") as Hxfree.
  { intros n0 Hn0. destruct (decide (token n0 = "")) as [|Hne]; [done|]. exfalso.
    destruct (nk_token _ _ _ (inv_nodes _ HInv1 _ _ Hn0) Hne) as (Hb & _).
    assert (token n0 <> FormatUint (gen s1 + 1)) as Hne' by (intros E; congruence).
    assert (byToken s' !! token n0 = Some x) as Hb'
      by (rewrite Hbt; by rewrite lookup_insert_ne).
    destruct (Inv_token_node s' _ x HInv' Hb') as (n' & Hn' & Ht' & _).
    rewrite Hn in Hn'. inversion Hn'. subst n'. congruence. }
  unfold conflicts, has_lock. split.
  - intros (n' & (y & Hy & Ht) & Hcase). destruct (decide (y = x)) as [->|Hne].
    + rewrite Hn in Hy. inversion Hy. subst n'. rewrite Hdn in Hcase. right.
      destruct Hcase as [E|[?|?]]; [by left|by right; left|by right; right].
    + destruct (Hbwd y n' Hne Hy Ht) as (ny & Hny & Hlk). left.
      unfold lock_of in Hlk. inversion Hlk as [[Hd Htk He Hh]].
      exists ny. split; [exists y; split; [done|congruence]|]. by rewrite <- Hd.
  - intros [(n0 & (y & Hy & Ht) & Hcase)|Hnew].
    + assert (y <> x) as Hne by (intros ->; by apply Ht, Hxfree).
      destruct (Hfwd y n0 Hne Hy) as (ny' & Hny' & Hlk).
      unfold lock_of in Hlk. inversion Hlk as [[Hd Htk He Hh]].
      exists ny'. split; [exists y; split; [done|congruence]|]. by rewrite Hd.
    + exists n. split; [exists x; split; [done|congruence]|]. rewrite Hdn.
      destruct Hnew as [E|[?|?]]; [by left|by right; left|by right; right].
Qed.

(** C3. [Create] sweeps and normalises the root of the lock. It returns
    [ErrLocked], from the state the sweep left, exactly when a lock of the
    manager stands against the new one: a lock is at the target, or a lock
    lies strictly below the target (so that a node exists at the target)
    and the requested depth is infinite, or a lock of infinite depth lies
    strictly above the target, where a path lies strictly above another
    when it is the root or the other continues it after a slash. Otherwise
    [Create] returns the next token, which is not registered before, and
    registers the lock at the target, with the expiry [now.Add(duration)]
    when the duration is finite, which is [now + duration] within the
    range of [time.Time]. From then on a lock stands against a new one iff
    one did before, or the new one is at the same path, or it has infinite
    depth and lies above the lock just created, or that lock has infinite
    depth and lies above it: two locks of depth zero at a path and a
    strict descendant do not stand against each other. *)
Theorem Create_spec (s : memLS) (now : Time) (d : LockDetails) :
  Inv s -> gen s < 2 ^ 62 ->
  exists s1 : memLS,
    collectExpiredNodes now s = Some (tt, s1) /\
    let name := slashClean (Root d) in
    let tok := FormatUint (gen s + 1) in
    (Create now d s = Some (Err ErrLocked, s1) <-> conflicts s1 name (ZeroDepth d)) /\
    (is_Some (byName s1 !! name) <->
     exists n, has_lock s1 n /\
       (Root (details n) = name \/ strict_ancestor name (Root (details n)))) /\
    byToken s !! tok = None /\
    (~ conflicts s1 name (ZeroDepth d) ->
     exists (s' : memLS) (x : ptr) (n : memLSNode),
       Create now d s = Some (Ok tok, s') /\ Inv s' /\
       byToken s' = <[tok := x]> (byToken s1) /\
       byName s' !! name = Some x /\ store s' !! x = Some n /\
       token n = tok /\
       details n = mkLockDetails name (LDuration d) (OwnerXML d) (ZeroDepth d) /\
       held n = false /\
       (x ∈ byExpiry s' <-> 0 <= LDuration d) /\
       (0 <= LDuration d -> expiry n = Add now (LDuration d)) /\
       (0 <= LDuration d -> time_ok now -> time_ok (now + LDuration d) ->
        expiry n = now + LDuration d) /\
       forall (k : string) (zeroDepth : bool),
         conflicts s' k zeroDepth <->
         (conflicts s1 k zeroDepth \/ k = name \/
          (zeroDepth = false /\ strict_ancestor k name) \/
          (ZeroDepth d = false /\ strict_ancestor name k))).
Proof.
  intros HInv Hgen.
  destruct (Create_ok s now d HInv Hgen) as (s1 & b & Hsweep & HInv1 & Hsw & Hb & Hrun).
  pose proof (swept_gen _ _ _ Hsw) as Hg1.
  pose proof (blocked_conflicts s1 (slashClean (Root d)) (ZeroDepth d) HInv1
                (slashClean_absolute _)) as Hbc.
  exists s1. split; [done|]. cbv zeta. split; [|split; [|split; [by apply next_token_fresh|]]].
  - rewrite <- Hbc. destruct b.
    + destruct Hrun as (s' & x & Hrun & _). rewrite Hrun. split; [done|].
      intros Hbl. apply Hb in Hbl. done.
    + split; [intros _; by apply Hb|done].
  - by apply node_conflicts.
  - rewrite <- Hbc. intros Hfree. destruct b; [|by destruct Hfree; apply Hb].
    destruct Hrun as (s' & x & Hrun & HInv' & Hc).
    pose proof Hc as (Hg & Hfresh & Hbt & Hbx & Hmono & (n & Hn & Htn & Hdn & Hhn & Hen)
                      & Hmem & Hxq & _).
    exists s', x, n. rewrite <- Hg1 in Hrun |- *. cbn [Root LDuration] in *.
    do 8 (split; [done|]). split; [|split; [done|split]].
    + rewrite Hmem. split; [intros [[_ ?]|?]; done|by left].
    + intros Hd Ht Htd. rewrite (Hen Hd). by apply Add_exact.
    + apply (created_conflicts s1 s' now _ x HInv1 HInv' Hc).
Qed.


(** ** Expiry *)

(** One turn of the loop of [collectExpiredNodes]: it stops when the queue
    is empty or its first entry, which has the least expiry, expires after
    [now]; otherwise it removes that entry and goes on. *)
Lemma collectExpiredNodes_step (now : Time) (s : memLS) :
  Inv s -> gen s < 2 ^ 62 ->
  match byExpiry s !! 0%nat with
  | None => collectExpiredNodes now s = Some (tt, s)
  | Some a =>
      (forall y, y ∈ byExpiry s -> expiry_at s a <= expiry_at s y) /\
      if decide (now < expiry_at s a)
      then collectExpiredNodes now s = Some (tt, s)
      else exists s1,
             remove a s = Some (tt, s1) /\ Inv s1 /\ removed a s s1 /\
             collectExpiredNodes now s = collectExpiredNodes now s1
  end.
Proof.
  intros HInv Hgen. unfold collectExpiredNodes. cbn [collectExpiredNodes_loop].
  rewrite (bind_eq _ _ _ _ _ (Len_eq s)).
  destruct (byExpiry s) as [|a rest] eqn:Eb; [done|].
  change ((a :: rest) !! 0%nat) with (Some a).
  assert (byExpiry s !! 0%nat = Some a) as H0 by (by rewrite Eb).
  assert (a ∈ byExpiry s) as Hain by (by eapply list_elem_of_lookup_2).
  split.
  { intros y Hy. apply (queue_head_min s a y); [apply HInv|done|by rewrite Eb]. }
  assert ((0 <? Z.of_nat (length (a :: rest))) = true) as ->
    by (apply Z.ltb_lt; simpl; lia).
  cbn [negb].
  destruct (qw_idx _ (inv_queue _ HInv) _ _ H0) as (na & Hna & _).
  rewrite (bind_eq _ _ _ _ _ (bGet_eq s 0 a H0)).
  rewrite (bind_eq _ _ _ _ _ (load_eq _ _ _ Hna)).
  unfold expiry_at. rewrite Hna.
  destruct (decide (now < expiry na)) as [E|E].
  - by rewrite (proj2 (Z.ltb_lt _ _) E).
  - rewrite (proj2 (Z.ltb_ge _ _)) by lia.
    destruct (proj1 (nk_queued _ _ _ (inv_nodes _ HInv _ _ Hna)) Hain) as (Ht & Hh & _).
    destruct (remove_ok s a na HInv Hgen Hna Ht Hh) as (s1 & Hrem & HInv1 & Hremd).
    exists s1. do 3 (split; [done|]).
    rewrite (bind_eq _ _ _ _ _ Hrem).
    assert (S (length (byExpiry s1)) = length (byExpiry s)) as Hlen.
    { apply (removed_length s s1 a); try done.
      - apply idx_ok_NoDup, HInv.
      - apply idx_ok_NoDup, HInv1.
      - apply Hremd. }
    rewrite Eb in Hlen. cbn [length] in *. injection Hlen as Hlen. by rewrite Hlen.
Qed.

(** A lock that has not expired at [now] survives the sweep. *)
Lemma swept_alive (now : Time) (s s1 : memLS) (x : ptr) (n : memLSNode) :
  Inv s1 -> swept now s s1 -> store s !! x = Some n -> token n <> "" ->
  byToken s !! token n = Some x ->
  (x ∈ byExpiry s -> now < expiry n) ->
  exists n1, store s1 !! x = Some n1 /\ lock_of n1 = lock_of n /\
             byToken s1 !! token n = Some x /\
             byName s1 !! Root (details n) = Some x.
Proof.
  intros HInv1 (_ & _ & _ & Hbt & Hst & _) Hn Ht Hb Hlive.
  assert (~ expired now s x) as Hne.
  { intros [Hin He]. unfold expiry_at in He. rewrite Hn in He.
    specialize (Hlive Hin). lia. }
  destruct (Hst x n Hn) as (n1 & Hn1 & Hd & He & Hh & Ht1).
  rewrite decide_False in Ht1 by done.
  exists n1. split; [done|]. split; [unfold lock_of; congruence|].
  split; [by apply Hbt|].
  destruct (nk_token _ _ _ (inv_nodes _ HInv1 _ _ Hn1) ltac:(congruence)) as (_ & Hnm & _).
  by rewrite Hd in Hnm.
Qed.

(** A lock in the queue whose expiry is at or before [now] is gone after
    the sweep. *)
Lemma swept_dead (now : Time) (s s1 : memLS) (x : ptr) (n : memLSNode) :
  Inv s -> swept now s s1 -> store s !! x = Some n ->
  x ∈ byExpiry s -> expiry n <= now ->
  (exists n1, store s1 !! x = Some n1 /\ token n1 = "") /\
  byToken s1 !! token n = None.
Proof.
  intros HInv (_ & _ & _ & Hbt & Hst & _) Hn Hin He.
  assert (expired now s x) as Hex.
  { split; [done|]. unfold expiry_at. by rewrite Hn. }
  split.
  - destruct (Hst x n Hn) as (n1 & Hn1 & _ & _ & _ & Ht1).
    rewrite decide_True in Ht1 by done. eauto.
  - destruct (byToken s1 !! token n) as [a|] eqn:E; [|done].
    apply Hbt in E as [E Hne].
    destruct (proj1 (nk_queued _ _ _ (inv_nodes _ HInv _ _ Hn)) Hin) as (Ht & _).
    destruct (nk_token _ _ _ (inv_nodes _ HInv _ _ Hn) Ht) as (Hb & _).
    rewrite Hb in E. inversion E. by subst a.
Qed.

(** [GetByName] on a name that carries a lock. *)
Lemma GetByName_found (s s1 : memLS) (wall : Time) (name : string)
    (x : ptr) (n : memLSNode) :
  collectExpiredNodes wall s = Some (tt, s1) ->
  byName s1 !! slashClean name = Some x -> store s1 !! x = Some n ->
  token n <> "" ->
  GetByName wall name s = Some (Ok (token n, expiry n, details n), s1).
Proof.
  intros Hsweep Hx Hn Ht. unfold GetByName. rewrite (bind_eq _ _ _ _ _ Hsweep).
  cbv zeta. cbn [GetByName_loop].
  rewrite (bind_eq _ _ _ _ _ (gets_eq _ s1)). cbv beta. rewrite Hx.
  rewrite (bind_eq _ _ s1 s1 (Some n)).
  - reflexivity.
  - rewrite (bind_eq _ _ _ _ _ (load_eq _ _ _ Hn)).
    by rewrite (proj2 (streq_false _ _) Ht).
Qed.

(** A lock that [GetByName] reports is the lock of a registered node. *)
Lemma GetByName_loop_node (fuel : nat) :
  forall (name : string) (s s' : memLS) (t : string) (e : Time) (dd : LockDetails),
    GetByName_loop fuel name s = Some (Ok (t, e, dd), s') ->
    s' = s /\
    exists k a n, byName s !! k = Some a /\ store s !! a = Some n /\
                  token n = t /\ t <> "".
Proof.
  induction fuel as [|fuel IH]; intros name s s' t e dd H; [done|].
  cbn [GetByName_loop] in H.
  rewrite (bind_eq _ _ _ _ _ (gets_eq _ s)) in H. cbv beta in H.
  destruct (byName s !! name) as [a|] eqn:Ea.
  - destruct (store s !! a) as [na|] eqn:Ena.
    + rewrite (bind_eq _ _ s s (if negb (streq (token na) "") then Some na else None))
        in H by (by rewrite (bind_eq _ _ _ _ _ (load_eq _ _ _ Ena))).
      destruct (streq (token na) "") eqn:Et; cbn [negb] in H.
      * destruct (streq name "/"); [by inversion H|]. by apply IH in H.
      * apply streq_false in Et. inversion H. subst. split; [done|].
        exists name, a, na. done.
    + rewrite bind_None in H; [done|].
      apply bind_None. unfold load. by rewrite Ena.
  - rewrite (bind_eq _ _ s s None) in H by reflexivity.
    destruct (streq name "/"); [by inversion H|]. by apply IH in H.
Qed.

Lemma blocked_depth (s : memLS) (name : string) (zeroDepth : bool) :
  blocked s name true -> blocked s name zeroDepth.
Proof.
  intros [H|[[_ H]|H]]; [by left|done|by right; right].
Qed.

(** After the sweep that removes the lock of node [x], what is blocked was
    blocked before that lock was created. *)
Lemma blocked_after_expiry (s1 s' s2 : memLS) (now t : Time) (d : LockDetails)
    (x : ptr) (zeroDepth : bool) :
  Inv s1 -> Inv s' -> Inv s2 ->
  created now d x s1 s' -> swept t s' s2 -> expired t s' x ->
  blocked s2 (Root d) zeroDepth -> blocked s1 (Root d) zeroDepth.
Proof.
  intros HInv1 HInv' HInv2 Hc Hsw Hex Hbl.
  pose proof Hc as (_ & _ & _ & Hbx & _ & _ & _ & _ & _ & Hbwd).
  pose proof Hsw as (_ & Hlen & _ & _ & Hst & Hnames).
  (* a lock of [s2] is a lock of [s1] *)
  assert (forall a n2, store s2 !! a = Some n2 -> token n2 <> "" ->
            a <> x /\
            exists n0, store s1 !! a = Some n0 /\ details n0 = details n2 /\
                       token n0 <> "") as Hold.
  { intros a n2 Hn2 Ht2.
    assert (is_Some (store s' !! a)) as (n' & Hn').
    { apply lookup_lt_is_Some. rewrite <- Hlen. by apply lookup_lt_Some with n2. }
    destruct (Hst a n' Hn') as (n2' & Hn2' & Hd & _ & _ & Htk).
    rewrite Hn2 in Hn2'. inversion Hn2'. subst n2'.
    destruct (decide (expired t s' a)) as [|Hne]; [done|].
    assert (a <> x) as Hax by (by intros ->).
    split; [done|].
    destruct (Hbwd a n' Hax Hn' ltac:(congruence)) as (n0 & Hn0 & Hlk).
    assert (details n' = details n0 /\ token n' = token n0) as [Hd0 Ht0]
      by (unfold lock_of in Hlk; by inversion Hlk).
    exists n0. split; [done|]. split; congruence. }
  destruct Hbl as [(n2 & Hnode & Ht2)|[[(a & Ha) Hzd]|(j & n2 & Hj & Hnode & Ht2 & Hz)]].
  - apply node_at_Some in Hnode as (a & Ha & Hn2).
    destruct (Hold a n2 Hn2 Ht2) as (Hax & _).
    apply Hnames in Ha. congruence.
  - right; left. split; [|done].
    pose proof (inv_tree _ HInv2 (Root d)) as Ht. rewrite Ha in Ht.
    destruct Ht as (_ & _ & _ & _ & Hpos).
    destruct (below_pos_inv s2 _ Hpos) as (y & ny & Hy & [Hty Hcov]).
    destruct (Hold y ny Hy Hty) as (_ & n0 & Hn0 & Hd0 & Ht0).
    assert (covers (Root d) n0) as Hc0 by (split; [done|by rewrite Hd0]).
    pose proof (below_pos s1 y n0 _ Hn0 Hc0) as Hpos1.
    pose proof (inv_tree _ HInv1 (Root d)) as Ht1.
    destruct (byName s1 !! Root d); [eauto|lia].
  - right; right. apply node_at_Some in Hnode as (a & Ha & Hn2).
    destruct (Hold a n2 Hn2 Ht2) as (_ & n0 & Hn0 & Hd0 & Ht0).
    destruct (nk_token _ _ _ (inv_nodes _ HInv1 _ _ Hn0) Ht0) as (_ & Hnm & _).
    rewrite Hd0, (node_at_root s2 j a n2 HInv2 Ha Hn2) in Hnm.
    exists j, n0. split; [done|]. split; [apply node_at_Some; eauto|].
    split; [done|congruence].
Qed.

(** A new manager satisfies the invariants. *)
Lemma Inv_NewMemLS (unix : Z) : Inv (NewMemLS unix).
Proof.
  split.
  - split.
    + intros i a H. cbn in H. by rewrite lookup_nil in H.
    + intros j x y _ H. cbn in H. by rewrite lookup_nil in H.
    + intros a n H. cbn in H. by rewrite lookup_nil in H.
  - intros a n H. cbn in H. by rewrite lookup_nil in H.
  - intros k. cbn. by rewrite lookup_empty.
  - split; [cbn; unfold wrap_uint64; apply Z.mod_pos_bound; lia|]. split.
    + cbn. rewrite map_size_empty. unfold wrap_uint64.
      pose proof (Z.mod_pos_bound unix (2 ^ 64)). lia.
    + intros t a H. cbn in H. by rewrite lookup_empty in H.
  - intros a b na nb H. cbn in H. by rewrite lookup_nil in H.
Qed.

(** A successful [Create] keeps the invariants. *)
Lemma Create_keeps_Inv (s s' : memLS) (now : Time) (d : LockDetails) (tok : string) :
  Inv s -> gen s < 2 ^ 62 -> Create now d s = Some (Ok tok, s') ->
  Inv s' /\ gen s' = gen s + 1.
Proof.
  intros HInv Hgen HC.
  destruct (Create_ok s now d HInv Hgen) as (s1 & b & _ & _ & Hsw & _ & Hrun).
  destruct b; [|by rewrite Hrun in HC].
  destruct Hrun as (s'0 & x & Hrun & HInv' & Hg & _). rewrite Hrun in HC.
  inversion HC. subst. split; [done|]. by rewrite Hg, (swept_gen _ _ _ Hsw).
Qed.

(** The state after a first [Create] on a new manager satisfies the
    hypotheses of the theorems. *)
Lemma first_lock_Inv (unix : Z) (now : Time) (d : LockDetails) (tok : string)
    (s : memLS) :
  0 <= unix < 2 ^ 62 - 1 ->
  Create now d (NewMemLS unix) = Some (Ok tok, s) ->
  Inv s /\ gen s < 2 ^ 62.
Proof.
  intros Hu HC.
  assert (gen (NewMemLS unix) = unix) as Hg.
  { cbn. unfold wrap_uint64. apply Z.mod_small. lia. }
  destruct (Create_keeps_Inv (NewMemLS unix) s now d tok (Inv_NewMemLS unix)
              ltac:(lia) HC) as [HInv Hg'].
  split; [done|lia].
Qed.

Lemma sweeps_first_intro {A} (now : Time) (body : M A) :
  sweeps_first now (collectExpiredNodes now ;;; body).
Proof. by exists body. Qed.

(** C5. Every operation of the manager starts with the expiry sweep. The
    sweep returns; each turn of its loop inspects the first entry of the
    queue, whose expiry is the least, stops when the queue is empty or that
    expiry is after [now], and otherwise removes the lock of that entry;
    after the sweep exactly the locks that were in the queue with an expiry
    at or before [now] are gone, from the queue, the tokens and the
    refcount chain. So a lock created at [now] with a finite duration is
    registered after the sweep of any operation before its expiry, and
    [GetByName] reports it; after the sweep of any operation at or after
    its expiry its token is not registered, the node at its root carries no
    token, [Refresh] and [Unlock] return [ErrNoSuchLock], [GetByName]
    returns and does not report it, and [Create] at the same path
    succeeds. The expiry is [now.Add(duration)], which is [now + duration]
    within the range of [time.Time]. *)
Theorem expiry_spec (s s' : memLS) (now : Time) (d : LockDetails) (tok : string) :
  Inv s -> gen s + 1 < 2 ^ 62 -> 0 <= LDuration d ->
  Create now d s = Some (Ok tok, s') ->
  let name := slashClean (Root d) in
  let d' := mkLockDetails name (LDuration d) (OwnerXML d) (ZeroDepth d) in
  let E := Add now (LDuration d) in
  ((forall t n0 n1 c, sweeps_first t (Confirm t n0 n1 c)) /\
   (forall t d0, sweeps_first t (Create t d0)) /\
   (forall t k du, sweeps_first t (Refresh t k du)) /\
   (forall t k, sweeps_first t (Unlock t k)) /\
   (forall t k, sweeps_first t (Delete t k)) /\
   (forall wall k, sweeps_first wall (GetByName wall k))) /\
  (forall (s0 : memLS) (t : Time),
     Inv s0 -> gen s0 < 2 ^ 62 ->
     (exists s1, collectExpiredNodes t s0 = Some (tt, s1) /\ Inv s1 /\ swept t s0 s1) /\
     match byExpiry s0 !! 0%nat with
     | None => collectExpiredNodes t s0 = Some (tt, s0)
     | Some a =>
         (forall y, y ∈ byExpiry s0 -> expiry_at s0 a <= expiry_at s0 y) /\
         if decide (t < expiry_at s0 a)
         then collectExpiredNodes t s0 = Some (tt, s0)
         else exists s1,
                remove a s0 = Some (tt, s1) /\ Inv s1 /\ removed a s0 s1 /\
                collectExpiredNodes t s0 = collectExpiredNodes t s1
     end) /\
  Inv s' /\
  (forall t, t < E ->
     exists (s2 : memLS) (x : ptr) (n : memLSNode),
       collectExpiredNodes t s' = Some (tt, s2) /\
       byToken s2 !! tok = Some x /\ byName s2 !! name = Some x /\
       store s2 !! x = Some n /\ token n = tok /\ details n = d' /\ expiry n = E /\
       forall name', slashClean name' = name ->
         GetByName t name' s' = Some (Ok (tok, E, d'), s2)) /\
  (forall t, E <= t ->
     exists s2 : memLS,
       collectExpiredNodes t s' = Some (tt, s2) /\
       byToken s2 !! tok = None /\
       (forall n, node_at s2 name = Some n -> token n = "") /\
       (forall du, Refresh t tok du s' = Some (Err ErrNoSuchLock, s2)) /\
       Unlock t tok s' = Some (Err ErrNoSuchLock, s2) /\
       (forall name', exists r,
          GetByName t name' s' = Some (r, s2) /\
          forall e dd, r <> Ok (tok, e, dd)) /\
       (forall d2, slashClean (Root d2) = name ->
                   (ZeroDepth d = true -> ZeroDepth d2 = true) ->
                   exists s3, Create t d2 s' = Some (Ok (FormatUint (gen s' + 1)), s3))) /\
  (time_ok now -> time_ok (now + LDuration d) -> E = now + LDuration d).
Proof.
  intros HInv Hgen HD HC. cbv zeta.
  destruct (Create_ok s now d HInv ltac:(lia)) as (s1 & b & Hsweep & HInv1 & Hsw & Hb & Hrun).
  destruct b; [|by rewrite Hrun in HC].
  destruct Hrun as (s'0 & x & Hrun & HInv' & Hc). rewrite Hrun in HC. inversion HC.
  subst tok s'0. clear HC.
  assert (~ blocked s1 (slashClean (Root d)) (ZeroDepth d)) as Hfree.
  { intros Hbl. apply Hb in Hbl. done. }
  pose proof (swept_gen _ _ _ Hsw) as Hg1.
  pose proof Hc as (Hg & Hfresh & Hbt & Hbx & Hmono & (n & Hn & Htn & Hdn & Hhn & Hen)
                    & Hmem & Hxq & Hfwd & Hbwd).
  cbn [Root LDuration] in *. rewrite Hg1 in *.
  specialize (Hen HD).
  assert (gen s' < 2 ^ 62) as Hgen' by lia.
  assert (x ∈ byExpiry s') as Hxin by (apply Hmem; by left).
  assert (byToken s' !! FormatUint (gen s + 1) = Some x) as Hbtx
    by (rewrite Hbt; apply lookup_insert_eq).
  pose proof (FormatUint_nonempty (gen s + 1)) as Htokne.
  split; [|split; [|split; [done|split; [|split]]]];
    [| | | |intros Hnow Hend; by apply Add_exact].
  - repeat split; intros; apply sweeps_first_intro.
  - intros s0 t HInv0 Hgen0. split; [by apply collectExpiredNodes_ok|].
    by apply collectExpiredNodes_step.
  - intros t Ht.
    destruct (collectExpiredNodes_ok t s' HInv' Hgen') as (s2 & Hsweep2 & HInv2 & Hsw2).
    destruct (swept_alive t s' s2 x n HInv2 Hsw2 Hn ltac:(congruence)
                ltac:(congruence) ltac:(intros _; lia))
      as (n2 & Hn2 & Hlk & Hb2 & Hnm2).
    assert (details n2 = details n /\ token n2 = token n /\ expiry n2 = expiry n)
      as (Hd2 & Ht2 & He2) by (unfold lock_of in Hlk; by inversion Hlk).
    rewrite Htn in Hb2. rewrite Hdn in Hnm2. cbn [Root] in Hnm2.
    exists s2, x, n2. do 3 (split; [done|]). split; [done|].
    split; [congruence|]. split; [congruence|]. split; [congruence|].
    intros name' Hname'.
    rewrite <- Hname' in Hnm2.
    rewrite (GetByName_found s' s2 t name' x n2 Hsweep2 Hnm2 Hn2 ltac:(congruence)).
    rewrite Hd2, Ht2, He2, Hdn, Htn, Hen. reflexivity.
  - intros t Ht.
    destruct (collectExpiredNodes_ok t s' HInv' Hgen') as (s2 & Hsweep2 & HInv2 & Hsw2).
    destruct (swept_dead t s' s2 x n HInv' Hsw2 Hn Hxin ltac:(lia))
      as ((n2 & Hn2 & Ht2) & Hnone).
    rewrite Htn in Hnone.
    exists s2. do 2 (split; [done|]). split; [|split; [|split; [|split]]].
    + intros m Hm. apply node_at_Some in Hm as (a & Ha & Hm).
      destruct Hsw2 as (_ & _ & _ & _ & _ & Hnames). apply Hnames in Ha.
      rewrite Hbx in Ha. inversion Ha. subst a. congruence.
    + intros du. by apply Refresh_unknown.
    + by apply Unlock_unknown.
    + intros name'.
      assert (exists r, GetByName t name' s' = Some (r, s2)) as [r HG].
      { eexists. unfold GetByName. rewrite (bind_eq _ _ _ _ _ Hsweep2). cbv zeta.
        apply GetByName_loop_nearest; [done|apply slashClean_cleaned|lia]. }
      exists r. split; [done|]. intros e dd ->. unfold GetByName in HG.
      rewrite (bind_eq _ _ _ _ _ Hsweep2) in HG. cbv zeta in HG.
      apply GetByName_loop_node in HG as (_ & k & a & m & Hk & Hm & Htm & _).
      destruct (nk_token _ _ _ (inv_nodes _ HInv2 _ _ Hm) ltac:(congruence)) as (Hbm & _).
      congruence.
    + intros d2 Hname2 Hdepth.
      destruct (Create_ok s' t d2 HInv' Hgen')
        as (s2' & b' & Hsweep2' & _ & _ & Hb' & Hrun').
      rewrite Hsweep2 in Hsweep2'. inversion Hsweep2'. subst s2'.
      destruct b'.
      * destruct Hrun' as (s3 & _ & Hrun' & _). eauto.
      * exfalso. apply Hfree. rewrite Hname2 in Hb'.
        assert (blocked s2 (slashClean (Root d)) (ZeroDepth d2)) as Hbl by (by apply Hb').
        assert (expired t s' x) as Hex.
        { split; [done|]. unfold expiry_at. rewrite Hn. lia. }
        pose proof (blocked_after_expiry s1 s' s2 now t _ x (ZeroDepth d2)
                      HInv1 HInv' HInv2 Hc Hsw2 Hex Hbl) as Hbl1.
        cbn [Root] in Hbl1.
        destruct (ZeroDepth d2) eqn:E2; [by apply blocked_depth|].
        destruct (ZeroDepth d) eqn:E1; [by specialize (Hdepth eq_refl)|done].
Qed.


(** ** The invariants and the operations *)

Lemma readonly_GetByName_loop (fuel : nat) :
  forall name, readonly (GetByName_loop fuel name).
Proof.
  induction fuel as [|fuel IH]; intros name; [apply readonly_panic|].
  cbn [GetByName_loop]. apply readonly_bind; [apply readonly_gets|].
  intros n. apply readonly_bind.
  - destruct n as [a|]; [|apply readonly_ret].
    apply readonly_bind; [apply readonly_load|]. intros na. apply readonly_ret.
  - intros [na|]; [apply readonly_ret|].
    destruct (streq name "/"); [apply readonly_ret|apply IH].
Qed.

(** Every operation but [Delete] keeps the invariants, the release closure
    when the nodes of its claim are held. *)
Lemma Inv_exec (wall : Time) (o : Op) (s s' : memLS) (r : Reply) :
  Inv s -> gen s < 2 ^ 62 ->
  match o with
  | OpDelete _ _ => False
  | OpRelease c =>
      NoDup (claim_nodes c) /\
      forall x, x ∈ claim_nodes c -> exists n, store s !! x = Some n /\ held n = true
  | _ => True
  end ->
  exec wall o s = Some (r, s') -> Inv s'.
Proof.
  intros HInv Hgen Hop H.
  destruct o as [now n0 n1 conds|c|now d|now tok du|now tok|now name|name];
    try done; cbn [exec] in H; apply bind_Some in H as (x & s1 & H & Hret);
    inversion Hret; subst; clear Hret.
  2: { destruct Hop as [Hnd Hheld].
       destruct (release_ok s c HInv Hnd Hheld) as (s2 & Hrun & HInv2 & _).
       rewrite Hrun in H. inversion H. by subst. }
  - destruct (Confirm_result s now n0 n1 conds HInv Hgen)
      as (sw & r0 & r1 & _ & HInvw & _ & _ & _ & Hfail & Hsucc).
    cbv zeta in *.
    destruct (decide ((n0 <> "" /\ r0 = None) \/ (n1 <> "" /\ r1 = None))) as [Hf|Hf].
    + rewrite (Hfail Hf) in H. inversion H. by subst.
    + destruct (Hsucc Hf) as (s2 & HC & HInv2 & _). rewrite HC in H. inversion H. by subst.
  - destruct (Create_ok s now d HInv Hgen) as (sw & b & _ & HInvw & _ & _ & Hrun).
    destruct b.
    + destruct Hrun as (s2 & y & Hrun & HInv2 & _). rewrite Hrun in H. inversion H. by subst.
    + rewrite Hrun in H. inversion H. by subst.
  - destruct (collectExpiredNodes_ok now s HInv Hgen) as (sw & Hsweep & HInvw & Hsw).
    assert (gen sw < 2 ^ 62) as Hgw by (rewrite (swept_gen _ _ _ Hsw); done).
    destruct (byToken sw !! tok) as [y|] eqn:Hy.
    + destruct (Inv_token_node sw tok y HInvw Hy) as (n & Hn & _).
      destruct (held n) eqn:Hh.
      * rewrite (Refresh_held s sw now tok du y n Hsweep Hy Hn Hh) in H.
        inversion H. by subst.
      * destruct (Refresh_live s sw now tok du y n Hsweep HInvw Hgw Hy Hn Hh)
          as (s2 & n' & Hrun & HInv2 & _).
        rewrite Hrun in H. inversion H. by subst.
    + rewrite (Refresh_unknown s sw now tok du Hsweep Hy) in H. inversion H. by subst.
  - destruct (collectExpiredNodes_ok now s HInv Hgen) as (sw & Hsweep & HInvw & Hsw).
    assert (gen sw < 2 ^ 62) as Hgw by (rewrite (swept_gen _ _ _ Hsw); done).
    destruct (byToken sw !! tok) as [y|] eqn:Hy.
    + destruct (Inv_token_node sw tok y HInvw Hy) as (n & Hn & _).
      destruct (held n) eqn:Hh.
      * rewrite (Unlock_held s sw now tok y n Hsweep Hy Hn Hh) in H.
        inversion H. by subst.
      * destruct (Unlock_live s sw now tok y n Hsweep HInvw Hgw Hy Hn Hh)
          as (s2 & Hrun & HInv2 & _).
        rewrite Hrun in H. inversion H. by subst.
    + rewrite (Unlock_unknown s sw now tok Hsweep Hy) in H. inversion H. by subst.
  - destruct (collectExpiredNodes_ok wall s HInv Hgen) as (sw & Hsweep & HInvw & _).
    unfold GetByName in H. rewrite (bind_eq _ _ _ _ _ Hsweep) in H. cbv zeta in H.
    apply readonly_GetByName_loop in H. by subst.
Qed.

(** ** Delete on a node that only anchors the locks below it *)

(** C1. After [Create] of a zero-depth lock at [/a/b] on a new manager the
    invariants hold. [Delete] of [/a], a node that carries no token, then
    returns without an error; the lock at [/a/b] is still registered, but
    the nodes [/a] and [/] have left the name index although one lock lies
    below them, so the tree invariant fails; a lock of infinite depth can
    then be created at [/a], above the lock at [/a/b], and hierarchical
    exclusivity fails. *)
Theorem Delete_anchor_breaks_invariants :
  exists (tok : string) (s1 s2 : memLS),
    Create 0 (mkLockDetails "/a/b" (-1) "" true) (NewMemLS 100)
      = Some (Ok tok, s1) /\
    Inv s1 /\
    (exists n, node_at s1 "/a" = Some n /\ token n = "" /\ refCount n = 1) /\
    Delete 0 "/a" s1 = Some (Ok tt, s2) /\
    byToken s2 !! tok = Some 0%nat /\
    byName s2 !! "/a/b" = Some 0%nat /\
    byName s2 !! "/a" = None /\ below s2 "/a" = 1 /\
    byName s2 !! "/" = None /\ below s2 "/" = 1 /\
    ~ tree_ok s2 /\
    exists (tok' : string) (s3 : memLS),
      Create 0 (mkLockDetails "/a" (-1) "" false) s2 = Some (Ok tok', s3) /\
      ~ excl_ok s3.
Proof.
  eexists _, _, _.
  split; [vm_compute; reflexivity|].
  split.
  { apply (first_lock_Inv 100 0 (mkLockDetails "/a/b" (-1) "" true) "101");
      [lia|vm_compute; reflexivity]. }
  split; [eexists; by vm_compute|].
  split; [vm_compute; reflexivity|].
  split; [by vm_compute|]. split; [by vm_compute|].
  split; [by vm_compute|]. split; [by vm_compute|].
  split; [by vm_compute|]. split; [by vm_compute|].
  split.
  - intros H. specialize (H "/"). vm_compute in H. discriminate H.
  - eexists _, _. split; [vm_compute; reflexivity|].
    intros H.
    refine (H 3%nat 0%nat _ _ _ _ _ _ _ _); [by vm_compute|by vm_compute|..]; vm_compute; try done.
    apply list_elem_of_here.
Qed.


(** * The calls of a client *)

(** ** Held nodes *)

(** A held node carries a registered token. *)
Lemma held_token (s : memLS) (y : ptr) :
  Inv s -> node_held s y ->
  exists n, store s !! y = Some n /\ held n = true /\ token n <> "" /\
            byToken s !! token n = Some y.
Proof.
  intros HInv (n & Hn & Hh). pose proof (inv_nodes _ HInv _ _ Hn) as Hok.
  assert (token n <> "") as Ht.
  { intros E. pose proof (nk_anchor _ _ _ Hok E). congruence. }
  destruct (nk_token _ _ _ Hok Ht) as (Hbt & _). eauto.
Qed.

(** A step that registers no token and keeps the [held] flags keeps the
    held nodes. *)
Lemma held_same (s s' : memLS) :
  Inv s -> Inv s' ->
  (forall t a, byToken s' !! t = Some a -> byToken s !! t = Some a) ->
  (forall y n, store s !! y = Some n ->
     exists n', store s' !! y = Some n' /\ held n' = held n) ->
  forall y, node_held s' y <-> node_held s y.
Proof.
  intros HInv HInv' Hsub Hst y. split.
  - intros Hy. destruct (held_token s' y HInv' Hy) as (n' & Hn' & Hh & _ & Hbt).
    apply Hsub in Hbt. destruct (Inv_token_node s _ y HInv Hbt) as (n & Hn & _).
    destruct (Hst y n Hn) as (n'' & Hn'' & Hh''). rewrite Hn' in Hn''.
    inversion Hn''. subst n''. exists n. split; [done|congruence].
  - intros (n & Hn & Hh). destruct (Hst y n Hn) as (n' & Hn' & Hh').
    exists n'. split; [done|congruence].
Qed.

Lemma swept_held_same (now : Time) (s s1 : memLS) :
  Inv s -> Inv s1 -> swept now s s1 ->
  forall y, node_held s1 y <-> node_held s y.
Proof.
  intros HInv HInv1 (_ & _ & _ & Hbt & Hst & _). apply held_same; [done|done| |].
  - intros t a Ha. by apply Hbt in Ha as [? _].
  - intros y n Hn. destruct (Hst y n Hn) as (n' & Hn' & _ & _ & Hh & _). eauto.
Qed.

(** The node that [Create] uses carried no lock before. *)
Lemma created_node_free (s1 s' : memLS) (now : Time) (d : LockDetails) (x : ptr)
    (n0 : memLSNode) :
  Inv s1 -> Inv s' -> created now d x s1 s' ->
  store s1 !! x = Some n0 -> token n0 = "".
Proof.
  intros HInv1 HInv' (_ & Hfresh & Hbt & _ & _ & (n & Hn & Htn & _) & _) Hn0.
  destruct (decide (token n0 = "")) as [|Hne]; [done|]. exfalso.
  destruct (nk_token _ _ _ (inv_nodes _ HInv1 _ _ Hn0) Hne) as (Hb & _).
  assert (token n0 <> FormatUint (gen s1 + 1)) as Hne' by (intros E; congruence).
  assert (byToken s' !! token n0 = Some x) as Hb'
    by (rewrite Hbt; by rewrite lookup_insert_ne).
  destruct (Inv_token_node s' _ x HInv' Hb') as (n' & Hn' & Ht' & _).
  rewrite Hn in Hn'. inversion Hn'. subst n'. congruence.
Qed.

(** ** One call *)

(** Every call but [Delete] returns, keeps the invariants and advances the
    token counter by at most one; the release closure does when the nodes
    of its claim are held. The held nodes change only by the claim of a
    successful [Confirm], whose nodes were not held, and by the claim of
    the release closure. *)
Lemma exec_step (wall : Time) (o : Op) (s : memLS) :
  Inv s -> gen s < 2 ^ 62 ->
  match o with
  | OpDelete _ _ => False
  | OpRelease c =>
      NoDup (claim_nodes c) /\ forall x, x ∈ claim_nodes c -> node_held s x
  | _ => True
  end ->
  exists (r : Reply) (s' : memLS),
    exec wall o s = Some (r, s') /\ Inv s' /\ gen s <= gen s' <= gen s + 1 /\
    match o, r with
    | OpConfirm _ _ _ _, RConfirm (Ok c) =>
        NoDup (claim_nodes c) /\
        (forall y, y ∈ claim_nodes c -> ~ node_held s y) /\
        forall y, node_held s' y <-> node_held s y \/ y ∈ claim_nodes c
    | OpRelease c, _ =>
        forall y, node_held s' y <-> node_held s y /\ y ∉ claim_nodes c
    | _, _ => forall y, node_held s' y <-> node_held s y
    end.
Proof.
  intros HInv Hgen Hop.
  destruct o as [now n0 n1 conds|c|now d|now tok du|now tok|now name|name];
    try done; cbn [exec].
  - (* Confirm *)
    destruct (Confirm_result s now n0 n1 conds HInv Hgen)
      as (sw & r0 & r1 & _ & HInvw & Hsw & _ & _ & Hfail & Hsucc).
    pose proof (swept_gen _ _ _ Hsw) as Hgw.
    pose proof (swept_held_same now s sw HInv HInvw Hsw) as Hheld. cbv zeta in *.
    destruct (decide ((n0 <> "" /\ r0 = None) \/ (n1 <> "" /\ r1 = None))) as [Hf|Hf].
    + eexists _, sw. rewrite (bind_eq _ _ _ _ _ (Hfail Hf)).
      split; [reflexivity|]. split; [done|]. split; [lia|]. exact Hheld.
    + destruct (Hsucc Hf) as (s2 & HC & HInv2 & Hg2 & _ & _ & Hlen & Hnd & Hin & Hout).
      eexists _, s2. rewrite (bind_eq _ _ _ _ _ HC).
      split; [reflexivity|]. split; [done|]. split; [lia|].
      split; [done|]. split.
      * intros y Hy Hhy. apply Hheld in Hhy as (n & Hn & Hh).
        destruct (Hin y Hy) as (n' & _ & Hn' & Hh' & _). rewrite Hn in Hn'.
        inversion Hn'. subst n'. congruence.
      * intros y. split.
        -- intros (n2 & Hn2 & Hh2).
           match goal with
           | |- _ \/ y ∈ ?l => destruct (decide (y ∈ l)) as [Hy|Hy]; [by right|left]
           end.
           apply Hheld.
           assert (is_Some (store sw !! y)) as [n Hn].
           { apply lookup_lt_is_Some. rewrite <- Hlen. by eapply lookup_lt_Some. }
           destruct (Hout y n Hy Hn) as ((n' & Hn' & Hlk) & _).
           rewrite Hn2 in Hn'. inversion Hn'. subst n'.
           unfold lock_of in Hlk. exists n. split; [done|]. by inversion Hlk.
        -- intros [Hy|Hy].
           ++ apply Hheld in Hy as (n & Hn & Hh).
              match goal with
              | _ : NoDup ?l |- _ => destruct (decide (y ∈ l)) as [Hyc|Hyc]
              end.
              ** destruct (Hin y Hyc) as (n' & _ & Hn' & Hh' & _). rewrite Hn in Hn'.
                 inversion Hn'. subst n'. congruence.
              ** destruct (Hout y n Hyc Hn) as ((n' & Hn' & Hlk) & _).
                 unfold lock_of in Hlk. exists n'. split; [done|].
                 inversion Hlk. congruence.
           ++ destruct (Hin y Hy) as (n & n' & _ & _ & _ & Hhl & _).
              destruct Hhl as (nx & Hnx & Hhx & _). by exists nx.
  - (* the release closure *)
    destruct Hop as [Hnd Hheld].
    destruct (release_ok s c HInv Hnd Hheld)
      as (s2 & Hrun & HInv2 & Hbt & _ & Hg2 & Hin & Hout).
    eexists _, s2. rewrite (bind_eq _ _ _ _ _ Hrun).
    split; [reflexivity|]. split; [done|]. split; [lia|].
    intros y. split.
    + intros Hy. destruct (held_token s2 y HInv2 Hy) as (n2 & Hn2 & Hh2 & _ & Hb2).
      rewrite Hbt in Hb2. destruct (Inv_token_node s _ y HInv Hb2) as (n & Hn & _).
      destruct (decide (y ∈ claim_nodes c)) as [Hyc|Hyc].
      * destruct (Hin y n Hyc Hn) as (n' & Hn' & Hlk & _). rewrite Hn2 in Hn'.
        inversion Hn'. subst n'. unfold lock_of in Hlk. inversion Hlk. congruence.
      * destruct (Hout y n Hyc Hn) as ((n' & Hn' & Hlk) & _). rewrite Hn2 in Hn'.
        inversion Hn'. subst n'. unfold lock_of in Hlk. split; [|done].
        exists n. split; [done|]. inversion Hlk. congruence.
    + intros [(n & Hn & Hh) Hyc].
      destruct (Hout y n Hyc Hn) as ((n' & Hn' & Hlk) & _).
      unfold lock_of in Hlk. exists n'. split; [done|]. inversion Hlk. congruence.
  - (* Create *)
    destruct (Create_ok s now d HInv Hgen) as (sw & b & _ & HInvw & Hsw & _ & Hrun).
    pose proof (swept_gen _ _ _ Hsw) as Hgw.
    pose proof (swept_held_same now s sw HInv HInvw Hsw) as Hheld.
    destruct b.
    + destruct Hrun as (s2 & x & Hrun & HInv2 & Hcr).
      pose proof Hcr as (Hg2 & _ & _ & _ & _ & (nx & Hnx & _ & _ & Hhx & _) & _ & _
                         & Hold & Hnew).
      eexists _, s2. rewrite (bind_eq _ _ _ _ _ Hrun).
      split; [reflexivity|]. split; [done|]. split; [lia|].
      intros y. rewrite <- Hheld. split.
      * intros Hy. destruct (held_token s2 y HInv2 Hy) as (n2 & Hn2 & Hh2 & Ht2 & _).
        assert (y <> x) as Hne by (intros ->; congruence).
        destruct (Hnew y n2 Hne Hn2 Ht2) as (n & Hn & Hlk).
        unfold lock_of in Hlk. exists n. split; [done|]. inversion Hlk. congruence.
      * intros (n & Hn & Hh).
        assert (y <> x) as Hne.
        { intros ->. pose proof (created_node_free sw s2 now _ x n HInvw HInv2 Hcr Hn) as Ht.
          pose proof (nk_anchor _ _ _ (inv_nodes _ HInvw _ _ Hn) Ht). congruence. }
        destruct (Hold y n Hne Hn) as (n' & Hn' & Hlk).
        unfold lock_of in Hlk. exists n'. split; [done|]. inversion Hlk. congruence.
    + eexists _, sw. rewrite (bind_eq _ _ _ _ _ Hrun).
      split; [reflexivity|]. split; [done|]. split; [lia|]. exact Hheld.
  - (* Refresh *)
    destruct (collectExpiredNodes_ok now s HInv Hgen) as (sw & Hsweep & HInvw & Hsw).
    pose proof (swept_gen _ _ _ Hsw) as Hgw.
    pose proof (swept_held_same now s sw HInv HInvw Hsw) as Hheld.
    destruct (byToken sw !! tok) as [y|] eqn:Hy.
    + destruct (Inv_token_node sw tok y HInvw Hy) as (n & Hn & _).
      destruct (held n) eqn:Hh.
      * eexists _, sw.
        rewrite (bind_eq _ _ _ _ _ (Refresh_held s sw now tok du y n Hsweep Hy Hn Hh)).
        split; [reflexivity|]. split; [done|]. split; [lia|]. exact Hheld.
      * destruct (Refresh_live s sw now tok du y n Hsweep HInvw ltac:(lia) Hy Hn Hh)
          as (s2 & n' & Hrun & HInv2 & (_ & Hbt2 & Hg2 & _ & Hst) & Hn' & _ & _ & Hh' & _).
        eexists _, s2. rewrite (bind_eq _ _ _ _ _ Hrun).
        split; [reflexivity|]. split; [done|]. split; [lia|].
        intros z. rewrite <- Hheld. apply held_same; [done|done|by rewrite Hbt2|].
        intros a na Hna. destruct (Hst a na Hna) as (na' & Hna' & _ & _ & _ & _ & Hlk).
        exists na'. split; [done|]. destruct (decide (a = y)) as [->|Hne].
        -- rewrite Hn' in Hna'. inversion Hna'. subst na'. rewrite Hn in Hna.
           inversion Hna. subst na. congruence.
        -- specialize (Hlk Hne). unfold lock_of in Hlk. by inversion Hlk.
    + eexists _, sw.
      rewrite (bind_eq _ _ _ _ _ (Refresh_unknown s sw now tok du Hsweep Hy)).
      split; [reflexivity|]. split; [done|]. split; [lia|]. exact Hheld.
  - (* Unlock *)
    destruct (collectExpiredNodes_ok now s HInv Hgen) as (sw & Hsweep & HInvw & Hsw).
    pose proof (swept_gen _ _ _ Hsw) as Hgw.
    pose proof (swept_held_same now s sw HInv HInvw Hsw) as Hheld.
    destruct (byToken sw !! tok) as [y|] eqn:Hy.
    + destruct (Inv_token_node sw tok y HInvw Hy) as (n & Hn & _).
      destruct (held n) eqn:Hh.
      * eexists _, sw.
        rewrite (bind_eq _ _ _ _ _ (Unlock_held s sw now tok y n Hsweep Hy Hn Hh)).
        split; [reflexivity|]. split; [done|]. split; [lia|]. exact Hheld.
      * destruct (Unlock_live s sw now tok y n Hsweep HInvw ltac:(lia) Hy Hn Hh)
          as (s2 & Hrun & HInv2 & (Hg2 & Hbt2 & _ & _ & Hst & _) & _).
        eexists _, s2. rewrite (bind_eq _ _ _ _ _ Hrun).
        split; [reflexivity|]. split; [done|]. split; [lia|].
        intros z. rewrite <- Hheld. apply held_same; [done|done| |].
        -- intros t a Ha. rewrite Hbt2, Hn in Ha. by destruct (decide (t = token n)).
        -- intros a na Hna. destruct (Hst a na Hna) as (na' & Hna' & _ & _ & Hh' & _).
           eauto.
    + eexists _, sw.
      rewrite (bind_eq _ _ _ _ _ (Unlock_unknown s sw now tok Hsweep Hy)).
      split; [reflexivity|]. split; [done|]. split; [lia|]. exact Hheld.
  - (* GetByName *)
    destruct (collectExpiredNodes_ok wall s HInv Hgen) as (sw & Hsweep & HInvw & Hsw).
    pose proof (swept_gen _ _ _ Hsw) as Hgw.
    pose proof (swept_held_same wall s sw HInv HInvw Hsw) as Hheld.
    assert (exists r, GetByName wall name s = Some (r, sw)) as [r Hrun].
    { eexists. unfold GetByName. rewrite (bind_eq _ _ _ _ _ Hsweep). cbv zeta.
      apply GetByName_loop_nearest; [done|apply slashClean_cleaned|lia]. }
    eexists _, sw. rewrite (bind_eq _ _ _ _ _ Hrun).
    split; [reflexivity|]. split; [done|]. split; [lia|]. exact Hheld.
Qed.

(** ** Outstanding claims *)

Lemma claims_remove (c : claim) (out : list claim) :
  NoDup (concat (claim_nodes <$> out)) -> c ∈ out ->
  NoDup (claim_nodes c) /\
  (forall y, y ∈ claim_nodes c -> y ∈ concat (claim_nodes <$> out)) /\
  NoDup (concat (claim_nodes <$> remove_claim c out)) /\
  forall y, y ∈ concat (claim_nodes <$> remove_claim c out) ->
            y ∈ concat (claim_nodes <$> out) /\ y ∉ claim_nodes c.
Proof.
  induction out as [|c' out IH]; intros Hnd Hc; [by apply elem_of_nil in Hc|].
  rewrite fmap_cons in Hnd. cbn [concat] in Hnd.
  apply NoDup_app in Hnd as (Hnd1 & Hdis & Hnd2).
  rewrite fmap_cons. cbn [concat remove_claim].
  destruct (decide (c' = c)) as [->|Hne].
  - split; [done|]. split; [intros y Hy; apply elem_of_app; by left|].
    split; [done|]. intros y Hy. split; [apply elem_of_app; by right|].
    intros Hyc. by apply (Hdis y).
  - apply elem_of_cons in Hc as [->|Hc]; [done|].
    destruct (IH Hnd2 Hc) as (Hndc & Hsub & Hndr & Hrem).
    split; [done|]. split; [intros y Hy; apply elem_of_app; right; by apply Hsub|].
    rewrite fmap_cons. cbn [concat]. split.
    + apply NoDup_app. split; [done|]. split; [|done].
      intros y Hy Hy'. apply Hrem in Hy' as [Hy' _]. by apply (Hdis y).
    + intros y Hy. apply elem_of_app in Hy as [Hy|Hy].
      * split; [apply elem_of_app; by left|]. intros Hyc. apply (Hdis y Hy).
        by apply Hsub.
      * apply Hrem in Hy as [Hy Hyc]. split; [apply elem_of_app; by right|done].
Qed.

(** A call of the protocol returns and keeps the invariants and the
    outstanding claims. *)
Lemma protocol_step (wall : Time) (o : Op) (out : list claim) (s : memLS) :
  Inv s -> gen s < 2 ^ 62 -> claims_held out s -> allowed out o ->
  exists (r : Reply) (s' : memLS),
    exec wall o s = Some (r, s') /\ Inv s' /\ gen s <= gen s' <= gen s + 1 /\
    claims_held (next_claims out o r) s'.
Proof.
  intros HInv Hgen [Hnd Hheld] Hal.
  assert (match o with
          | OpDelete _ _ => False
          | OpRelease c =>
              NoDup (claim_nodes c) /\ forall x, x ∈ claim_nodes c -> node_held s x
          | _ => True
          end) as Hop.
  { destruct o as [| c | | | | |]; try done. cbn [allowed] in Hal.
    destruct (claims_remove c out Hnd Hal) as (Hndc & Hsub & _). split; [done|].
    intros x Hx. apply Hheld. by apply Hsub. }
  destruct (exec_step wall o s HInv Hgen Hop) as (r & s' & Hrun & HInv' & Hg & Hstep).
  exists r, s'. do 3 (split; [done|]).
  destruct o as [now n0 n1 conds|c|now d|now tok du|now tok|now name|name];
    try done; cbn [next_claims].
  - destruct r as [[c|e]| | | | | |]; try (split; [done|]; intros y Hy; apply Hstep; by apply Hheld).
    destruct Hstep as (Hndc & Hfree & Hstep). split.
    + rewrite fmap_cons. cbn [concat]. apply NoDup_app. split; [done|]. split; [|done].
      intros y Hy Hy'. apply (Hfree y Hy). by apply Hheld.
    + intros y Hy. rewrite fmap_cons in Hy. cbn [concat] in Hy. apply Hstep.
      apply elem_of_app in Hy as [Hy|Hy]; [by right|left; by apply Hheld].
  - cbn [allowed] in Hal.
    destruct (claims_remove c out Hnd Hal) as (_ & _ & Hndr & Hrem).
    split; [done|]. intros y Hy. apply Hrem in Hy as [Hy Hyc]. apply Hstep.
    split; [by apply Hheld|done].
  - split; [done|]. intros y Hy. apply Hstep. by apply Hheld.
  - split; [done|]. intros y Hy. apply Hstep. by apply Hheld.
  - split; [done|]. intros y Hy. apply Hstep. by apply Hheld.
  - split; [done|]. intros y Hy. apply Hstep. by apply Hheld.
Qed.

(** The calls of the protocol, run from a state that satisfies the
    invariants. *)
Lemma run_protocol_from (calls : list (Time * Op)) (out : list claim) (s : memLS) :
  Inv s -> gen s + Z.of_nat (length calls) < 2 ^ 62 ->
  claims_held out s -> protocol out calls s ->
  exists (rs : list Reply) (s' : memLS),
    run calls s = Some (rs, s') /\ length rs = length calls /\
    Inv s' /\ gen s <= gen s' <= gen s + Z.of_nat (length calls).
Proof.
  revert out s. induction calls as [|[wall o] calls IH]; intros out s HInv Hgen Hout Hp.
  - exists [], s. split; [done|]. split; [done|]. split; [done|]. simpl. lia.
  - cbn [protocol] in Hp. destruct Hp as [Hal Hrest]. cbn [length] in Hgen.
    destruct (protocol_step wall o out s HInv ltac:(lia) Hout Hal)
      as (r & s1 & Hrun & HInv1 & Hg1 & Hout1).
    destruct (IH _ s1 HInv1 ltac:(lia) Hout1 (Hrest r s1 Hrun))
      as (rs & s' & Hruns & Hlen & HInv' & Hg').
    exists (r :: rs), s'. cbn [run]. rewrite (bind_eq _ _ _ _ _ Hrun).
    rewrite (bind_eq _ _ _ _ _ Hruns). split; [done|].
    split; [simpl; by rewrite Hlen|]. split; [done|].
    cbn [length]. lia.
Qed.

(** The token of a successful [Create] is the decimal form of the next
    value of the counter. *)
Lemma Create_token (s s' : memLS) (now : Time) (d : LockDetails) (t : string) :
  Inv s -> gen s < 2 ^ 62 -> Create now d s = Some (Ok t, s') ->
  t = FormatUint (gen s + 1) /\ Inv s' /\ gen s' = gen s + 1 /\ 0 <= gen s.
Proof.
  intros HInv Hgen HC.
  destruct (Create_ok s now d HInv Hgen) as (sw & b & _ & _ & Hsw & _ & Hrun).
  pose proof (swept_gen _ _ _ Hsw) as Hgw.
  destruct (inv_tokens _ HInv) as ([Hg0 _] & _).
  destruct b.
  - destruct Hrun as (s2 & x & Hrun & HInv2 & (Hg2 & _)). rewrite Hrun in HC.
    inversion HC. subst. split; [done|]. split; [done|]. split; [lia|done].
  - rewrite Hrun in HC. inversion HC.
Qed.


(** * Further properties of the manager *)

(** ** The expiry queue as a heap *)

(** X1. [heap.Push] on the queue, for a node that is not in it: the node
    joins the queue, every entry records its position in [byExpiryIndex],
    the nodes outside the queue keep the position -1, the queue is a
    min-heap on the expiry times, so that its first entry has the least
    expiry, and nothing but the queue and the recorded positions changes. *)
Theorem heap_Push_spec (s : memLS) (x : ptr) (nx : memLSNode) :
  queue_wf s -> store s !! x = Some nx -> x ∉ byExpiry s ->
  exists s',
    heap.Push x s = Some (tt, s') /\
    queue_wf s' /\ same_but_queue s s' /\
    (forall y, y ∈ byExpiry s' <-> y = x \/ y ∈ byExpiry s) /\
    length (byExpiry s') = S (length (byExpiry s)) /\
    (forall a y, byExpiry s' !! 0%nat = Some a -> y ∈ byExpiry s' ->
                 expiry_at s' a <= expiry_at s' y).
Proof.
  intros Hq Hx Hnot.
  destruct (heap_Push_wf s x nx Hq Hx Hnot) as (s' & Hrun & Hsq & Hq' & Hmem & Hlen).
  exists s'. do 5 (split; [done|]). intros a y Ha Hy. by apply queue_head_min.
Qed.

(** X2. [heap.Remove(i)] on the queue, for a position [i] in range: it
    returns the node at position [i], which leaves the queue and gets the
    position -1; the other entries stay, each recording its new position,
    and the queue is still a min-heap on the expiry times. *)
Theorem heap_Remove_spec (s : memLS) (i : nat) (x : ptr) :
  queue_wf s -> byExpiry s !! i = Some x ->
  2 * Z.of_nat (length (byExpiry s)) + 1 < 2 ^ 63 ->
  exists s',
    heap.Remove (Z.of_nat i) s = Some (x, s') /\
    queue_wf s' /\ same_but_queue s s' /\
    (forall y, y ∈ byExpiry s' <-> y ∈ byExpiry s /\ y <> x) /\
    S (length (byExpiry s')) = length (byExpiry s) /\
    (exists nx, store s' !! x = Some nx /\ byExpiryIndex nx = -1) /\
    (forall a y, byExpiry s' !! 0%nat = Some a -> y ∈ byExpiry s' ->
                 expiry_at s' a <= expiry_at s' y).
Proof.
  intros Hq Hi Hb.
  destruct (qw_idx _ Hq i x Hi) as (nx & Hnx & Hix).
  assert (x ∈ byExpiry s) as Hin by (by eapply list_elem_of_lookup_2).
  destruct (heap_Remove_wf s x nx Hq Hnx Hin Hb) as (s' & Hrun & Hsq & Hq' & Hmem & Hlen).
  rewrite Hix in Hrun.
  exists s'. do 5 (split; [done|]). split.
  - destruct Hsq as (_ & _ & _ & _ & Hst). destruct (Hst x nx Hnx) as (j & Hj).
    eexists. split; [exact Hj|]. apply (qw_out _ Hq' x _ Hj).
    intros Hc. apply Hmem in Hc as [_ Hc]. done.
  - intros a y Ha Hy. by apply queue_head_min.
Qed.

(** ** create and remove *)

(** The [refCount] that the name index holds for a name. *)
Lemma node_at_refCount (s : memLS) (k : string) :
  Inv s ->
  match node_at s k with Some n0 => refCount n0 | None => 0 end = below s k.
Proof.
  intros HInv. pose proof (inv_tree _ HInv k) as Ht. unfold node_at.
  destruct (byName s !! k) as [a|]; [|done].
  destruct Ht as (n & Hn & _ & Hr & _). by rewrite Hn.
Qed.

(** X3. [create(name)] on a name with a leading slash returns the node of
    [name]. It adds one to the [refCount] of every level from [name] up to
    the root, where a level that has no node gets a new one with [refCount]
    1 and its name as root; no other name is bound or rebound, and the
    tokens, the queue and the locks of the nodes are as before. *)
Theorem create_spec (s : memLS) (name : string) :
  Inv s -> gen s < 2 ^ 62 -> absolute name ->
  exists (x : ptr) (sw : memLS),
    create name s = Some (Some x, sw) /\
    byName sw !! name = Some x /\
    byToken sw = byToken s /\ byExpiry sw = byExpiry s /\ gen sw = gen s /\
    (forall a n, store s !! a = Some n ->
       exists r, store sw !! a = Some (set_refCount r n)) /\
    forall k : string,
      match byName sw !! k with
      | Some a =>
          (byName s !! k = Some a \/ (byName s !! k = None /\ k ∈ walkPath name)) /\
          exists n, store sw !! a = Some n /\ Root (details n) = k /\
                    refCount n =
                      match node_at s k with Some n0 => refCount n0 | None => 0 end
                      + (if decide (k ∈ walkPath name) then 1 else 0)
      | None => byName s !! k = None /\ k ∉ walkPath name
      end.
Proof.
  intros HInv Hgen Habs.
  destruct (create_ok s name HInv Hgen Habs)
    as (x & sw & n & Hrun & Hrefs & Hpend & Hmono & Hbx & Hn & Hroot).
  pose proof Hrefs as (Hbt & Hg & Hq & _ & Hold & _).
  exists x, sw. do 6 (split; [done|]). intros k.
  specialize (Hpend k). cbv zeta in Hpend.
  rewrite decide_False in Hpend by apply not_elem_of_nil.
  rewrite Z.add_0_r in Hpend. rewrite (node_at_refCount s k HInv).
  pose proof (below_nonneg s k) as Hnn.
  pose proof (inv_tree _ HInv k) as Ht.
  destruct (byName sw !! k) as [a|] eqn:Ek.
  - destruct Hpend as (m & Hm & Hr & Hc & Hp). split; [|eauto].
    destruct (byName s !! k) as [a0|] eqn:Ek0.
    + left. apply Hmono in Ek0. congruence.
    + right. split; [done|]. destruct (decide (k ∈ walkPath name)); [done|lia].
  - destruct (decide (k ∈ walkPath name)); [lia|]. split; [|done].
    destruct (byName s !! k) as [a0|]; [|done].
    destruct Ht as (_ & _ & _ & _ & ?). lia.
Qed.

(** The number of locks at or below a name after the lock of node [x] has
    been removed. *)
Lemma below_removed (s s' : memLS) (x : ptr) (nx : memLSNode) (k : string) :
  removed x s s' -> store s !! x = Some nx ->
  below s' k + (if decide (covers k nx) then 1 else 0) = below s k.
Proof.
  intros (_ & _ & Hlen & _ & Hst & _) Hx.
  pose proof (below_insert s (<[x := set_token "" nx]> (store s)) x nx
                (set_token "" nx) k Hx eq_refl) as E.
  rewrite (decide_False (P := covers k (set_token "" nx))) in E
    by (intros [Hc _]; done).
  rewrite Z.add_0_r in E. rewrite <- E. f_equal.
  apply below_ext.
  - cbn. by rewrite length_insert.
  - intros a m m' Hm Hm'. cbn in Hm.
    destruct (decide (a = x)) as [->|Hne].
    + rewrite list_lookup_insert_eq in Hm by (by apply lookup_lt_Some with nx).
      inversion Hm. subst m.
      destruct (Hst x nx Hx) as (m2 & Hm2 & Hd & _ & _ & Ht).
      rewrite Hm' in Hm2. inversion Hm2. subst m2.
      rewrite decide_True in Ht by done. cbn. by rewrite Ht, Hd.
    + rewrite list_lookup_insert_ne in Hm by done.
      destruct (Hst a m Hm) as (m2 & Hm2 & Hd & _ & _ & Ht).
      rewrite Hm' in Hm2. inversion Hm2. subst m2.
      rewrite decide_False in Ht by done. by rewrite Ht, Hd.
Qed.

Lemma removed_byToken (s s' : memLS) (x : ptr) (nx : memLSNode) :
  removed x s s' -> store s !! x = Some nx ->
  byToken s' = delete (token nx) (byToken s).
Proof.
  intros (_ & Hbt & _) Hx. apply map_eq. intros t. rewrite Hbt, Hx.
  rewrite lookup_delete.
  destruct (decide (t = token nx)), (decide (token nx = t)); congruence.
Qed.

(** X4. [remove(n)] on a node that carries a lock and is not held: the
    token leaves the token map, the node loses its token and leaves the
    queue, and the [refCount] of every level from the root of the lock up
    to [/] drops by one, a level that reaches zero leaving the name index;
    the other levels and the other locks are as before, and the invariants
    of the manager hold afterwards. *)
Theorem remove_spec (s : memLS) (x : ptr) (nx : memLSNode) :
  Inv s -> gen s < 2 ^ 62 ->
  store s !! x = Some nx -> token nx <> "" -> held nx = false ->
  exists s',
    remove x s = Some (tt, s') /\ Inv s' /\ gen s' = gen s /\
    byToken s' = delete (token nx) (byToken s) /\
    (forall y, y ∈ byExpiry s' <-> y ∈ byExpiry s /\ y <> x) /\
    (forall y ny, store s !! y = Some ny ->
       exists ny', store s' !! y = Some ny' /\
         details ny' = details ny /\ expiry ny' = expiry ny /\
         held ny' = held ny /\
         token ny' = if decide (y = x) then "" else token ny) /\
    forall k : string,
      match byName s !! k with
      | None => byName s' !! k = None
      | Some a =>
          exists n0, store s !! a = Some n0 /\
            if decide (k ∈ walkPath (Root (details nx))) then
              if decide (refCount n0 = 1) then byName s' !! k = None
              else byName s' !! k = Some a /\
                   exists n, store s' !! a = Some n /\ refCount n = refCount n0 - 1
            else byName s' !! k = Some a /\
                 exists n, store s' !! a = Some n /\ refCount n = refCount n0
      end.
Proof.
  intros HInv Hgen Hx Ht Hh.
  destruct (remove_ok s x nx HInv Hgen Hx Ht Hh) as (s' & Hrun & HInv' & Hrem).
  pose proof Hrem as (Hg & _ & _ & Hmem & Hst & Hnames).
  exists s'. do 3 (split; [done|]). split; [by apply (removed_byToken s s' x nx)|].
  do 2 (split; [done|]). intros k.
  pose proof (below_removed s s' x nx k Hrem Hx) as Hb.
  pose proof (inv_tree _ HInv k) as Htk. pose proof (inv_tree _ HInv' k) as Htk'.
  assert (forall a, byName s' !! k = Some a -> byName s !! k = Some a) as Hsub
    by (intros a; apply Hnames).
  destruct (byName s !! k) as [a|] eqn:Ek.
  - destruct Htk as (n0 & Hn0 & Hr0 & Hc0 & Hp0). exists n0. split; [done|].
    assert (covers k nx <-> k ∈ walkPath (Root (details nx))) as Hcov
      by (unfold covers; tauto).
    destruct (decide (k ∈ walkPath (Root (details nx)))) as [Hin|Hin].
    + rewrite decide_True in Hb by (by apply Hcov).
      destruct (decide (refCount n0 = 1)) as [E1|E1].
      * destruct (byName s' !! k) as [a'|]; [|done].
        destruct Htk' as (_ & _ & _ & _ & ?). lia.
      * destruct (byName s' !! k) as [a'|] eqn:Ek'; [|lia].
        specialize (Hsub a' eq_refl). inversion Hsub. subst a'. split; [done|].
        destruct Htk' as (n & Hn & _ & Hc & _). exists n. split; [done|]. lia.
    + rewrite decide_False in Hb by (by rewrite Hcov).
      destruct (byName s' !! k) as [a'|] eqn:Ek'; [|lia].
      specialize (Hsub a' eq_refl). inversion Hsub. subst a'. split; [done|].
      destruct Htk' as (n & Hn & _ & Hc & _). exists n. split; [done|]. lia.
  - destruct (byName s' !! k) as [a'|]; [|done]. by specialize (Hsub a' eq_refl).
Qed.

(** ** Delete *)

(** X5. [Delete] sweeps and looks the name up as it is given. Where the
    name has no node it returns without an error and the state is the one
    the sweep left. Where the node of the name carries a lock that is not
    held it does what [Unlock] of the token of that lock does: the lock is
    removed and the invariants hold afterwards. *)
Theorem Delete_spec (s : memLS) (now : Time) (name : string) :
  Inv s -> gen s < 2 ^ 62 ->
  exists s1 : memLS,
    collectExpiredNodes now s = Some (tt, s1) /\
    match byName s1 !! name with
    | None => Delete now name s = Some (Ok tt, s1)
    | Some x =>
        forall n, store s1 !! x = Some n -> token n <> "" -> held n = false ->
          exists s',
            Delete now name s = Some (Ok tt, s') /\
            Unlock now (token n) s = Some (Ok tt, s') /\
            Inv s' /\ removed x s1 s'
    end.
Proof.
  intros HInv Hgen.
  destruct (collectExpiredNodes_ok now s HInv Hgen) as (s1 & Hsweep & HInv1 & Hsw).
  assert (gen s1 < 2 ^ 62) as Hgen1 by (rewrite (swept_gen _ _ _ Hsw); done).
  exists s1. split; [done|].
  destruct (byName s1 !! name) as [x|] eqn:Hx.
  - intros n Hn Ht Hh.
    destruct (nk_token _ _ _ (inv_nodes _ HInv1 _ _ Hn) Ht) as (Hb & Hnm & _).
    destruct (Unlock_live s s1 now (token n) x n Hsweep HInv1 Hgen1 Hb Hn Hh)
      as (s' & Hrun & HInv' & Hrem & _).
    destruct (remove_ok s1 x n HInv1 Hgen1 Hn Ht Hh) as (s2 & Hrm & _).
    assert (Delete now name s = Some (Ok tt, s2)) as HD.
    { unfold Delete. rewrite (bind_eq _ _ _ _ _ Hsweep).
      rewrite (bind_eq _ _ _ _ _ (gets_eq _ s1)). cbv beta. rewrite Hx.
      by rewrite (bind_eq _ _ _ _ _ Hrm). }
    assert (s2 = s') as ->.
    { unfold Unlock in Hrun. rewrite (bind_eq _ _ _ _ _ Hsweep) in Hrun.
      rewrite (bind_eq _ _ _ _ _ (gets_eq _ s1)) in Hrun. cbv beta in Hrun.
      rewrite Hb in Hrun. rewrite (bind_eq _ _ _ _ _ (load_eq _ _ _ Hn)) in Hrun.
      rewrite Hh in Hrun. rewrite (bind_eq _ _ _ _ _ Hrm) in Hrun. by inversion Hrun. }
    exists s'. done.
  - unfold Delete. rewrite (bind_eq _ _ _ _ _ Hsweep).
    rewrite (bind_eq _ _ _ _ _ (gets_eq _ s1)). cbv beta. by rewrite Hx.
Qed.

(** ** The invariants along the operations *)

(** X6. Every call but [Delete] returns, keeps the invariants of the
    manager and advances the token counter by at most one; the release
    closure does when the nodes of its claim are distinct and held. The
    held nodes change only by the claim of a successful [Confirm], whose
    nodes are distinct and were not held, and by the claim of the release
    closure: no sweep, [Create], [Refresh], [Unlock] or [GetByName] holds
    or releases a node. *)
Theorem exec_returns (wall : Time) (o : Op) (s : memLS) :
  Inv s -> gen s < 2 ^ 62 ->
  match o with
  | OpDelete _ _ => False
  | OpRelease c =>
      NoDup (claim_nodes c) /\ forall x, x ∈ claim_nodes c -> node_held s x
  | _ => True
  end ->
  exists (r : Reply) (s' : memLS),
    exec wall o s = Some (r, s') /\ Inv s' /\ gen s <= gen s' <= gen s + 1 /\
    match o, r with
    | OpConfirm _ _ _ _, RConfirm (Ok c) =>
        NoDup (claim_nodes c) /\
        (forall y, y ∈ claim_nodes c -> ~ node_held s y) /\
        forall y, node_held s' y <-> node_held s y \/ y ∈ claim_nodes c
    | OpRelease c, _ =>
        forall y, node_held s' y <-> node_held s y /\ y ∉ claim_nodes c
    | _, _ => forall y, node_held s' y <-> node_held s y
    end.
Proof. apply exec_step. Qed.

(** ** The sweep *)

(** After the sweep at [now] every entry of the queue expires after
    [now]. *)
Lemma swept_later (now : Time) (s s1 : memLS) :
  Inv s -> swept now s s1 ->
  forall y, y ∈ byExpiry s1 -> now < expiry_at s1 y.
Proof.
  intros HInv Hsw y Hy. destruct Hsw as (_ & _ & Hq & _ & Hst & _).
  apply Hq in Hy as [Hy Hlt]. unfold expiry_at in *.
  destruct (store s !! y) as [ny|] eqn:Hny.
  - destruct (Hst y ny Hny) as (ny' & Hny' & _ & He & _). rewrite Hny'. lia.
  - apply list_elem_of_lookup in Hy as (i & Hi).
    destruct (qw_idx _ (inv_queue _ HInv) i y Hi) as (? & ? & _). congruence.
Qed.

(** A sweep at a time before the expiry of every entry changes nothing. *)
Lemma sweep_nothing (t : Time) (s : memLS) :
  Inv s -> gen s < 2 ^ 62 ->
  (forall y, y ∈ byExpiry s -> t < expiry_at s y) ->
  collectExpiredNodes t s = Some (tt, s).
Proof.
  intros HInv Hgen Hlater.
  pose proof (collectExpiredNodes_step t s HInv Hgen) as Hstep.
  destruct (byExpiry s !! 0%nat) as [a|] eqn:Ea; [|done].
  destruct Hstep as [_ Hstep].
  rewrite decide_True in Hstep; [done|].
  apply Hlater. by eapply list_elem_of_lookup_2.
Qed.

(** X7. A second sweep at the same or an earlier time changes nothing:
    after the sweep at [now] every entry of the queue expires after
    [now]. *)
Theorem sweep_again (s s1 : memLS) (now t : Time) :
  Inv s -> gen s < 2 ^ 62 ->
  collectExpiredNodes now s = Some (tt, s1) -> t <= now ->
  (forall y, y ∈ byExpiry s1 -> now < expiry_at s1 y) /\
  collectExpiredNodes t s1 = Some (tt, s1).
Proof.
  intros HInv Hgen Hsweep Ht.
  destruct (collectExpiredNodes_ok now s HInv Hgen) as (s1' & Hsweep' & HInv1 & Hsw).
  rewrite Hsweep in Hsweep'. inversion Hsweep'. subst s1'. clear Hsweep'.
  pose proof (swept_later now s s1 HInv Hsw) as Hlater.
  split; [done|].
  apply sweep_nothing; [done|by rewrite (swept_gen _ _ _ Hsw)|].
  intros y Hy. specialize (Hlater y Hy). lia.
Qed.

(** X8. A lock of negative duration never expires: it is not in the
    queue, and the sweep of any operation, at any time, leaves it
    registered with its details. *)
Theorem infinite_lock_stays (s : memLS) (x : ptr) (n : memLSNode) (now : Time) :
  Inv s -> gen s < 2 ^ 62 ->
  store s !! x = Some n -> token n <> "" -> LDuration (details n) < 0 ->
  (x ∉ byExpiry s) /\
  exists s1 n1,
    collectExpiredNodes now s = Some (tt, s1) /\
    store s1 !! x = Some n1 /\ lock_of n1 = lock_of n /\
    byToken s1 !! token n = Some x /\
    byName s1 !! Root (details n) = Some x.
Proof.
  intros HInv Hgen Hn Ht HD.
  pose proof (inv_nodes _ HInv _ _ Hn) as Hok.
  assert (x ∉ byExpiry s) as Hnot.
  { intros Hin. apply (nk_queued _ _ _ Hok) in Hin as (_ & _ & ?). lia. }
  split; [done|].
  destruct (collectExpiredNodes_ok now s HInv Hgen) as (s1 & Hsweep & HInv1 & Hsw).
  destruct (nk_token _ _ _ Hok Ht) as (Hb & _).
  destruct (swept_alive now s s1 x n HInv1 Hsw Hn Ht Hb ltac:(done))
    as (n1 & Hn1 & Hlk & Hb1 & Hnm1).
  exists s1, n1. done.
Qed.

(** ** The release closure *)

(** [unhold] panics on a node that is not held. *)
Lemma unhold_panics (s : memLS) (a : ptr) : ~ node_held s a -> unhold a s = None.
Proof.
  intros H. unfold unhold, bind, load. destruct (store s !! a) as [n|] eqn:Hn; [|done].
  destruct (held n) eqn:Hh; [|done]. destruct H. by exists n.
Qed.

(** The release closure panics when a node of its claim is not held. *)
Lemma release_panics (s : memLS) (c : claim) (x : ptr) :
  Inv s -> x ∈ claim_nodes c -> ~ node_held s x -> release c s = None.
Proof.
  intros HInv Hx Hnh. destruct c as [n0 n1]. unfold release. cbn [fst snd].
  unfold claim_nodes in Hx. cbn [fst snd] in Hx.
  destruct n1 as [b|].
  - destruct (store s !! b) as [nb|] eqn:Hb.
    2:{ apply bind_None. apply unhold_panics. intros (n & Hn & _). congruence. }
    destruct (held nb) eqn:Hhb.
    2:{ apply bind_None. apply unhold_panics. intros (n & Hn & Hh). congruence. }
    assert (x <> b) as Hxb by (intros ->; apply Hnh; by exists nb).
    assert (n0 = Some x) as ->.
    { destruct n0 as [a|].
      - apply elem_of_cons in Hx as [->|Hx]; [done|].
        apply list_elem_of_singleton in Hx. done.
      - apply list_elem_of_singleton in Hx. done. }
    destruct (unhold_ok s b nb HInv Hb Hhb) as (sA & Hrun & _ & Htouch & _).
    rewrite (bind_eq _ _ _ _ _ Hrun). apply unhold_panics.
    destruct Htouch as (_ & _ & _ & Hlen & Hst). intros (n' & Hn' & Hh').
    assert (is_Some (store s !! x)) as [n Hn].
    { apply lookup_lt_is_Some. rewrite <- Hlen. by apply lookup_lt_Some with n'. }
    destruct (Hst x n Hn) as (n'' & Hn'' & _ & _ & _ & _ & Hlk).
    rewrite Hn' in Hn''. inversion Hn''. subst n''. specialize (Hlk Hxb).
    unfold lock_of in Hlk. apply Hnh. exists n. split; [done|]. inversion Hlk. congruence.
  - destruct n0 as [a|]; [|by apply elem_of_nil in Hx].
    apply list_elem_of_singleton in Hx. subst a.
    rewrite (bind_eq _ _ _ _ _ (ret_eq tt s)). by apply unhold_panics.
Qed.

(** X9. The release closure returns exactly when every node of its claim
    is held, and panics in [unhold] otherwise. It clears the hold of each
    node of its claim, so that invoking it again in the state it left,
    before a [Confirm] has held the nodes anew, panics. *)
Theorem release_once (s : memLS) (c : claim) :
  Inv s -> NoDup (claim_nodes c) ->
  ((forall x, x ∈ claim_nodes c -> node_held s x) <-> release c s <> None) /\
  forall s', release c s = Some (tt, s') ->
    Inv s' /\
    (forall x, x ∈ claim_nodes c -> ~ node_held s' x) /\
    (claim_nodes c <> [] -> release c s' = None).
Proof.
  intros HInv Hnd.
  assert (release c s <> None -> forall x, x ∈ claim_nodes c -> node_held s x) as Hback.
  { intros Hne x Hx. destruct (store s !! x) as [n|] eqn:Hn.
    - destruct (held n) eqn:Hh; [by exists n|]. destruct Hne.
      apply (release_panics s c x HInv Hx). intros (n' & Hn' & Hh'). congruence.
    - destruct Hne. apply (release_panics s c x HInv Hx). intros (n' & Hn' & _).
      congruence. }
  split.
  - split; [|done]. intros Hheld.
    destruct (release_ok s c HInv Hnd Hheld) as (s' & Hrun & _). by rewrite Hrun.
  - intros s' Hrun.
    assert (forall x, x ∈ claim_nodes c -> node_held s x) as Hheld
      by (apply Hback; by rewrite Hrun).
    destruct (release_ok s c HInv Hnd Hheld) as (s'' & Hrun' & HInv' & _ & _ & _ & Hin & _).
    rewrite Hrun in Hrun'. inversion Hrun'. subst s''.
    assert (forall x, x ∈ claim_nodes c -> ~ node_held s' x) as Hfree.
    { intros x Hx (n' & Hn' & Hh'). destruct (Hheld x Hx) as (n & Hn & _).
      destruct (Hin x n Hx Hn) as (n'' & Hn'' & Hlk & _). rewrite Hn' in Hn''.
      inversion Hn''. subst n''. unfold lock_of in Hlk. inversion Hlk. congruence. }
    split; [done|]. split; [done|]. intros Hne.
    destruct (claim_nodes c) as [|x l] eqn:E; [done|].
    apply (release_panics s' c x HInv'); [rewrite E; by left|].
    apply Hfree. by left.
Qed.

(** ** Create followed by Unlock *)

(** X10. [Create] followed by [Unlock] of the token it returned, at the
    same time and for a duration other than zero, with [now] and
    [now + duration] in the range of [time.Time] when the duration is
    finite, succeeds and undoes the
    lock: the name index, the token map and the entries of the queue are
    those of the state that the sweep of [Create] left, the locks are the
    locks of that state, and the invariants hold; the token counter has
    advanced by one. *)
Theorem Create_Unlock_roundtrip (s s' : memLS) (now : Time) (d : LockDetails)
    (tok : string) :
  Inv s -> gen s + 1 < 2 ^ 62 -> LDuration d <> 0 ->
  (0 < LDuration d -> time_ok now /\ time_ok (now + LDuration d)) ->
  Create now d s = Some (Ok tok, s') ->
  exists s1 s'' : memLS,
    collectExpiredNodes now s = Some (tt, s1) /\
    Unlock now tok s' = Some (Ok tt, s'') /\
    Inv s'' /\ gen s'' = gen s + 1 /\
    byName s'' = byName s1 /\ byToken s'' = byToken s1 /\
    (forall y, y ∈ byExpiry s'' <-> y ∈ byExpiry s1) /\
    (forall y ny, store s1 !! y = Some ny -> token ny <> "" ->
       exists ny', store s'' !! y = Some ny' /\ lock_of ny' = lock_of ny) /\
    (forall y ny', store s'' !! y = Some ny' -> token ny' <> "" ->
       exists ny, store s1 !! y = Some ny /\ lock_of ny' = lock_of ny).
Proof.
  intros HInv Hgen HD Hrange HC.
  destruct (Create_ok s now d HInv ltac:(lia)) as (s1 & b & Hsweep & HInv1 & Hsw & Hb & Hrun).
  destruct b; [|by rewrite Hrun in HC].
  destruct Hrun as (s'0 & x & Hrun & HInv' & Hc). rewrite Hrun in HC. inversion HC.
  subst tok s'0. clear HC.
  pose proof (swept_gen _ _ _ Hsw) as Hg1.
  pose proof Hc as (Hg & Hfresh & Hbt & Hbx & Hmono & (n & Hn & Htn & Hdn & Hhn & Hen)
                    & Hmem & Hxq & Hfwd & Hbwd).
  cbn [Root LDuration] in *. rewrite Hg1 in *.
  pose proof (FormatUint_nonempty (gen s + 1)) as Htokne.
  assert (gen s' < 2 ^ 62) as Hgen' by lia.
  (* the sweep of [Unlock] removes nothing *)
  assert (collectExpiredNodes now s' = Some (tt, s')) as Hsweep'.
  { apply sweep_nothing; [done|done|]. intros y Hy. apply Hmem in Hy as [[-> HD0]|Hy].
    - unfold expiry_at. rewrite Hn, (Hen HD0).
      destruct (Hrange ltac:(lia)) as [Hnow Hend]. apply Add_later; [done|done|lia].
    - pose proof (swept_later now s s1 HInv Hsw y Hy) as Hlt.
      assert (y <> x) as Hne by (by intros ->).
      unfold expiry_at in *. destruct (store s1 !! y) as [ny|] eqn:Hny.
      + destruct (Hfwd y ny Hne Hny) as (ny' & Hny' & Hlk). rewrite Hny'.
        unfold lock_of in Hlk. inversion Hlk. lia.
      + apply list_elem_of_lookup in Hy as (i & Hi).
        destruct (qw_idx _ (inv_queue _ HInv1) i y Hi) as (? & ? & _). congruence. }
  assert (byToken s' !! FormatUint (gen s + 1) = Some x) as Hbtx
    by (rewrite Hbt; apply lookup_insert_eq).
  destruct (Unlock_live s' s' now _ x n Hsweep' HInv' Hgen' Hbtx Hn Hhn)
    as (s'' & Hun & HInv'' & Hrem & _).
  pose proof Hrem as (Hg'' & _ & Hlen'' & Hmem'' & Hst'' & Hnames'').
  (* the locks of [s''] are the locks of [s1] *)
  assert (forall y ny, store s1 !! y = Some ny -> token ny <> "" ->
            exists ny'', store s'' !! y = Some ny'' /\ lock_of ny'' = lock_of ny) as Hkeep.
  { intros y ny Hny Hty.
    assert (y <> x) as Hne.
    { intros ->. by rewrite (created_node_free s1 s' now _ x ny HInv1 HInv' Hc Hny) in Hty. }
    destruct (Hfwd y ny Hne Hny) as (ny' & Hny' & Hlk).
    destruct (Hst'' y ny' Hny') as (ny'' & Hny'' & Hd & He & Hh & Ht).
    rewrite decide_False in Ht by done.
    exists ny''. split; [done|]. rewrite <- Hlk. unfold lock_of. congruence. }
  assert (forall y ny'', store s'' !! y = Some ny'' -> token ny'' <> "" ->
            exists ny, store s1 !! y = Some ny /\ lock_of ny'' = lock_of ny) as Hback.
  { intros y ny'' Hny'' Hty.
    assert (is_Some (store s' !! y)) as (ny' & Hny').
    { apply lookup_lt_is_Some. rewrite <- Hlen''. by apply lookup_lt_Some with ny''. }
    destruct (Hst'' y ny' Hny') as (m & Hm & Hd & He & Hh & Ht).
    rewrite Hny'' in Hm. inversion Hm. subst m.
    destruct (decide (y = x)) as [->|Hne]; [done|].
    destruct (Hbwd y ny' Hne Hny' ltac:(congruence)) as (ny & Hny & Hlk).
    exists ny. split; [done|]. rewrite <- Hlk. unfold lock_of. congruence. }
  exists s1, s''. do 3 (split; [done|]). split; [lia|]. split; [|split; [|split]].
  - apply map_eq. intros k.
    pose proof (inv_tree _ HInv1 k) as Ht1. pose proof (inv_tree _ HInv'' k) as Ht''.
    destruct (byName s1 !! k) as [a|] eqn:Ek1.
    + destruct Ht1 as (_ & _ & _ & _ & Hpos).
      destruct (below_pos_inv s1 k Hpos) as (y & ny & Hy & [Hty Hcov]).
      destruct (Hkeep y ny Hy Hty) as (ny'' & Hny'' & Hlk).
      assert (covers k ny'') as Hc''.
      { unfold lock_of in Hlk. inversion Hlk as [[Hd Ht He Hh]]. split; congruence. }
      pose proof (below_pos s'' y ny'' k Hny'' Hc'') as Hpos''.
      destruct (byName s'' !! k) as [a''|] eqn:Ek''; [|lia].
      apply Hnames'' in Ek''. apply Hmono in Ek1. congruence.
    + destruct (byName s'' !! k) as [a''|] eqn:Ek''; [|done]. exfalso.
      destruct Ht'' as (_ & _ & _ & _ & Hpos'').
      destruct (below_pos_inv s'' k Hpos'') as (y & ny'' & Hy & [Hty Hcov]).
      destruct (Hback y ny'' Hy Hty) as (ny & Hny & Hlk).
      assert (covers k ny) as Hc1.
      { unfold lock_of in Hlk. inversion Hlk as [[Hd Ht He Hh]]. split; congruence. }
      pose proof (below_pos s1 y ny k Hny Hc1). lia.
  - rewrite (removed_byToken s' s'' x n Hrem Hn), Htn, Hbt.
    by apply delete_insert_id.
  - intros y. rewrite Hmem'', Hmem. split.
    + intros [[[-> _]|Hy] Hne]; done.
    + intros Hy. split; [by right|]. by intros ->.
  - split; [exact Hkeep|exact Hback].
Qed.

(** ** The levels of walkToRoot *)

(** X11. [walkToRoot(name, f)], for a name with a leading slash, calls [f]
    on the name, with [first] set, and then on the levels above it, which
    are the root and the prefixes of the name that end before one of its
    slashes, each once and all shorter than the name; a visitor that only
    tests the state stops the walk at the first level where it answers
    false, and the walk returns whether every level passed. *)
Theorem walkToRoot_levels (name : string) :
  absolute name ->
  (forall k, k ∈ ancestors name <->
             name <> "/" /\ (k = "/" \/ (k <> "" /\ is_prefix (k +:+ "/") name))) /\
  NoDup (name :: ancestors name) /\
  (forall k, k ∈ ancestors name -> (String.length k < String.length name)%nat) /\
  (forall (A : Type) (f : string -> bool -> A -> M (bool * A)) (acc : A) (s : memLS),
     (forall k fst0 acc0 s0 r s1, f k fst0 acc0 s0 = Some (r, s1) -> fst r = true) ->
     walkToRoot name f acc s
     = (r <- walk_visit f (name :: ancestors name) true acc ;; ret (true, r)) s) /\
  (forall (A : Type) (f : string -> bool -> A -> M (bool * A))
          (g : string -> bool -> bool) (acc : A) (s : memLS),
     (forall k fst0, f k fst0 acc s = Some ((g k fst0, acc), s)) ->
     walkToRoot name f acc s
     = Some ((g name true && forallb (fun k => g k false) (ancestors name), acc), s)).
Proof.
  intros Habs. split; [by apply ancestors_prefix|]. split; [|split; [|split]].
  - rewrite <- (walkPath_cons name Habs). by apply walkPath_NoDup.
  - intros k Hk. by apply (ancestors_shorter name k Habs).
  - intros A f acc s Hf. rewrite <- (walkPath_cons name Habs).
    by apply walkToRoot_visit.
  - intros A f g acc s Hf. unfold walkToRoot.
    apply walkToRoot_loop_pure; [done|done|lia].
Qed.

(** ** The lock that covers a name *)

(** X12. In a state that satisfies the invariants at most one lock covers
    a name in the sense of [lookup]: a node that carries a token and
    matches the name is the only such node. A lock matches a name exactly
    when it is rooted at the name, or has infinite depth and is rooted at
    one of the levels that [walkToRoot] visits above the name. *)
Theorem covering_lock_unique (s : memLS) (name : string) (a : ptr)
    (na : memLSNode) :
  Inv s -> absolute name ->
  store s !! a = Some na -> token na <> "" ->
  (matches name na <->
   Root (details na) = name \/
   (ZeroDepth (details na) = false /\ Root (details na) ∈ ancestors name)) /\
  (matches name na ->
   forall (b : ptr) (nb : memLSNode),
     store s !! b = Some nb -> token nb <> "" -> matches name nb -> b = a).
Proof.
  intros HInv Habs Ha Hta.
  destruct (nk_token _ _ _ (inv_nodes _ HInv _ _ Ha) Hta) as (_ & _ & Hra).
  split; [by apply (matches_levels name na Habs Hra)|].
  intros Hma b nb Hb Htb Hmb. symmetry.
  by apply (covering_lock_one s name a b na nb).
Qed.

(** What a list of conditions resolves to. *)
Lemma resolves_inv (s : memLS) (name : string) (conds : list Condition)
    (r : option ptr) :
  resolves s name conds r ->
  match r with
  | Some a => exists c, c ∈ conds /\ byToken s !! Token c = Some a /\
                        candidate s name a
  | None => forall c a, c ∈ conds -> byToken s !! Token c = Some a ->
                        ~ candidate s name a
  end.
Proof.
  intros H. induction H as [|c rest a Ha Hc|c rest r Hno H IH].
  - intros c a Hc. by apply elem_of_nil in Hc.
  - exists c. split; [left|done].
  - destruct r as [a|].
    + destruct IH as (c' & Hc' & H'). exists c'. split; [by right|done].
    + intros c' a Hc' Ha. apply elem_of_cons in Hc' as [->|Hc']; [by apply Hno|].
      by apply (IH c' a).
Qed.

(** The node that a list of conditions resolves to depends on the set of
    their tokens only. *)
Lemma resolves_tokens (s : memLS) (name : string) (conds conds' : list Condition)
    (r r' : option ptr) :
  Inv s -> absolute name ->
  (forall t, t ∈ (Token <$> conds) <-> t ∈ (Token <$> conds')) ->
  resolves s name conds r -> resolves s name conds' r' -> r = r'.
Proof.
  intros HInv Habs Hset Hr Hr'.
  apply resolves_inv in Hr, Hr'.
  assert (forall (l l' : list Condition) a,
            (forall t, t ∈ (Token <$> l) -> t ∈ (Token <$> l')) ->
            (exists c, c ∈ l /\ byToken s !! Token c = Some a /\ candidate s name a) ->
            (forall c a, c ∈ l' -> byToken s !! Token c = Some a -> ~ candidate s name a) ->
            False) as Hcontra.
  { intros l l' a Hsub (c & Hc & Hb & Hcand) Hnone.
    assert (Token c ∈ (Token <$> l')) as Hin
      by (apply Hsub; apply list_elem_of_fmap; eauto).
    apply list_elem_of_fmap in Hin as (c' & Ec & Hc').
    apply (Hnone c' a Hc'); [by rewrite <- Ec|done]. }
  destruct r as [a|], r' as [a'|]; [|exfalso..|done].
  - destruct Hr as (c & _ & Hb & (n & Hn & _ & Hm)).
    destruct Hr' as (c' & _ & Hb' & (n' & Hn' & _ & Hm')).
    destruct (Inv_token_node s _ a HInv Hb) as (m & Hmn & Ht & Hne).
    destruct (Inv_token_node s _ a' HInv Hb') as (m' & Hmn' & Ht' & Hne').
    rewrite Hn in Hmn. inversion Hmn. subst m.
    rewrite Hn' in Hmn'. inversion Hmn'. subst m'.
    f_equal. apply (covering_lock_one s name a a' n n'); try done; congruence.
  - apply (Hcontra conds conds' a); [intros t; apply Hset|done|done].
  - apply (Hcontra conds' conds a'); [intros t; apply Hset|done|done].
Qed.

(** X13. The outcome of [Confirm] depends on the set of the tokens of the
    conditions only, not on their order or on repetitions: as at most one
    lock covers a name, each name resolves to the same node. *)
Theorem Confirm_token_set (s : memLS) (now : Time) (name0 name1 : string)
    (conds conds' : list Condition) :
  Inv s -> gen s < 2 ^ 62 ->
  (forall t, t ∈ (Token <$> conds) <-> t ∈ (Token <$> conds')) ->
  Confirm now name0 name1 conds s = Confirm now name0 name1 conds' s.
Proof.
  intros HInv Hgen Hset.
  destruct (Confirm_ok s now name0 name1 conds HInv Hgen)
    as (s1 & r0 & r1 & Hsweep & HInv1 & Hsw & Hr0 & Hr1 & Hfail & Hsucc).
  destruct (Confirm_ok s now name0 name1 conds' HInv Hgen)
    as (s1' & r0' & r1' & Hsweep' & _ & _ & Hr0' & Hr1' & Hfail' & Hsucc').
  rewrite Hsweep in Hsweep'. inversion Hsweep'. subst s1'. clear Hsweep'.
  pose proof (resolves_tokens s1 _ conds conds' r0 r0' HInv1
                (slashClean_absolute name0) Hset Hr0 Hr0') as E0.
  pose proof (resolves_tokens s1 _ conds conds' r1 r1' HInv1
                (slashClean_absolute name1) Hset Hr1 Hr1') as E1.
  subst r0' r1'. cbv zeta in *.
  destruct (decide ((name0 <> "" /\ r0 = None) \/ (name1 <> "" /\ r1 = None)))
    as [Hf|Hf].
  - by rewrite (Hfail Hf), (Hfail' Hf).
  - destruct (Hsucc Hf) as (Hdis & Hlive & Hrun).
    destruct (Hsucc' Hf) as (_ & _ & Hrun').
    assert (gen s1 < 2 ^ 62) as Hgen1 by (rewrite (swept_gen _ _ _ Hsw); done).
    match type of Hdis with
    | ?b = None \/ ?b <> ?a =>
        assert (forall x, x ∈ claim_nodes (a, b) ->
                  exists n, store s1 !! x = Some n /\ held n = false /\ token n <> "")
          as Hlive';
        [intros x Hx; destruct (Hlive x Hx) as (n & Hn & Hh & Ht & _); eauto|];
        destruct (Confirm_hold_ok s1 a b HInv1 Hgen1 Hlive' Hdis) as (s2 & Hhold & _)
    end.
    by rewrite (Hrun s2 Hhold), (Hrun' s2 Hhold).
Qed.

(** X14. [GetByName] returns for every name: the loop over [path.Dir]
    ends. After the sweep it reports the lock of the first level, from the
    cleaned name up to the root, whose node carries a token, whatever the
    depth of that lock, and [ErrNoSuchLock] where no level carries one; the
    state is the one the sweep left. *)
Theorem GetByName_spec (s : memLS) (wall : Time) (name : string) :
  Inv s -> gen s < 2 ^ 62 ->
  exists s1 : memLS,
    collectExpiredNodes wall s = Some (tt, s1) /\ Inv s1 /\
    GetByName wall name s =
      Some (match nearest_lock s1 (walkPath (slashClean name)) with
            | Some n => Ok (token n, expiry n, details n)
            | None => Err ErrNoSuchLock
            end, s1) /\
    (forall n, nearest_lock s1 (walkPath (slashClean name)) = Some n ->
       token n <> "" /\
       (exists a, byToken s1 !! token n = Some a /\ store s1 !! a = Some n) /\
       exists l1 l2,
         walkPath (slashClean name) = l1 ++ Root (details n) :: l2 /\
         forall j, j ∈ l1 -> lock_at s1 j = None) /\
    (nearest_lock s1 (walkPath (slashClean name)) = None <->
     forall k, k ∈ walkPath (slashClean name) -> lock_at s1 k = None).
Proof.
  intros HInv Hgen.
  destruct (collectExpiredNodes_ok wall s HInv Hgen) as (s1 & Hsweep & HInv1 & _).
  exists s1. split; [done|]. split; [done|]. split; [|split].
  - unfold GetByName. rewrite (bind_eq _ _ _ _ _ Hsweep). cbv zeta.
    apply GetByName_loop_nearest; [done|apply slashClean_cleaned|lia].
  - intros n Hn. apply nearest_lock_Some in Hn as (l1 & k & l2 & E & Hk & Hl1).
    unfold lock_at in Hk. destruct (node_at s1 k) as [n'|] eqn:Hnode; [|done].
    destruct (decide (token n' = "")) as [|Ht]; [done|]. inversion Hk. subst n'.
    apply node_at_Some in Hnode as (a & Ha & Hst).
    pose proof (inv_tree s1 HInv1 k) as Htree. rewrite Ha in Htree.
    destruct Htree as (n' & Hst' & Hroot & _). rewrite Hst in Hst'.
    inversion Hst'. subst n'.
    split; [done|]. split.
    + exists a. split; [|done].
      destruct (nk_token _ _ _ (inv_nodes s1 HInv1 a n Hst) Ht) as (Hbt & _). done.
    + exists l1, l2. by rewrite Hroot.
  - apply nearest_lock_None.
Qed.

(** X15. A client that does not call [Delete] and invokes only release
    closures of claims it got from [Confirm], each once, never makes the
    manager panic: on the manager of [NewMemLS] every call of the run
    returns, whatever the names, tokens and times, the invariants hold at
    the end, and the token counter has advanced by at most one per call. *)
Theorem run_protocol (unix : Z) (calls : list (Time * Op)) :
  0 <= unix -> unix + Z.of_nat (length calls) < 2 ^ 62 ->
  protocol [] calls (NewMemLS unix) ->
  exists (rs : list Reply) (s' : memLS),
    run calls (NewMemLS unix) = Some (rs, s') /\ length rs = length calls /\
    Inv s' /\ unix <= gen s' <= unix + Z.of_nat (length calls).
Proof.
  intros H0 Hlt Hp.
  assert (gen (NewMemLS unix) = unix) as Hg.
  { cbn. unfold wrap_uint64. apply Z.mod_small. lia. }
  assert (claims_held [] (NewMemLS unix)) as Hout.
  { split; [apply NoDup_nil_2|]. intros y Hy. by apply elem_of_nil in Hy. }
  destruct (run_protocol_from calls [] (NewMemLS unix) (Inv_NewMemLS unix)
              ltac:(lia) Hout Hp) as (rs & s' & Hrun & Hlen & HInv' & Hg').
  exists rs, s'. split; [done|]. split; [done|]. split; [done|lia].
Qed.

(** X16. A token is never issued twice: the token that a [Create] returns
    differs from the token of every [Create] that succeeds later in the
    run, also after the first lock has been unlocked or has expired. *)
Theorem tokens_never_reused (s s1 s2 s3 : memLS) (now now' : Time)
    (d d' : LockDetails) (t t' : string) (out : list claim)
    (calls : list (Time * Op)) (rs : list Reply) :
  Inv s -> gen s + Z.of_nat (length calls) + 2 < 2 ^ 62 ->
  Create now d s = Some (Ok t, s1) ->
  claims_held out s1 -> protocol out calls s1 ->
  run calls s1 = Some (rs, s2) ->
  Create now' d' s2 = Some (Ok t', s3) ->
  t' <> t /\ byToken s3 !! t' <> None.
Proof.
  intros HInv Hgen HC Hout Hp Hrun HC'.
  destruct (Create_token s s1 now d t HInv ltac:(lia) HC) as (-> & HInv1 & Hg1 & Hg0).
  destruct (run_protocol_from calls out s1 HInv1 ltac:(lia) Hout Hp)
    as (rs' & s2' & Hrun' & _ & HInv2 & Hg2).
  rewrite Hrun in Hrun'. inversion Hrun'. subst rs' s2'.
  destruct (Create_token s2 s3 now' d' t' HInv2 ltac:(lia) HC') as (-> & HInv3 & Hg3 & _).
  split.
  - intros E. apply FormatUint_inj in E; lia.
  - destruct (Create_ok s2 now' d' HInv2 ltac:(lia)) as (sw & b & _ & _ & Hsw & _ & Hr).
    pose proof (swept_gen _ _ _ Hsw) as Hgw. destruct b.
    + destruct Hr as (s3' & x & Hr & _ & (_ & _ & Hbt & _)). rewrite Hr in HC'.
      inversion HC'. subst s3'. rewrite Hbt, Hgw. by rewrite lookup_insert_eq.
    + rewrite Hr in HC'. inversion HC'.
Qed.

(** X17. The duration that [parseTimeout] accepts is the infinite timeout
    or a whole number of seconds, at most 2^32-1 of them: it is never
    another negative number, and the product with [time.Second] does not
    overflow. *)
Theorem parseTimeout_range (s : string) (d : Duration) :
  parseTimeout s = Ok d ->
  d = infiniteTimeout \/
  exists n, 0 <= n <= 2 ^ 32 - 1 /\ d = n * Second /\ 0 <= d < 2 ^ 63.
Proof.
  intros H. destruct (decide (s = "")) as [->|Hs].
  - left. by inversion H.
  - rewrite (parseTimeout_entry s Hs) in H. cbv zeta in H.
    destruct (streq (TrimSpace (first_field s)) "Infinite"); [left; by inversion H|].
    destruct (HasPrefix (TrimSpace (first_field s)) "Second-"); [|done].
    cbn [negb] in H. set (ds := str_drop 7 (TrimSpace (first_field s))) in *.
    destruct (streq ds ""); [done|]. cbn [orb] in H.
    destruct (all_digits ds) eqn:Hall; [|done]. cbn [negb orb] in H.
    destruct (2 ^ 32 - 1 <? decimal ds) eqn:E; [done|]. apply Z.ltb_ge in E.
    inversion H. right. exists (decimal ds).
    pose proof (decimal_nonneg ds Hall). unfold Second. lia.
Qed.

(** X18. A successful [Confirm] followed by its release closure undoes the
    hold: the name index, the token map, the token counter, the entries of
    the queue and the lock of every node are those of the state that the
    sweep of [Confirm] left, and the invariants hold. *)
Theorem Confirm_release_roundtrip (s s2 : memLS) (now : Time)
    (name0 name1 : string) (conds : list Condition) (c : claim) :
  Inv s -> gen s < 2 ^ 62 ->
  Confirm now name0 name1 conds s = Some (Ok c, s2) ->
  exists s1 s3 : memLS,
    collectExpiredNodes now s = Some (tt, s1) /\
    release c s2 = Some (tt, s3) /\ Inv s3 /\
    byName s3 = byName s1 /\ byToken s3 = byToken s1 /\ gen s3 = gen s1 /\
    (forall y, y ∈ byExpiry s3 <-> y ∈ byExpiry s1) /\
    (forall y n, store s1 !! y = Some n ->
       exists n', store s3 !! y = Some n' /\ lock_of n' = lock_of n).
Proof.
  intros HInv Hgen HC.
  destruct (Confirm_result s now name0 name1 conds HInv Hgen)
    as (s1 & r0 & r1 & Hsweep & HInv1 & _ & _ & _ & Hfail & Hsucc).
  cbv zeta in *.
  destruct (decide ((name0 <> "" /\ r0 = None) \/ (name1 <> "" /\ r1 = None)))
    as [Hf|Hf]; [rewrite (Hfail Hf) in HC; inversion HC|].
  destruct (Hsucc Hf)
    as (s2' & HC' & HInv2 & Hg2 & Hbt2 & Hbn2 & Hlen & Hnd & Hin & Hout).
  rewrite HC' in HC. inversion HC. subst s2' c. clear HC.
  match type of Hnd with
  | NoDup (claim_nodes ?c0) => set (c := c0) in *
  end.
  assert (forall x, x ∈ claim_nodes c ->
            exists n, store s2 !! x = Some n /\ held n = true) as Hheld.
  { intros x Hx. destruct (Hin x Hx) as (n & n' & _ & _ & _ & Hhl & _).
    destruct Hhl as (nx & Hnx & Hhx & _). eauto. }
  destruct (release_ok s2 c HInv2 Hnd Hheld)
    as (s3 & Hrun & HInv3 & Hbt3 & Hbn3 & Hg3 & Hrin & Hrout).
  exists s1, s3. split; [done|]. split; [done|]. split; [done|].
  split; [congruence|]. split; [congruence|]. split; [congruence|].
  assert (forall y n, store s1 !! y = Some n ->
            exists n', store s3 !! y = Some n' /\ lock_of n' = lock_of n /\
                       (y ∈ byExpiry s3 <-> y ∈ byExpiry s1)) as Hall.
  { intros y n Hn. destruct (decide (y ∈ claim_nodes c)) as [Hy|Hy].
    - destruct (Hin y Hy) as (n1 & n2 & Hn1 & Hh1 & Htok & Hhl & Hn2 & Hd2 & He2).
      rewrite Hn in Hn1. inversion Hn1. subst n1.
      destruct Hhl as (nx & Hnx & Hhx & Htx & Hbx & _). rewrite Hn2 in Hnx.
      inversion Hnx. subst nx.
      destruct (Inv_token_node s2 _ y HInv2 Hbx) as (_ & _ & _ & Htne).
      destruct (Hrin y n2 Hy Hn2) as (n3 & Hn3 & Hlk & Hq).
      exists n3. split; [done|]. split.
      + rewrite Hlk. unfold lock_of. by rewrite Hd2, Htx, He2, Hh1.
      + rewrite Hq, Hd2.
        pose proof (nk_queued _ _ _ (inv_nodes _ HInv1 _ _ Hn)) as Hqd.
        rewrite Hqd. tauto.
    - destruct (Hout y n Hy Hn) as ((n2 & Hn2 & Hlk2) & Hq2).
      destruct (Hrout y n2 Hy Hn2) as ((n3 & Hn3 & Hlk3) & Hq3).
      exists n3. split; [done|]. split; [congruence|]. by rewrite Hq3. }
  split.
  - intros y. split.
    + intros Hy. destruct (inv_queue _ HInv3) as [Hidx3 _ _].
      pose proof Hy as Hy'. apply list_elem_of_lookup in Hy' as (i & Hi).
      destruct (Hidx3 i y Hi) as (n3 & Hn3 & _).
      pose proof (inv_nodes _ HInv3 _ _ Hn3) as Hok3.
      apply (nk_queued _ _ _ Hok3) in Hy as (Ht3 & _).
      destruct (nk_token _ _ _ Hok3 Ht3) as (Hb3 & _).
      rewrite Hbt3, Hbt2 in Hb3.
      destruct (Inv_token_node s1 _ y HInv1 Hb3) as (n & Hn & _).
      destruct (Hall y n Hn) as (_ & _ & _ & Hq). apply Hq.
      apply list_elem_of_lookup. by exists i.
    + intros Hy. destruct (inv_queue _ HInv1) as [Hidx _ _].
      apply list_elem_of_lookup in Hy as (i & Hi).
      destruct (Hidx i y Hi) as (n & Hn & _).
      destruct (Hall y n Hn) as (_ & _ & _ & Hq). apply Hq.
      apply list_elem_of_lookup. by exists i.
  - intros y n Hn. destruct (Hall y n Hn) as (n' & Hn' & Hlk & _). eauto.
Qed.


(** ** The theorems on a manager with one lock *)

(** The instants of the witnesses lie in the range of [time.Time]. *)
Ltac in_range := unfold time_ok; cbn; lia.

(** A [Create] that the theorem refuses: the sweep leaves the state, and a
    lock of the state stands against the new one. *)
Ltac refused d why :=
  match goal with
  | HInv : Inv ?s, Hg : gen ?s < 2 ^ 62 |- Create ?now d ?s = _ =>
      let H := fresh "H" in
      let s1 := fresh "s1" in
      let Hsw := fresh "Hsw" in
      let Hiff := fresh "Hiff" in
      let E := fresh "E" in
      let En := fresh "En" in
      pose proof (Create_spec s now d HInv Hg) as H;
      destruct H as (s1 & Hsw & Hiff & _);
      assert (collectExpiredNodes now s = Some (tt, s)) as E
        by (vm_compute; reflexivity);
      rewrite E in Hsw; injection Hsw as <-; clear E;
      cbv zeta in Hiff;
      assert (slashClean (Root d) = Root d) as En by (vm_compute; reflexivity);
      rewrite En in Hiff; cbn [Root ZeroDepth] in Hiff;
      apply Hiff; eexists;
      split; [exists 0%nat; split; [vm_compute; reflexivity|cbn; discriminate]|why]
  end.

Lemma Create_spec_witness :
  exists sZ sI : memLS,
    Create 0 (mkLockDetails "/a" (-1) "" true) (NewMemLS 100) = Some (Ok "101", sZ) /\
    Create 0 (mkLockDetails "/a" (-1) "" false) (NewMemLS 100) = Some (Ok "101", sI) /\
    (Inv sZ /\ gen sZ < 2 ^ 62) /\ (Inv sI /\ gen sI < 2 ^ 62) /\
    (exists sB : memLS,
       Create 1 (mkLockDetails "/a/b" 5 "" true) sZ = Some (Ok "102", sB) /\
       Inv sB /\
       (forall zeroDepth, conflicts sB "/a/b" zeroDepth) /\
       conflicts sB "/a" false /\
       exists n, store sB !! 2%nat = Some n /\ expiry n = 1 + 5) /\
    Create 1 (mkLockDetails "/a" 5 "" true) sZ = Some (Err ErrLocked, sZ) /\
    Create 1 (mkLockDetails "/a/b" 5 "" true) sI = Some (Err ErrLocked, sI) /\
    Create 1 (mkLockDetails "/a/c/d" 5 "" true) sI = Some (Err ErrLocked, sI) /\
    Create 1 (mkLockDetails "/" 5 "" false) sZ = Some (Err ErrLocked, sZ).
Proof.
  eexists _, _. split; [vm_compute; reflexivity|]. split; [vm_compute; reflexivity|].
  match goal with
  | |- (Inv ?s /\ _) /\ _ =>
      assert (Inv s /\ gen s < 2 ^ 62) as [HInvZ HgZ];
      [apply (first_lock_Inv 100 0 (mkLockDetails "/a" (-1) "" true) "101");
       [lia|vm_compute; reflexivity]|]
  end.
  split; [exact (conj HInvZ HgZ)|].
  match goal with
  | |- (Inv ?s /\ _) /\ _ =>
      assert (Inv s /\ gen s < 2 ^ 62) as [HInvI HgI];
      [apply (first_lock_Inv 100 0 (mkLockDetails "/a" (-1) "" false) "101");
       [lia|vm_compute; reflexivity]|]
  end.
  split; [exact (conj HInvI HgI)|].
  split; [|split; [|split; [|split]]].
  - match goal with
    | |- exists sB, Create _ _ ?s = _ /\ _ =>
        pose proof (Create_spec s 1 (mkLockDetails "/a/b" 5 "" true) HInvZ HgZ) as H
    end.
    destruct H as (s1 & Hsweep & Hlocked & _ & _ & Hok). cbv zeta in *.
    match type of Hok with ?P -> _ => assert P as Hfree end.
    { intros Hbl. apply Hlocked in Hbl.
      match type of Hbl with
      | ?c = _ => assert (exists sB, c = Some (Ok "102", sB)) as [sB EB]
                    by (eexists; vm_compute; reflexivity)
      end.
      rewrite EB in Hbl. discriminate Hbl. }
    specialize (Hok Hfree).
    destruct Hok as (sB & x & n & Hrun & HInvB & _ & Hbn & Hn & _ & _ & _ & _ & _
                     & Hexp & Hchar).
    assert (slashClean (Root (mkLockDetails "/a/b" 5 "" true)) = "/a/b") as En
      by (vm_compute; reflexivity).
    rewrite En in Hchar. cbn [LDuration ZeroDepth] in Hexp, Hchar.
    exists sB. split.
    { match type of Hrun with
      | _ = Some (Ok ?t, _) => assert (t = "102") as Etok by (vm_compute; reflexivity)
      end.
      rewrite Etok in Hrun. exact Hrun. }
    split; [exact HInvB|]. split; [|split].
    + intros zd. apply Hchar. right; left. reflexivity.
    + apply Hchar. right; right; left. split; [reflexivity|].
      split; [discriminate|]. right. split; [discriminate|]. by exists "b".
    + assert (x = 2%nat) as Ex.
      { match type of Hrun with
        | ?c = _ =>
            let v := eval vm_compute in c in
            assert (c = v) as E by (vm_compute; reflexivity)
        end.
        rewrite E in Hrun. injection Hrun as <-. clear E.
        match type of Hbn with
        | ?l = Some x => assert (l = Some 2%nat) as E2 by (vm_compute; reflexivity)
        end.
        rewrite E2 in Hbn. by injection Hbn as <-. }
      subst x. exists n. split; [exact Hn|].
      apply Hexp; [lia|in_range|in_range].
  - refused (mkLockDetails "/a" 5 "" true) ltac:(left; reflexivity).
  - refused (mkLockDetails "/a/b" 5 "" true)
      ltac:(right; right; split; [reflexivity|];
            split; [discriminate|]; right; split; [discriminate|]; by exists "b").
  - refused (mkLockDetails "/a/c/d" 5 "" true)
      ltac:(right; right; split; [reflexivity|];
            split; [discriminate|]; right; split; [discriminate|]; by exists "c/d").
  - refused (mkLockDetails "/" 5 "" false)
      ltac:(right; left; split; [reflexivity|];
            split; [discriminate|]; left; reflexivity).
Defined.

Lemma Confirm_spec_witness :
  exists sA : memLS,
    Create 0 (mkLockDetails "/a" (-1) "" false) (NewMemLS 100) = Some (Ok "101", sA) /\
    Inv sA /\ gen sA < 2 ^ 62 /\
    (exists c s2,
       Confirm 1 "/a/b" "" [mkCondition false "101" ""] sA = Some (Ok c, s2)) /\
    (forall conds', Token <$> conds' = ["101"] ->
       Confirm 1 "/a/b" "" conds' sA
       = Confirm 1 "/a/b" "" [mkCondition false "101" ""] sA) /\
    exists s1 r0,
      collectExpiredNodes 1 sA = Some (tt, s1) /\
      resolves s1 (slashClean "/a/b") [mkCondition false "101" ""] r0.
Proof.
  eexists. split; [vm_compute; reflexivity|].
  match goal with
  | |- Inv ?s /\ _ =>
      assert (Inv s /\ gen s < 2 ^ 62) as [HInvA HgA];
      [apply (first_lock_Inv 100 0 (mkLockDetails "/a" (-1) "" false) "101");
       [lia|vm_compute; reflexivity]|]
  end.
  do 2 (split; [done|]).
  split; [eexists _, _; vm_compute; reflexivity|].
  match goal with
  | |- (forall conds', _ -> _ = Confirm _ _ _ _ ?s) /\ _ =>
      pose proof (Confirm_spec s 1 "/a/b" "" [mkCondition false "101" ""] HInvA HgA) as H
  end.
  destruct H as (s1 & r0 & r1 & Hsweep & [Hr0 _] & _ & _ & _ & Htok & _).
  split; [exact Htok|]. exists s1, r0. done.
Defined.

Lemma Refresh_Unlock_spec_witness :
  exists sA : memLS,
    Create 0 (mkLockDetails "/a" 10 "" true) (NewMemLS 100) = Some (Ok "101", sA) /\
    Inv sA /\ gen sA < 2 ^ 62 /\
    (exists s', Refresh 1 "101" 20 sA = Some (Ok (mkLockDetails "/a" 20 "" true), s')) /\
    (exists s' s'', Unlock 1 "101" sA = Some (Ok tt, s') /\
                    Unlock 2 "101" s' = Some (Err ErrNoSuchLock, s'')) /\
    exists s1,
      collectExpiredNodes 1 sA = Some (tt, s1) /\
      (byToken s1 !! "101" = None ->
       Refresh 1 "101" 20 sA = Some (Err ErrNoSuchLock, s1)).
Proof.
  eexists. split; [vm_compute; reflexivity|].
  match goal with
  | |- Inv ?s /\ _ =>
      assert (Inv s /\ gen s < 2 ^ 62) as [HInvA HgA];
      [apply (first_lock_Inv 100 0 (mkLockDetails "/a" 10 "" true) "101");
       [lia|vm_compute; reflexivity]|]
  end.
  do 2 (split; [done|]).
  split; [eexists; vm_compute; reflexivity|].
  split; [eexists _, _; split; [vm_compute; reflexivity|vm_compute; reflexivity]|].
  match goal with
  | |- exists s1, collectExpiredNodes _ ?s = _ /\ _ =>
      pose proof (Refresh_Unlock_spec s 1 "101" 20 HInvA HgA) as H
  end.
  destruct H as (s1 & Hsweep & _ & Hcases).
  exists s1. split; [done|]. intros Hnone. rewrite Hnone in Hcases. apply Hcases.
Defined.

Lemma hold_release_spec_witness :
  exists (sA s2 : memLS) (c : claim),
    Create 0 (mkLockDetails "/a" 10 "" true) (NewMemLS 100) = Some (Ok "101", sA) /\
    Inv sA /\ gen sA < 2 ^ 62 /\
    Confirm 1 "/a" "/a" [mkCondition false "101" ""] sA = Some (Ok c, s2) /\
    Inv s2 /\ NoDup (claim_nodes c) /\
    (forall x, x ∈ claim_nodes c -> exists tok, held_lock s2 x tok) /\
    (exists s4, Unlock 2 "101" s2 = Some (Err ErrLocked, s4)) /\
    (exists s4, Confirm 50 "/a" "" [mkCondition false "101" ""] s2
                = Some (Err ErrConfirmationFailed, s4)) /\
    (exists s5 s6, release c s2 = Some (tt, s5) /\
                   Unlock 2 "101" s5 = Some (Ok tt, s6)).
Proof.
  eexists _, _, _. split; [vm_compute; reflexivity|].
  match goal with
  | |- Inv ?s /\ _ =>
      assert (Inv s /\ gen s < 2 ^ 62) as [HInvA HgA];
      [apply (first_lock_Inv 100 0 (mkLockDetails "/a" 10 "" true) "101");
       [lia|vm_compute; reflexivity]|]
  end.
  do 2 (split; [done|]).
  match goal with
  | |- ?E /\ _ => assert E as HC by (vm_compute; reflexivity)
  end.
  split; [exact HC|].
  destruct (hold_release_spec _ _ _ _ _ _ _ HInvA HgA HC) as (HInv2 & Hnd & Hheld & _).
  do 3 (split; [done|]).
  split; [eexists; vm_compute; reflexivity|].
  split; [eexists; vm_compute; reflexivity|].
  eexists _, _. split; [vm_compute; reflexivity|vm_compute; reflexivity].
Defined.

Lemma expiry_spec_witness :
  exists s' : memLS,
    Create 0 (mkLockDetails "/a" 10 "" true) (NewMemLS 100) = Some (Ok "101", s') /\
    Inv s' /\
    (exists s2, GetByName 9 "/a" s'
                = Some (Ok ("101", 10, mkLockDetails "/a" 10 "" true), s2)) /\
    (exists s2, GetByName 10 "/a" s' = Some (Err ErrNoSuchLock, s2)) /\
    (exists s3, Create 10 (mkLockDetails "/a" 10 "" true) s' = Some (Ok "102", s3)).
Proof.
  eexists.
  match goal with
  | |- ?E /\ _ => assert E as HC by (vm_compute; reflexivity)
  end.
  split; [exact HC|].
  assert (gen (NewMemLS 100) + 1 < 2 ^ 62) as Hg0 by (vm_compute; reflexivity).
  assert (0 <= LDuration (mkLockDetails "/a" 10 "" true)) as HD by (cbn; lia).
  destruct (expiry_spec _ _ _ _ _ (Inv_NewMemLS 100) Hg0 HD HC)
    as (_ & _ & HInv' & Hbefore & Hafter & Hrange).
  cbn [LDuration] in Hrange, Hbefore, Hafter.
  rewrite (Hrange ltac:(in_range) ltac:(in_range)) in Hbefore, Hafter.
  split; [done|]. split; [|split].
  - destruct (Hbefore 9 ltac:(cbn; lia)) as (s2 & x & n & _ & _ & _ & _ & _ & _ & _ & HG).
    exists s2. apply (HG "/a"). reflexivity.
  - eexists. vm_compute. reflexivity.
  - destruct (Hafter 10 ltac:(cbn; lia)) as (s2 & _ & _ & _ & _ & _ & _ & HCr).
    destruct (HCr (mkLockDetails "/a" 10 "" true) eq_refl ltac:(done)) as (s3 & HC3).
    exists s3.
    match type of HC3 with
    | _ = Some (Ok ?t, _) => assert (t = "102") as Etok by (vm_compute; reflexivity)
    end.
    rewrite Etok in HC3. exact HC3.
Defined.


(** ** The further properties on a manager with one lock *)

Ltac first_lock d :=
  match goal with
  | |- Inv ?s /\ _ =>
      assert (Inv s /\ gen s < 2 ^ 62) as [HInvA HgA];
      [apply (first_lock_Inv 100 0 d "101"); [lia|vm_compute; reflexivity]|]
  end.

(** The state after some [Create]s that succeed, with its invariants. *)
Ltac next_lock d tok :=
  match goal with
  | HInv : Inv ?s0, Hg : gen ?s0 < 2 ^ 62 |- Create ?now d ?s0 = _ /\ _ =>
      let HC := fresh "HC" in
      let HI := fresh "HInv" in
      let HG := fresh "Hg" in
      let HE := fresh "HE" in
      match goal with
      | |- ?E /\ _ => assert E as HC by (vm_compute; reflexivity)
      end;
      split; [exact HC|];
      destruct (Create_keeps_Inv _ _ now d tok HInv Hg HC) as [HI HE];
      match type of HI with
      | Inv ?s1 => assert (gen s1 < 2 ^ 62) as HG by (vm_compute; reflexivity)
      end;
      clear HE HC
  end.

Lemma heap_Push_spec_witness :
  exists (s1 s2 sQ s' : memLS) (nx : memLSNode),
    Create 0 (mkLockDetails "/a" 30 "" true) (NewMemLS 100) = Some (Ok "101", s1) /\
    Create 0 (mkLockDetails "/b" 20 "" true) s1 = Some (Ok "102", s2) /\
    Create 0 (mkLockDetails "/c" (-1) "" true) s2 = Some (Ok "103", sQ) /\
    queue_wf sQ /\ byExpiry sQ = [2%nat; 0%nat] /\
    store sQ !! 3%nat = Some nx /\ expiry nx = 0 /\ (3%nat ∉ byExpiry sQ) /\
    heap.Push 3%nat sQ = Some (tt, s') /\ queue_wf s' /\
    byExpiry s' = [3%nat; 0%nat; 2%nat] /\
    forall y, y ∈ byExpiry s' <-> y = 3%nat \/ y ∈ byExpiry sQ.
Proof.
  eexists _, _, _, _, _.
  match goal with
  | |- ?E /\ _ => assert E as HC1 by (vm_compute; reflexivity)
  end.
  split; [exact HC1|].
  destruct (first_lock_Inv 100 0 _ _ _ ltac:(lia) HC1) as [HInv1 Hg1]. clear HC1.
  next_lock (mkLockDetails "/b" 20 "" true) "102".
  next_lock (mkLockDetails "/c" (-1) "" true) "103".
  match goal with
  | H : Inv ?s |- queue_wf ?s /\ _ => pose proof (inv_queue _ H) as Hq
  end.
  split; [exact Hq|]. split; [vm_compute; reflexivity|].
  match goal with
  | |- ?E /\ _ => assert E as Hx by (vm_compute; reflexivity)
  end.
  split; [exact Hx|]. split; [reflexivity|].
  match goal with
  | |- ?E /\ _ =>
      assert E as Hnq
        by (vm_compute; intros Hin;
            repeat (apply elem_of_cons in Hin as [Hin|Hin]; [discriminate Hin|]);
            by apply elem_of_nil in Hin)
  end.
  split; [exact Hnq|].
  destruct (heap_Push_spec _ _ _ Hq Hx Hnq) as (s' & Hrun & Hwf & _ & Hmem & _).
  match type of Hrun with
  | ?c = _ =>
      let v := eval vm_compute in c in
      assert (c = v) as E by (vm_compute; reflexivity)
  end.
  rewrite E in Hrun. injection Hrun as <-.
  split; [exact E|]. split; [exact Hwf|]. split; [vm_compute; reflexivity|exact Hmem].
Defined.

Lemma heap_Remove_spec_witness :
  exists (s1 s2 s3 sQ s' : memLS),
    Create 0 (mkLockDetails "/a" 10 "" true) (NewMemLS 100) = Some (Ok "101", s1) /\
    Create 0 (mkLockDetails "/b" 20 "" true) s1 = Some (Ok "102", s2) /\
    Create 0 (mkLockDetails "/c" 30 "" true) s2 = Some (Ok "103", s3) /\
    Create 0 (mkLockDetails "/d" 40 "" true) s3 = Some (Ok "104", sQ) /\
    queue_wf sQ /\ byExpiry sQ = [0%nat; 2%nat; 3%nat; 4%nat] /\
    byExpiry sQ !! 0%nat = Some 0%nat /\
    2 * Z.of_nat (length (byExpiry sQ)) + 1 < 2 ^ 63 /\
    heap.Remove (Z.of_nat 0) sQ = Some (0%nat, s') /\ queue_wf s' /\
    byExpiry s' = [2%nat; 4%nat; 3%nat] /\
    forall y, y ∈ byExpiry s' <-> y ∈ byExpiry sQ /\ y <> 0%nat.
Proof.
  eexists _, _, _, _, _.
  match goal with
  | |- ?E /\ _ => assert E as HC1 by (vm_compute; reflexivity)
  end.
  split; [exact HC1|].
  destruct (first_lock_Inv 100 0 _ _ _ ltac:(lia) HC1) as [HInv1 Hg1]. clear HC1.
  next_lock (mkLockDetails "/b" 20 "" true) "102".
  next_lock (mkLockDetails "/c" 30 "" true) "103".
  next_lock (mkLockDetails "/d" 40 "" true) "104".
  match goal with
  | H : Inv ?s |- queue_wf ?s /\ _ => pose proof (inv_queue _ H) as Hq
  end.
  split; [exact Hq|]. split; [vm_compute; reflexivity|].
  match goal with
  | |- ?E /\ _ => assert E as Hx by (vm_compute; reflexivity)
  end.
  split; [exact Hx|].
  match goal with
  | |- ?E /\ _ => assert E as Hl by (vm_compute; reflexivity)
  end.
  split; [exact Hl|].
  destruct (heap_Remove_spec _ _ _ Hq Hx Hl) as (s' & Hrun & Hwf & _ & Hmem & _).
  match type of Hrun with
  | ?c = _ =>
      let v := eval vm_compute in c in
      assert (c = v) as E by (vm_compute; reflexivity)
  end.
  rewrite E in Hrun. injection Hrun as <-.
  split; [exact E|]. split; [exact Hwf|]. split; [vm_compute; reflexivity|exact Hmem].
Defined.

Lemma create_spec_witness :
  exists sA : memLS,
    Create 0 (mkLockDetails "/a" 10 "" true) (NewMemLS 100) = Some (Ok "101", sA) /\
    Inv sA /\ gen sA < 2 ^ 62 /\ absolute "/a/b" /\
    exists (x : ptr) (sw : memLS),
      create "/a/b" sA = Some (Some x, sw) /\
      byName sw !! "/a/b" = Some x /\ byToken sw = byToken sA.
Proof.
  eexists. split; [vm_compute; reflexivity|].
  first_lock (mkLockDetails "/a" 10 "" true).
  split; [exact HInvA|]. split; [exact HgA|].
  assert (absolute "/a/b") as Ha by reflexivity.
  split; [exact Ha|].
  destruct (create_spec _ _ HInvA HgA Ha) as (x & sw & Hrun & Hx & Hbt & _).
  exists x, sw. split; [exact Hrun|]. split; [exact Hx|exact Hbt].
Defined.

Lemma remove_spec_witness :
  exists (sA : memLS) (nx : memLSNode),
    Create 0 (mkLockDetails "/a" 10 "" true) (NewMemLS 100) = Some (Ok "101", sA) /\
    Inv sA /\ gen sA < 2 ^ 62 /\
    store sA !! 0%nat = Some nx /\ token nx <> "" /\ held nx = false /\
    exists s', remove 0%nat sA = Some (tt, s') /\ Inv s' /\
               byToken s' = delete (token nx) (byToken sA).
Proof.
  eexists _, _. split; [vm_compute; reflexivity|].
  first_lock (mkLockDetails "/a" 10 "" true).
  split; [exact HInvA|]. split; [exact HgA|].
  match goal with
  | |- ?E /\ _ => assert E as Hx by (vm_compute; reflexivity)
  end.
  split; [exact Hx|].
  match goal with
  | |- ?E /\ _ => assert E as Ht by (cbn; discriminate)
  end.
  split; [exact Ht|].
  match goal with
  | |- ?E /\ _ => assert E as Hh by reflexivity
  end.
  split; [exact Hh|].
  destruct (remove_spec _ _ _ HInvA HgA Hx Ht Hh) as (s' & Hrun & HInv' & _ & Hbt & _).
  exists s'. split; [exact Hrun|]. split; [exact HInv'|exact Hbt].
Defined.

Lemma Delete_spec_witness :
  exists sA : memLS,
    Create 0 (mkLockDetails "/a" 10 "" true) (NewMemLS 100) = Some (Ok "101", sA) /\
    Inv sA /\ gen sA < 2 ^ 62 /\
    exists s1,
      collectExpiredNodes 1 sA = Some (tt, s1) /\
      byName s1 !! "/a" = Some 0%nat /\
      exists s', Delete 1 "/a" sA = Some (Ok tt, s') /\
                 Unlock 1 "101" sA = Some (Ok tt, s') /\ Inv s'.
Proof.
  eexists. split; [vm_compute; reflexivity|].
  first_lock (mkLockDetails "/a" 10 "" true).
  split; [exact HInvA|]. split; [exact HgA|].
  match goal with
  | |- exists s1, collectExpiredNodes _ ?s = _ /\ _ =>
      pose proof (Delete_spec s 1 "/a" HInvA HgA) as (s1 & Hsweep & Hm);
      assert (collectExpiredNodes 1 s = Some (tt, s)) as E by (vm_compute; reflexivity)
  end.
  rewrite E in Hsweep. injection Hsweep as <-.
  eexists. split; [exact E|].
  match goal with
  | |- ?E' /\ _ => assert E' as Hn by (vm_compute; reflexivity)
  end.
  split; [exact Hn|].
  rewrite Hn in Hm.
  match type of Hm with
  | forall n, ?st !! _ = _ -> _ =>
      assert (exists n, st !! 0%nat = Some n /\ token n = "101" /\ held n = false)
        as (n & Hx & Ht & Hh)
        by (eexists; split; [vm_compute; reflexivity|split; reflexivity])
  end.
  assert (token n <> "") as Hne by (rewrite Ht; intros Hd; discriminate Hd).
  specialize (Hm n Hx Hne Hh).
  destruct Hm as (s' & HD & HU & HInv' & _).
  rewrite Ht in HU. exists s'. split; [exact HD|]. split; [exact HU|exact HInv'].
Defined.

Lemma exec_returns_witness :
  exists sA : memLS,
    Create 0 (mkLockDetails "/a" 10 "" true) (NewMemLS 100) = Some (Ok "101", sA) /\
    Inv sA /\ gen sA < 2 ^ 62 /\
    exists (r : Reply) (s' : memLS),
      exec 7 (OpRefresh 1 "101" 20) sA = Some (r, s') /\
      Inv s' /\ forall y, node_held s' y <-> node_held sA y.
Proof.
  eexists. split; [vm_compute; reflexivity|].
  first_lock (mkLockDetails "/a" 10 "" true).
  split; [exact HInvA|]. split; [exact HgA|].
  destruct (exec_returns 7 (OpRefresh 1 "101" 20) _ HInvA HgA I)
    as (r & s' & Hrun & HInv' & _ & Hst).
  exists r, s'. split; [exact Hrun|]. split; [exact HInv'|exact Hst].
Defined.

Lemma sweep_again_witness :
  exists sA s1 : memLS,
    Create 0 (mkLockDetails "/a" 10 "" true) (NewMemLS 100) = Some (Ok "101", sA) /\
    Inv sA /\ gen sA < 2 ^ 62 /\
    collectExpiredNodes 20 sA = Some (tt, s1) /\ 5 <= 20 /\
    collectExpiredNodes 5 s1 = Some (tt, s1).
Proof.
  eexists _, _. split; [vm_compute; reflexivity|].
  first_lock (mkLockDetails "/a" 10 "" true).
  split; [exact HInvA|]. split; [exact HgA|].
  match goal with
  | |- ?E /\ _ => assert E as Hrun by (vm_compute; reflexivity)
  end.
  split; [exact Hrun|].
  assert (5 <= 20) as Hle by lia.
  split; [exact Hle|].
  exact (proj2 (sweep_again _ _ _ _ HInvA HgA Hrun Hle)).
Defined.

Lemma infinite_lock_stays_witness :
  exists (sA : memLS) (n : memLSNode),
    Create 0 (mkLockDetails "/a" (-1) "" true) (NewMemLS 100) = Some (Ok "101", sA) /\
    Inv sA /\ gen sA < 2 ^ 62 /\
    store sA !! 0%nat = Some n /\ token n <> "" /\ LDuration (details n) < 0 /\
    exists s1 n1,
      collectExpiredNodes 1000000 sA = Some (tt, s1) /\
      store s1 !! 0%nat = Some n1 /\ lock_of n1 = lock_of n.
Proof.
  eexists _, _. split; [vm_compute; reflexivity|].
  first_lock (mkLockDetails "/a" (-1) "" true).
  split; [exact HInvA|]. split; [exact HgA|].
  match goal with
  | |- ?E /\ _ => assert E as Hx by (vm_compute; reflexivity)
  end.
  split; [exact Hx|].
  match goal with
  | |- ?E /\ _ => assert E as Ht by (cbn; discriminate)
  end.
  split; [exact Ht|].
  match goal with
  | |- ?E /\ _ => assert E as Hd by (cbn; lia)
  end.
  split; [exact Hd|].
  destruct (infinite_lock_stays _ _ _ 1000000 HInvA HgA Hx Ht Hd)
    as (_ & s1 & n1 & Hsw & Hn1 & Hl & _).
  exists s1, n1. split; [exact Hsw|]. split; [exact Hn1|exact Hl].
Defined.

Lemma release_once_witness :
  exists (sA s2 s3 : memLS) (c : claim),
    Create 0 (mkLockDetails "/a" 10 "" true) (NewMemLS 100) = Some (Ok "101", sA) /\
    Inv sA /\ gen sA < 2 ^ 62 /\
    exec 1 (OpConfirm 1 "/a" "" [mkCondition false "101" ""]) sA
      = Some (RConfirm (Ok c), s2) /\
    Inv s2 /\ NoDup (claim_nodes c) /\ claim_nodes c <> [] /\
    (forall x, x ∈ claim_nodes c -> node_held s2 x) /\
    release c s2 = Some (tt, s3) /\ Inv s3 /\
    (forall x, x ∈ claim_nodes c -> ~ node_held s3 x) /\
    release c s3 = None.
Proof.
  eexists _, _, _, _. split; [vm_compute; reflexivity|].
  first_lock (mkLockDetails "/a" 10 "" true).
  split; [exact HInvA|]. split; [exact HgA|].
  match goal with
  | |- ?E /\ _ => assert E as HC by (vm_compute; reflexivity)
  end.
  split; [exact HC|].
  pose proof (Inv_exec 1 (OpConfirm 1 "/a" "" [mkCondition false "101" ""])
                _ _ _ HInvA HgA I HC) as HInv2.
  split; [exact HInv2|].
  assert (NoDup (claim_nodes (Some 0%nat, None))) as Hnd
    by (cbn; apply NoDup_singleton).
  split; [exact Hnd|].
  assert (claim_nodes (Some 0%nat, None) <> []) as Hne by (cbn; discriminate).
  split; [exact Hne|].
  destruct (release_once _ _ HInv2 Hnd) as [Hiff Hafter].
  match goal with
  | |- ?E /\ _ => assert E as Hheld
  end.
  { apply Hiff. intros Hn.
    match type of Hn with
    | ?c = None => assert (exists r, c = Some r) as [r Er]
                     by (eexists; vm_compute; reflexivity)
    end.
    rewrite Er in Hn. discriminate Hn. }
  split; [exact Hheld|].
  match goal with
  | |- ?E /\ _ => assert E as Hrun by (vm_compute; reflexivity)
  end.
  split; [exact Hrun|].
  destruct (Hafter _ Hrun) as (HInv3 & Hfree & Hagain).
  split; [exact HInv3|]. split; [exact Hfree|exact (Hagain Hne)].
Defined.

Lemma Create_Unlock_roundtrip_witness :
  exists s' : memLS,
    Create 0 (mkLockDetails "/a" 10 "" true) (NewMemLS 100) = Some (Ok "101", s') /\
    exists s1 s'' : memLS,
      collectExpiredNodes 0 (NewMemLS 100) = Some (tt, s1) /\
      Unlock 0 "101" s' = Some (Ok tt, s'') /\
      Inv s'' /\ byName s'' = byName s1 /\ byToken s'' = byToken s1.
Proof.
  eexists.
  match goal with
  | |- ?E /\ _ => assert E as HC by (vm_compute; reflexivity)
  end.
  split; [exact HC|].
  assert (gen (NewMemLS 100) + 1 < 2 ^ 62) as Hg0 by (vm_compute; reflexivity).
  assert (LDuration (mkLockDetails "/a" 10 "" true) <> 0) as HD by (cbn; lia).
  assert (0 < LDuration (mkLockDetails "/a" 10 "" true) ->
          time_ok 0 /\ time_ok (0 + LDuration (mkLockDetails "/a" 10 "" true))) as HR
    by (intros _; split; unfold time_ok; cbn; lia).
  destruct (Create_Unlock_roundtrip _ _ _ _ _ (Inv_NewMemLS 100) Hg0 HD HR HC)
    as (s1 & s'' & Hsw & HU & HInv'' & _ & Hbn & Hbt & _).
  exists s1, s''. split; [exact Hsw|]. split; [exact HU|].
  split; [exact HInv''|]. split; [exact Hbn|exact Hbt].
Defined.

Lemma walkToRoot_levels_witness :
  absolute "/a/b" /\
  NoDup ("/a/b" :: ancestors "/a/b") /\
  (forall k, k ∈ ancestors "/a/b" <->
             "/a/b" <> "/" /\ (k = "/" \/ (k <> "" /\ is_prefix (k +:+ "/") "/a/b"))) /\
  forall s, walkToRoot "/a/b" create_visitor None s
            = (r <- walk_visit create_visitor ("/a/b" :: ancestors "/a/b") true None ;;
               ret (true, r)) s.
Proof.
  assert (absolute "/a/b") as Ha by reflexivity.
  split; [exact Ha|].
  destruct (walkToRoot_levels "/a/b" Ha) as (Hanc & Hnd & _ & Hwalk & _).
  split; [exact Hnd|]. split; [exact Hanc|].
  intros s. apply Hwalk. intros k fst0 acc0 s0 r s1. apply create_visitor_true.
Defined.

Lemma covering_lock_unique_witness :
  exists (sA : memLS) (n : memLSNode),
    Create 0 (mkLockDetails "/a" 10 "" false) (NewMemLS 100) = Some (Ok "101", sA) /\
    Inv sA /\ absolute "/a/b" /\
    store sA !! 0%nat = Some n /\ token n <> "" /\
    ZeroDepth (details n) = false /\ Root (details n) ∈ ancestors "/a/b" /\
    matches "/a/b" n /\
    forall (b : ptr) (nb : memLSNode),
      store sA !! b = Some nb -> token nb <> "" -> matches "/a/b" nb -> b = 0%nat.
Proof.
  eexists _, _. split; [vm_compute; reflexivity|].
  first_lock (mkLockDetails "/a" 10 "" false).
  split; [exact HInvA|].
  assert (absolute "/a/b") as Ha by reflexivity.
  split; [exact Ha|].
  match goal with
  | |- ?E /\ _ => assert E as Hx by (vm_compute; reflexivity)
  end.
  split; [exact Hx|].
  match goal with
  | |- ?E /\ _ => assert E as Ht by (cbn; discriminate)
  end.
  split; [exact Ht|].
  match goal with
  | |- ?E /\ _ => assert E as Hz by reflexivity
  end.
  split; [exact Hz|].
  match goal with
  | |- ?E /\ _ => assert E as Hanc by (vm_compute; left)
  end.
  split; [exact Hanc|].
  destruct (covering_lock_unique _ "/a/b" _ _ HInvA Ha Hx Ht) as [Hiff Huniq].
  pose proof (proj2 Hiff (or_intror (conj Hz Hanc))) as Hm.
  split; [exact Hm|exact (Huniq Hm)].
Defined.

Lemma Confirm_token_set_witness :
  exists sA : memLS,
    Create 0 (mkLockDetails "/a" 10 "" true) (NewMemLS 100) = Some (Ok "101", sA) /\
    Inv sA /\ gen sA < 2 ^ 62 /\
    (forall t, t ∈ (Token <$> [mkCondition false "101" ""; mkCondition true "7" "e";
                               mkCondition false "101" ""])
               <-> t ∈ (Token <$> [mkCondition false "7" ""; mkCondition false "101" ""])) /\
    Confirm 1 "/a" "" [mkCondition false "101" ""; mkCondition true "7" "e";
                       mkCondition false "101" ""] sA
    = Confirm 1 "/a" "" [mkCondition false "7" ""; mkCondition false "101" ""] sA.
Proof.
  eexists. split; [vm_compute; reflexivity|].
  first_lock (mkLockDetails "/a" 10 "" true).
  split; [exact HInvA|]. split; [exact HgA|].
  match goal with
  | |- ?E /\ _ => assert E as Hset by (intros t; cbn; set_unfold; tauto)
  end.
  split; [exact Hset|].
  exact (Confirm_token_set _ 1 "/a" "" _ _ HInvA HgA Hset).
Defined.

Lemma GetByName_spec_witness :
  exists sA : memLS,
    Create 0 (mkLockDetails "/a" 10 "" true) (NewMemLS 100) = Some (Ok "101", sA) /\
    Inv sA /\ gen sA < 2 ^ 62 /\
    exists s1 : memLS,
      collectExpiredNodes 5 sA = Some (tt, s1) /\
      GetByName 5 "/a/b/c" sA =
        Some (match nearest_lock s1 (walkPath (slashClean "/a/b/c")) with
              | Some n => Ok (token n, expiry n, details n)
              | None => Err ErrNoSuchLock
              end, s1).
Proof.
  eexists. split; [vm_compute; reflexivity|].
  first_lock (mkLockDetails "/a" 10 "" true).
  split; [exact HInvA|]. split; [exact HgA|].
  destruct (GetByName_spec _ 5 "/a/b/c" HInvA HgA) as (s1 & Hsw & _ & Hrun & _).
  exists s1. split; [exact Hsw|exact Hrun].
Defined.

(** One call of a run on a state that is known. *)
Ltac protocol_call :=
  cbn [protocol];
  split;
  [cbn [allowed]; try exact I
  |let r := fresh "r" in
   let s' := fresh "s" in
   let H := fresh "H" in
   intros r s' H;
   match type of H with
   | ?e = Some _ =>
       let v := eval vm_compute in e in
       let E := fresh "E" in
       assert (e = v) as E by (vm_compute; reflexivity);
       rewrite E in H; clear E; injection H as <- <-
   end;
   cbn [next_claims]].

Lemma run_protocol_witness :
  0 <= 100 /\
  protocol []
    [(0, OpCreate 0 (mkLockDetails "/a" 10 "" true));
     (1, OpConfirm 1 "/a" "" [mkCondition false "101" ""]);
     (2, OpRelease (Some 0%nat, None));
     (3, OpUnlock 3 "101")] (NewMemLS 100) /\
  exists (rs : list Reply) (s' : memLS),
    run [(0, OpCreate 0 (mkLockDetails "/a" 10 "" true));
         (1, OpConfirm 1 "/a" "" [mkCondition false "101" ""]);
         (2, OpRelease (Some 0%nat, None));
         (3, OpUnlock 3 "101")] (NewMemLS 100) = Some (rs, s') /\
    length rs = 4%nat /\ Inv s'.
Proof.
  assert (0 <= 100) as H0 by lia.
  split; [exact H0|].
  match goal with
  | |- ?P /\ _ => assert P as Hp
  end.
  { protocol_call. protocol_call. protocol_call; [by left|]. protocol_call. exact I. }
  split; [exact Hp|].
  assert (100 + Z.of_nat (length
            [(0, OpCreate 0 (mkLockDetails "/a" 10 "" true));
             (1, OpConfirm 1 "/a" "" [mkCondition false "101" ""]);
             (2, OpRelease (Some 0%nat, None));
             (3, OpUnlock 3 "101")]) < 2 ^ 62) as Hg by (vm_compute; reflexivity).
  destruct (run_protocol 100 _ H0 Hg Hp) as (rs & s' & Hrun & Hlen & HInv' & _).
  exists rs, s'. split; [exact Hrun|]. split; [exact Hlen|exact HInv'].
Defined.

Lemma tokens_never_reused_witness :
  exists (s1 s2 s3 : memLS) (rs : list Reply),
    Create 0 (mkLockDetails "/a" 10 "" true) (NewMemLS 100) = Some (Ok "101", s1) /\
    claims_held [] s1 /\
    protocol [] [(1, OpUnlock 1 "101")] s1 /\
    run [(1, OpUnlock 1 "101")] s1 = Some (rs, s2) /\
    Create 2 (mkLockDetails "/a" 10 "" true) s2 = Some (Ok "102", s3) /\
    "102" <> "101".
Proof.
  eexists _, _, _, _.
  match goal with
  | |- ?E /\ _ => assert E as HC by (vm_compute; reflexivity)
  end.
  split; [exact HC|].
  match goal with
  | |- claims_held [] ?s /\ _ => assert (claims_held [] s) as Hout
  end.
  { split; [apply NoDup_nil_2|]. intros y Hy. by apply elem_of_nil in Hy. }
  split; [exact Hout|].
  match goal with
  | |- ?P /\ _ => assert P as Hp
  end.
  { protocol_call. exact I. }
  split; [exact Hp|].
  match goal with
  | |- ?E /\ _ => assert E as Hrun by (vm_compute; reflexivity)
  end.
  split; [exact Hrun|].
  match goal with
  | |- ?E /\ _ => assert E as HC' by (vm_compute; reflexivity)
  end.
  split; [exact HC'|].
  assert (gen (NewMemLS 100) + Z.of_nat (length [(1, OpUnlock 1 "101")]) + 2 < 2 ^ 62)
    as Hg by (vm_compute; reflexivity).
  exact (proj1 (tokens_never_reused _ _ _ _ _ _ _ _ _ _ _ _ _
                  (Inv_NewMemLS 100) Hg HC Hout Hp Hrun HC')).
Defined.

Lemma parseTimeout_range_witness :
  parseTimeout "Second-120, Infinite" = Ok (120 * Second) /\
  (120 * Second = infiniteTimeout \/
   exists n, 0 <= n <= 2 ^ 32 - 1 /\ 120 * Second = n * Second /\
             0 <= 120 * Second < 2 ^ 63).
Proof.
  assert (parseTimeout "Second-120, Infinite" = Ok (120 * Second)) as H
    by (vm_compute; reflexivity).
  split; [exact H|]. exact (parseTimeout_range _ _ H).
Defined.

Lemma Confirm_release_roundtrip_witness :
  exists (sA s2 : memLS) (c : claim),
    Create 0 (mkLockDetails "/a" 10 "" true) (NewMemLS 100) = Some (Ok "101", sA) /\
    Inv sA /\ gen sA < 2 ^ 62 /\
    Confirm 1 "/a" "" [mkCondition false "101" ""] sA = Some (Ok c, s2) /\
    exists s1 s3 : memLS,
      collectExpiredNodes 1 sA = Some (tt, s1) /\
      release c s2 = Some (tt, s3) /\ Inv s3 /\
      byName s3 = byName s1 /\ byToken s3 = byToken s1.
Proof.
  eexists _, _, _. split; [vm_compute; reflexivity|].
  first_lock (mkLockDetails "/a" 10 "" true).
  split; [exact HInvA|]. split; [exact HgA|].
  match goal with
  | |- ?E /\ _ => assert E as HC by (vm_compute; reflexivity)
  end.
  split; [exact HC|].
  destruct (Confirm_release_roundtrip _ _ _ _ _ _ _ HInvA HgA HC)
    as (s1 & s3 & Hsw & Hrel & HInv3 & Hbn & Hbt & _).
  exists s1, s3. split; [exact Hsw|]. split; [exact Hrel|].
  split; [exact HInv3|]. split; [exact Hbn|exact Hbt].
Defined.

